(** * The rule index of package resolve (resolve/index.go)

    A shallow embedding of [RuleIndex]: registration ([AddRule]), the
    embed-closure pass and the construction of the import index ([Finish]),
    the queries ([FindRulesByImport], [FindRulesByImportWithConfig]) and the
    test [IsSelfImport] on their results.

    Go pointers to rule records are positions in [ix.rules]: a record is
    allocated exactly when it is appended to that slice, so the slice is the
    heap and the i-th pointer is the number [i].  All mutation of records goes
    through that store, which keeps the aliasing of the source (the same
    record reached through [ix.rules], through [ix.labelMap] and through the
    buckets of [ix.importMap]).

    The slices a provider returns are kept as Go keeps them: a record holds
    a slice header (array, offset, length, capacity), and the arrays are part
    of the state.  [append] writes in place when the capacity allows, into
    an array that other slices may share, and otherwise moves the slice to a
    new array.  The loop over the embed labels reads each label from the
    array when its iteration starts.  The slices that the index builds for
    itself ([ix.rules], the buckets of [ix.importMap], the results of a query)
    are referenced from the index only; they are lists.

    A nil slice of imports is [None].  The methods of a provider and the
    provider lookup are functions, and a provider does not write to an array
    after it has returned a slice of it.  [collectEmbeds] recurses on the
    index it mutates; its embedding takes the depth of recursion it may use,
    and a depth above the number of records is always enough.

    The second half of the file works on the index as its records read, each
    slice replaced by its contents ([Module Flat]), and relates the two when
    the slices of the providers do not interfere. *)

From stdpp Require Import base option list strings gmap relations.

(** ** Package label *)

(** Modelled from the spec: package label is not under src/.  A label is an
    address with repository, package and name components; a relative label is
    resolved against a base repository and package by [Abs], an absolute one
    is left alone.  [New] builds an absolute label. *)
Module label.

Record Label := mk {
  Repo : string;
  Pkg : string;
  Name : string;
  Relative : bool
}.

Definition New (repo pkg name : string) : Label :=
  {| Repo := repo; Pkg := pkg; Name := name; Relative := false |}.

Definition Abs (l : Label) (repo pkg : string) : Label :=
  if Relative l then
    {| Repo := repo; Pkg := pkg; Name := Name l; Relative := false |}
  else l.

#[global] Instance Label_eq_dec : EqDecision Label.
Proof. solve_decision. Defined.

#[global] Instance Label_countable : Countable Label.
Proof.
  refine (inj_countable'
            (fun l => (Repo l, Pkg l, Name l, Relative l))
            (fun t => match t with (a, b, c, d) => mk a b c d end) _).
  by intros [].
Defined.

(** Modelled from the spec: label equality is structural, two labels are
    equal when all their components are. *)
Definition Equal (l other : Label) : bool := bool_decide (l = other).

End label.

(** ** Packages config and rule

    [config.Config], [rule.Rule] and [rule.File] are declared outside
    src/; the index only reads [c.RepoName], [c.Langs], [r.Name()] and
    [f.Pkg], and hands the values to the language extensions.  They are
    parameters of the development. *)
Class Collaborators := {
  Config : Type;
  Rule : Type;
  File : Type;
  RepoName : Config → string;
  Langs : Config → list string;
  RuleName : Rule → string;
  FilePkg : File → string
}.

(** ** ImportSpec *)

Record ImportSpec := { Lang : string; Imp : string }.

#[global] Instance ImportSpec_eq_dec : EqDecision ImportSpec.
Proof. solve_decision. Defined.

#[global] Instance ImportSpec_countable : Countable ImportSpec.
Proof.
  refine (inj_countable' (fun i => (Lang i, Imp i))
            (fun t => match t with (a, b) => {| Lang := a; Imp := b |} end) _).
  by intros [].
Defined.

(** ** FindResult *)

(** [Embeds] is the contents of [m.embeds] when the result is made.  A
    result shares the array of [m.embeds]; the index appends to the slices of
    its records only in the closure pass of [Finish], and results exist only
    once that pass has set every closure flag, after which it appends
    nothing. *)
Module FindResult.
Record t := mk { Label : label.Label; Embeds : list label.Label }.
End FindResult.

(** ** Outcomes of a call

    A call returns normally, panics (the state at the panic is kept, so
    that what a panicking call did can be stated), or, for the recursive
    closure pass, exhausts the recursion budget of the model. *)
Inductive result (S : Type) : Type :=
| Ok (s : S)
| Panic (msg : string) (s : S)
| OutOfFuel.
Arguments Ok {S} s.
Arguments Panic {S} msg s.
Arguments OutOfFuel {S}.

Definition bind {S : Type} (m : result S) (k : S → result S) : result S :=
  match m with
  | Ok s => k s
  | Panic msg s => Panic msg s
  | OutOfFuel => OutOfFuel
  end.

Notation "'let*' s := m 'in' k" := (bind m (fun s => k))
  (at level 10, s name, m at level 100, k at level 200).

(** [for _, a := range l { f a }] over a state. *)
Fixpoint forEach {A S : Type} (f : A → S → result S) (l : list A) (s : S)
  : result S :=
  match l with
  | [] => Ok s
  | a :: l' => let* s1 := f a s in forEach f l' s1
  end.

Definition nilDeref : string :=
  "runtime error: invalid memory address or nil pointer dereference".

(** Lines written through package log. *)
Inductive LogLine :=
| Printf (format : string) (arg : label.Label)
| Panicf (format : string).

(** ** Slices

    A slice is a window on an array: [arr] is the array (its position among
    the arrays of its element type), [off] the position in the array of the
    first element of the slice, [len] and [cap] its length and capacity.
    The nil slice has length and capacity zero. *)
Record slice := { arr : nat; off : nat; len : nat; cap : nat }.

Definition nilSlice : slice := {| arr := 0; off := 0; len := 0; cap := 0 |}.

#[global] Instance slice_eq_dec : EqDecision slice.
Proof. solve_decision. Defined.

Section Slices.
Context {X : Type}.
Implicit Types (h : list (list X)) (s : slice) (xs : list X).

(** The elements of [s], as the arrays [h] hold them. *)
Definition contents h s : list X :=
  take (len s) (drop (off s) (h !!! arr s)).

(** [s[i]].  In Go a slice lies within its array, so the cell exists. *)
Definition elemAt h s (i : nat) : option X := (h !!! arr s) !! (off s + i).

(** The arrays after [xs] has been written behind the last element of [s]. *)
Definition store h s xs : list (list X) :=
  alter (fun a => take (off s + len s) a ++ xs
                  ++ drop (off s + len s + length xs) a)
        (arr s) h.

(** [append(s, xs...)]: the arrays afterwards and the slice returned.  When
    the capacity of [s] is enough the elements are written in place, into
    cells of the array of [s] that another slice may hold too.  Otherwise the
    elements of [s] and [xs] go to a new array.  The capacity the runtime
    gives the new array is not modelled: the code stores the slice returned
    in the field it appended to and nowhere else, so no other slice refers
    to the new array, and whether a later append to it is done in place
    cannot be observed. *)
Definition append h s xs : list (list X) * slice :=
  if decide (len s + length xs ≤ cap s) then
    (store h s xs,
     {| arr := arr s; off := off s; len := len s + length xs; cap := cap s |})
  else
    (h ++ [contents h s ++ xs],
     {| arr := length h; off := 0;
        len := len s + length xs; cap := len s + length xs |}).

End Slices.

Section Index.
Context `{Collaborators}.

(** ** Resolver and CrossResolver *)

(** [Imports] returns [None] for a nil slice and [Some s] for any non-nil
    slice, the empty one included.  [Resolve] is not called by the index. *)
Record Resolver := {
  Name : string;
  Imports : Config → Rule → File → option slice;
  Embeds : Rule → label.Label → slice
}.

(** A CrossResolver receives the index itself; what it can do with it in the
    query phase is to query it, so it is given the index's
    [FindRulesByImport]. *)
Definition CrossResolver : Type :=
  Config → (ImportSpec → string → list FindResult.t) →
  ImportSpec → string → list FindResult.t.

(** ** ruleRecord and RuleIndex *)

Record ruleRecord := {
  rule : Rule;
  label : label.Label;
  file : File;
  importedAs : slice;
  embeds : slice;
  embedded : bool;
  didCollectEmbeds : bool;
  lang : string
}.

Definition with_importedAs (v : slice) (r : ruleRecord) :=
  {| rule := rule r; label := label r; file := file r; importedAs := v;
     embeds := embeds r; embedded := embedded r;
     didCollectEmbeds := didCollectEmbeds r; lang := lang r |}.

Definition with_embeds (v : slice) (r : ruleRecord) :=
  {| rule := rule r; label := label r; file := file r;
     importedAs := importedAs r; embeds := v; embedded := embedded r;
     didCollectEmbeds := didCollectEmbeds r; lang := lang r |}.

Definition with_embedded (v : bool) (r : ruleRecord) :=
  {| rule := rule r; label := label r; file := file r;
     importedAs := importedAs r; embeds := embeds r; embedded := v;
     didCollectEmbeds := didCollectEmbeds r; lang := lang r |}.

Definition with_didCollectEmbeds (v : bool) (r : ruleRecord) :=
  {| rule := rule r; label := label r; file := file r;
     importedAs := importedAs r; embeds := embeds r; embedded := embedded r;
     didCollectEmbeds := v; lang := lang r |}.

(** The last two fields are not fields of the Go struct.  They are the
    arrays, in the heap of the process, that the slices of the providers and
    of the records point into: [specArrays] those of ImportSpecs,
    [labelArrays] those of labels.  They are kept with the index so that an
    operation on the index is a function of one state. *)
Record RuleIndex := {
  rules : list ruleRecord;
  labelMap : gmap label.Label nat;
  importMap : gmap ImportSpec (list nat);
  mrslv : Rule → string → option Resolver;
  crossResolvers : list CrossResolver;
  didFinish : bool;
  specArrays : list (list ImportSpec);
  labelArrays : list (list label.Label)
}.

Definition with_rules (v : list ruleRecord) (ix : RuleIndex) :=
  {| rules := v; labelMap := labelMap ix; importMap := importMap ix;
     mrslv := mrslv ix; crossResolvers := crossResolvers ix;
     didFinish := didFinish ix;
     specArrays := specArrays ix; labelArrays := labelArrays ix |}.

Definition with_specArrays (v : list (list ImportSpec)) (ix : RuleIndex) :=
  {| rules := rules ix; labelMap := labelMap ix; importMap := importMap ix;
     mrslv := mrslv ix; crossResolvers := crossResolvers ix;
     didFinish := didFinish ix;
     specArrays := v; labelArrays := labelArrays ix |}.

Definition with_labelArrays (v : list (list label.Label)) (ix : RuleIndex) :=
  {| rules := rules ix; labelMap := labelMap ix; importMap := importMap ix;
     mrslv := mrslv ix; crossResolvers := crossResolvers ix;
     didFinish := didFinish ix;
     specArrays := specArrays ix; labelArrays := v |}.

(** [p.field = ...] on the record that pointer [p] addresses. *)
Definition modify (p : nat) (f : ruleRecord → ruleRecord) (ix : RuleIndex) :=
  with_rules (alter f p (rules ix)) ix.

(** What [rec.importedAs] and [rec.embeds] read in the state [ix]. *)
Definition importsOf (ix : RuleIndex) (rec : ruleRecord) : list ImportSpec :=
  contents (specArrays ix) (importedAs rec).

Definition embedsOf (ix : RuleIndex) (rec : ruleRecord) : list label.Label :=
  contents (labelArrays ix) (embeds rec).

(** The process state: the index and what was written to the log. *)
Record World := { index : RuleIndex; logged : list LogLine }.

(** An operation on the index, as an operation on the process state. *)
Definition lift (f : RuleIndex → result RuleIndex) (w : World) : result World :=
  match f (index w) with
  | Ok ix => Ok {| index := ix; logged := logged w |}
  | Panic msg ix => Panic msg {| index := ix; logged := logged w |}
  | OutOfFuel => OutOfFuel
  end.

(** ** NewRuleIndex *)

(** An extension either implements CrossResolver or does not (the type
    assertion [e.(CrossResolver)]).  The last two arguments are the arrays
    that exist when the index is created. *)
Definition NewRuleIndex (mrslv : Rule → string → option Resolver)
    (exts : list (option CrossResolver))
    (specs : list (list ImportSpec)) (labels : list (list label.Label))
  : World :=
  {| index := {| rules := []; labelMap := ∅; importMap := ∅; mrslv := mrslv;
                 crossResolvers := omap id exts; didFinish := false;
                 specArrays := specs; labelArrays := labels |};
     logged := [] |}.

(** ** passesLanguageFilter *)

Fixpoint rangeHas (langFilter : list string) (langName : string) : bool :=
  match langFilter with
  | [] => false
  | l :: rest => if decide (l = langName) then true else rangeHas rest langName
  end.

Definition passesLanguageFilter (langFilter : list string) (langName : string)
  : bool :=
  if decide (length langFilter = 0) then true else rangeHas langFilter langName.

(** ** AddRule *)

Definition panicAfterFinish : string :=
  ".AddRule must not be called after .Finish".
Definition multipleRules : string :=
  "multiple rules found with label %s".

(** The language name and the imports computed at the head of [AddRule]. *)
Definition langAndImports (ix : RuleIndex) (c : Config) (r : Rule) (f : File)
  : string * option slice :=
  match mrslv ix r (FilePkg f) with
  | Some rslv =>
      let lang := Name rslv in
      if passesLanguageFilter (Langs c) lang
      then (lang, Imports rslv c r f)
      else (lang, None)
  | None => (EmptyString, None)
  end.

Definition newRecord (c : Config) (r : Rule) (f : File)
    (imps : slice) (lang : string) : ruleRecord :=
  {| rule := r;
     label := label.New (RepoName c) (FilePkg f) (RuleName r);
     file := f;
     importedAs := imps;
     embeds := nilSlice;
     embedded := false;
     didCollectEmbeds := false;
     lang := lang |}.

Definition AddRule (c : Config) (r : Rule) (f : File) (w : World)
  : result World :=
  let ix := index w in
  if didFinish ix then
    Panic panicAfterFinish
      {| index := ix; logged := logged w ++ [Panicf panicAfterFinish] |}
  else
    match langAndImports ix c r f with
    | (_, None) => Ok w
    | (lang, Some imps) =>
        let record := newRecord c r f imps lang in
        match labelMap ix !! label record with
        | Some _ =>
            Ok {| index := ix;
                  logged := logged w ++ [Printf multipleRules (label record)] |}
        | None =>
            Ok {| index :=
                    {| rules := rules ix ++ [record];
                       labelMap := <[label record := length (rules ix)]> (labelMap ix);
                       importMap := importMap ix;
                       mrslv := mrslv ix;
                       crossResolvers := crossResolvers ix;
                       didFinish := didFinish ix;
                       specArrays := specArrays ix;
                       labelArrays := labelArrays ix |};
                  logged := logged w |}
        end
    end.

(** A sequence of [AddRule] calls. *)
Definition AddRules (calls : list (Config * Rule * File)) (w : World)
  : result World :=
  forEach (fun '(c, r, f) => AddRule c r f) calls w.

(** ** findRuleByLabel *)

Definition findRuleByLabel (ix : RuleIndex) (l from : label.Label)
  : option nat :=
  labelMap ix !! label.Abs l (label.Repo from) (label.Pkg from).

(** ** collectEmbeds *)

(** [r.embeds = append(r.embeds, er.embeds...)]: the elements of
    [er.embeds] are read, then written. *)
Definition appendEmbeds (r er : nat) (ix : RuleIndex) : RuleIndex :=
  match rules ix !! r, rules ix !! er with
  | Some rRec, Some erRec =>
      let res := append (labelArrays ix) (embeds rRec) (embedsOf ix erRec) in
      modify r (with_embeds res.2) (with_labelArrays res.1 ix)
  | _, _ => ix
  end.

(** [r.importedAs = append(r.importedAs, er.importedAs...)] *)
Definition appendImportedAs (r er : nat) (ix : RuleIndex) : RuleIndex :=
  match rules ix !! r, rules ix !! er with
  | Some rRec, Some erRec =>
      let res := append (specArrays ix) (importedAs rRec) (importsOf ix erRec) in
      modify r (with_importedAs res.2) (with_specArrays res.1 ix)
  | _, _ => ix
  end.

(** The part of the loop body of [collectEmbeds] after the recursive call:
    [r] is the embedding record, [er] the embedded one.  Every field is read
    from the store when the statement that reads it runs, so [r] and [er]
    may be the same record. *)
Definition absorb (resolver : Resolver) (r er : nat) (ix : RuleIndex)
  : result RuleIndex :=
  match rules ix !! er with
  | None => Panic nilDeref ix
  | Some erRec =>
      match mrslv ix (rule erRec) (FilePkg (file erRec)) with
      | None => Panic nilDeref ix
      | Some erResolver =>
          let ix1 :=
            if decide (Name resolver = Name erResolver) then
              appendEmbeds r er (modify er (with_embedded true) ix)
            else ix in
          Ok (appendImportedAs r er ix1)
      end
  end.

(** The iteration of the loop over [embedLabels] at position [i]: the label
    is read from the array of [embedLabels] when the iteration starts;
    [collect] is the recursive call, [from] is [r.label]. *)
Definition embedStep (collect : nat → RuleIndex → result RuleIndex)
    (resolver : Resolver) (r : nat) (from : label.Label)
    (embedLabels : slice) (i : nat) (ix : RuleIndex) : result RuleIndex :=
  match elemAt (labelArrays ix) embedLabels i with
  | None => Ok ix
  | Some e =>
      match findRuleByLabel ix e from with
      | None => Ok ix
      | Some er =>
          let* ix' := collect er ix in
          absorb resolver r er ix'
      end
  end.

(** [r.didCollectEmbeds = true] followed by [r.embeds = embedLabels]. *)
Definition enter (r : nat) (embedLabels : slice) (ix : RuleIndex)
  : RuleIndex :=
  modify r (with_embeds embedLabels) (modify r (with_didCollectEmbeds true) ix).

(** [fuel] bounds the depth of the recursion.  A position outside the store
    stands for a nil record pointer; the label map of an index built by
    [AddRule] holds no such position.  The loop runs over the positions of
    [embedLabels], whose length is fixed when the loop starts. *)
Fixpoint collectEmbeds (fuel : nat) (r : nat) (ix : RuleIndex)
  : result RuleIndex :=
  match fuel with
  | 0 => OutOfFuel
  | S fuel' =>
      match rules ix !! r with
      | None => Panic nilDeref ix
      | Some rec =>
          if didCollectEmbeds rec then Ok ix
          else
            match mrslv ix (rule rec) (FilePkg (file rec)) with
            | None => Panic nilDeref (modify r (with_didCollectEmbeds true) ix)
            | Some resolver =>
                let embedLabels := Embeds resolver (rule rec) (label rec) in
                forEach (embedStep (collectEmbeds fuel') resolver r (label rec)
                           embedLabels)
                        (seq 0 (len embedLabels)) (enter r embedLabels ix)
            end
      end
  end.

(** ** buildImportIndex *)

(** The inner loop over [r.importedAs], with its [indexed] set. *)
Definition indexImports (p : nat) (imps : list ImportSpec)
    (m : gmap ImportSpec (list nat)) : gmap ImportSpec (list nat) :=
  snd (foldl
         (fun (st : gset ImportSpec * gmap ImportSpec (list nat)) imp =>
            if decide (imp ∈ st.1) then st
            else ({[imp]} ∪ st.1, <[imp := (st.2 !!! imp) ++ [p]]> st.2))
         (∅, m) imps).

(** The outer loop over [ix.rules], from an empty map. *)
Definition buildImportIndex (ix : RuleIndex) : RuleIndex :=
  {| rules := rules ix;
     labelMap := labelMap ix;
     importMap :=
       foldl (fun m p =>
                match rules ix !! p with
                | Some r => if embedded r then m
                            else indexImports p (importsOf ix r) m
                | None => m
                end)
             ∅ (seq 0 (length (rules ix)));
     mrslv := mrslv ix;
     crossResolvers := crossResolvers ix;
     didFinish := didFinish ix;
     specArrays := specArrays ix;
     labelArrays := labelArrays ix |}.

(** ** Finish *)

(** [ix.didFinish = true] *)
Definition setDidFinish (ix : RuleIndex) : RuleIndex :=
  {| rules := rules ix; labelMap := labelMap ix; importMap := importMap ix;
     mrslv := mrslv ix; crossResolvers := crossResolvers ix;
     didFinish := true;
     specArrays := specArrays ix; labelArrays := labelArrays ix |}.

(** [for _, r := range ix.rules { ix.collectEmbeds(r) }] *)
Definition closurePass (fuel : nat) (ix : RuleIndex) : result RuleIndex :=
  forEach (collectEmbeds fuel) (seq 0 (length (rules ix))) ix.

(** [Finish] on the index: the closure pass, the import index, the flag. *)
Definition finishIndex (fuel : nat) (ix : RuleIndex) : result RuleIndex :=
  let* ix1 := closurePass fuel ix in
  Ok (setDidFinish (buildImportIndex ix1)).

Definition Finish (fuel : nat) (w : World) : result World :=
  lift (finishIndex fuel) w.

(** ** The closure pass, with the records it enters

    [collectEmbedsTraced] is [collectEmbeds] carrying, next to the index, the
    list of the records whose closure it started to compute (those for which
    it got past the test of [didCollectEmbeds]), in the order it entered
    them. *)
Definition onIndex (f : RuleIndex → result RuleIndex)
    (st : RuleIndex * list nat) : result (RuleIndex * list nat) :=
  match f st.1 with
  | Ok ix => Ok (ix, st.2)
  | Panic msg ix => Panic msg (ix, st.2)
  | OutOfFuel => OutOfFuel
  end.

Definition embedStepTraced
    (collect : nat → RuleIndex * list nat → result (RuleIndex * list nat))
    (resolver : Resolver) (r : nat) (from : label.Label)
    (embedLabels : slice) (i : nat) (st : RuleIndex * list nat)
  : result (RuleIndex * list nat) :=
  match elemAt (labelArrays st.1) embedLabels i with
  | None => Ok st
  | Some e =>
      match findRuleByLabel st.1 e from with
      | None => Ok st
      | Some er =>
          let* st' := collect er st in
          onIndex (absorb resolver r er) st'
      end
  end.

Fixpoint collectEmbedsTraced (fuel : nat) (r : nat) (st : RuleIndex * list nat)
  : result (RuleIndex * list nat) :=
  match fuel with
  | 0 => OutOfFuel
  | S fuel' =>
      match rules st.1 !! r with
      | None => Panic nilDeref st
      | Some rec =>
          if didCollectEmbeds rec then Ok st
          else
            let entered := st.2 ++ [r] in
            match mrslv st.1 (rule rec) (FilePkg (file rec)) with
            | None =>
                Panic nilDeref (modify r (with_didCollectEmbeds true) st.1, entered)
            | Some resolver =>
                let embedLabels := Embeds resolver (rule rec) (label rec) in
                forEach (embedStepTraced (collectEmbedsTraced fuel') resolver r
                           (label rec) embedLabels)
                        (seq 0 (len embedLabels))
                        (enter r embedLabels st.1, entered)
            end
      end
  end.

Definition closurePassTraced (fuel : nat) (ix : RuleIndex)
  : result (RuleIndex * list nat) :=
  forEach (collectEmbedsTraced fuel) (seq 0 (length (rules ix))) (ix, []).

(** ** Queries *)

(** The loop over [matches] keeps, in order, a result for every match whose
    language is the queried one. *)
Definition FindRulesByImport (ix : RuleIndex) (imp : ImportSpec)
    (lang' : string) : list FindResult.t :=
  let matches := importMap ix !!! imp in
  omap (fun m =>
          match rules ix !! m with
          | Some rec =>
              if decide (lang rec = lang') then
                Some (FindResult.mk (label rec) (embedsOf ix rec))
              else None
          | None => None
          end) matches.

(** The result of [FindRulesByImportWithConfig], together with the positions
    (in registration order) of the CrossResolvers it called, in call order. *)
Definition FindRulesByImportWithConfig (ix : RuleIndex) (c : Config)
    (imp : ImportSpec) (lang' : string) : list FindResult.t * list nat :=
  let results := FindRulesByImport ix imp lang' in
  if decide (0 < length results) then (results, [])
  else
    foldl (fun acc cr =>
             (acc.1 ++ cr.2 c (FindRulesByImport ix) imp lang', acc.2 ++ [cr.1]))
          (results, []) (imap (fun i cr => (i, cr)) (crossResolvers ix)).

(** ** IsSelfImport *)

(** The loop over [r.Embeds], which returns at the first equal label. *)
Fixpoint rangeEqual (from : label.Label) (embeds : list label.Label) : bool :=
  match embeds with
  | [] => false
  | e :: rest => if label.Equal from e then true else rangeEqual from rest
  end.

Definition IsSelfImport (r : FindResult.t) (from : label.Label) : bool :=
  if label.Equal from (FindResult.Label r) then true
  else rangeEqual from (FindResult.Embeds r).

End Index.

(** * The index as its records read

    [Module Flat] is the index with every slice replaced by its contents: a
    record holds the list of its imports and the list of its embed labels,
    a provider returns lists, and [append] is concatenation.  It is the
    state in which a record's lists are looked at on their own.  It is not
    the program: the theorems about [RuleIndex] are stated on the index
    above.  The properties of the closure that [Finish] computes are proved
    on this module first, and carried to the index when the slices of the
    providers do not interfere (section Simulation). *)
Module Flat.

Section Index.
Context `{Collaborators}.

(** ** Resolver *)

(** [Imports] returns [None] for a nil slice and [Some l] for any non-nil
    slice, the empty one included.  [Resolve] is not called by the index. *)
Record Resolver := {
  Name : string;
  Imports : Config → Rule → File → option (list ImportSpec);
  Embeds : Rule → label.Label → list label.Label
}.

(** ** ruleRecord and RuleIndex *)

Record ruleRecord := {
  rule : Rule;
  label : label.Label;
  file : File;
  importedAs : list ImportSpec;
  embeds : list label.Label;
  embedded : bool;
  didCollectEmbeds : bool;
  lang : string
}.

Definition with_importedAs (v : list ImportSpec) (r : ruleRecord) :=
  {| rule := rule r; label := label r; file := file r; importedAs := v;
     embeds := embeds r; embedded := embedded r;
     didCollectEmbeds := didCollectEmbeds r; lang := lang r |}.

Definition with_embeds (v : list label.Label) (r : ruleRecord) :=
  {| rule := rule r; label := label r; file := file r;
     importedAs := importedAs r; embeds := v; embedded := embedded r;
     didCollectEmbeds := didCollectEmbeds r; lang := lang r |}.

Definition with_embedded (v : bool) (r : ruleRecord) :=
  {| rule := rule r; label := label r; file := file r;
     importedAs := importedAs r; embeds := embeds r; embedded := v;
     didCollectEmbeds := didCollectEmbeds r; lang := lang r |}.

Definition with_didCollectEmbeds (v : bool) (r : ruleRecord) :=
  {| rule := rule r; label := label r; file := file r;
     importedAs := importedAs r; embeds := embeds r; embedded := embedded r;
     didCollectEmbeds := v; lang := lang r |}.

Record RuleIndex := {
  rules : list ruleRecord;
  labelMap : gmap label.Label nat;
  importMap : gmap ImportSpec (list nat);
  mrslv : Rule → string → option Resolver;
  crossResolvers : list CrossResolver;
  didFinish : bool
}.

Definition with_rules (v : list ruleRecord) (ix : RuleIndex) :=
  {| rules := v; labelMap := labelMap ix; importMap := importMap ix;
     mrslv := mrslv ix; crossResolvers := crossResolvers ix;
     didFinish := didFinish ix |}.

(** [p.field = ...] on the record that pointer [p] addresses. *)
Definition modify (p : nat) (f : ruleRecord → ruleRecord) (ix : RuleIndex) :=
  with_rules (alter f p (rules ix)) ix.

(** The process state: the index and what was written to the log. *)
Record World := { index : RuleIndex; logged : list LogLine }.

(** An operation on the index, as an operation on the process state. *)
Definition lift (f : RuleIndex → result RuleIndex) (w : World) : result World :=
  match f (index w) with
  | Ok ix => Ok {| index := ix; logged := logged w |}
  | Panic msg ix => Panic msg {| index := ix; logged := logged w |}
  | OutOfFuel => OutOfFuel
  end.

(** ** NewRuleIndex *)

(** An extension either implements CrossResolver or does not (the type
    assertion [e.(CrossResolver)]). *)
Definition NewRuleIndex (mrslv : Rule → string → option Resolver)
    (exts : list (option CrossResolver)) : World :=
  {| index := {| rules := []; labelMap := ∅; importMap := ∅; mrslv := mrslv;
                 crossResolvers := omap id exts; didFinish := false |};
     logged := [] |}.

(** ** AddRule *)

(** The language name and the imports computed at the head of [AddRule]. *)
Definition langAndImports (ix : RuleIndex) (c : Config) (r : Rule) (f : File)
  : string * option (list ImportSpec) :=
  match mrslv ix r (FilePkg f) with
  | Some rslv =>
      let lang := Name rslv in
      if passesLanguageFilter (Langs c) lang
      then (lang, Imports rslv c r f)
      else (lang, None)
  | None => (EmptyString, None)
  end.

Definition newRecord (c : Config) (r : Rule) (f : File)
    (imps : list ImportSpec) (lang : string) : ruleRecord :=
  {| rule := r;
     label := label.New (RepoName c) (FilePkg f) (RuleName r);
     file := f;
     importedAs := imps;
     embeds := [];
     embedded := false;
     didCollectEmbeds := false;
     lang := lang |}.

Definition AddRule (c : Config) (r : Rule) (f : File) (w : World)
  : result World :=
  let ix := index w in
  if didFinish ix then
    Panic panicAfterFinish
      {| index := ix; logged := logged w ++ [Panicf panicAfterFinish] |}
  else
    match langAndImports ix c r f with
    | (_, None) => Ok w
    | (lang, Some imps) =>
        let record := newRecord c r f imps lang in
        match labelMap ix !! label record with
        | Some _ =>
            Ok {| index := ix;
                  logged := logged w ++ [Printf multipleRules (label record)] |}
        | None =>
            Ok {| index :=
                    {| rules := rules ix ++ [record];
                       labelMap := <[label record := length (rules ix)]> (labelMap ix);
                       importMap := importMap ix;
                       mrslv := mrslv ix;
                       crossResolvers := crossResolvers ix;
                       didFinish := didFinish ix |};
                  logged := logged w |}
        end
    end.

(** A sequence of [AddRule] calls. *)
Definition AddRules (calls : list (Config * Rule * File)) (w : World)
  : result World :=
  forEach (fun '(c, r, f) => AddRule c r f) calls w.

(** ** findRuleByLabel *)

Definition findRuleByLabel (ix : RuleIndex) (l from : label.Label)
  : option nat :=
  labelMap ix !! label.Abs l (label.Repo from) (label.Pkg from).

(** ** collectEmbeds *)

(** The part of the loop body of [collectEmbeds] after the recursive call:
    [r] is the embedding record, [er] the embedded one.  Every field is read
    from the store when the statement that reads it runs, so [r] and [er]
    may be the same record. *)
Definition absorb (resolver : Resolver) (r er : nat) (ix : RuleIndex)
  : result RuleIndex :=
  match rules ix !! er with
  | None => Panic nilDeref ix
  | Some erRec =>
      match mrslv ix (rule erRec) (FilePkg (file erRec)) with
      | None => Panic nilDeref ix
      | Some erResolver =>
          let ix1 :=
            if decide (Name resolver = Name erResolver) then
              let ix' := modify er (with_embedded true) ix in
              let erEmbeds := from_option embeds [] (rules ix' !! er) in
              modify r (fun rr => with_embeds (embeds rr ++ erEmbeds) rr) ix'
            else ix in
          let erImportedAs := from_option importedAs [] (rules ix1 !! er) in
          Ok (modify r (fun rr => with_importedAs (importedAs rr ++ erImportedAs) rr) ix1)
      end
  end.

(** One iteration of the loop over [embedLabels]; [collect] is the recursive
    call, [from] is [r.label]. *)
Definition embedStep (collect : nat → RuleIndex → result RuleIndex)
    (resolver : Resolver) (r : nat) (from : label.Label)
    (e : label.Label) (ix : RuleIndex) : result RuleIndex :=
  match findRuleByLabel ix e from with
  | None => Ok ix
  | Some er =>
      let* ix' := collect er ix in
      absorb resolver r er ix'
  end.

(** [r.didCollectEmbeds = true] followed by [r.embeds = embedLabels]. *)
Definition enter (r : nat) (embedLabels : list label.Label) (ix : RuleIndex)
  : RuleIndex :=
  modify r (with_embeds embedLabels) (modify r (with_didCollectEmbeds true) ix).

(** [fuel] bounds the depth of the recursion.  A position outside the store
    stands for a nil record pointer; the label map of an index built by
    [AddRule] holds no such position. *)
Fixpoint collectEmbeds (fuel : nat) (r : nat) (ix : RuleIndex)
  : result RuleIndex :=
  match fuel with
  | 0 => OutOfFuel
  | S fuel' =>
      match rules ix !! r with
      | None => Panic nilDeref ix
      | Some rec =>
          if didCollectEmbeds rec then Ok ix
          else
            match mrslv ix (rule rec) (FilePkg (file rec)) with
            | None => Panic nilDeref (modify r (with_didCollectEmbeds true) ix)
            | Some resolver =>
                let embedLabels := Embeds resolver (rule rec) (label rec) in
                forEach (embedStep (collectEmbeds fuel') resolver r (label rec))
                        embedLabels (enter r embedLabels ix)
            end
      end
  end.

(** ** buildImportIndex *)

(** The outer loop over [ix.rules], from an empty map. *)
Definition buildImportIndex (ix : RuleIndex) : RuleIndex :=
  {| rules := rules ix;
     labelMap := labelMap ix;
     importMap :=
       foldl (fun m p =>
                match rules ix !! p with
                | Some r => if embedded r then m else indexImports p (importedAs r) m
                | None => m
                end)
             ∅ (seq 0 (length (rules ix)));
     mrslv := mrslv ix;
     crossResolvers := crossResolvers ix;
     didFinish := didFinish ix |}.

(** ** Finish *)

(** [ix.didFinish = true] *)
Definition setDidFinish (ix : RuleIndex) : RuleIndex :=
  {| rules := rules ix; labelMap := labelMap ix; importMap := importMap ix;
     mrslv := mrslv ix; crossResolvers := crossResolvers ix;
     didFinish := true |}.

(** [for _, r := range ix.rules { ix.collectEmbeds(r) }] *)
Definition closurePass (fuel : nat) (ix : RuleIndex) : result RuleIndex :=
  forEach (collectEmbeds fuel) (seq 0 (length (rules ix))) ix.

(** [Finish] on the index: the closure pass, the import index, the flag. *)
Definition finishIndex (fuel : nat) (ix : RuleIndex) : result RuleIndex :=
  let* ix1 := closurePass fuel ix in
  Ok (setDidFinish (buildImportIndex ix1)).

Definition Finish (fuel : nat) (w : World) : result World :=
  lift (finishIndex fuel) w.

(** ** Queries *)

(** The loop over [matches] keeps, in order, a result for every match whose
    language is the queried one. *)
Definition FindRulesByImport (ix : RuleIndex) (imp : ImportSpec)
    (lang' : string) : list FindResult.t :=
  let matches := importMap ix !!! imp in
  omap (fun m =>
          match rules ix !! m with
          | Some rec =>
              if decide (lang rec = lang') then
                Some (FindResult.mk (label rec) (embeds rec))
              else None
          | None => None
          end) matches.

End Index.

Section Vocabulary.
Context `{Collaborators}.
Implicit Types (ix : RuleIndex) (rec : ruleRecord) (p q r er : nat).

(** The provider the index looks up for a record. *)
Definition resolverOf (ix : RuleIndex) (rec : ruleRecord) : option Resolver :=
  mrslv ix (rule rec) (FilePkg (file rec)).

(** [flagged ix p]: the record at [p] has its closure-computed flag set. *)
Definition flagged (ix : RuleIndex) (p : nat) : Prop :=
  ∃ rec, rules ix !! p = Some rec ∧ didCollectEmbeds rec = true.

(** [rec_le a b]: [b] is a later state of the record [a].  The rule, label,
    file and language never change; flags are only set; [importedAs] is only
    appended to, and so is [embeds] once the closure flag is set. *)
Record rec_le (a b : ruleRecord) : Prop := {
  le_rule : rule b = rule a;
  le_label : label b = label a;
  le_file : file b = file a;
  le_lang : lang b = lang a;
  le_flag : didCollectEmbeds a = true → didCollectEmbeds b = true;
  le_embedded : embedded a = true → embedded b = true;
  le_importedAs : importedAs a `prefix_of` importedAs b;
  le_embeds : didCollectEmbeds a = true → embeds a `prefix_of` embeds b
}.

(** [grows ix ix']: [ix'] is a later state of the store of [ix]; the label
    map, the provider lookup and the CrossResolvers are the same. *)
Record grows (ix ix' : RuleIndex) : Prop := {
  grows_rules : Forall2 rec_le (rules ix) (rules ix');
  grows_labelMap : labelMap ix' = labelMap ix;
  grows_mrslv : mrslv ix' = mrslv ix;
  grows_crossResolvers : crossResolvers ix' = crossResolvers ix
}.

(** The number of records whose closure flag is not yet set. *)
Definition pendingIn (l : list ruleRecord) : nat :=
  length (filter (fun rec => didCollectEmbeds rec = false) l).

Definition pending (ix : RuleIndex) : nat := pendingIn (rules ix).

(** [labelMap] and [rules] hold the same records, and every record has the
    provider that [AddRule] found for it. *)
Record wf (ix : RuleIndex) : Prop := {
  wf_labelMap : ∀ l p,
    labelMap ix !! l = Some p ↔ ∃ rec, rules ix !! p = Some rec ∧ label rec = l;
  wf_resolver : ∀ p rec,
    rules ix !! p = Some rec →
    ∃ rslv, resolverOf ix rec = Some rslv ∧ lang rec = Name rslv
}.

(** No closure work has been done yet. *)
Definition fresh (ix : RuleIndex) : Prop :=
  ∀ p rec, rules ix !! p = Some rec →
    didCollectEmbeds rec = false ∧ embedded rec = false ∧ embeds rec = [].

(** The state of an index in the registration phase, with the calls that
    built it: every record is the one a call with non-nil imports created. *)
Record registering (m : Rule → string → option Resolver)
    (calls : list (Config * Rule * File)) (ix : RuleIndex) : Prop := {
  reg_wf : wf ix;
  reg_fresh : fresh ix;
  reg_didFinish : didFinish ix = false;
  reg_mrslv : mrslv ix = m;
  reg_importMap : importMap ix = ∅;
  reg_from : ∀ p rec, rules ix !! p = Some rec →
    ∃ (c : Config) (r : Rule) (f : File) imps, (c, r, f) ∈ calls
      ∧ langAndImports ix c r f = (lang rec, Some imps)
      ∧ rec = newRecord c r f imps (lang rec)
}.

(** The record at [p] after [absorb], [r] embedding [er]: [same] tells
    whether the two providers have the same name, [erRec] is the embedded
    record as it was before the statements ran. *)
Definition absorbed (same : bool) (erRec : ruleRecord) (r er p : nat)
    (rec : ruleRecord) : ruleRecord :=
  let rec1 := if same && bool_decide (p = er) then with_embedded true rec else rec in
  let rec2 := if same && bool_decide (p = r)
              then with_embeds (embeds rec1 ++ embeds erRec) rec1 else rec1 in
  if bool_decide (p = r)
  then with_importedAs (importedAs rec2 ++ importedAs erRec) rec2 else rec2.

(** The labels the provider of a record reports as embedded. *)
Definition directEmbeds (ix : RuleIndex) (rec : ruleRecord) : list label.Label :=
  match resolverOf ix rec with
  | Some rslv => Embeds rslv (rule rec) (label rec)
  | None => []
  end.

(** [embedsTo ix p e q]: the record at [p] embeds, under the label [e], the
    record at [q]. *)
Definition embedsTo (ix : RuleIndex) (p : nat) (e : label.Label) (q : nat) : Prop :=
  ∃ rec, rules ix !! p = Some rec ∧ e ∈ directEmbeds ix rec
         ∧ findRuleByLabel ix e (label rec) = Some q.

(** A record is marked embedded only when a record of its language embeds it. *)
Definition embedded_justified (ix : RuleIndex) : Prop :=
  ∀ q recq, rules ix !! q = Some recq → embedded recq = true →
    ∃ p e rec, embedsTo ix p e q ∧ rules ix !! p = Some rec ∧ lang rec = lang recq.

(** A label is in [embeds] only as a label the record's own provider reported,
    or as an entry of the [embeds] of a record of the same language that the
    record embeds. *)
Definition embeds_from (ix : RuleIndex) (p : nat) (rec : ruleRecord)
    (l : label.Label) : Prop :=
  didCollectEmbeds rec = true ∧
  (l ∈ directEmbeds ix rec
   ∨ ∃ e q recq, embedsTo ix p e q ∧ rules ix !! q = Some recq
       ∧ lang recq = lang rec ∧ didCollectEmbeds recq = true ∧ l ∈ embeds recq).

Definition embeds_justified (ix : RuleIndex) : Prop :=
  ∀ p rec l, rules ix !! p = Some rec → l ∈ embeds rec → embeds_from ix p rec l.

(** [edgeDone ix0 ix p e]: the record at [p] has absorbed the record its embed
    label [e] resolves to: it holds the imports that record had in [ix0], and
    the record is marked embedded if it has the language of [p]. *)
Definition edgeDone (ix0 ix : RuleIndex) (p : nat) (e : label.Label) : Prop :=
  ∀ rec q rec0,
    rules ix !! p = Some rec → findRuleByLabel ix e (label rec) = Some q →
    rules ix0 !! q = Some rec0 →
    importedAs rec0 ⊆ importedAs rec
    ∧ ∀ recq, rules ix !! q = Some recq → lang recq = lang rec →
              embedded recq = true.

(** [closed ix0 ix p]: the closure of the record at [p] has been computed. *)
Definition closed (ix0 ix : RuleIndex) (p : nat) : Prop :=
  ∃ rec, rules ix !! p = Some rec ∧ didCollectEmbeds rec = true
         ∧ ∀ e, e ∈ directEmbeds ix rec → e ∈ embeds rec ∧ edgeDone ix0 ix p e.

(** Whether the record at [p] is put in the bucket of [imp]. *)
Definition indexable (ix : RuleIndex) (imp : ImportSpec) (p : nat) : bool :=
  match rules ix !! p with
  | Some r => negb (embedded r) && bool_decide (imp ∈ importedAs r)
  | None => false
  end.

(** What [Finish] establishes on a well-formed, fresh index. *)
Record finished (ix ix' : RuleIndex) : Prop := {
  fin_grows : grows ix ix';
  fin_closed : ∀ p rec, rules ix' !! p = Some rec → closed ix ix' p;
  fin_embedded : embedded_justified ix';
  fin_embeds : embeds_justified ix';
  fin_didFinish : didFinish ix' = true;
  fin_importMap : ∀ imp p,
    p ∈ importMap ix' !!! imp
    ↔ ∃ rec, rules ix' !! p = Some rec ∧ embedded rec = false
             ∧ imp ∈ importedAs rec
}.

(** Every entry of [embeds] was reported by the provider of an indexed record
    of the same language. *)
Definition embeds_sourced (ix : RuleIndex) : Prop :=
  ∀ p rec l, rules ix !! p = Some rec → l ∈ embeds rec →
    ∃ q recq, rules ix !! q = Some recq ∧ lang recq = lang rec
              ∧ l ∈ directEmbeds ix recq.

(** [untouched ix0 p ix]: the record at [p] still has the imports it had in
    [ix0], and its [embeds] is what its provider reported once its closure
    flag is set. *)
Definition untouched (ix0 : RuleIndex) (p : nat) (ix : RuleIndex) : Prop :=
  ∀ rec0 rec, rules ix0 !! p = Some rec0 → rules ix !! p = Some rec →
    importedAs rec = importedAs rec0
    ∧ (didCollectEmbeds rec = true → embeds rec = directEmbeds ix rec).

(** The record at [p] embeds the record at [q]. *)
Definition embedsSome (ix : RuleIndex) (p q : nat) : Prop := ∃ e, embedsTo ix p e q.

(** No record embeds itself, directly or through other records. *)
Definition acyclic (ix : RuleIndex) : Prop := ∀ p, ¬ tc (embedsSome ix) p p.

(** [absorbedAll ix0 ix p]: the closure flag of [p] is set, and so is that of
    every record [p] embeds, whose imports [p] holds. *)
Definition absorbedAll (ix0 ix : RuleIndex) (p : nat) : Prop :=
  ∃ rec, rules ix !! p = Some rec ∧ didCollectEmbeds rec = true
    ∧ ∀ q, embedsSome ix0 p q →
        ∃ recq, rules ix !! q = Some recq ∧ didCollectEmbeds recq = true
                ∧ importedAs recq ⊆ importedAs rec.

(** [settled ix0 ix p]: that holds of [p] and of every record it reaches. *)
Definition settled (ix0 ix : RuleIndex) (p : nat) : Prop :=
  ∀ p', rtc (embedsSome ix0) p p' → absorbedAll ix0 ix p'.

(** [stays ix0 ixA p ix]: [p] is settled in [ix], and the records it reaches
    have no import they did not have in [ixA]. *)
Definition stays (ix0 ixA : RuleIndex) (p : nat) (ix : RuleIndex) : Prop :=
  ∀ p', rtc (embedsSome ix0) p p' →
    absorbedAll ix0 ix p'
    ∧ ∀ recA rec, rules ixA !! p' = Some recA → rules ix !! p' = Some rec →
        importedAs rec ⊆ importedAs recA.

(** The record at [p] embeds the record at [q], and the two have the same
    language. *)
Definition embedsSame (ix : RuleIndex) (p q : nat) : Prop :=
  ∃ recp recq, embedsSome ix p q ∧ rules ix !! p = Some recp
               ∧ rules ix !! q = Some recq ∧ lang recp = lang recq.

(** Every entry of an [embeds] of [ix] was reported by the provider of a
    record that the holder reaches, in [ix0], through embeddings between
    records of one language. *)
Definition embeds_reached (ix0 ix : RuleIndex) : Prop :=
  ∀ p rec l, rules ix !! p = Some rec → l ∈ embeds rec →
    ∃ q recq, rtc (embedsSame ix0) p q ∧ rules ix0 !! q = Some recq
              ∧ l ∈ directEmbeds ix0 recq.

(** [inherited ix a b]: the closure flag of [b] is set, and [a] holds every
    import of [b]. *)
Definition inherited (ix : RuleIndex) (a b : nat) : Prop :=
  ∃ recA recB, rules ix !! a = Some recA ∧ rules ix !! b = Some recB
    ∧ didCollectEmbeds recB = true ∧ importedAs recB ⊆ importedAs recA.

(** [completed anc ix a b]: [anc] lists the records whose loop over their
    embed labels is still running.  Once the closure of [a] is computed (its
    flag is set and its loop is over), that of [b] is computed too, and [a]
    holds every import of [b]. *)
Definition completed (anc : list nat) (ix : RuleIndex) (a b : nat) : Prop :=
  flagged ix a → a ∉ anc → inherited ix a b ∧ b ∉ anc.

(** [holdsEmbeds ix0 ix p]: the closure flag of [p] is set, and so is that of
    every record [p] embeds; [p] holds the embeds of those that have its
    language. *)
Definition holdsEmbeds (ix0 ix : RuleIndex) (p : nat) : Prop :=
  ∃ rec, rules ix !! p = Some rec ∧ didCollectEmbeds rec = true
    ∧ ∀ q, embedsSome ix0 p q →
        ∃ recq, rules ix !! q = Some recq ∧ didCollectEmbeds recq = true
                ∧ (lang recq = lang rec → embeds recq ⊆ embeds rec).

(** [embedsSettled ix0 ix p]: that holds of [p] and of every record it reaches. *)
Definition embedsSettled (ix0 ix : RuleIndex) (p : nat) : Prop :=
  ∀ p', rtc (embedsSome ix0) p p' → holdsEmbeds ix0 ix p'.

(** [embedsStay ix0 ixA p ix]: [p] is settled in [ix], and the records it
    reaches have no embeds entry they did not have in [ixA]. *)
Definition embedsStay (ix0 ixA : RuleIndex) (p : nat) (ix : RuleIndex) : Prop :=
  ∀ p', rtc (embedsSome ix0) p p' →
    holdsEmbeds ix0 ix p'
    ∧ ∀ recA rec, rules ixA !! p' = Some recA → rules ix !! p' = Some rec →
        embeds rec ⊆ embeds recA.

End Vocabulary.

End Flat.

(** * Vocabulary of the proofs *)

Section Vocabulary.
Context `{Collaborators}.
Implicit Types (ix : RuleIndex) (rec : ruleRecord) (p q r er : nat) (s t : slice).

(** The provider the index looks up for a record. *)
Definition resolverOf (ix : RuleIndex) (rec : ruleRecord) : option Resolver :=
  mrslv ix (rule rec) (FilePkg (file rec)).

(** [flagged ix p]: the record at [p] has its closure-computed flag set. *)
Definition flagged (ix : RuleIndex) (p : nat) : Prop :=
  ∃ rec, rules ix !! p = Some rec ∧ didCollectEmbeds rec = true.

(** [rec_le a b]: [b] is a later state of the record [a].  The rule, label,
    file and language never change, and flags are only set. *)
Record rec_le (a b : ruleRecord) : Prop := {
  le_rule : rule b = rule a;
  le_label : label b = label a;
  le_file : file b = file a;
  le_lang : lang b = lang a;
  le_flag : didCollectEmbeds a = true → didCollectEmbeds b = true;
  le_embedded : embedded a = true → embedded b = true
}.

(** [grows ix ix']: [ix'] is a later state of the store of [ix]; the label
    map, the provider lookup and the CrossResolvers are the same. *)
Record grows (ix ix' : RuleIndex) : Prop := {
  grows_rules : Forall2 rec_le (rules ix) (rules ix');
  grows_labelMap : labelMap ix' = labelMap ix;
  grows_mrslv : mrslv ix' = mrslv ix;
  grows_crossResolvers : crossResolvers ix' = crossResolvers ix
}.

(** The number of records whose closure flag is not yet set. *)
Definition pendingIn (l : list ruleRecord) : nat :=
  length (filter (fun rec => didCollectEmbeds rec = false) l).

Definition pending (ix : RuleIndex) : nat := pendingIn (rules ix).

(** [labelMap] and [rules] hold the same records, and every record has the
    provider that [AddRule] found for it. *)
Record wf (ix : RuleIndex) : Prop := {
  wf_labelMap : ∀ l p,
    labelMap ix !! l = Some p ↔ ∃ rec, rules ix !! p = Some rec ∧ label rec = l;
  wf_resolver : ∀ p rec,
    rules ix !! p = Some rec →
    ∃ rslv, resolverOf ix rec = Some rslv ∧ lang rec = Name rslv
}.

(** No closure work has been done yet. *)
Definition fresh (ix : RuleIndex) : Prop :=
  ∀ p rec, rules ix !! p = Some rec →
    didCollectEmbeds rec = false ∧ embedded rec = false ∧ embeds rec = nilSlice.

(** The state of an index in the registration phase, with the calls that
    built it: every record is the one a call with non-nil imports created. *)
Record registering (m : Rule → string → option Resolver)
    (calls : list (Config * Rule * File)) (ix : RuleIndex) : Prop := {
  reg_wf : wf ix;
  reg_fresh : fresh ix;
  reg_didFinish : didFinish ix = false;
  reg_mrslv : mrslv ix = m;
  reg_importMap : importMap ix = ∅;
  reg_from : ∀ p rec, rules ix !! p = Some rec →
    ∃ (c : Config) (r : Rule) (f : File) imps, (c, r, f) ∈ calls
      ∧ langAndImports ix c r f = (lang rec, Some imps)
      ∧ rec = newRecord c r f imps (lang rec)
}.

(** The slice the provider of a record reports as its embed labels, and the
    labels it holds in the state [ix]. *)
Definition embedSlice (ix : RuleIndex) (rec : ruleRecord) : slice :=
  match resolverOf ix rec with
  | Some rslv => Embeds rslv (rule rec) (label rec)
  | None => nilSlice
  end.

Definition directEmbeds (ix : RuleIndex) (rec : ruleRecord) : list label.Label :=
  contents (labelArrays ix) (embedSlice ix rec).

(** [embedsTo ix p e q]: the record at [p] embeds, under the label [e], the
    record at [q]. *)
Definition embedsTo (ix : RuleIndex) (p : nat) (e : label.Label) (q : nat) : Prop :=
  ∃ rec, rules ix !! p = Some rec ∧ e ∈ directEmbeds ix rec
         ∧ findRuleByLabel ix e (label rec) = Some q.

(** The record at [p] embeds the record at [q]. *)
Definition embedsSome (ix : RuleIndex) (p q : nat) : Prop := ∃ e, embedsTo ix p e q.

(** The record at [p] embeds the record at [q], and the two have the same
    language. *)
Definition embedsSame (ix : RuleIndex) (p q : nat) : Prop :=
  ∃ recp recq, embedsSome ix p q ∧ rules ix !! p = Some recp
               ∧ rules ix !! q = Some recq ∧ lang recp = lang recq.

(** No record embeds itself, directly or through other records. *)
Definition acyclic (ix : RuleIndex) : Prop := ∀ p, ¬ tc (embedsSome ix) p p.

(** Whether the record at [p] is put in the bucket of [imp]. *)
Definition indexable (ix : RuleIndex) (imp : ImportSpec) (p : nat) : bool :=
  match rules ix !! p with
  | Some r => negb (embedded r) && bool_decide (imp ∈ importsOf ix r)
  | None => false
  end.

(** Whether [AddRule] gets non-nil imports for the rule of a call, with the
    provider lookup [m]: the rule has a provider, the provider's language
    passes the filter of the configuration, and [Imports] is not nil. *)
Definition importable (m : Rule → string → option Resolver)
    (call : Config * Rule * File) : bool :=
  match m call.1.2 (FilePkg call.2) with
  | Some rslv =>
      passesLanguageFilter (Langs call.1.1) (Name rslv)
      && match Imports rslv call.1.1 call.1.2 call.2 with
         | Some _ => true
         | None => false
         end
  | None => false
  end.

(** Forgetting the trace of a traced outcome. *)
Definition erase (res : result (RuleIndex * list nat)) : result RuleIndex :=
  match res with
  | Ok st => Ok st.1
  | Panic msg st => Panic msg st.1
  | OutOfFuel => OutOfFuel
  end.

(** [reaches res st]: the call ended in state [st], normally or by a panic. *)
Definition reaches {S : Type} (res : result S) (st : S) : Prop :=
  res = Ok st ∨ ∃ msg, res = Panic msg st.

(** [entersFresh ix t st']: from the index [ix] and the trace [t], the pass
    got to [st'] by entering records that were not flagged in [ix], each one
    once. *)
Definition entersFresh (ix : RuleIndex) (t : list nat)
    (st' : RuleIndex * list nat) : Prop :=
  grows ix st'.1
  ∧ ∃ new, st'.2 = t ++ new ∧ NoDup new
           ∧ ∀ p, p ∈ new → ¬ flagged ix p ∧ flagged st'.1 p.

(** ** Slices that do not interfere *)

(** [inside h s]: the slice lies within its array, as every slice of a Go
    program does. *)
Definition inside {X : Type} (h : list (list X)) (s : slice) : Prop :=
  len s ≤ cap s ∧ off s + cap s ≤ length (h !!! arr s).

(** The cells of [s] up to its capacity, and those behind its last element,
    which an append to [s] writes when it does not move the slice. *)
Definition covers (s : slice) (a i : nat) : Prop :=
  a = arr s ∧ off s ≤ i < off s + cap s.

Definition spare (s : slice) (a i : nat) : Prop :=
  a = arr s ∧ off s + len s ≤ i < off s + cap s.

(** No append to [s] that leaves it in its array writes a cell of [t]. *)
Definition clearOf (s t : slice) : Prop :=
  ∀ a i, spare s a i → ¬ covers t a i.

(** [exclusive ix]: the slices of imports the providers returned for the
    records of [ix], and the slices of embed labels they report, lie within
    their arrays, and the spare capacity of the slice of one record is clear
    of the slice of every other record.  Slices of separate arrays, and
    slices without spare capacity, are of this kind. *)
Record exclusive (ix : RuleIndex) : Prop := {
  excl_imports_inside : ∀ p rec,
    rules ix !! p = Some rec → inside (specArrays ix) (importedAs rec);
  excl_imports_clear : ∀ p q recp recq,
    p ≠ q → rules ix !! p = Some recp → rules ix !! q = Some recq →
    clearOf (importedAs recp) (importedAs recq);
  excl_embeds_inside : ∀ p rec,
    rules ix !! p = Some rec → inside (labelArrays ix) (embedSlice ix rec);
  excl_embeds_clear : ∀ p q recp recq,
    p ≠ q → rules ix !! p = Some recp → rules ix !! q = Some recq →
    clearOf (embedSlice ix recp) (embedSlice ix recq)
}.

(** The three conditions as tests. *)
Definition insideb {X : Type} (h : list (list X)) (s : slice) : bool :=
  bool_decide (len s ≤ cap s)
  && bool_decide (off s + cap s ≤ length (h !!! arr s)).

Definition clearOfb (s t : slice) : bool :=
  bool_decide (arr s ≠ arr t ∨ cap s ≤ len s ∨ cap t = 0
               ∨ off s + cap s ≤ off t ∨ off t + cap t ≤ off s + len s).

Definition exclusiveb (ix : RuleIndex) : bool :=
  forallb (fun rec => insideb (specArrays ix) (importedAs rec)
                      && insideb (labelArrays ix) (embedSlice ix rec))
          (rules ix)
  && forallb (fun p =>
       forallb (fun q =>
         match rules ix !! p, rules ix !! q with
         | Some recp, Some recq =>
             bool_decide (p = q)
             || (clearOfb (importedAs recp) (importedAs recq)
                 && clearOfb (embedSlice ix recp) (embedSlice ix recq))
         | _, _ => true
         end) (seq 0 (length (rules ix))))
       (seq 0 (length (rules ix))).

(** ** The index as its records read *)

(** A provider as a provider of lists: its slices read in the arrays
    [specs] and [labels]. *)
Definition flatResolver (specs : list (list ImportSpec))
    (labels : list (list label.Label)) (rslv : Resolver) : Flat.Resolver :=
  {| Flat.Name := Name rslv;
     Flat.Imports := fun (c : Config) (r : Rule) (f : File) =>
                      contents specs <$> Imports rslv c r f;
     Flat.Embeds := fun (r : Rule) l => contents labels (Embeds rslv r l) |}.

Definition flatRecord (ix : RuleIndex) (rec : ruleRecord) : Flat.ruleRecord :=
  {| Flat.rule := rule rec;
     Flat.label := label rec;
     Flat.file := file rec;
     Flat.importedAs := importsOf ix rec;
     Flat.embeds := embedsOf ix rec;
     Flat.embedded := embedded rec;
     Flat.didCollectEmbeds := didCollectEmbeds rec;
     Flat.lang := lang rec |}.

(** The index [ix] with its slices read in its own arrays; the providers
    read in the arrays [specs] and [labels], those of the time the index was
    created. *)
Definition flatIndex (specs : list (list ImportSpec))
    (labels : list (list label.Label)) (ix : RuleIndex) : Flat.RuleIndex :=
  {| Flat.rules := flatRecord ix <$> rules ix;
     Flat.labelMap := labelMap ix;
     Flat.importMap := importMap ix;
     Flat.mrslv := fun (r : Rule) pkg =>
                    flatResolver specs labels <$> mrslv ix r pkg;
     Flat.crossResolvers := crossResolvers ix;
     Flat.didFinish := didFinish ix |}.

Definition flatWorld (specs : list (list ImportSpec))
    (labels : list (list label.Label)) (w : World) : Flat.World :=
  {| Flat.index := flatIndex specs labels (index w);
     Flat.logged := logged w |}.

End Vocabulary.

(** ** The invariant of the closure pass on slices *)

Section Soundness.
Context `{Collaborators}.

(** The cell [i] of the array [a]. *)
Definition cell {X : Type} (h : list (list X)) (a i : nat) : option X :=
  (h !!! a) !! i.

(** The cells that hold the elements of [s]. *)
Definition reads (s : slice) (a i : nat) : Prop :=
  a = arr s ∧ off s ≤ i < off s + len s.

(** [sound labels ix]: the state of the slices during the closure pass on an
    index whose providers' slices do not interfere.  The slices of the
    records lie within their arrays; what an append to a slice of one record
    may write is clear of the slices of every other record, the slice its
    provider reports included, and of the labels the provider of the record
    itself reports; and the arrays still hold, in the slices the providers
    report as embed labels, the labels they held in [labels]. *)
Record sound (labels : list (list label.Label)) (ix : RuleIndex) : Prop := {
  snd_imports_inside : ∀ p rec,
    rules ix !! p = Some rec → inside (specArrays ix) (importedAs rec);
  snd_imports_clear : ∀ p q recp recq,
    p ≠ q → rules ix !! p = Some recp → rules ix !! q = Some recq →
    clearOf (importedAs recp) (importedAs recq);
  snd_embeds_inside : ∀ p rec,
    rules ix !! p = Some rec →
    inside (labelArrays ix) (embeds rec)
    ∧ inside (labelArrays ix) (embedSlice ix rec);
  snd_embeds_clear : ∀ p q recp recq,
    p ≠ q → rules ix !! p = Some recp → rules ix !! q = Some recq →
    clearOf (embeds recp) (embeds recq)
    ∧ clearOf (embeds recp) (embedSlice ix recq)
    ∧ clearOf (embedSlice ix recp) (embeds recq)
    ∧ clearOf (embedSlice ix recp) (embedSlice ix recq);
  snd_embeds_own : ∀ p rec a i,
    rules ix !! p = Some rec →
    spare (embeds rec) a i → ¬ reads (embedSlice ix rec) a i;
  snd_reported : ∀ p rec,
    rules ix !! p = Some rec →
    contents (labelArrays ix) (embedSlice ix rec)
    = contents labels (embedSlice ix rec)
}.

(** The provider lookup as a lookup of providers of lists. *)
Definition flatLookup (specs : list (list ImportSpec))
    (labels : list (list label.Label)) (m : Rule → string → option Resolver)
  : Rule → string → option Flat.Resolver :=
  fun (r : Rule) pkg => flatResolver specs labels <$> m r pkg.

End Soundness.

(** * Concrete indexes

    Rules carry their kind's language and the slices their extension
    returns for their imports and their embed labels; a file is its package
    path; a configuration is a repository name and a language allow-list. *)
Module Scenario.

Local Open Scope string_scope.
Local Open Scope list_scope.
Local Open Scope nat_scope.
Local Open Scope stdpp_scope.

Record TRule := {
  tname : string;
  tlang : option string;
  timports : option slice;
  tembeds : slice
}.

#[global] Instance collab : Collaborators := {|
  Config := string * list string;
  Rule := TRule;
  File := string;
  RepoName := fst;
  Langs := snd;
  RuleName := tname;
  FilePkg := id
|}.

Definition resolverFor (name : string) : Resolver :=
  {| Name := name;
     Imports := fun _ r _ => timports r;
     Embeds := fun r _ => tembeds r |}.

Definition providers (r : TRule) (pkg : string) : option Resolver :=
  resolverFor <$> tlang r.

Definition cfg : string * list string := (EmptyString, []).
Definition goOnly : string * list string := (EmptyString, ["go"%string]).

Definition lbl (name : string) : label.Label := label.New EmptyString "pkg" name.
Definition rel (name : string) : label.Label := label.mk EmptyString EmptyString name true.
Definition spec (l i : string) : ImportSpec := {| Lang := l; Imp := i |}.

Definition call (r : TRule) : Config * Rule * File := (cfg, r, "pkg"%string).

(** The world an outcome carries. *)
Definition worldOf (res : result World) : World :=
  match res with
  | Ok w => w
  | Panic _ w => w
  | OutOfFuel => NewRuleIndex providers [] [] []
  end.

(** ** Rules with arrays of their own

    A rule is described by its name, its language, its imports and its
    embed labels.  The description at position [i] of a list becomes a rule
    whose slices are the whole of array [i]: every provider returns slices
    of arrays of its own, without spare capacity. *)
Record Decl := {
  dname : string;
  dlang : option string;
  dimports : option (list ImportSpec);
  dembeds : list label.Label
}.

Definition whole (a n : nat) : slice := {| arr := a; off := 0; len := n; cap := n |}.

Definition place (i : nat) (d : Decl) : TRule :=
  {| tname := dname d;
     tlang := dlang d;
     timports := (fun l => whole i (length l)) <$> dimports d;
     tembeds := whole i (length (dembeds d)) |}.

Definition specsOf (ds : list Decl) : list (list ImportSpec) :=
  (fun d => default [] (dimports d)) <$> ds.

Definition labelsOf (ds : list Decl) : list (list label.Label) := dembeds <$> ds.

Definition callsOf (ds : list Decl) : list (Config * Rule * File) :=
  imap (fun i d => call (place i d)) ds.

(** The new index for [ds], the world the calls for [ds] leave, and the
    world after [Finish]. *)
Definition newIndex (ds : list Decl) : World :=
  NewRuleIndex providers [] (specsOf ds) (labelsOf ds).

Definition registered (ds : list Decl) : World :=
  worldOf (AddRules (callsOf ds) (newIndex ds)).

Definition finishedWorld (ds : list Decl) : World :=
  worldOf (Finish (S (length ds)) (registered ds)).

(** The record at a position, and the imports and embeds the records of a
    world read. *)
Definition blank : ruleRecord :=
  newRecord cfg {| tname := ""; tlang := None; timports := None; tembeds := nilSlice |}
    "" nilSlice "".

Definition recAt (w : World) (p : nat) : ruleRecord :=
  default blank (rules (index w) !! p).

Definition importsIn (w : World) : list (list ImportSpec) :=
  importsOf (index w) <$> rules (index w).

Definition embedsIn (w : World) : list (list label.Label) :=
  embedsOf (index w) <$> rules (index w).

Definition lib (language name : string) (embeds : list label.Label) : Decl :=
  {| dname := name; dlang := Some language;
     dimports := Some [spec language ("pkg/" +:+ name)]; dembeds := embeds |}.

(** [lib] embeds [base], both Go: the example of the specification. *)
Definition embedding : list Decl :=
  [lib "go" "base" []; lib "go" "lib" [lbl "base"]].

(** [top] embeds [mid], which embeds [base], all Go. *)
Definition chain : list Decl :=
  [lib "go" "base" []; lib "go" "mid" [lbl "base"]; lib "go" "top" [lbl "mid"]].

(** A Go rule whose provider reports two labels that name no rule, the first
    of them relative. *)
Definition dangling : list Decl := [lib "go" "a" [rel "x"; lbl "y"]].

(** A Go rule embedding a proto rule. *)
Definition crossLanguage : list Decl :=
  [lib "proto" "b" []; lib "go" "a" [lbl "b"]].

(** A Go rule [a] and a proto rule [c] both embedding the proto rule [b]. *)
Definition sharedTarget : list Decl :=
  [lib "proto" "b" []; lib "go" "a" [lbl "b"]; lib "proto" "c" [lbl "b"]].

(** An embed cycle across languages: proto [b] embeds Go [a] and proto [c],
    and [a] embeds [b]; [b] is registered first. *)
Definition cycle : list Decl :=
  [lib "proto" "b" [lbl "a"; lbl "c"]; lib "go" "a" [lbl "b"]; lib "proto" "c" []].

(** A Go rule [a] embedding the proto rule [b], which is in an embed cycle
    with the proto rule [c]; [b] does not reach [a]. *)
Definition cycleBelow : list Decl :=
  [lib "go" "a" [lbl "b"]; lib "proto" "b" [lbl "c"]; lib "proto" "c" [lbl "b"]].

(** A rule that is not importable (nil imports), embedded by a Go rule. *)
Definition binary : Decl :=
  {| dname := "bin"; dlang := Some "go"%string; dimports := None; dembeds := [] |}.

Definition embedsBinary : list Decl := [binary; lib "go" "a" [lbl "bin"]].

(** The rule with nil imports, and an importable rule of the same name. *)
Definition binThenLib : list Decl := [binary; lib "go" "bin" []].

(** A rule with nil imports that has the name of [base]. *)
Definition nilBase : TRule :=
  {| tname := "base"; tlang := Some "go"%string; timports := None;
     tembeds := nilSlice |}.

(** The index of [base] and [lib], then a second rule named [base], then the
    rule with nil imports. *)
Definition withDuplicate : list Decl :=
  embedding ++ [lib "go" "base" [lbl "x"]; binary].

(** Extensions that are CrossResolvers answering every query with one fixed
    label. *)
Definition answering (name : string) : CrossResolver :=
  fun _ _ _ _ => [FindResult.mk (lbl name) []].

(** Three extensions, the last two of which are CrossResolvers. *)
Definition extensions : list (option CrossResolver) :=
  [None; Some (answering "x"); Some (answering "y")].

Definition crossWorld : World :=
  worldOf (AddRules (callsOf embedding)
             (NewRuleIndex providers extensions (specsOf embedding) (labelsOf embedding))).

Definition crossFinished : World := worldOf (Finish 3 crossWorld).

(** The filtered-out proto rule of the counterexample to C1. *)
Definition protoRule : TRule := place 0 (lib "proto" "p" []).

(** ** Providers that return slices of one array

    The imports of the Go rules [p] and [q] are the slices [all[0:1]] and
    [all[1:2]] of one array [all] of two ImportSpecs, so the first has the
    capacity 2; [p] embeds the proto rule [x]. *)
Definition sharedSpecs : list (list ImportSpec) :=
  [[spec "go" "pkg/p"; spec "go" "pkg/q"]; [spec "proto" "pkg/x"]].

Definition sharedLabels : list (list label.Label) := [[lbl "x"]].

Definition ruleX : TRule :=
  {| tname := "x"; tlang := Some "proto"%string;
     timports := Some (whole 1 1); tembeds := nilSlice |}.

Definition ruleP : TRule :=
  {| tname := "p"; tlang := Some "go"%string;
     timports := Some {| arr := 0; off := 0; len := 1; cap := 2 |};
     tembeds := whole 0 1 |}.

Definition ruleQ : TRule :=
  {| tname := "q"; tlang := Some "go"%string;
     timports := Some {| arr := 0; off := 1; len := 1; cap := 1 |};
     tembeds := nilSlice |}.

Definition shared : list (Config * Rule * File) :=
  [call ruleX; call ruleP; call ruleQ].

Definition sharedWorld : World :=
  worldOf (AddRules shared (NewRuleIndex providers [] sharedSpecs sharedLabels)).

Definition sharedFinished : World := worldOf (Finish 4 sharedWorld).

End Scenario.

(** * Properties *)

(** ** Outcomes, loops and lists *)

Section Generic.
Context `{Collaborators}.

Lemma bind_Ok {S : Type} (m : result S) (k : S → result S) (s' : S) :
  bind m k = Ok s' → ∃ s, m = Ok s ∧ k s = Ok s'.
Proof. destruct m; simpl; [eauto | done | done]. Qed.

(** A loop invariant indexed by the elements already processed. *)
Lemma forEach_Ok_inv {A S : Type} (f : A → S → result S)
    (I : list A → S → Prop) (l : list A) (s s' : S) :
  forEach f l s = Ok s' →
  I [] s →
  (∀ done a rest s1 s2,
      l = done ++ a :: rest → I done s1 → f a s1 = Ok s2 → I (done ++ [a]) s2) →
  I l s'.
Proof.
  intros Hrun Hinit Hstep.
  assert (Hgen : ∀ rest done s1,
             l = done ++ rest → I done s1 → forEach f rest s1 = Ok s' → I l s').
  { induction rest as [|a rest IH]; intros done s1 Hl Hd Hr; simpl in Hr.
    - rewrite app_nil_r in Hl. by simplify_eq.
    - apply bind_Ok in Hr as (s2 & Ha & Hr).
      apply (IH (done ++ [a]) s2); [by rewrite <- app_assoc | | done].
      by eapply Hstep. }
  by apply (Hgen l [] s).
Qed.

(** The loop does not run out of fuel when no iteration does. *)
Lemma forEach_fuel {A S : Type} (f : A → S → result S) (I : S → Prop)
    (l : list A) (s : S) :
  I s →
  (∀ a s1, a ∈ l → I s1 → f a s1 ≠ OutOfFuel ∧ ∀ s2, f a s1 = Ok s2 → I s2) →
  forEach f l s ≠ OutOfFuel.
Proof.
  revert s. induction l as [|a l IH]; intros s Hs Hstep; simpl; [done |].
  destruct (Hstep a s) as [Hne Hok]; [left | done |].
  destruct (f a s) as [s1 | |] eqn:E; simpl; [| done | done].
  apply IH; [by apply Hok |].
  intros b s2 Hb. apply Hstep. by right.
Qed.

(** The loop does not panic when no iteration does. *)
Lemma forEach_Ok {A S : Type} (f : A → S → result S) (I : S → Prop)
    (l : list A) (s : S) :
  I s →
  (∀ a s1, a ∈ l → I s1 → ∃ s2, f a s1 = Ok s2 ∧ I s2) →
  ∃ s', forEach f l s = Ok s' ∧ I s'.
Proof.
  revert s. induction l as [|a l IH]; intros s Hs Hstep; simpl; [eauto |].
  destruct (Hstep a s) as (s1 & -> & Hs1); [left | done |]. simpl.
  apply IH; [done |]. intros b s2 Hb. apply Hstep. by right.
Qed.

(** More fuel does not change an outcome that was reached. *)
Lemma forEach_ext_on {A S : Type} (f g : A → S → result S) (l : list A) (s : S) :
  (∀ a s1, a ∈ l → f a s1 ≠ OutOfFuel → g a s1 = f a s1) →
  forEach f l s ≠ OutOfFuel → forEach g l s = forEach f l s.
Proof.
  revert s. induction l as [|a l IH]; intros s Hfg Hne; simpl in *; [done |].
  assert (Ha : f a s ≠ OutOfFuel) by (intros E; by rewrite E in Hne).
  rewrite (Hfg a s) by (done || left).
  destruct (f a s) as [s1| |]; simpl in *; [| done | done].
  apply IH; [| done]. intros b s2 Hb. apply Hfg. by right.
Qed.

Lemma indexImports_lookup p imps m imp :
  indexImports p imps m !!! imp
  = if bool_decide (imp ∈ imps) then (m !!! imp) ++ [p] else m !!! imp.
Proof.
  unfold indexImports.
  assert (Hgen : ∀ (indexed : gset ImportSpec) m0,
    (foldl (fun (st : gset ImportSpec * gmap ImportSpec (list nat)) i =>
              if decide (i ∈ st.1) then st
              else ({[i]} ∪ st.1, <[i := (st.2 !!! i) ++ [p]]> st.2))
           (indexed, m0) imps).2 !!! imp
    = if bool_decide (imp ∈ imps ∧ imp ∉ indexed)
      then (m0 !!! imp) ++ [p] else m0 !!! imp).
  { induction imps as [|a rest IH]; intros indexed m0.
    - rewrite bool_decide_eq_false_2; [done |]. intros [[]%elem_of_nil _].
    - cbn [foldl fst snd]. destruct (decide (a ∈ indexed)) as [Ha|Ha].
      + rewrite IH. apply (f_equal (fun b : bool => if b then _ else _)).
        apply bool_decide_ext. rewrite elem_of_cons.
        split; [intros [? ?]; auto | intros [[-> | ?] ?]; [done | auto]].
      + rewrite IH. destruct (decide (imp = a)) as [->|Hne].
        * rewrite lookup_total_insert_eq.
          rewrite bool_decide_eq_false_2.
          2:{ intros [_ Hn]. apply Hn, elem_of_union. left. by apply elem_of_singleton. }
          rewrite bool_decide_eq_true_2; [done |]. split; [by left | done].
        * rewrite lookup_total_insert_ne by done.
          apply (f_equal (fun b : bool => if b then _ else _)).
          apply bool_decide_ext. rewrite elem_of_cons, elem_of_union, elem_of_singleton.
          split; [intros [? ?]; split; [by right | tauto] |].
          intros [[? | ?] ?]; [done | tauto]. }
  rewrite Hgen. apply (f_equal (fun b : bool => if b then _ else _)).
  apply bool_decide_ext. split; [by intros [? _] |].
  intros ?. split; [done | apply not_elem_of_empty].
Qed.

Lemma rangeHas_elem_of langFilter langName :
  rangeHas langFilter langName = true ↔ langName ∈ langFilter.
Proof.
  induction langFilter as [|l rest IH]; simpl.
  - split; [done | by intros ?%elem_of_nil].
  - rewrite elem_of_cons. case_decide as Hl; [by split; [left |] |].
    rewrite IH. split; [by right | by intros [-> | ?]].
Qed.

Lemma passesLanguageFilter_false langFilter langName :
  langFilter ≠ [] → langName ∉ langFilter →
  passesLanguageFilter langFilter langName = false.
Proof.
  intros Hne Hnin. unfold passesLanguageFilter.
  rewrite decide_False by by destruct langFilter.
  apply not_true_is_false. by rewrite rangeHas_elem_of.
Qed.

Lemma crossResolve_fold (crs : list CrossResolver) (c : Config)
    (view : ImportSpec → string → list FindResult.t) imp lang'
    (acc : list FindResult.t * list nat) (k : nat) :
  foldl (fun acc (cr : nat * CrossResolver) =>
           (acc.1 ++ cr.2 c view imp lang', acc.2 ++ [cr.1]))
        acc (imap (fun i cr => (k + i, cr)) crs)
  = (acc.1 ++ concat (map (fun cr : CrossResolver => cr c view imp lang') crs),
     acc.2 ++ seq k (length crs)).
Proof.
  revert acc k. induction crs as [|cr crs IH]; intros acc k; simpl.
  - rewrite !app_nil_r. by destruct acc.
  - rewrite (imap_ext _ (fun i cr => (S k + i, cr))) by (intros; simpl; f_equal; lia).
    rewrite IH. simpl. rewrite Nat.add_0_r. by rewrite <- !app_assoc.
Qed.

Lemma reaches_bind {S : Type} (m : result S) (k : S → result S) (st : S) :
  reaches (bind m k) st →
  (∃ s1, m = Ok s1 ∧ reaches (k s1) st) ∨ (∃ msg, m = Panic msg st).
Proof.
  unfold reaches. destruct m as [s1|msg s1|]; simpl.
  - intros Hk. left. eauto.
  - intros [? | [msg' [= -> ->]]]; [done |]. right. eauto.
  - by intros [? | [? ?]].
Qed.

Lemma forEach_reaches_inv {A S : Type} (f : A → S → result S) (I : S → Prop)
    (l : list A) (s s' : S) :
  I s →
  (∀ a s1 s2, a ∈ l → I s1 → reaches (f a s1) s2 → I s2) →
  reaches (forEach f l s) s' → I s'.
Proof.
  revert s. induction l as [|a l IH]; intros s Hs Hstep Hend; simpl in Hend.
  - destruct Hend as [[= <-] | [msg [=]]]. done.
  - apply reaches_bind in Hend as [(s1 & Ha & Hend) | (msg & Ha)].
    + apply (IH s1); [| | done].
      * apply (Hstep a s s1); [left | done | by left; rewrite Ha].
      * intros b s2 s3 Hb. apply Hstep. by right.
    + apply (Hstep a s s'); [left | done |]. right. eauto.
Qed.

(** X1.  [passesLanguageFilter] accepts a language exactly when the filter
    is empty or lists the language. *)
Lemma passesLanguageFilter_spec (langFilter : list string) (langName : string) :
  passesLanguageFilter langFilter langName = true
  ↔ langFilter = [] ∨ langName ∈ langFilter.
Proof.
  unfold passesLanguageFilter. destruct langFilter as [|l rest].
  - simpl. split; [by left | done].
  - rewrite decide_False by done. rewrite rangeHas_elem_of.
    split; [by right | by intros [? | ?]].
Qed.

Lemma rangeEqual_elem_of (from : label.Label) (embeds : list label.Label) :
  rangeEqual from embeds = true ↔ from ∈ embeds.
Proof.
  induction embeds as [|e rest IH]; simpl.
  - split; [done | by intros ?%elem_of_nil].
  - unfold label.Equal. rewrite elem_of_cons. case_bool_decide as He.
    + split; [by left | done].
    + rewrite IH. split; [by right | by intros [? | ?]].
Qed.

Lemma IsSelfImport_elem_of (fr : FindResult.t) (from : label.Label) :
  IsSelfImport fr from = true
  ↔ from = FindResult.Label fr ∨ from ∈ FindResult.Embeds fr.
Proof.
  unfold IsSelfImport, label.Equal. case_bool_decide as He.
  - split; [by left | done].
  - rewrite rangeEqual_elem_of. split; [by right | by intros [? | ?]].
Qed.

(** X12.  [IsSelfImport] holds of a result and a label exactly when the
    label is the result's label or one of the entries of its Embeds list. *)
Lemma IsSelfImport_spec (fr : FindResult.t) (from : label.Label) :
  IsSelfImport fr from = true
  ↔ from = FindResult.Label fr ∨ from ∈ FindResult.Embeds fr.
Proof. exact (IsSelfImport_elem_of fr from). Qed.

(** A loop over [l1 ++ l2] is the loop over [l1] followed by that over [l2]. *)
Lemma forEach_app {A S : Type} (f : A → S → result S) (l1 l2 : list A) (s : S) :
  forEach f (l1 ++ l2) s = let* s1 := forEach f l1 s in forEach f l2 s1.
Proof.
  revert s. induction l1 as [|a l1 IH]; intros s; simpl; [done |].
  destruct (f a s) as [s1 | |]; simpl; [apply IH | done | done].
Qed.

Lemma omap_cons {A B : Type} (f : A → option B) (a : A) (l : list A) :
  omap f (a :: l) = match f a with Some y => y :: omap f l | None => omap f l end.
Proof. done. Qed.

Lemma omap_filter {A B : Type} (P : A → Prop) `{!∀ x, Decision (P x)}
    (g : A → option B) (l : list A) :
  omap g (filter P l) = omap (fun x => if decide (P x) then g x else None) l.
Proof.
  induction l as [|a l IH]; [done |].
  rewrite filter_cons, (omap_cons _ a l).
  destruct (decide (P a)) as [Hp | Hp].
  - by rewrite omap_cons, IH.
  - done.
Qed.

Lemma omap_ext_in {A B : Type} (f g : A → option B) (l : list A) :
  (∀ x, x ∈ l → f x = g x) → omap f l = omap g l.
Proof.
  induction l as [|a l IH]; intros Hfg; [done |].
  rewrite !omap_cons, (Hfg a) by left.
  rewrite IH; [done |]. intros x Hx. apply Hfg. by right.
Qed.

Lemma omap_seq_lookup_from {A B : Type} (g : A → option B) (l0 l : list A) :
  omap (fun p => (l0 ++ l) !! p ≫= g) (seq (length l0) (length l)) = omap g l.
Proof.
  revert l0. induction l as [|a l IH]; intros l0; [done |].
  cbn [length seq]. rewrite omap_cons, list_lookup_middle by done. simpl.
  specialize (IH (l0 ++ [a])). rewrite <- app_assoc, length_app in IH.
  simpl in IH. rewrite Nat.add_1_r in IH. by rewrite IH.
Qed.

Lemma omap_seq_lookup {A B : Type} (g : A → option B) (l : list A) :
  omap (fun p => l !! p ≫= g) (seq 0 (length l)) = omap g l.
Proof. exact (omap_seq_lookup_from g [] l). Qed.

Lemma omap_fmap_filter {A B : Type} (P : A → Prop) `{!∀ x, Decision (P x)}
    (g : A → B) (l : list A) :
  omap (fun x => if decide (P x) then Some (g x) else None) l = g <$> filter P l.
Proof.
  induction l as [|a l IH]; [done |].
  rewrite filter_cons, omap_cons.
  destruct (decide (P a)) as [Hp | Hp].
  - by rewrite fmap_cons, IH.
  - done.
Qed.

Lemma alter_outside {A : Type} (f : A → A) (l : list A) (i : nat) :
  l !! i = None → alter f i l = l.
Proof.
  intros Hi. apply list_eq. intros j. destruct (decide (j = i)) as [->|Hne].
  - by rewrite list_lookup_alter_eq, Hi.
  - by rewrite list_lookup_alter_ne.
Qed.

Lemma forEach_sim_seq {St T A : Type} (f : nat → St → result St)
    (g : A → T → result T) (R : St → T → Prop) (l : list A) k s s' t :
  (∀ i a s1 s2 t1, l !! i = Some a → R s1 t1 → f (k + i) s1 = Ok s2 →
     ∃ t2, g a t1 = Ok t2 ∧ R s2 t2) →
  R s t → forEach f (seq k (length l)) s = Ok s' →
  ∃ t', forEach g l t = Ok t' ∧ R s' t'.
Proof.
  revert k s t. induction l as [|a l IH]; intros k s t Hstep HR Hrun; simpl in *.
  - simplify_eq. eauto.
  - apply bind_Ok in Hrun as (s1 & Hf & Hrest).
    destruct (Hstep 0 a s s1 t) as (t1 & Hg & HR1);
      [done | done | by rewrite Nat.add_0_r |].
    rewrite Hg. simpl. apply (IH (S k) s1 t1); [| done | done].
    intros i a' s2 s3 t2 Hl HR2 Hf2. apply (Hstep (S i) a' s2 s3 t2); [done | done |].
    by rewrite Nat.add_succ_r.
Qed.

Lemma forEach_sim {St T A : Type} (f : A → St → result St)
    (g : A → T → result T) (R : St → T → Prop) (l : list A) s s' t :
  (∀ a s1 s2 t1, R s1 t1 → f a s1 = Ok s2 → ∃ t2, g a t1 = Ok t2 ∧ R s2 t2) →
  R s t → forEach f l s = Ok s' →
  ∃ t', forEach g l t = Ok t' ∧ R s' t'.
Proof.
  intros Hstep. revert s t. induction l as [|a l IH]; intros s t HR Hrun; simpl in *.
  - simplify_eq. eauto.
  - apply bind_Ok in Hrun as (s1 & Hf & Hrest).
    destruct (Hstep a s s1 t HR Hf) as (t1 & Hg & HR1).
    rewrite Hg. simpl. by apply (IH s1 t1).
Qed.

Lemma foldl_ext_all {A B : Type} (f g : A → B → A) (a : A) (l : list B) :
  (∀ x y, f x y = g x y) → foldl f a l = foldl g a l.
Proof.
  intros Hfg. revert a. induction l as [|b l IH]; intros a; simpl; [done |].
  by rewrite Hfg, IH.
Qed.

End Generic.

(** * Slices and append *)

Section SliceFacts.
Context {X : Type}.
Implicit Types (h : list (list X)) (s t : slice) (xs : list X).

Lemma contents_lookup h s i :
  contents h s !! i = if decide (i < len s) then cell h (arr s) (off s + i) else None.
Proof.
  unfold contents, cell. rewrite lookup_take. case_decide; [| done].
  by rewrite lookup_drop.
Qed.

Lemma contents_ext h h' s :
  (∀ i, i < len s → cell h (arr s) (off s + i) = cell h' (arr s) (off s + i)) →
  contents h s = contents h' s.
Proof.
  intros Hc. apply list_eq. intros i. rewrite !contents_lookup.
  case_decide; [by apply Hc | done].
Qed.

Lemma contents_length h s : inside h s → length (contents h s) = len s.
Proof.
  intros [Hl Hc]. unfold contents. rewrite length_take, length_drop. lia.
Qed.

Lemma elemAt_contents h s i : i < len s → elemAt h s i = contents h s !! i.
Proof. intros Hi. rewrite contents_lookup. by rewrite decide_True by done. Qed.

Lemma array_outside h a : length h ≤ a → h !!! a = [].
Proof.
  intros Ha. rewrite list_lookup_total_alt. by rewrite (lookup_ge_None_2 h a Ha).
Qed.

(** A slice with room for an element is a slice of an array of [h]. *)
Lemma inside_arr h s : inside h s → 0 < cap s → arr s < length h.
Proof.
  intros [_ Hc] Hpos. destruct (decide (arr s < length h)) as [|Hge]; [done |].
  rewrite array_outside in Hc by lia. simpl in Hc. lia.
Qed.

Lemma spare_arr h s a i : inside h s → spare s a i → a < length h.
Proof. intros Hin [-> Hi]. apply (inside_arr h s Hin). lia. Qed.

Lemma cell_store h s xs a i :
  off s + len s + length xs ≤ length (h !!! arr s) →
  cell (store h s xs) a i
  = if decide (a = arr s ∧ off s + len s ≤ i < off s + len s + length xs)
    then xs !! (i - (off s + len s)) else cell h a i.
Proof.
  intros Hb. unfold cell, store. rewrite list_lookup_total_alter.
  destruct (decide (arr s = a ∧ arr s < length h)) as [[<- Hlt] | Hno].
  - case_decide as Hi.
    + destruct Hi as [_ Hi].
      rewrite lookup_app_r by (rewrite length_take; lia).
      rewrite length_take, Nat.min_l by lia.
      by rewrite lookup_app_l by lia.
    + destruct (decide (i < off s + len s)) as [Hlo | Hhi].
      * rewrite lookup_app_l by (rewrite length_take; lia).
        by rewrite lookup_take_lt.
      * rewrite lookup_app_r by (rewrite length_take; lia).
        rewrite length_take, Nat.min_l by lia.
        rewrite lookup_app_r by lia. rewrite lookup_drop. f_equal. lia.
  - case_decide as Hi; [| done]. destruct Hi as [-> Hi].
    rewrite array_outside in Hb by lia. simpl in Hb. lia.
Qed.

Lemma store_array_length h s xs a :
  off s + len s + length xs ≤ length (h !!! arr s) →
  length (store h s xs !!! a) = length (h !!! a).
Proof.
  intros Hb. unfold store. rewrite list_lookup_total_alter.
  case_decide as Hi; [| done]. destruct Hi as [<- _].
  rewrite !length_app, length_take, length_drop. lia.
Qed.

(** ** [append] *)

Lemma append_contents h s xs :
  inside h s →
  contents (append h s xs).1 (append h s xs).2 = contents h s ++ xs.
Proof.
  intros Hin. pose proof (contents_length h s Hin) as Hlen.
  destruct Hin as [Hl Hc]. unfold append. case_decide as Hfit; simpl.
  - apply list_eq. intros i. rewrite contents_lookup. simpl.
    rewrite cell_store by lia.
    destruct (decide (i < len s)) as [Hi | Hi].
    + rewrite decide_True by lia. rewrite decide_False by lia.
      rewrite lookup_app_l by lia. rewrite contents_lookup.
      by rewrite decide_True by done.
    + rewrite lookup_app_r by lia. rewrite Hlen.
      case_decide as Hi2.
      * rewrite decide_True by lia. f_equal. lia.
      * symmetry. apply lookup_ge_None_2. lia.
  - unfold contents at 1. simpl.
    rewrite list_lookup_total_middle by done. simpl.
    apply take_ge. rewrite length_app. lia.
Qed.

(** A cell that is not spare capacity of [s] is not written. *)
Lemma append_cell h s xs a i :
  inside h s → a < length h → ¬ spare s a i →
  cell (append h s xs).1 a i = cell h a i.
Proof.
  intros [Hl Hc] Ha Hns. unfold append. case_decide as Hfit; simpl.
  - rewrite cell_store by lia. rewrite decide_False; [done |].
    intros [-> Hi]. apply Hns. split; [done | lia].
  - unfold cell. by rewrite lookup_total_app_l.
Qed.

Lemma append_frame h s xs t :
  inside h s → inside h t → clearOf s t →
  contents (append h s xs).1 t = contents h t.
Proof.
  intros Hs Ht Hclear. apply contents_ext. intros i Hi.
  apply append_cell; [done | |].
  - apply (inside_arr h t Ht). destruct Ht. lia.
  - intros Hsp. apply (Hclear _ _ Hsp). split; [done |]. destruct Ht. lia.
Qed.

Lemma append_frame_reads h s xs t :
  inside h s → inside h t → (∀ a i, spare s a i → ¬ reads t a i) →
  contents (append h s xs).1 t = contents h t.
Proof.
  intros Hs Ht Hclear. apply contents_ext. intros i Hi.
  apply append_cell; [done | |].
  - apply (inside_arr h t Ht). destruct Ht. lia.
  - intros Hsp. apply (Hclear _ _ Hsp). split; [done | lia].
Qed.

Lemma append_array_length h s xs a :
  inside h s → a < length h →
  length ((append h s xs).1 !!! a) = length (h !!! a).
Proof.
  intros [Hl Hc] Ha. unfold append. case_decide as Hfit; simpl.
  - apply store_array_length. lia.
  - by rewrite lookup_total_app_l.
Qed.

Lemma append_inside h s xs : inside h s → inside (append h s xs).1 (append h s xs).2.
Proof.
  intros Hin. pose proof (contents_length h s Hin) as Hlen.
  destruct Hin as [Hl Hc]. unfold append, inside. case_decide as Hfit; simpl.
  - split; [lia |]. rewrite store_array_length by lia. lia.
  - split; [lia |]. rewrite list_lookup_total_middle by done.
    rewrite length_app. lia.
Qed.

Lemma append_inside_frame h s xs t :
  inside h s → inside h t → inside (append h s xs).1 t.
Proof.
  intros Hs [Hl Hc]. split; [done |].
  destruct (decide (arr t < length h)) as [Hlt | Hge].
  - by rewrite append_array_length.
  - rewrite array_outside in Hc by lia. simpl in Hc. lia.
Qed.

Lemma append_spare h s xs a i : spare (append h s xs).2 a i → spare s a i.
Proof.
  unfold append, spare. case_decide; simpl; [| lia]. intros [-> Hi]. split; [done | lia].
Qed.

Lemma append_covers h s xs a i :
  covers (append h s xs).2 a i → covers s a i ∨ a = length h.
Proof.
  unfold append, covers. case_decide; simpl; [| by intros [-> _]; right].
  intros [-> Hi]. left. split; [done | lia].
Qed.

(** What an append to another slice may write stays clear of the slice
    [append] returns. *)
Lemma append_clear_r h s xs u :
  inside h u → clearOf u s → clearOf u (append h s xs).2.
Proof.
  intros Hu Hclear a i Hsp [Hc | ->]%append_covers.
  - by apply (Hclear a i).
  - apply (spare_arr h u) in Hsp; [lia | done].
Qed.

Lemma append_clear_l h s xs u : clearOf s u → clearOf (append h s xs).2 u.
Proof. intros Hclear a i Hsp%append_spare. by apply Hclear. Qed.

Lemma clearOf_nil_l t : clearOf nilSlice t.
Proof. intros a i [_ Hi]. simpl in Hi. lia. Qed.

Lemma clearOf_nil_r s : clearOf s nilSlice.
Proof. intros a i _ [_ Hi]. simpl in Hi. lia. Qed.

Lemma inside_nil h : inside h nilSlice.
Proof. split; simpl; lia. Qed.

End SliceFacts.

Section FlatFacts.
Import Flat.
Context `{Collaborators}.
Implicit Types (ix : RuleIndex) (rec : ruleRecord) (p q r er : nat).

(** ** The store *)

Lemma flat_modify_lookup_eq p f ix :
  rules (modify p f ix) !! p = f <$> rules ix !! p.
Proof. apply list_lookup_alter_eq. Qed.

Lemma flat_modify_lookup_ne p q f ix :
  p ≠ q → rules (modify p f ix) !! q = rules ix !! q.
Proof. apply list_lookup_alter_ne. Qed.

#[local] Instance flat_rec_le_refl : Reflexive rec_le.
Proof. intros a. by split. Qed.

#[local] Instance flat_rec_le_trans : Transitive rec_le.
Proof.
  intros a b c Hab Hbc. split.
  - by rewrite (le_rule _ _ Hbc), (le_rule _ _ Hab).
  - by rewrite (le_label _ _ Hbc), (le_label _ _ Hab).
  - by rewrite (le_file _ _ Hbc), (le_file _ _ Hab).
  - by rewrite (le_lang _ _ Hbc), (le_lang _ _ Hab).
  - intros Ha. by apply Hbc, Hab.
  - intros Ha. by apply Hbc, Hab.
  - etrans; [apply Hab | apply Hbc].
  - intros Ha. etrans; [by apply Hab |]. by apply Hbc, Hab.
Qed.

#[local] Instance flat_grows_refl : Reflexive grows.
Proof.
  intros ix. split; [| done..]. apply Forall_Forall2_diag, Forall_forall. by intros.
Qed.

#[local] Instance flat_grows_trans : Transitive grows.
Proof.
  intros a b c Hab Hbc. split.
  - eapply Forall2_trans; [apply flat_rec_le_trans | apply Hab | apply Hbc].
  - by rewrite (grows_labelMap _ _ Hbc), (grows_labelMap _ _ Hab).
  - by rewrite (grows_mrslv _ _ Hbc), (grows_mrslv _ _ Hab).
  - by rewrite (grows_crossResolvers _ _ Hbc), (grows_crossResolvers _ _ Hab).
Qed.

Lemma flat_grows_length ix ix' : grows ix ix' → length (rules ix') = length (rules ix).
Proof. intros [Hr]. symmetry. by eapply Forall2_length. Qed.

Lemma flat_grows_lookup ix ix' p rec :
  grows ix ix' → rules ix !! p = Some rec →
  ∃ rec', rules ix' !! p = Some rec' ∧ rec_le rec rec'.
Proof. intros [Hr]. by eapply Forall2_lookup_l. Qed.

Lemma flat_grows_lookup_r ix ix' p rec' :
  grows ix ix' → rules ix' !! p = Some rec' →
  ∃ rec, rules ix !! p = Some rec ∧ rec_le rec rec'.
Proof. intros [Hr]. by eapply Forall2_lookup_r. Qed.

Lemma flat_grows_flagged ix ix' p : grows ix ix' → flagged ix p → flagged ix' p.
Proof.
  intros Hg (rec & Hp & Hf).
  destruct (flat_grows_lookup _ _ _ _ Hg Hp) as (rec' & Hp' & Hle).
  exists rec'. split; [done |]. by apply Hle.
Qed.

Lemma flat_grows_resolverOf ix ix' rec rec' :
  grows ix ix' → rec_le rec rec' → resolverOf ix' rec' = resolverOf ix rec.
Proof.
  intros Hg Hle. unfold resolverOf.
  by rewrite (grows_mrslv _ _ Hg), (le_rule _ _ Hle), (le_file _ _ Hle).
Qed.

Lemma flat_grows_findRuleByLabel ix ix' l from :
  grows ix ix' → findRuleByLabel ix' l from = findRuleByLabel ix l from.
Proof. intros Hg. unfold findRuleByLabel. by rewrite (grows_labelMap _ _ Hg). Qed.

Lemma flat_grows_modify p f ix :
  (∀ rec, rules ix !! p = Some rec → rec_le rec (f rec)) →
  grows ix (modify p f ix).
Proof.
  intros Hf. split; [| done..]. simpl.
  apply Forall2_alter_r; [apply Forall_Forall2_diag, Forall_forall; by intros |].
  intros x y Hx Hy _. simplify_eq. by apply Hf.
Qed.

Lemma flat_grows_enter r rec embedLabels ix :
  rules ix !! r = Some rec → didCollectEmbeds rec = false →
  grows ix (enter r embedLabels ix).
Proof.
  intros Hr Hf. unfold enter, modify. simpl. rewrite list_alter_alter_eq.
  apply (flat_grows_modify r (with_embeds embedLabels ∘ with_didCollectEmbeds true)).
  intros rec' ?. simplify_eq. split; simpl; try done; congruence.
Qed.

Lemma flat_enter_lookup r rec embedLabels ix :
  rules ix !! r = Some rec →
  rules (enter r embedLabels ix) !! r
  = Some (with_embeds embedLabels (with_didCollectEmbeds true rec)).
Proof.
  intros Hr. unfold enter. rewrite !flat_modify_lookup_eq. by rewrite Hr.
Qed.

Lemma flat_enter_lookup_ne r p embedLabels ix :
  r ≠ p → rules (enter r embedLabels ix) !! p = rules ix !! p.
Proof. intros Hne. unfold enter. by rewrite !flat_modify_lookup_ne. Qed.

Lemma flat_absorb_grows resolver r er ix ix' :
  absorb resolver r er ix = Ok ix' → grows ix ix'.
Proof.
  unfold absorb. intros Hab.
  destruct (rules ix !! er) as [erRec|] eqn:Her; [| done].
  destruct (mrslv ix _ _) as [erResolver|]; [| done].
  injection Hab as <-.
  set (ix1 := if decide (Name resolver = Name erResolver) then _ else ix).
  assert (Hg1 : grows ix ix1).
  { subst ix1. case_decide; [| done].
    etrans.
    - apply (flat_grows_modify er (with_embedded true)). intros rec _. by split.
    - apply flat_grows_modify. intros rec _. split; simpl; try done.
      intros _. by apply prefix_app_r. }
  etrans; [exact Hg1 |].
  apply flat_grows_modify. intros rec _. split; simpl; try done.
  by apply prefix_app_r.
Qed.

Lemma flat_collectEmbeds_grows fuel r ix ix' :
  collectEmbeds fuel r ix = Ok ix' → grows ix ix' ∧ flagged ix' r.
Proof.
  revert r ix ix'. induction fuel as [|fuel IH]; intros r ix ix' Hrun; [done |].
  simpl in Hrun.
  destruct (rules ix !! r) as [rec|] eqn:Hr; [| done].
  destruct (didCollectEmbeds rec) eqn:Hfl.
  { simplify_eq. split; [done |]. by exists rec. }
  destruct (mrslv ix _ _) as [resolver|] eqn:Hres; [| done].
  set (L := Embeds resolver (rule rec) (label rec)) in *.
  assert (Hin : grows ix (enter r L ix)) by by eapply flat_grows_enter.
  assert (Hfr : flagged (enter r L ix) r).
  { eexists. split; [by apply flat_enter_lookup |]. done. }
  cut (grows (enter r L ix) ix').
  { intros Hg. split; [by etrans |]. by eapply flat_grows_flagged. }
  apply (forEach_Ok_inv _ (fun _ cur => grows (enter r L ix) cur) _ _ _ Hrun);
    [done |].
  intros _ e _ s1 s2 _ Hg1 Hstep. unfold embedStep in Hstep.
  destruct (findRuleByLabel s1 e (label rec)) as [er|]; [| by simplify_eq].
  apply bind_Ok in Hstep as (s3 & Hrec & Hab).
  apply IH in Hrec as [Hg3 _].
  etrans; [exact Hg1 |]. etrans; [exact Hg3 |]. by eapply flat_absorb_grows.
Qed.

(** ** Termination of the closure pass *)

(** ** Well-formed indexes *)

Lemma flat_wf_grows ix ix' : grows ix ix' → wf ix → wf ix'.
Proof.
  intros Hg [Hlm Hres]. split.
  - intros l p. rewrite (grows_labelMap _ _ Hg), Hlm. split.
    + intros (rec & Hp & Hl).
      destruct (flat_grows_lookup _ _ _ _ Hg Hp) as (rec' & Hp' & Hle).
      exists rec'. split; [done |]. by rewrite (le_label _ _ Hle).
    + intros (rec' & Hp' & Hl).
      destruct (flat_grows_lookup_r _ _ _ _ Hg Hp') as (rec & Hp & Hle).
      exists rec. split; [done |]. by rewrite <- (le_label _ _ Hle).
  - intros p rec' Hp'.
    destruct (flat_grows_lookup_r _ _ _ _ Hg Hp') as (rec & Hp & Hle).
    destruct (Hres p rec Hp) as (rslv & Hr & Hn).
    exists rslv. rewrite (flat_grows_resolverOf _ _ _ _ Hg Hle).
    split; [done |]. by rewrite (le_lang _ _ Hle).
Qed.

Lemma flat_wf_label_inj ix p q rec rec' :
  wf ix → rules ix !! p = Some rec → rules ix !! q = Some rec' →
  label rec = label rec' → p = q.
Proof.
  intros Hwf Hp Hq Hl.
  assert (labelMap ix !! label rec = Some p) by (apply Hwf; eauto).
  assert (labelMap ix !! label rec = Some q) by (apply Hwf; eauto).
  congruence.
Qed.

(** ** Registration *)

Lemma flat_AddRule_unfinished (c : Config) (r : Rule) (f : File) w :
  didFinish (index w) = false →
  AddRule c r f w =
    match langAndImports (index w) c r f with
    | (_, None) => Ok w
    | (lang', Some imps) =>
        let record := newRecord c r f imps lang' in
        match labelMap (index w) !! label record with
        | Some _ =>
            Ok {| index := index w;
                  logged := logged w ++ [Printf multipleRules (label record)] |}
        | None =>
            Ok {| index :=
                    {| rules := rules (index w) ++ [record];
                       labelMap := <[label record := length (rules (index w))]>
                                     (labelMap (index w));
                       importMap := importMap (index w);
                       mrslv := mrslv (index w);
                       crossResolvers := crossResolvers (index w);
                       didFinish := didFinish (index w) |};
                  logged := logged w |}
        end
    end.
Proof. intros Hf. unfold AddRule. by rewrite Hf. Qed.

Lemma flat_langAndImports_Some ix (c : Config) (r : Rule) (f : File) lang' imps :
  langAndImports ix c r f = (lang', Some imps) →
  ∃ rslv, mrslv ix r (FilePkg f) = Some rslv ∧ lang' = Name rslv
          ∧ passesLanguageFilter (Langs c) (Name rslv) = true
          ∧ Imports rslv c r f = Some imps.
Proof.
  unfold langAndImports. intros Hli.
  destruct (mrslv ix r (FilePkg f)) as [rslv|]; [| done].
  destruct (passesLanguageFilter _ _) eqn:Hp; [| done].
  simplify_eq. eauto.
Qed.

Lemma flat_registering_more m calls calls' ix :
  registering m calls ix → calls ⊆ calls' → registering m calls' ix.
Proof.
  intros [] Hsub. split; try done.
  intros p rec Hp. destruct (reg_from0 p rec Hp) as (c & r & f & imps & Hin & ?).
  exists c, r, f, imps. split; [by apply Hsub | done].
Qed.

Lemma flat_NewRuleIndex_registering m exts :
  registering m [] (index (NewRuleIndex m exts)).
Proof.
  split; try done.
  split.
  - intros l p. simpl. rewrite lookup_empty. split; [done |].
    by intros (rec & Hp & _).
  - by intros p rec Hp.
Qed.

Lemma flat_AddRule_registering m calls (c : Config) (r : Rule) (f : File) w :
  registering m calls (index w) →
  ∃ w', AddRule c r f w = Ok w'
        ∧ registering m (calls ++ [(c, r, f)]) (index w')
        ∧ crossResolvers (index w') = crossResolvers (index w).
Proof.
  intros Hreg. rewrite flat_AddRule_unfinished by apply Hreg.
  assert (Hmore : registering m (calls ++ [(c, r, f)]) (index w)).
  { eapply flat_registering_more; [done |]. intros x Hx. apply elem_of_app. by left. }
  destruct (langAndImports (index w) c r f) as [lang' [imps|]] eqn:Hli; [| eauto].
  simpl. destruct (labelMap (index w) !! _) eqn:Hlm; [eauto |].
  eexists. split; [done |]. split; [| done].
  destruct (flat_langAndImports_Some _ _ _ _ _ _ Hli) as (rslv & Hm & -> & Hpass & Himps).
  set (record := newRecord c r f imps (Name rslv)).
  destruct Hreg as [[Hwl Hwr] Hfresh Hfin Hmr Him Hfrom]. split; simpl; try done.
  - split; simpl.
    + intros l p. destruct (decide (l = label.New (RepoName c) (FilePkg f) (RuleName r)))
        as [->|Hne].
      * rewrite lookup_insert_eq. split.
        -- intros [= <-]. exists record. split; [| done].
           by rewrite lookup_app_r, Nat.sub_diag.
        -- intros (rec & Hp & Hl).
           apply lookup_app_Some in Hp as [Hp | [Hge Hp]].
           ++ assert (labelMap (index w) !! label rec = Some p) by (apply Hwl; eauto).
              rewrite Hl in *. congruence.
           ++ f_equal. apply list_lookup_singleton_Some in Hp as [Hp _]. lia.
      * rewrite lookup_insert_ne by done. rewrite Hwl. split.
        -- intros (rec & Hp & Hl). exists rec. split; [| done].
           by apply lookup_app_l_Some.
        -- intros (rec & Hp & Hl). exists rec. split; [| done].
           apply lookup_app_Some in Hp as [Hp | [_ Hp]]; [done |].
           apply list_lookup_singleton_Some in Hp as [_ <-]. by simpl in Hl.
    + intros p rec Hp.
      apply lookup_app_Some in Hp as [Hp | [_ Hp]]; [exact (Hwr p rec Hp) |].
      apply list_lookup_singleton_Some in Hp as [_ <-].
      unfold resolverOf. simpl. eauto.
  - intros p rec Hp.
    apply lookup_app_Some in Hp as [Hp | [_ Hp]]; [by eapply Hfresh |].
    by apply list_lookup_singleton_Some in Hp as [_ <-].
  - intros p rec Hp.
    apply lookup_app_Some in Hp as [Hp | [_ Hp]].
    + destruct (Hfrom p rec Hp) as (c' & r' & f' & imps' & Hin & Hli' & Hrec).
      exists c', r', f', imps'. split; [apply elem_of_app; by left |]. done.
    + apply list_lookup_singleton_Some in Hp as [_ <-].
      exists c, r, f, imps. split; [apply elem_of_app; right; by left |]. done.
Qed.

Lemma flat_AddRules_registering m calls0 calls w :
  registering m calls0 (index w) →
  ∃ w', AddRules calls w = Ok w'
        ∧ registering m (calls0 ++ calls) (index w')
        ∧ crossResolvers (index w') = crossResolvers (index w).
Proof.
  revert calls0 w. induction calls as [|[[c r] f] calls IH]; intros calls0 w Hreg.
  - exists w. by rewrite app_nil_r.
  - destruct (flat_AddRule_registering m calls0 c r f w Hreg) as (w1 & Hadd & Hreg1 & Hcr1).
    destruct (IH _ w1 Hreg1) as (w' & Hrun & Hreg' & Hcr').
    exists w'. unfold AddRules in *. simpl. rewrite Hadd. simpl.
    split; [done |]. rewrite <- app_assoc in Hreg'. split; [done | congruence].
Qed.

(** Any sequence of [AddRule] calls on a new index returns normally and
    leaves a well-formed, fresh index. *)
Lemma flat_AddRules_new m exts calls :
  ∃ w, AddRules calls (NewRuleIndex m exts) = Ok w
       ∧ registering m calls (index w)
       ∧ crossResolvers (index w) = omap id exts.
Proof.
  destruct (flat_AddRules_registering m [] calls (NewRuleIndex m exts)) as (w & ? & ? & ?);
    [apply flat_NewRuleIndex_registering | eauto].
Qed.

(** ** The effect of one loop iteration on the store *)

Lemma flat_modify_lookup a f ix p :
  rules (modify a f ix) !! p
  = (if bool_decide (p = a) then f else id) <$> rules ix !! p.
Proof.
  case_bool_decide as Hp.
  - subst. apply flat_modify_lookup_eq.
  - rewrite flat_modify_lookup_ne by done. by destruct (rules ix !! p).
Qed.

Lemma flat_absorb_lookup resolver r er ix ix' :
  absorb resolver r er ix = Ok ix' →
  ∃ erRec erResolver,
    rules ix !! er = Some erRec ∧ resolverOf ix erRec = Some erResolver
    ∧ ∀ p, rules ix' !! p
           = absorbed (bool_decide (Name resolver = Name erResolver)) erRec r er p
               <$> rules ix !! p.
Proof.
  unfold absorb. intros Hab.
  destruct (rules ix !! er) as [erRec|] eqn:Her; [| done].
  destruct (mrslv ix _ _) as [erResolver|] eqn:Hres; [| done].
  exists erRec, erResolver. split; [done |]. split; [done |].
  injection Hab as <-. intros p. unfold absorbed.
  destruct (decide (Name resolver = Name erResolver)) as [Hn|Hn].
  - rewrite (bool_decide_eq_true_2 _ Hn).
    rewrite !flat_modify_lookup, Her. simpl. rewrite !list_lookup_alter_eq, Her. simpl.
    repeat case_bool_decide; simplify_eq; rewrite ?Her; simpl; try done;
      first [by destruct (rules ix !! r) | by destruct (rules ix !! p)].
  - rewrite (bool_decide_eq_false_2 _ Hn).
    rewrite !flat_modify_lookup, Her. simpl.
    repeat case_bool_decide; simplify_eq;
      first [by destruct (rules ix !! r) | by destruct (rules ix !! p)].
Qed.

Lemma flat_absorbed_flag same erRec r er p rec :
  didCollectEmbeds (absorbed same erRec r er p rec) = didCollectEmbeds rec.
Proof. unfold absorbed. by repeat case_match. Qed.

Lemma flat_absorb_flagged resolver r er ix ix' p :
  absorb resolver r er ix = Ok ix' → flagged ix' p → flagged ix p.
Proof.
  intros Hab (rec' & Hp' & Hf).
  destruct (flat_absorb_lookup _ _ _ _ _ Hab) as (erRec & erResolver & _ & _ & Hl).
  rewrite Hl in Hp'. destruct (rules ix !! p) as [rec|] eqn:Hp; [| done].
  simpl in Hp'. simplify_eq. rewrite flat_absorbed_flag in Hf. by exists rec.
Qed.

(** ** A proof rule for invariants of the closure pass

    An invariant of well-formed indexes that survives entering a record and
    absorbing an embedded record survives [collectEmbeds]. *)
Lemma flat_collectEmbeds_preserves (I : RuleIndex → Prop) :
  (∀ ix r rec resolver,
      wf ix → I ix → rules ix !! r = Some rec → didCollectEmbeds rec = false →
      resolverOf ix rec = Some resolver →
      I (enter r (Embeds resolver (rule rec) (label rec)) ix)) →
  (∀ ix ix' r rec resolver e er,
      wf ix → I ix → rules ix !! r = Some rec → didCollectEmbeds rec = true →
      resolverOf ix rec = Some resolver →
      e ∈ Embeds resolver (rule rec) (label rec) →
      findRuleByLabel ix e (label rec) = Some er → flagged ix er →
      absorb resolver r er ix = Ok ix' → I ix') →
  ∀ fuel r ix ix',
    wf ix → I ix → collectEmbeds fuel r ix = Ok ix' → I ix'.
Proof.
  intros Henter Habsorb fuel.
  induction fuel as [|fuel IH]; intros r ix ix' Hwf HI Hrun; [done |].
  simpl in Hrun.
  destruct (rules ix !! r) as [rec|] eqn:Hr; [| done].
  destruct (didCollectEmbeds rec) eqn:Hfl; [by simplify_eq |].
  destruct (mrslv ix _ _) as [resolver|] eqn:Hres; [| done].
  set (L := Embeds resolver (rule rec) (label rec)) in *.
  pose proof (flat_grows_enter r rec L ix Hr Hfl) as Hin.
  cut (grows (enter r L ix) ix' ∧ I ix'); [tauto |].
  apply (forEach_Ok_inv _ (fun _ cur => grows (enter r L ix) cur ∧ I cur) _ _ _ Hrun).
  { split; [done |]. by apply Henter. }
  intros done e rest cur s2 HL [Hg HIc] Hstep. unfold embedStep in Hstep.
  destruct (findRuleByLabel cur e (label rec)) as [er|] eqn:Hfind;
    [| by simplify_eq].
  apply bind_Ok in Hstep as (s3 & Hrec & Hab).
  assert (Hwfc : wf cur) by (eapply flat_wf_grows; [| done]; by etrans).
  pose proof (IH _ _ _ Hwfc HIc Hrec) as HI3.
  apply flat_collectEmbeds_grows in Hrec as [Hg3 Hfer].
  pose proof (flat_absorb_grows _ _ _ _ _ Hab) as Hg2.
  assert (Hg03 : grows (enter r L ix) s3) by by etrans.
  split; [by etrans |].
  destruct (flat_grows_lookup _ _ _ _ Hg03 (flat_enter_lookup r rec L ix Hr)) as (rec3 & Hr3 & Hle).
  assert (Hgi3 : grows ix s3) by by etrans.
  apply (Habsorb s3 s2 r rec3 resolver e er); try done.
  - by eapply flat_wf_grows.
  - by apply Hle.
  - unfold resolverOf.
    by rewrite (grows_mrslv _ _ Hgi3), (le_rule _ _ Hle), (le_file _ _ Hle).
  - rewrite (le_rule _ _ Hle), (le_label _ _ Hle). simpl. fold L. rewrite HL.
    apply elem_of_app. right. by left.
  - rewrite (le_label _ _ Hle). simpl.
    by rewrite (flat_grows_findRuleByLabel _ _ _ _ Hg3).
Qed.

(** ** The embed relation *)

Lemma flat_grows_directEmbeds ix ix' rec rec' :
  grows ix ix' → rec_le rec rec' → directEmbeds ix' rec' = directEmbeds ix rec.
Proof.
  intros Hg Hle. unfold directEmbeds.
  by rewrite (flat_grows_resolverOf _ _ _ _ Hg Hle), (le_rule _ _ Hle), (le_label _ _ Hle).
Qed.

Lemma flat_grows_embedsTo ix ix' p e q :
  grows ix ix' → embedsTo ix p e q ↔ embedsTo ix' p e q.
Proof.
  intros Hg. split.
  - intros (rec & Hp & He & Hf).
    destruct (flat_grows_lookup _ _ _ _ Hg Hp) as (rec' & Hp' & Hle).
    exists rec'. split; [done |].
    rewrite (flat_grows_directEmbeds _ _ _ _ Hg Hle), (le_label _ _ Hle).
    by rewrite (flat_grows_findRuleByLabel _ _ _ _ Hg).
  - intros (rec' & Hp' & He & Hf).
    destruct (flat_grows_lookup_r _ _ _ _ Hg Hp') as (rec & Hp & Hle).
    exists rec. split; [done |].
    rewrite (flat_grows_directEmbeds _ _ _ _ Hg Hle), (le_label _ _ Hle) in *.
    by rewrite (flat_grows_findRuleByLabel _ _ _ _ Hg) in Hf.
Qed.

(** ** Where [embedded] and [embeds] come from *)

Lemma flat_embeds_from_grows ix ix' p rec rec' l :
  grows ix ix' → rec_le rec rec' → embeds_from ix p rec l → embeds_from ix' p rec' l.
Proof.
  intros Hg Hle [Hfl Hfrom]. split; [by apply Hle |].
  rewrite (flat_grows_directEmbeds _ _ _ _ Hg Hle).
  destruct Hfrom as [Hd | (e & q & recq & He & Hq & Hl & Hfq & Hin)]; [by left |].
  right. destruct (flat_grows_lookup _ _ _ _ Hg Hq) as (recq' & Hq' & Hleq).
  exists e, q, recq'. split; [by apply (flat_grows_embedsTo _ _ _ _ _ Hg) |].
  split; [done |].
  split; [by rewrite (le_lang _ _ Hleq), (le_lang _ _ Hle) |].
  split; [by apply Hleq |].
  eapply elem_of_prefix; [done |]. by apply Hleq.
Qed.

Lemma flat_embedded_justified_grows ix ix' :
  grows ix ix' → embedded_justified ix →
  (∀ q recq recq', rules ix !! q = Some recq → rules ix' !! q = Some recq' →
     embedded recq = false → embedded recq' = true →
     ∃ p e rec, embedsTo ix p e q ∧ rules ix !! p = Some rec ∧ lang rec = lang recq) →
  embedded_justified ix'.
Proof.
  intros Hg HI Hnew q recq' Hq' Hemb.
  destruct (flat_grows_lookup_r _ _ _ _ Hg Hq') as (recq & Hq & Hle).
  assert (∃ p e rec, embedsTo ix p e q ∧ rules ix !! p = Some rec ∧ lang rec = lang recq)
    as (p & e & rec & He & Hp & Hl).
  { destruct (embedded recq) eqn:Hemb0; [by eapply HI | by eapply Hnew]. }
  destruct (flat_grows_lookup _ _ _ _ Hg Hp) as (rec' & Hp' & Hlep).
  exists p, e, rec'. split; [by apply (flat_grows_embedsTo _ _ _ _ _ Hg) |].
  split; [done |]. by rewrite (le_lang _ _ Hlep), (le_lang _ _ Hle).
Qed.

Lemma flat_absorbed_embedded same erRec r er p rec :
  embedded (absorbed same erRec r er p rec) = true →
  embedded rec = true ∨ (same = true ∧ p = er).
Proof.
  unfold absorbed. destruct same; simpl; [| repeat case_bool_decide; auto].
  repeat case_bool_decide; simpl; auto.
Qed.

Lemma flat_absorbed_embeds same erRec r er p rec l :
  l ∈ embeds (absorbed same erRec r er p rec) →
  l ∈ embeds rec ∨ (same = true ∧ p = r ∧ l ∈ embeds erRec).
Proof.
  unfold absorbed. destruct same; simpl; [| repeat case_bool_decide; auto].
  repeat case_bool_decide; simpl; rewrite ?elem_of_app; intuition.
Qed.

Lemma flat_wf_same_name ix rec rslv :
  wf ix → (∃ p, rules ix !! p = Some rec) → resolverOf ix rec = Some rslv →
  lang rec = Name rslv.
Proof.
  intros Hwf [p Hp] Hr. destruct (wf_resolver _ Hwf _ _ Hp) as (rslv' & Hr' & ->).
  congruence.
Qed.

Lemma flat_collectEmbeds_embedded_justified fuel r ix ix' :
  wf ix → embedded_justified ix → collectEmbeds fuel r ix = Ok ix' →
  embedded_justified ix'.
Proof.
  apply (flat_collectEmbeds_preserves embedded_justified).
  - clear. intros ix r rec resolver Hwf HI Hr Hfl Hres.
    eapply flat_embedded_justified_grows; [by eapply flat_grows_enter | done |].
    intros q recq recq' Hq Hq' Hemb Hemb'. exfalso.
    destruct (decide (r = q)) as [->|Hne].
    + rewrite (flat_enter_lookup _ _ _ _ Hr) in Hq'. simplify_eq. simpl in *. congruence.
    + rewrite flat_enter_lookup_ne in Hq' by done. congruence.
  - clear. intros ix ix' r rec resolver e er Hwf HI Hr Hfl Hres He Hfind Hfer Hab.
    eapply flat_embedded_justified_grows; [by eapply flat_absorb_grows | done |].
    intros q recq recq' Hq Hq' Hemb Hemb'.
    destruct (flat_absorb_lookup _ _ _ _ _ Hab) as (erRec & erResolver & Her & Heres & Hl).
    rewrite Hl, Hq in Hq'. simpl in Hq'. simplify_eq.
    apply flat_absorbed_embedded in Hemb' as [? | [Hsame ->]]; [congruence |].
    apply bool_decide_eq_true in Hsame. simplify_eq.
    exists r, e, rec. split; [| split; [done |]].
    + exists rec. unfold directEmbeds. by rewrite Hres.
    + rewrite (flat_wf_same_name ix rec resolver), (flat_wf_same_name ix recq erResolver); eauto.
Qed.

Lemma flat_collectEmbeds_embeds_justified fuel r ix ix' :
  wf ix → embeds_justified ix → collectEmbeds fuel r ix = Ok ix' →
  embeds_justified ix'.
Proof.
  apply (flat_collectEmbeds_preserves embeds_justified).
  - clear. intros ix r rec resolver Hwf HI Hr Hfl Hres p rec' l Hp' Hin.
    pose proof (flat_grows_enter r rec (Embeds resolver (rule rec) (label rec)) ix Hr Hfl) as Hg.
    destruct (decide (r = p)) as [->|Hne].
    + rewrite (flat_enter_lookup _ _ _ _ Hr) in Hp'. simplify_eq. simpl in Hin.
      split; [done |]. left. unfold directEmbeds, resolverOf. simpl.
      unfold resolverOf in Hres. by rewrite Hres.
    + rewrite flat_enter_lookup_ne in Hp' by done.
      destruct (flat_grows_lookup _ _ _ _ Hg Hp') as (rec'' & Hp'' & Hle).
      rewrite flat_enter_lookup_ne in Hp'' by done. simplify_eq.
      eapply flat_embeds_from_grows; [done | done |]. by apply HI.
  - clear. intros ix ix' r rec resolver e er Hwf HI Hr Hfl Hres He Hfind Hfer Hab p rec' l Hp' Hin.
    pose proof (flat_absorb_grows _ _ _ _ _ Hab) as Hg.
    destruct (flat_grows_lookup_r _ _ _ _ Hg Hp') as (rec0 & Hp & Hle).
    destruct (flat_absorb_lookup _ _ _ _ _ Hab) as (erRec & erResolver & Her & Heres & Hl).
    rewrite Hl, Hp in Hp'. simpl in Hp'. simplify_eq.
    apply flat_absorbed_embeds in Hin as [Hin | (Hsame & Hpr & Hin)].
    + eapply flat_embeds_from_grows; [done | done |]. by apply HI.
    + subst p. assert (rec0 = rec) as -> by congruence.
      apply bool_decide_eq_true in Hsame.
      destruct (flat_grows_lookup _ _ _ _ Hg Her) as (erRec' & Her' & Hle').
      split; [by apply Hle |]. right. exists e, er, erRec'.
      split.
      { apply (flat_grows_embedsTo _ _ _ _ _ Hg). exists rec.
        unfold directEmbeds. by rewrite Hres. }
      split; [done |].
      split.
      { rewrite (le_lang _ _ Hle'), (le_lang _ _ Hle).
        rewrite (flat_wf_same_name ix rec resolver), (flat_wf_same_name ix erRec erResolver); eauto. }
      destruct Hfer as (erRec2 & Her2 & Hf2). simplify_eq.
      split; [by apply Hle' |].
      eapply elem_of_prefix; [done |]. by apply Hle'.
Qed.

(** ** What a completed closure step guarantees *)

Lemma flat_edgeDone_grows ix0 ix ix' p e :
  grows ix ix' → edgeDone ix0 ix p e → edgeDone ix0 ix' p e.
Proof.
  intros Hg Hdone rec' q rec0 Hp' Hfind H0.
  destruct (flat_grows_lookup_r _ _ _ _ Hg Hp') as (rec & Hp & Hle).
  rewrite (flat_grows_findRuleByLabel _ _ _ _ Hg), (le_label _ _ Hle) in Hfind.
  destruct (Hdone rec q rec0 Hp Hfind H0) as [Himp Hemb]. split.
  - intros x Hx. eapply elem_of_prefix; [by apply Himp | apply Hle].
  - intros recq' Hq' Hl.
    destruct (flat_grows_lookup_r _ _ _ _ Hg Hq') as (recq & Hq & Hleq).
    apply Hleq, (Hemb recq Hq).
    by rewrite <- (le_lang _ _ Hleq), <- (le_lang _ _ Hle).
Qed.

Lemma flat_closed_grows ix0 ix ix' p :
  grows ix ix' → closed ix0 ix p → closed ix0 ix' p.
Proof.
  intros Hg (rec & Hp & Hfl & Hall).
  destruct (flat_grows_lookup _ _ _ _ Hg Hp) as (rec' & Hp' & Hle).
  exists rec'. split; [done |]. split; [by apply Hle |].
  intros e He. rewrite (flat_grows_directEmbeds _ _ _ _ Hg Hle) in He.
  destruct (Hall e He) as [Hin Hdone]. split.
  - eapply elem_of_prefix; [done |]. by apply Hle.
  - by eapply flat_edgeDone_grows.
Qed.

Lemma flat_absorbed_importedAs same erRec r er rec :
  importedAs erRec ⊆ importedAs (absorbed same erRec r er r rec).
Proof.
  unfold absorbed. rewrite (bool_decide_eq_true_2 (r = r)) by done.
  intros x Hx. simpl. apply elem_of_app. by right.
Qed.

Lemma flat_absorbed_sets_embedded erRec r er rec :
  embedded (absorbed true erRec r er er rec) = true.
Proof.
  unfold absorbed. rewrite (bool_decide_eq_true_2 (er = er)) by done.
  simpl. by repeat case_bool_decide.
Qed.

Lemma flat_flagged_dec ix p : flagged ix p ∨ ¬ flagged ix p.
Proof.
  unfold flagged. destruct (rules ix !! p) as [rec|]; [| right; by intros (? & ? & ?)].
  destruct (didCollectEmbeds rec) eqn:E; [left; eauto |].
  right. intros (? & ? & ?). congruence.
Qed.

(** Every record whose closure flag is set during a call of [collectEmbeds]
    is closed when the call returns. *)
Lemma flat_collectEmbeds_closes fuel r ix0 ix ix' :
  wf ix → grows ix0 ix → collectEmbeds fuel r ix = Ok ix' →
  ∀ p, ¬ flagged ix p → flagged ix' p → closed ix0 ix' p.
Proof.
  revert r ix ix'. induction fuel as [|fuel IH]; intros r ix ix' Hwf Hg0 Hrun; [done |].
  simpl in Hrun.
  destruct (rules ix !! r) as [rec|] eqn:Hr; [| done].
  destruct (didCollectEmbeds rec) eqn:Hfl.
  { simplify_eq. by intros p Hn Hf. }
  destruct (mrslv ix _ _) as [resolver|] eqn:Hres; [| done].
  set (L := Embeds resolver (rule rec) (label rec)) in *.
  pose proof (flat_grows_enter r rec L ix Hr Hfl) as Hin.
  pose proof (flat_enter_lookup r rec L ix Hr) as Hr1.
  assert (HJ : grows (enter r L ix) ix'
    ∧ (∀ p, p ≠ r → ¬ flagged ix p → flagged ix' p → closed ix0 ix' p)
    ∧ (∀ e, e ∈ L → edgeDone ix0 ix' r e)).
  { apply (forEach_Ok_inv _
      (fun done cur => grows (enter r L ix) cur
         ∧ (∀ p, p ≠ r → ¬ flagged ix p → flagged cur p → closed ix0 cur p)
         ∧ (∀ e, e ∈ done → edgeDone ix0 cur r e)) _ _ _ Hrun).
    { split; [done |]. split; [| by intros e He%elem_of_nil].
      intros p Hne Hnf (recp & Hp & Hfp). exfalso. apply Hnf.
      rewrite flat_enter_lookup_ne in Hp by done. by exists recp. }
    intros done e rest cur s2 HL (Hg & Hothers & Hdone) Hstep.
    unfold embedStep in Hstep.
    destruct (findRuleByLabel cur e (label rec)) as [er|] eqn:Hfind.
    2:{ simplify_eq. split; [done |]. split; [done |].
        intros e' [He' | ->%list_elem_of_singleton]%elem_of_app; [by apply Hdone |].
        intros rec2 q rec0 Hp2 Hf2 _.
        destruct (flat_grows_lookup_r _ _ _ _ Hg Hp2) as (rec1 & Hp1 & Hle).
        rewrite Hr1 in Hp1. simplify_eq.
        rewrite (le_label _ _ Hle) in Hf2. simpl in Hf2. congruence. }
    apply bind_Ok in Hstep as (s3 & Hrec & Hab).
    assert (Hgc : grows ix cur) by by etrans.
    assert (Hwfc : wf cur) by by eapply flat_wf_grows.
    pose proof (IH _ _ _ Hwfc (transitivity Hg0 Hgc) Hrec) as Hcl3.
    apply flat_collectEmbeds_grows in Hrec as [Hg3 Hfer].
    pose proof (flat_absorb_grows _ _ _ _ _ Hab) as Hg2.
    split; [etrans; [exact Hg |]; etrans; [exact Hg3 |]; exact Hg2 |].
    split.
    - intros p Hne Hnf Hf2. apply (flat_closed_grows _ s3); [done |].
      apply (flat_absorb_flagged _ _ _ _ _ _ Hab) in Hf2.
      destruct (flat_flagged_dec cur p) as [Hfc | Hnfc].
      + apply (flat_closed_grows _ cur); [done |]. by apply Hothers.
      + by apply Hcl3.
    - intros e' [He' | ->%list_elem_of_singleton]%elem_of_app.
      { apply (flat_edgeDone_grows _ cur); [by etrans |]. by apply Hdone. }
      intros rec2 q rec0 Hp2 Hf2 H0.
      destruct (flat_absorb_lookup _ _ _ _ _ Hab) as (erRec & erResolver & Her & Heres & Hl).
      assert (Hg13 : grows (enter r L ix) s3) by by etrans.
      destruct (flat_grows_lookup _ _ _ _ Hg13 Hr1) as (rec3 & Hp3 & Hle3).
      assert (Hg03 : grows ix0 s3).
      { etrans; [exact Hg0 |]. etrans; [exact Hgc |]. exact Hg3. }
      assert (Hwf3 : wf s3) by (eapply flat_wf_grows; [| exact Hwf]; by etrans).
      pose proof Hp2 as Hp2'. rewrite Hl, Hp3 in Hp2'. simpl in Hp2'. simplify_eq.
      assert (q = er) as ->.
      { rewrite (flat_grows_findRuleByLabel _ _ _ _ Hg2) in Hf2.
        rewrite (flat_grows_findRuleByLabel _ _ _ _ Hg3) in Hf2.
        destruct (flat_grows_lookup_r _ _ _ _ Hg2 Hp2) as (rec3' & Hp3' & Hle2).
        rewrite (le_label _ _ Hle2) in Hf2. simplify_eq.
        rewrite (le_label _ _ Hle3) in Hf2. simpl in Hf2. congruence. }
      destruct (flat_grows_lookup _ _ _ _ Hg03 H0) as (erRec' & Her' & Hle0).
      simplify_eq. split.
      + intros x Hx. apply flat_absorbed_importedAs.
        eapply elem_of_prefix; [done |]. apply Hle0.
      + intros recq Hq Hlang. rewrite Hl, Her in Hq. simpl in Hq. simplify_eq.
        assert (Hsame : Name resolver = Name erResolver).
        { rewrite <- (flat_wf_same_name s3 erRec erResolver) by eauto.
          rewrite <- (flat_wf_same_name s3 rec3 resolver); [| done | eauto |].
          - destruct (flat_grows_lookup_r _ _ _ _ Hg2 Hp2) as (rec3' & Hp3' & Hle2).
            destruct (flat_grows_lookup _ _ _ _ Hg2 Her) as (erRec2 & Her2 & Hle2').
            rewrite Hl, Her in Her2. simpl in Her2. simplify_eq.
            by rewrite <- (le_lang _ _ Hle2), <- (le_lang _ _ Hle2').
          - unfold resolverOf.
            rewrite (grows_mrslv _ _ (transitivity Hin Hg13)).
            by rewrite (le_rule _ _ Hle3), (le_file _ _ Hle3). }
        rewrite (bool_decide_eq_true_2 _ Hsame). apply flat_absorbed_sets_embedded. }
  destruct HJ as (Hg & Hothers & Hdone).
  intros p Hnf Hf. destruct (decide (p = r)) as [->|Hne]; [| by apply Hothers].
  destruct (flat_grows_lookup _ _ _ _ Hg Hr1) as (rec' & Hp' & Hle).
  exists rec'. split; [done |]. split; [by apply Hle |].
  intros e He.
  assert (HeL : e ∈ L).
  { assert (Hle0 : rec_le rec rec').
    { etrans; [| exact Hle]. split; simpl; try done; congruence. }
    rewrite (flat_grows_directEmbeds ix ix' rec rec' (transitivity Hin Hg) Hle0) in He.
    unfold directEmbeds, resolverOf in He. by rewrite Hres in He. }
  split; [| by apply Hdone].
  eapply elem_of_prefix; [exact HeL |]. by apply Hle.
Qed.

(** ** The closure pass of [Finish] *)

Lemma flat_fresh_not_flagged ix p : fresh ix → ¬ flagged ix p.
Proof. intros Hfr (rec & Hp & Hf). destruct (Hfr p rec Hp). congruence. Qed.

Lemma flat_closure_pass fuel ix0 ix1 :
  wf ix0 → fresh ix0 →
  closurePass fuel ix0 = Ok ix1 →
  grows ix0 ix1
  ∧ (∀ p rec, rules ix1 !! p = Some rec → closed ix0 ix1 p)
  ∧ embedded_justified ix1 ∧ embeds_justified ix1.
Proof.
  intros Hwf Hfresh Hrun. unfold closurePass in Hrun.
  cut (grows ix0 ix1
       ∧ (∀ p, flagged ix1 p → closed ix0 ix1 p)
       ∧ (∀ p, p ∈ seq 0 (length (rules ix0)) → flagged ix1 p)
       ∧ embedded_justified ix1 ∧ embeds_justified ix1).
  { intros (Hg & Hcl & Hall & Hj1 & Hj2). split; [done |]. split; [| done].
    intros p rec Hp. apply Hcl, Hall, elem_of_seq.
    apply lookup_lt_Some in Hp. rewrite (flat_grows_length _ _ Hg) in Hp. lia. }
  apply (forEach_Ok_inv _
    (fun done cur => grows ix0 cur
       ∧ (∀ p, flagged cur p → closed ix0 cur p)
       ∧ (∀ p, p ∈ done → flagged cur p)
       ∧ embedded_justified cur ∧ embeds_justified cur) _ _ _ Hrun).
  { split; [done |]. split; [by intros p Hf%flat_fresh_not_flagged |].
    split; [by intros p Hp%elem_of_nil |]. split.
    - intros q recq Hq Hemb. destruct (Hfresh q recq Hq) as (_ & ? & _). congruence.
    - intros p rec l Hp Hin. destruct (Hfresh p rec Hp) as (_ & _ & Hemp).
      rewrite Hemp in Hin. by apply elem_of_nil in Hin. }
  intros done p rest cur s2 _ (Hg & Hcl & Hdone & Hj1 & Hj2) Hstep.
  assert (Hwfc : wf cur) by by eapply flat_wf_grows.
  pose proof (flat_collectEmbeds_closes _ _ _ _ _ Hwfc Hg Hstep) as Hnew.
  pose proof (flat_collectEmbeds_embedded_justified _ _ _ _ Hwfc Hj1 Hstep) as Hj1'.
  pose proof (flat_collectEmbeds_embeds_justified _ _ _ _ Hwfc Hj2 Hstep) as Hj2'.
  apply flat_collectEmbeds_grows in Hstep as [Hg2 Hfp].
  split; [by etrans |]. split; [| split; [| done]].
  - intros q Hfq. destruct (flat_flagged_dec cur q) as [Hfc | Hnfc].
    + apply (flat_closed_grows _ cur); [done |]. by apply Hcl.
    + by apply Hnew.
  - intros q [Hq | ->%list_elem_of_singleton]%elem_of_app; [| done].
    eapply flat_grows_flagged; [done |]. by apply Hdone.
Qed.

Lemma flat_finishIndex_Ok_inv fuel ix ix' :
  finishIndex fuel ix = Ok ix' →
  ∃ ix1, closurePass fuel ix = Ok ix1
         ∧ ix' = setDidFinish (buildImportIndex ix1).
Proof.
  unfold finishIndex, closurePass. intros (ix1 & Hrun & Hfin)%bind_Ok.
  exists ix1. split; [done |]. congruence.
Qed.

Lemma flat_Finish_Ok_inv fuel w w' :
  Finish fuel w = Ok w' →
  finishIndex fuel (index w) = Ok (index w') ∧ logged w' = logged w.
Proof.
  unfold Finish, lift. destruct (finishIndex fuel (index w)); [| done | done].
  by intros [= <-].
Qed.

(** ** The import index *)

(** Each bucket lists, in registration order and without repetition, the
    records that are not embedded and carry the import. *)
Lemma flat_buildImportIndex_lookup ix imp :
  importMap (buildImportIndex ix) !!! imp
  = filter (fun p => indexable ix imp p = true) (seq 0 (length (rules ix))).
Proof.
  unfold buildImportIndex. cbn [importMap]. generalize (length (rules ix)). intros n.
  induction n as [|n IH]; [done |].
  rewrite seq_S, foldl_snoc, filter_app, <- IH. cbn [Nat.add].
  rewrite filter_cons, filter_nil. unfold indexable.
  destruct (rules ix !! n) as [rec|]; [| by rewrite decide_False, app_nil_r by done].
  destruct (embedded rec); cbn [negb andb];
    [by rewrite decide_False, app_nil_r by done |].
  rewrite indexImports_lookup.
  case_bool_decide; [by rewrite decide_True by done |].
  by rewrite decide_False, app_nil_r by done.
Qed.

Lemma flat_buildImportIndex_elem_of ix imp p :
  p ∈ importMap (buildImportIndex ix) !!! imp
  ↔ ∃ rec, rules ix !! p = Some rec ∧ embedded rec = false ∧ imp ∈ importedAs rec.
Proof.
  rewrite flat_buildImportIndex_lookup, list_elem_of_filter, elem_of_seq. unfold indexable.
  split.
  - intros [Hi _]. destruct (rules ix !! p) as [rec|]; [| done].
    apply andb_true_iff in Hi as [He Hin]. apply bool_decide_eq_true in Hin.
    exists rec. by destruct (embedded rec).
  - intros (rec & Hp & He & Hin). rewrite Hp, He. simpl. split.
    + by apply bool_decide_eq_true.
    + apply lookup_lt_Some in Hp. lia.
Qed.

(** ** Queries *)

Lemma flat_FindRulesByImport_elem_of ix imp lang' fr :
  fr ∈ FindRulesByImport ix imp lang'
  ↔ ∃ p rec, p ∈ importMap ix !!! imp ∧ rules ix !! p = Some rec
             ∧ lang rec = lang' ∧ fr = FindResult.mk (label rec) (embeds rec).
Proof.
  unfold FindRulesByImport. rewrite list_elem_of_omap. split.
  - intros (p & Hp & Hsome). destruct (rules ix !! p) as [rec|] eqn:Hr; [| done].
    case_decide; [| done]. exists p, rec. by simplify_eq.
  - intros (p & rec & Hp & Hr & Hl & ->). exists p. split; [done |].
    rewrite Hr. by rewrite decide_True.
Qed.

(** ** The index after [Finish] *)

Lemma flat_grows_buildImportIndex ix : grows ix (setDidFinish (buildImportIndex ix)).
Proof. split; [| done..]. apply Forall_Forall2_diag, Forall_forall. by intros. Qed.

Lemma flat_finishIndex_grows fuel ix ix' : finishIndex fuel ix = Ok ix' → grows ix ix'.
Proof.
  intros (ix1 & Hrun & ->)%flat_finishIndex_Ok_inv.
  etrans; [| apply flat_grows_buildImportIndex].
  apply (forEach_Ok_inv _ (fun _ cur => grows ix cur) _ _ _ Hrun); [done |].
  intros _ p _ s1 s2 _ Hg [Hg2 _]%flat_collectEmbeds_grows. by etrans.
Qed.

Lemma flat_finishIndex_finished fuel ix ix' :
  wf ix → fresh ix → finishIndex fuel ix = Ok ix' → finished ix ix'.
Proof.
  intros Hwf Hfresh Hfin. pose proof (flat_finishIndex_grows _ _ _ Hfin) as Hg.
  apply flat_finishIndex_Ok_inv in Hfin as (ix1 & Hrun & ->).
  destruct (flat_closure_pass _ _ _ Hwf Hfresh Hrun) as (Hg1 & Hcl & Hj1 & Hj2).
  split; [exact Hg | exact Hcl | exact Hj1 | exact Hj2 | done |].
  intros imp p. exact (flat_buildImportIndex_elem_of ix1 imp p).
Qed.

Lemma flat_Finish_finished m calls fuel w w' :
  registering m calls (index w) → Finish fuel w = Ok w' →
  finished (index w) (index w').
Proof.
  intros Hreg [Hfin _]%flat_Finish_Ok_inv.
  eapply flat_finishIndex_finished; [apply Hreg | apply Hreg | done].
Qed.

Lemma flat_embeds_sourced_grows ix ix' :
  grows ix ix' → embeds_sourced ix →
  (∀ p rec rec' l, rules ix !! p = Some rec → rules ix' !! p = Some rec' →
     l ∈ embeds rec' → l ∉ embeds rec →
     ∃ q recq, rules ix !! q = Some recq ∧ lang recq = lang rec
               ∧ l ∈ directEmbeds ix recq) →
  embeds_sourced ix'.
Proof.
  intros Hg HI Hnew p rec' l Hp' Hin.
  destruct (flat_grows_lookup_r _ _ _ _ Hg Hp') as (rec & Hp & Hle).
  assert (∃ q recq, rules ix !! q = Some recq ∧ lang recq = lang rec
                    ∧ l ∈ directEmbeds ix recq) as (q & recq & Hq & Hl & Hd).
  { destruct (decide (l ∈ embeds rec)); [by eapply HI | by eapply Hnew]. }
  destruct (flat_grows_lookup _ _ _ _ Hg Hq) as (recq' & Hq' & Hleq).
  exists q, recq'. split; [done |].
  split; [by rewrite (le_lang _ _ Hleq), (le_lang _ _ Hle) |].
  by rewrite (flat_grows_directEmbeds _ _ _ _ Hg Hleq).
Qed.

Lemma flat_collectEmbeds_embeds_sourced fuel r ix ix' :
  wf ix → embeds_sourced ix → collectEmbeds fuel r ix = Ok ix' →
  embeds_sourced ix'.
Proof.
  apply (flat_collectEmbeds_preserves embeds_sourced).
  - clear. intros ix r rec resolver Hwf HI Hr Hfl Hres.
    eapply flat_embeds_sourced_grows; [by eapply flat_grows_enter | done |].
    intros p rec0 rec' l Hp Hp' Hin Hnin.
    destruct (decide (r = p)) as [->|Hne].
    + rewrite (flat_enter_lookup _ _ _ _ Hr) in Hp'.
      assert (rec0 = rec) as -> by congruence. injection Hp' as <-.
      exists p, rec. split; [done |]. split; [done |].
      unfold directEmbeds. by rewrite Hres.
    + rewrite flat_enter_lookup_ne in Hp' by done. congruence.
  - clear. intros ix ix' r rec resolver e er Hwf HI Hr Hfl Hres He Hfind Hfer Hab.
    eapply flat_embeds_sourced_grows; [by eapply flat_absorb_grows | done |].
    intros p rec0 rec' l Hp Hp' Hin Hnin.
    destruct (flat_absorb_lookup _ _ _ _ _ Hab) as (erRec & erResolver & Her & Heres & Hl).
    rewrite Hl, Hp in Hp'. simpl in Hp'. simplify_eq.
    apply flat_absorbed_embeds in Hin as [Hin | (Hsame & Hpr & Hin)]; [done |].
    subst p. assert (rec0 = rec) as -> by congruence.
    apply bool_decide_eq_true in Hsame.
    destruct (HI er erRec l Her Hin) as (q & recq & Hq & Hlq & Hd).
    exists q, recq. split; [done |]. split; [| done].
    rewrite Hlq.
    rewrite (flat_wf_same_name ix rec resolver), (flat_wf_same_name ix erRec erResolver); eauto.
Qed.

Lemma flat_finishIndex_embeds_sourced fuel ix ix' :
  wf ix → fresh ix → finishIndex fuel ix = Ok ix' → embeds_sourced ix'.
Proof.
  intros Hwf Hfresh (ix1 & Hrun & ->)%flat_finishIndex_Ok_inv.
  cut (grows ix ix1 ∧ embeds_sourced ix1); [by intros [_ ?] |].
  apply (forEach_Ok_inv _ (fun _ cur => grows ix cur ∧ embeds_sourced cur) _ _ _ Hrun).
  { split; [done |]. intros p rec l Hp Hin.
    destruct (Hfresh p rec Hp) as (_ & _ & Hemp). rewrite Hemp in Hin.
    by apply elem_of_nil in Hin. }
  intros _ p _ s1 s2 _ [Hg HI] Hstep. split.
  - apply flat_collectEmbeds_grows in Hstep as [Hg2 _]. by etrans.
  - eapply flat_collectEmbeds_embeds_sourced; [| done | done]. by eapply flat_wf_grows.
Qed.

(** ** Records whose embed labels resolve to nothing *)

Lemma flat_absorbed_other same erRec r er p rec :
  p ≠ r →
  importedAs (absorbed same erRec r er p rec) = importedAs rec
  ∧ embeds (absorbed same erRec r er p rec) = embeds rec.
Proof.
  intros Hne. unfold absorbed. rewrite (bool_decide_eq_false_2 (p = r)) by done.
  rewrite andb_false_r. by destruct (same && bool_decide (p = er)).
Qed.

Lemma flat_collectEmbeds_untouched fuel r ix0 p ix ix' :
  (∀ e q, ¬ embedsTo ix0 p e q) →
  wf ix → grows ix0 ix ∧ untouched ix0 p ix → collectEmbeds fuel r ix = Ok ix' →
  grows ix0 ix' ∧ untouched ix0 p ix'.
Proof.
  intros Hnone.
  apply (flat_collectEmbeds_preserves (fun ix => grows ix0 ix ∧ untouched ix0 p ix)).
  - clear -Hnone. intros ix r rec resolver Hwf [Hg0 HI] Hr Hfl Hres.
    pose proof (flat_grows_enter r rec (Embeds resolver (rule rec) (label rec)) ix Hr Hfl) as Hg.
    split; [by etrans |]. intros rec0 rec' H0 Hp'.
    destruct (decide (r = p)) as [->|Hne].
    + rewrite (flat_enter_lookup _ _ _ _ Hr) in Hp'. injection Hp' as <-. simpl.
      split; [by apply (HI rec0 rec) |]. intros _.
      unfold directEmbeds, resolverOf. simpl. unfold resolverOf in Hres.
      by rewrite Hres.
    + rewrite flat_enter_lookup_ne in Hp' by done.
      destruct (HI rec0 rec' H0 Hp') as [Himp Hemb]. split; [done |].
      intros Hf. rewrite (Hemb Hf). symmetry. by apply flat_grows_directEmbeds.
  - clear -Hnone. intros ix ix' r rec resolver e er Hwf [Hg0 HI] Hr Hfl Hres He Hfind Hfer Hab.
    pose proof (flat_absorb_grows _ _ _ _ _ Hab) as Hg.
    split; [by etrans |]. intros rec0 rec' H0 Hp'.
    destruct (flat_absorb_lookup _ _ _ _ _ Hab) as (erRec & erResolver & Her & Heres & Hl).
    destruct (flat_grows_lookup_r _ _ _ _ Hg Hp') as (rec1 & Hp1 & Hle).
    rewrite Hl, Hp1 in Hp'. injection Hp' as <-.
    destruct (decide (p = r)) as [->|Hne].
    + exfalso. apply (Hnone e er). apply (flat_grows_embedsTo _ _ _ _ _ Hg0).
      exists rec. unfold directEmbeds. by rewrite Hres.
    + destruct (flat_absorbed_other (bool_decide (Name resolver = Name erResolver))
                  erRec r er p rec1 Hne) as [-> Hemb].
      destruct (HI rec0 rec1 H0 Hp1) as [Himp Hemb1]. split; [done |].
      rewrite flat_absorbed_flag. intros Hf. rewrite Hemb, (Hemb1 Hf). symmetry.
      by apply flat_grows_directEmbeds.
Qed.

(** ** Indexes without embed cycles *)

Lemma flat_stays_settled ix0 ixA p ix : stays ix0 ixA p ix → settled ix0 ix p.
Proof. intros Hs p' Hp'. by apply Hs. Qed.

Lemma flat_settled_stays ix0 ix p : settled ix0 ix p → stays ix0 ix p ix.
Proof.
  intros Hs p' Hp'. split; [by apply Hs |].
  intros recA rec HA Hr. by simplify_eq.
Qed.

Lemma flat_enter_stays ix0 ixA p ix r rec L :
  rules ix !! r = Some rec → didCollectEmbeds rec = false →
  stays ix0 ixA p ix → stays ix0 ixA p (enter r L ix).
Proof.
  intros Hr Hfl Hs p' Hp'. destruct (Hs p' Hp') as [(recp & Hrp & Hfp & Hall) Hfro].
  assert (Hne : r ≠ p') by (intros ->; congruence).
  split.
  - exists recp. rewrite flat_enter_lookup_ne by done. split; [done |]. split; [done |].
    intros q Hq. destruct (Hall q Hq) as (recq & Hrq & Hfq & Hsub).
    exists recq. rewrite flat_enter_lookup_ne by (intros ->; congruence). done.
  - intros recA rec' HA Hr'. rewrite flat_enter_lookup_ne in Hr' by done. by eapply Hfro.
Qed.

Lemma flat_absorbed_importedAs_eq same erRec r er p rec :
  importedAs (absorbed same erRec r er p rec)
  = if bool_decide (p = r) then importedAs rec ++ importedAs erRec
    else importedAs rec.
Proof.
  unfold absorbed. destruct same; simpl; repeat case_bool_decide; simpl; done.
Qed.

Lemma flat_absorb_stays ix0 ixA p ix ix' resolver r rec e er :
  grows ix0 ix → rules ix !! r = Some rec →
  e ∈ directEmbeds ix rec → findRuleByLabel ix e (label rec) = Some er →
  absorb resolver r er ix = Ok ix' →
  stays ix0 ixA p ix → stays ix0 ixA p ix'.
Proof.
  intros Hg0 Hr He Hfind Hab Hs.
  destruct (flat_absorb_lookup _ _ _ _ _ Hab) as (erRec & erResolver & Her & Heres & Hl).
  assert (Hedge : embedsSome ix0 r er).
  { exists e. apply (flat_grows_embedsTo _ _ _ _ _ Hg0). by exists rec. }
  (* the imports of [er] are already in [r] whenever [r] is reached from [p] *)
  assert (Hin : rtc (embedsSome ix0) p r → importedAs erRec ⊆ importedAs rec).
  { intros Hpr. destruct (Hs r Hpr) as [(rec' & Hr' & _ & Hall) _].
    assert (rec' = rec) as -> by congruence.
    destruct (Hall er Hedge) as (recq & Hrq & _ & Hsub).
    assert (recq = erRec) as -> by congruence. done. }
  intros p' Hp'. destruct (Hs p' Hp') as [(recp & Hrp & Hfp & Hall) Hfro].
  split.
  - exists (absorbed (bool_decide (Name resolver = Name erResolver)) erRec r er p' recp).
    split; [by rewrite Hl, Hrp |]. split; [by rewrite flat_absorbed_flag |].
    intros q Hq. destruct (Hall q Hq) as (recq & Hrq & Hfq & Hsub).
    exists (absorbed (bool_decide (Name resolver = Name erResolver)) erRec r er q recq).
    split; [by rewrite Hl, Hrq |]. split; [by rewrite flat_absorbed_flag |].
    intros x Hx. rewrite flat_absorbed_importedAs_eq in Hx.
    assert (x ∈ importedAs recq) as Hx'.
    { destruct (decide (q = r)) as [->|Hqr].
      - rewrite bool_decide_eq_true_2 in Hx by done.
        apply elem_of_app in Hx as [Hx | Hx]; [done |].
        assert (recq = rec) as -> by congruence.
        apply Hin; [| done]. eapply rtc_r; [exact Hp' | done].
      - by rewrite bool_decide_eq_false_2 in Hx by done. }
    clear Hx. apply Hsub in Hx'. rewrite flat_absorbed_importedAs_eq.
    destruct (bool_decide (p' = r)); [apply elem_of_app; by left | done].
  - intros recA rec' HA Hr'. rewrite Hl, Hrp in Hr'. injection Hr' as <-.
    intros x Hx. rewrite flat_absorbed_importedAs_eq in Hx.
    apply (Hfro recA recp HA Hrp).
    destruct (decide (p' = r)) as [->|Hpr].
    + rewrite bool_decide_eq_true_2 in Hx by done.
      apply elem_of_app in Hx as [Hx | Hx]; [done |].
      assert (recp = rec) as -> by congruence. by apply Hin.
    + by rewrite bool_decide_eq_false_2 in Hx by done.
Qed.

Lemma flat_collectEmbeds_stays fuel r ix0 ixA p ix ix' :
  wf ix → grows ix0 ix ∧ stays ix0 ixA p ix → collectEmbeds fuel r ix = Ok ix' →
  grows ix0 ix' ∧ stays ix0 ixA p ix'.
Proof.
  apply (flat_collectEmbeds_preserves (fun ix => grows ix0 ix ∧ stays ix0 ixA p ix)).
  - intros ix1 r1 rec resolver Hwf [Hg Hs] Hr Hfl Hres. split.
    + etrans; [done |]. by eapply flat_grows_enter.
    + by eapply flat_enter_stays.
  - intros ix1 ix2 r1 rec resolver e er Hwf [Hg Hs] Hr Hfl Hres He Hfind Hfer Hab.
    split.
    + etrans; [done |]. by eapply flat_absorb_grows.
    + eapply flat_absorb_stays; [done | done | | done | done | done].
      unfold directEmbeds. by rewrite Hres.
Qed.

Lemma flat_stays_self ix0 ixA p ix rec rec' :
  stays ix0 ixA p ix → rules ixA !! p = Some rec → rules ix !! p = Some rec' →
  importedAs rec' ⊆ importedAs rec.
Proof. intros Hs HA Hr. by apply (Hs p (rtc_refl _ _)). Qed.

Lemma flat_collectEmbeds_settled fuel r ix0 p ix ix' :
  wf ix → grows ix0 ix → settled ix0 ix p → collectEmbeds fuel r ix = Ok ix' →
  stays ix0 ix p ix'.
Proof.
  intros Hwf Hg Hs Hrun.
  by apply (flat_collectEmbeds_stays fuel r ix0 ix p ix ix' Hwf (conj Hg (flat_settled_stays _ _ _ Hs))).
Qed.

(** Without embed cycles, a record whose closure flag is set during a call
    of [collectEmbeds] is settled when the call returns.  The records whose
    flag is set but that are not settled when the call starts are the ones
    the call comes from: they reach [r]. *)
Lemma flat_collectEmbeds_settles fuel r ix0 ix ix' :
  acyclic ix0 → wf ix → grows ix0 ix →
  (∀ p, flagged ix p → settled ix0 ix p ∨ tc (embedsSome ix0) p r) →
  collectEmbeds fuel r ix = Ok ix' →
  settled ix0 ix' r ∧ ∀ p, ¬ flagged ix p → flagged ix' p → settled ix0 ix' p.
Proof.
  intros Hac. revert r ix ix'.
  induction fuel as [|fuel IH]; intros r ix ix' Hwf Hg0 Hpre Hrun; [done |].
  simpl in Hrun.
  destruct (rules ix !! r) as [rec|] eqn:Hr; [| done].
  destruct (didCollectEmbeds rec) eqn:Hfl.
  { simplify_eq. split; [| by intros p Hn Hf].
    destruct (Hpre r) as [Hs | Hcyc]; [by exists rec | done | by apply Hac in Hcyc]. }
  destruct (mrslv ix _ _) as [resolver|] eqn:Hres; [| done].
  set (L := Embeds resolver (rule rec) (label rec)) in *.
  pose proof (flat_grows_enter r rec L ix Hr Hfl) as Hin.
  pose proof (flat_enter_lookup r rec L ix Hr) as Hr1.
  assert (HdL : directEmbeds ix rec = L).
  { unfold directEmbeds, resolverOf. by rewrite Hres. }
  assert (Hedge : ∀ e q, e ∈ L → findRuleByLabel ix e (label rec) = Some q →
                         embedsSome ix0 r q).
  { intros e q He Hfind. exists e. apply (flat_grows_embedsTo _ _ _ _ _ Hg0).
    exists rec. by rewrite HdL. }
  assert (HJ : grows (enter r L ix) ix'
    ∧ (∀ p, flagged ix' p →
         p = r ∨ settled ix0 ix' p ∨ (flagged ix p ∧ tc (embedsSome ix0) p r))
    ∧ (∀ e, e ∈ L → ∀ q, findRuleByLabel ix e (label rec) = Some q →
         settled ix0 ix' q
         ∧ ∃ recq recr, rules ix' !! q = Some recq ∧ rules ix' !! r = Some recr
                        ∧ importedAs recq ⊆ importedAs recr)).
  { apply (forEach_Ok_inv _
      (fun done cur => grows (enter r L ix) cur
         ∧ (∀ p, flagged cur p →
              p = r ∨ settled ix0 cur p ∨ (flagged ix p ∧ tc (embedsSome ix0) p r))
         ∧ (∀ e, e ∈ done → ∀ q, findRuleByLabel ix e (label rec) = Some q →
              settled ix0 cur q
              ∧ ∃ recq recr, rules cur !! q = Some recq ∧ rules cur !! r = Some recr
                             ∧ importedAs recq ⊆ importedAs recr)) _ _ _ Hrun).
    { split; [done |]. split; [| by intros e He%elem_of_nil].
      intros p (recp & Hp & Hfp). destruct (decide (p = r)) as [->|Hne]; [by left |].
      right. rewrite flat_enter_lookup_ne in Hp by done.
      destruct (Hpre p) as [Hs | Hanc]; [by exists recp | | right; split; [by exists recp | done]].
      left. eapply flat_stays_settled, flat_enter_stays; [done | done |]. by apply flat_settled_stays. }
    intros done e rest cur s2 HL (Hg & Hb & Hc) Hstep.
    assert (Hgc : grows ix cur) by by etrans.
    assert (Hg0c : grows ix0 cur) by by etrans.
    assert (Hwfc : wf cur) by exact (flat_wf_grows _ _ Hgc Hwf).
    assert (HeL : e ∈ L). { rewrite HL. apply elem_of_app. right. by left. }
    unfold embedStep in Hstep.
    rewrite (flat_grows_findRuleByLabel _ _ _ _ Hgc) in Hstep.
    destruct (findRuleByLabel ix e (label rec)) as [er|] eqn:Hfind.
    2:{ simplify_eq. split; [done |]. split; [done |].
        intros e' [He' | ->%list_elem_of_singleton]%elem_of_app; [by apply Hc |].
        intros q Hq. congruence. }
    apply bind_Ok in Hstep as (s3 & Hrec & Hab).
    pose proof (Hedge e er HeL Hfind) as Hrer.
    destruct (IH er cur s3 Hwfc Hg0c) as [Hser Hnew]; [| done |].
    { intros p Hfp. destruct (Hb p Hfp) as [-> | [Hs | [_ Hanc]]].
      - right. by apply tc_once.
      - by left.
      - right. by eapply tc_r. }
    assert (Hstay3 : ∀ p, settled ix0 cur p → stays ix0 cur p s3).
    { intros p Hs. by eapply flat_collectEmbeds_settled. }
    apply flat_collectEmbeds_grows in Hrec as [Hg3 Hfer].
    pose proof (flat_absorb_grows _ _ _ _ _ Hab) as Hg2.
    assert (Hg13 : grows (enter r L ix) s3) by by etrans.
    assert (Hg03 : grows ix0 s3) by by etrans.
    destruct (flat_grows_lookup _ _ _ _ Hg13 Hr1) as (rec3 & Hr3 & Hle3).
    assert (Hle03 : rec_le rec rec3).
    { etrans; [| exact Hle3]. split; simpl; try done; congruence. }
    assert (Hstay2 : ∀ ixA p, stays ix0 ixA p s3 → stays ix0 ixA p s2).
    { intros ixA p Hs. eapply (flat_absorb_stays ix0 ixA p s3 s2 resolver r rec3 e er);
        [done | done | | | done | done].
      - rewrite (flat_grows_directEmbeds ix s3 rec rec3) by (done || by etrans).
        by rewrite HdL.
      - rewrite (flat_grows_findRuleByLabel ix s3) by by etrans.
        by rewrite (le_label _ _ Hle03). }
    destruct (flat_absorb_lookup _ _ _ _ _ Hab) as (erRec & erResolver & Her & Heres & Hl).
    split; [etrans; [exact Hg |]; etrans; [exact Hg3 |]; exact Hg2 |].
    split.
    - intros p Hf2. apply (flat_absorb_flagged _ _ _ _ _ _ Hab) in Hf2.
      destruct (flat_flagged_dec cur p) as [Hfc | Hnfc].
      + destruct (Hb p Hfc) as [-> | [Hs | Hanc]]; [by left | | by right; right].
        right. left. eapply flat_stays_settled, Hstay2, Hstay3, Hs.
      + right. left. eapply flat_stays_settled, Hstay2, flat_settled_stays. by apply Hnew.
    - intros e' [He' | ->%list_elem_of_singleton]%elem_of_app q Hq.
      + destruct (Hc e' He' q Hq) as (Hsq & recq & recr & Hrq & Hrr & Hsub).
        pose proof (Hstay2 _ _ (Hstay3 q Hsq)) as Hst.
        split; [by eapply flat_stays_settled |].
        destruct (flat_grows_lookup _ _ _ _ (transitivity Hg3 Hg2) Hrq) as (recq2 & Hrq2 & _).
        destruct (flat_grows_lookup _ _ _ _ (transitivity Hg3 Hg2) Hrr) as (recr2 & Hrr2 & Hler).
        exists recq2, recr2. split; [done |]. split; [done |].
        intros x Hx. apply (flat_stays_self _ _ _ _ _ _ Hst Hrq Hrq2) in Hx.
        eapply elem_of_prefix; [by apply Hsub | apply Hler].
      + assert (q = er) as -> by congruence.
        pose proof (Hstay2 _ _ (flat_settled_stays _ _ _ Hser)) as Hst.
        split; [by eapply flat_stays_settled |].
        destruct (flat_grows_lookup _ _ _ _ Hg2 Her) as (erRec2 & Her2 & _).
        exists erRec2, (absorbed (bool_decide (Name resolver = Name erResolver))
                          erRec r er r rec3).
        split; [done |]. split; [by rewrite Hl, Hr3 |].
        intros x Hx. apply (flat_stays_self _ _ _ _ _ _ Hst Her Her2) in Hx.
        by apply flat_absorbed_importedAs. }
  destruct HJ as (Hg & Hb & Hc).
  destruct (flat_grows_lookup _ _ _ _ Hg Hr1) as (rec' & Hr' & Hle).
  assert (Hsr : settled ix0 ix' r).
  { intros p' [<- | (q & [e He] & Hq)]%rtc_inv.
    - exists rec'. split; [done |]. split; [by apply Hle |].
      intros q [e He]. apply (flat_grows_embedsTo _ _ _ _ _ Hg0) in He.
      destruct He as (rec2 & Hr2 & He & Hfind).
      assert (rec2 = rec) as -> by congruence. rewrite HdL in He.
      destruct (Hc e He q Hfind) as (Hsq & recq & recr & Hrq & Hrr & Hsub).
      assert (recr = rec') as -> by congruence.
      exists recq. split; [done |]. split; [| done].
      destruct (Hsq q (rtc_refl _ _)) as (recq2 & Hrq2 & Hfq & _). congruence.
    - apply (flat_grows_embedsTo _ _ _ _ _ Hg0) in He.
      destruct He as (rec2 & Hr2 & He & Hfind).
      assert (rec2 = rec) as -> by congruence. rewrite HdL in He.
      destruct (Hc e He q Hfind) as (Hsq & _). by apply Hsq. }
  split; [done |].
  intros p Hnf Hf. destruct (Hb p Hf) as [-> | [Hs | [Hfp _]]]; done.
Qed.

Lemma flat_closurePass_settles fuel ix0 ix1 :
  acyclic ix0 → wf ix0 → fresh ix0 → closurePass fuel ix0 = Ok ix1 →
  ∀ p rec, rules ix1 !! p = Some rec → settled ix0 ix1 p.
Proof.
  intros Hac Hwf Hfresh Hrun. unfold closurePass in Hrun.
  cut (grows ix0 ix1
       ∧ (∀ p, flagged ix1 p → settled ix0 ix1 p)
       ∧ (∀ p, p ∈ seq 0 (length (rules ix0)) → flagged ix1 p)).
  { intros (Hg & Hs & Hall) p rec Hp. apply Hs, Hall, elem_of_seq.
    apply lookup_lt_Some in Hp. rewrite (flat_grows_length _ _ Hg) in Hp. lia. }
  apply (forEach_Ok_inv _
    (fun done cur => grows ix0 cur
       ∧ (∀ p, flagged cur p → settled ix0 cur p)
       ∧ (∀ p, p ∈ done → flagged cur p)) _ _ _ Hrun).
  { split; [done |]. split; [by intros p Hf%flat_fresh_not_flagged |].
    by intros p Hp%elem_of_nil. }
  intros done p rest cur s2 _ (Hg & Hs & Hdone) Hstep.
  assert (Hwfc : wf cur) by exact (flat_wf_grows _ _ Hg Hwf).
  destruct (flat_collectEmbeds_settles _ _ _ _ _ Hac Hwfc Hg (fun q Hq => or_introl (Hs q Hq)) Hstep)
    as [_ Hnew].
  pose proof (fun q Hq => flat_collectEmbeds_settled _ _ _ q _ _ Hwfc Hg Hq Hstep) as Hold.
  apply flat_collectEmbeds_grows in Hstep as [Hg2 Hfp].
  split; [by etrans |]. split.
  - intros q Hfq. destruct (flat_flagged_dec cur q) as [Hfc | Hnfc].
    + eapply flat_stays_settled, Hold, Hs, Hfc.
    + by apply Hnew.
  - intros q [Hq | ->%list_elem_of_singleton]%elem_of_app; [| done].
    eapply flat_grows_flagged; [done |]. by apply Hdone.
Qed.

Lemma flat_finishIndex_untouched fuel ix ix' p rec0 rec' :
  wf ix → fresh ix → finishIndex fuel ix = Ok ix' →
  (∀ e q, ¬ embedsTo ix p e q) →
  rules ix !! p = Some rec0 → rules ix' !! p = Some rec' →
  importedAs rec' = importedAs rec0 ∧ embeds rec' = directEmbeds ix rec0.
Proof.
  intros Hwf Hfresh Hfin Hnone H0 Hp'.
  pose proof (flat_finishIndex_finished _ _ _ Hwf Hfresh Hfin) as Hfinished.
  apply flat_finishIndex_Ok_inv in Hfin as (ix1 & Hrun & ->).
  assert (HI : grows ix ix1 ∧ untouched ix p ix1).
  { apply (forEach_Ok_inv _ (fun _ cur => grows ix cur ∧ untouched ix p cur)
             _ _ _ Hrun).
    - split; [done |]. intros rec1 rec2 H1 H2.
      assert (rec1 = rec2) as -> by congruence. split; [done |].
      intros Hf. destruct (Hfresh p rec2 H2). congruence.
    - intros _ q _ s1 s2 _ [Hg HI] Hstep.
      eapply flat_collectEmbeds_untouched; [done | by eapply flat_wf_grows | done | done]. }
  destruct HI as [Hg HI]. destruct (HI rec0 rec' H0 Hp') as [Himp Hemb].
  split; [done |].
  destruct (fin_closed _ _ Hfinished p rec' Hp') as (rec2 & Hp2 & Hf2 & _).
  assert (rec2 = rec') as -> by congruence. rewrite (Hemb Hf2).
  destruct (flat_grows_lookup _ _ _ _ Hg H0) as (rec3 & Hp3 & Hle).
  assert (rec3 = rec') as -> by (simpl in Hp'; congruence).
  by apply flat_grows_directEmbeds.
Qed.

(** The facts shared by the theorems about an index that went through
    registration and [Finish]. *)
Lemma flat_built_index m exts calls fuel w w' :
  AddRules calls (NewRuleIndex m exts) = Ok w → Finish fuel w = Ok w' →
  registering m calls (index w) ∧ finished (index w) (index w')
  ∧ wf (index w') ∧ embeds_sourced (index w').
Proof.
  intros Hadd Hfin.
  destruct (flat_AddRules_new m exts calls) as (w0 & Hadd0 & Hreg & Hcr).
  assert (w0 = w) as -> by congruence.
  pose proof (flat_Finish_finished _ _ _ _ _ Hreg Hfin) as Hfinished.
  split; [done |]. split; [done |]. split.
  - eapply flat_wf_grows; [apply Hfinished | apply Hreg].
  - apply flat_Finish_Ok_inv in Hfin as [Hfin _].
    eapply flat_finishIndex_embeds_sourced; [apply Hreg | apply Hreg | done].
Qed.

Lemma flat_embedsTo_intro ix p rec e q recq :
  wf ix → rules ix !! p = Some rec → rules ix !! q = Some recq →
  e ∈ directEmbeds ix rec →
  label.Abs e (label.Repo (label rec)) (label.Pkg (label rec)) = label recq →
  embedsTo ix p e q.
Proof.
  intros Hwf Hp Hq He Habs. exists rec. split; [done |]. split; [done |].
  unfold findRuleByLabel. rewrite Habs. apply Hwf. eauto.
Qed.

(** ** Embedding, on the lists *)

(** Let A and B be indexed rules of the same language, A
    embedding B under the embed label [e] (its provider reports [e], and [e]
    resolved against A's label is B's label).  After [Finish], B is marked
    embedded and no query returns a result whose label is B's; and if no
    indexed rule of A's language embeds A, then a query for any import B was
    registered with, in their language, returns a result for A whose Embeds
    list contains [e]. *)
Lemma flat_embedded_rule_is_hidden
    (m : Rule → string → option Resolver) (exts : list (option CrossResolver))
    (calls : list (Config * Rule * File)) (fuel : nat) (w w' : World)
    (a b : nat) (recA recB : ruleRecord) (e : label.Label) :
  AddRules calls (NewRuleIndex m exts) = Ok w →
  Finish fuel w = Ok w' →
  rules (index w) !! a = Some recA →
  rules (index w) !! b = Some recB →
  lang recA = lang recB →
  e ∈ directEmbeds (index w) recA →
  label.Abs e (label.Repo (label recA)) (label.Pkg (label recA)) = label recB →
  (∃ recB', rules (index w') !! b = Some recB' ∧ embedded recB' = true)
  ∧ (∀ imp lang' fr,
       fr ∈ FindRulesByImport (index w') imp lang' →
       FindResult.Label fr ≠ label recB)
  ∧ ((∀ p e' recP, embedsTo (index w) p e' a →
        rules (index w) !! p = Some recP → lang recP ≠ lang recA) →
     ∀ imp, imp ∈ importedAs recB →
       ∃ fr, fr ∈ FindRulesByImport (index w') imp (lang recB)
             ∧ FindResult.Label fr = label recA
             ∧ e ∈ FindResult.Embeds fr).
Proof.
  intros Hadd Hfin Ha Hb Hlang He Habs.
  destruct (flat_built_index _ _ _ _ _ _ Hadd Hfin) as (Hreg & Hfd & Hwf' & _).
  pose proof (reg_wf _ _ _ Hreg) as Hwf.
  pose proof (fin_grows _ _ Hfd) as Hg.
  pose proof (flat_embedsTo_intro _ _ _ _ _ _ Hwf Ha Hb He Habs) as Hedge.
  destruct (flat_grows_lookup _ _ _ _ Hg Ha) as (recA' & Ha' & HleA).
  destruct (flat_grows_lookup _ _ _ _ Hg Hb) as (recB' & Hb' & HleB).
  destruct (fin_closed _ _ Hfd a recA' Ha') as (recA2 & Ha2 & HflA & Hall).
  assert (recA2 = recA') as -> by congruence.
  destruct (Hall e) as [Hin Hdone].
  { by rewrite (flat_grows_directEmbeds _ _ _ _ Hg HleA). }
  destruct (Hdone recA' b recB Ha') as [Himps Hemb]; [| done |].
  { destruct Hedge as (recA3 & Ha3 & _ & Hfind).
    assert (recA3 = recA) as -> by congruence.
    by rewrite (flat_grows_findRuleByLabel _ _ _ _ Hg), (le_label _ _ HleA). }
  assert (HembB : embedded recB' = true).
  { apply Hemb; [done |]. by rewrite (le_lang _ _ HleB), (le_lang _ _ HleA). }
  split; [eauto |]. split.
  - intros imp lang' fr (p & rec & Hp & Hr & _ & ->)%flat_FindRulesByImport_elem_of Hl.
    simpl in Hl.
    apply (fin_importMap _ _ Hfd) in Hp as (rec2 & Hr2 & Hne & _).
    assert (rec2 = rec) as -> by congruence.
    assert (p = b).
    { eapply flat_wf_label_inj; [exact Hwf' | done | done |].
      by rewrite (le_label _ _ HleB). }
    subst p. congruence.
  - intros Hroot imp Himp.
    assert (HnA : embedded recA' = false).
    { destruct (embedded recA') eqn:HeA; [| done]. exfalso.
      destruct (fin_embedded _ _ Hfd a recA' Ha' HeA) as (p & e' & recP' & Hedge' & Hp' & Hl').
      destruct (flat_grows_lookup_r _ _ _ _ Hg Hp') as (recP & Hp & HleP).
      apply (Hroot p e' recP); [by apply (flat_grows_embedsTo _ _ _ _ _ Hg) | done |].
      by rewrite <- (le_lang _ _ HleP), <- (le_lang _ _ HleA). }
    exists (FindResult.mk (label recA') (embeds recA')).
    split; [| split; [by rewrite (le_label _ _ HleA) | done]].
    apply flat_FindRulesByImport_elem_of. exists a, recA'.
    split; [| split; [done | split; [| done]]].
    + apply (fin_importMap _ _ Hfd). exists recA'. split; [done |].
      split; [done |]. by apply Himps.
    + by rewrite (le_lang _ _ HleA).
Qed.

(** Let A and B be indexed rules of different languages, A embedding B
    under the embed label [e].  After [Finish], A's importedAs contains
    every import B was registered with; B's embedded flag is set only if an indexed rule of B's own language embeds B; and
    every entry of A's embeds is a label A's provider reported or an entry of
    the embeds of a rule of A's language that A embeds, so B's embeds are not
    appended on account of B. *)
Lemma flat_cross_language_embedding
    (m : Rule → string → option Resolver) (exts : list (option CrossResolver))
    (calls : list (Config * Rule * File)) (fuel : nat) (w w' : World)
    (a b : nat) (recA recB recA' recB' : ruleRecord) (e : label.Label) :
  AddRules calls (NewRuleIndex m exts) = Ok w →
  Finish fuel w = Ok w' →
  rules (index w) !! a = Some recA →
  rules (index w) !! b = Some recB →
  rules (index w') !! a = Some recA' →
  rules (index w') !! b = Some recB' →
  lang recA ≠ lang recB →
  e ∈ directEmbeds (index w) recA →
  label.Abs e (label.Repo (label recA)) (label.Pkg (label recA)) = label recB →
  importedAs recB ⊆ importedAs recA'
  ∧ (embedded recB' = true →
     ∃ p e' recP, embedsTo (index w) p e' b ∧ rules (index w) !! p = Some recP
                  ∧ lang recP = lang recB)
  ∧ (∀ l, l ∈ embeds recA' →
       l ∈ directEmbeds (index w) recA
       ∨ ∃ e' q recQ', embedsTo (index w) a e' q
           ∧ rules (index w') !! q = Some recQ'
           ∧ lang recQ' = lang recA ∧ l ∈ embeds recQ').
Proof.
  intros Hadd Hfin Ha Hb Ha' Hb' Hlang He Habs.
  destruct (flat_built_index _ _ _ _ _ _ Hadd Hfin) as (Hreg & Hfd & Hwf' & _).
  pose proof (reg_wf _ _ _ Hreg) as Hwf.
  pose proof (fin_grows _ _ Hfd) as Hg.
  pose proof (flat_embedsTo_intro _ _ _ _ _ _ Hwf Ha Hb He Habs) as Hedge.
  pose proof (Forall2_lookup_lr _ _ _ _ _ _ (grows_rules _ _ Hg) Ha Ha') as HleA.
  pose proof (Forall2_lookup_lr _ _ _ _ _ _ (grows_rules _ _ Hg) Hb Hb') as HleB.
  split; [| split].
  - destruct (fin_closed _ _ Hfd a recA' Ha') as (recA2 & Ha2 & HflA & Hall).
    assert (recA2 = recA') as -> by congruence.
    destruct (Hall e) as [_ Hdone].
    { by rewrite (flat_grows_directEmbeds _ _ _ _ Hg HleA). }
    destruct (Hdone recA' b recB Ha') as [Himps _]; [| done | done].
    destruct Hedge as (recA3 & Ha3 & _ & Hfind).
    assert (recA3 = recA) as -> by congruence.
    by rewrite (flat_grows_findRuleByLabel _ _ _ _ Hg), (le_label _ _ HleA).
  - intros Hemb.
    destruct (fin_embedded _ _ Hfd b recB' Hb' Hemb) as (p & e' & recP' & Hedge' & Hp' & Hl').
    destruct (flat_grows_lookup_r _ _ _ _ Hg Hp') as (recP & Hp & HleP).
    exists p, e', recP. split; [by apply (flat_grows_embedsTo _ _ _ _ _ Hg) |].
    split; [done |]. by rewrite <- (le_lang _ _ HleP), <- (le_lang _ _ HleB).
  - intros l Hin.
    destruct (fin_embeds _ _ Hfd a recA' l Ha' Hin) as [_ [Hd | Hvia]].
    + left. by rewrite <- (flat_grows_directEmbeds _ _ _ _ Hg HleA).
    + right. destruct Hvia as (e' & q & recQ' & Hedge' & Hq' & Hl' & _ & Hin').
      exists e', q, recQ'. split; [by apply (flat_grows_embedsTo _ _ _ _ _ Hg) |].
      split; [done |]. split; [| done]. by rewrite Hl', (le_lang _ _ HleA).
Qed.

(** ** What [Finish] keeps *)

(** The closure pass sets the closure flag of every record. *)
Lemma flat_closurePass_flags_all fuel ix ix1 :
  closurePass fuel ix = Ok ix1 →
  grows ix ix1 ∧ ∀ p rec, rules ix1 !! p = Some rec → didCollectEmbeds rec = true.
Proof.
  intros Hrun. unfold closurePass in Hrun.
  cut (grows ix ix1 ∧ ∀ p, p ∈ seq 0 (length (rules ix)) → flagged ix1 p).
  { intros [Hg Hall]. split; [done |]. intros p rec Hp.
    destruct (Hall p) as (rec' & Hp' & Hf).
    - apply elem_of_seq. apply lookup_lt_Some in Hp.
      rewrite (flat_grows_length _ _ Hg) in Hp. lia.
    - congruence. }
  apply (forEach_Ok_inv _
    (fun done cur => grows ix cur ∧ ∀ p, p ∈ done → flagged cur p) _ _ _ Hrun).
  { split; [done |]. by intros p Hp%elem_of_nil. }
  intros done p rest cur s2 _ [Hg Hdone] Hstep.
  apply flat_collectEmbeds_grows in Hstep as [Hg2 Hfp].
  split; [by etrans |].
  intros q [Hq | ->%list_elem_of_singleton]%elem_of_app; [| done].
  eapply flat_grows_flagged; [done |]. by apply Hdone.
Qed.

(** ** Embedding after [Finish] *)

(** What [Finish] did along one edge of the embed relation. *)
Lemma flat_finished_edge ix ix' p e q recP' :
  finished ix ix' → embedsTo ix p e q → rules ix' !! p = Some recP' →
  e ∈ embeds recP'
  ∧ (∀ recQ, rules ix !! q = Some recQ → importedAs recQ ⊆ importedAs recP')
  ∧ (∀ recQ', rules ix' !! q = Some recQ' → lang recQ' = lang recP' →
       embedded recQ' = true).
Proof.
  intros Hfd (recP & Hp & He & Hfind) Hp'.
  pose proof (fin_grows _ _ Hfd) as Hg.
  pose proof (Forall2_lookup_lr _ _ _ _ _ _ (grows_rules _ _ Hg) Hp Hp') as Hle.
  destruct (fin_closed _ _ Hfd p recP' Hp') as (rec2 & Hp2 & _ & Hall).
  assert (rec2 = recP') as -> by congruence.
  destruct (Hall e) as [Hin Hdone].
  { by rewrite (flat_grows_directEmbeds _ _ _ _ Hg Hle). }
  assert (Hfind' : findRuleByLabel ix' e (label recP') = Some q).
  { by rewrite (flat_grows_findRuleByLabel _ _ _ _ Hg), (le_label _ _ Hle). }
  split; [done |]. split.
  - intros recQ Hq. by destruct (Hdone recP' q recQ Hp' Hfind' Hq).
  - intros recQ' Hq' Hl.
    destruct (flat_grows_lookup_r _ _ _ _ Hg Hq') as (recQ & Hq & _).
    destruct (Hdone recP' q recQ Hp' Hfind' Hq) as [_ Hemb]. by apply Hemb.
Qed.

(** After [Finish], a record is marked embedded exactly when an
    indexed rule of its language (possibly itself) reports an embed label
    that resolves to it. *)
Lemma flat_embedded_iff
    (m : Rule → string → option Resolver) (exts : list (option CrossResolver))
    (calls : list (Config * Rule * File)) (fuel : nat) (w w' : World)
    (q : nat) (recQ' : ruleRecord) :
  AddRules calls (NewRuleIndex m exts) = Ok w →
  Finish fuel w = Ok w' →
  rules (index w') !! q = Some recQ' →
  embedded recQ' = true
  ↔ ∃ p e recP, embedsTo (index w) p e q ∧ rules (index w) !! p = Some recP
                ∧ lang recP = lang recQ'.
Proof.
  intros Hadd Hfin Hq'.
  destruct (flat_built_index _ _ _ _ _ _ Hadd Hfin) as (Hreg & Hfd & _ & _).
  pose proof (fin_grows _ _ Hfd) as Hg.
  split.
  - intros Hemb.
    destruct (fin_embedded _ _ Hfd q recQ' Hq' Hemb) as (p & e & recP' & Hedge & Hp' & Hl).
    destruct (flat_grows_lookup_r _ _ _ _ Hg Hp') as (recP & Hp & Hle).
    exists p, e, recP. split; [by apply (flat_grows_embedsTo _ _ _ _ _ Hg) |].
    split; [done |]. by rewrite <- (le_lang _ _ Hle).
  - intros (p & e & recP & Hedge & Hp & Hl).
    destruct (flat_grows_lookup _ _ _ _ Hg Hp) as (recP' & Hp' & Hle).
    destruct (flat_finished_edge _ _ _ _ _ _ Hfd Hedge Hp') as (_ & _ & Hemb).
    apply (Hemb recQ' Hq'). by rewrite (le_lang _ _ Hle).
Qed.

(** After [Finish], a rule that no indexed rule of its language embeds
    is returned, for a query in its language, for every import it was
    registered with and for every import a rule it embeds was registered
    with, whatever the language of that rule. *)
Lemma flat_unembedded_rule_answers
    (m : Rule → string → option Resolver) (exts : list (option CrossResolver))
    (calls : list (Config * Rule * File)) (fuel : nat) (w w' : World)
    (a : nat) (recA : ruleRecord) (imp : ImportSpec) :
  AddRules calls (NewRuleIndex m exts) = Ok w →
  Finish fuel w = Ok w' →
  rules (index w) !! a = Some recA →
  (∀ p e recP, embedsTo (index w) p e a →
     rules (index w) !! p = Some recP → lang recP ≠ lang recA) →
  (imp ∈ importedAs recA
   ∨ ∃ e b recB, embedsTo (index w) a e b ∧ rules (index w) !! b = Some recB
                 ∧ imp ∈ importedAs recB) →
  ∃ fr, fr ∈ FindRulesByImport (index w') imp (lang recA)
        ∧ FindResult.Label fr = label recA.
Proof.
  intros Hadd Hfin Ha Hroot Himp.
  destruct (flat_built_index _ _ _ _ _ _ Hadd Hfin) as (Hreg & Hfd & _ & _).
  pose proof (fin_grows _ _ Hfd) as Hg.
  destruct (flat_grows_lookup _ _ _ _ Hg Ha) as (recA' & Ha' & Hle).
  assert (Hne : embedded recA' = false).
  { destruct (embedded recA') eqn:HeA; [| done]. exfalso.
    destruct (fin_embedded _ _ Hfd a recA' Ha' HeA) as (p & e' & recP' & Hedge' & Hp' & Hl').
    destruct (flat_grows_lookup_r _ _ _ _ Hg Hp') as (recP & Hp & HleP).
    apply (Hroot p e' recP); [by apply (flat_grows_embedsTo _ _ _ _ _ Hg) | done |].
    by rewrite <- (le_lang _ _ HleP), <- (le_lang _ _ Hle). }
  assert (Hin : imp ∈ importedAs recA').
  { destruct Himp as [Hown | (e & b & recB & Hedge & Hb & Hi)].
    - eapply elem_of_prefix; [done | apply Hle].
    - destruct (flat_finished_edge _ _ _ _ _ _ Hfd Hedge Ha') as (_ & Hsub & _).
      by apply (Hsub recB). }
  exists (FindResult.mk (label recA') (embeds recA')).
  split; [| by rewrite (le_label _ _ Hle)].
  apply flat_FindRulesByImport_elem_of. exists a, recA'.
  split; [| split; [done | split; [| done]]].
  - apply (fin_importMap _ _ Hfd). by exists recA'.
  - by rewrite (le_lang _ _ Hle).
Qed.

(** Once its closure flag is set, the [embeds] of a record begins with the
    labels its provider reports. *)
Lemma flat_collectEmbeds_embeds_prefix fuel r ix ix' :
  wf ix →
  (∀ p rec, rules ix !! p = Some rec → didCollectEmbeds rec = true →
     directEmbeds ix rec `prefix_of` embeds rec) →
  collectEmbeds fuel r ix = Ok ix' →
  ∀ p rec, rules ix' !! p = Some rec → didCollectEmbeds rec = true →
    directEmbeds ix' rec `prefix_of` embeds rec.
Proof.
  intros Hwf HI. revert fuel r ix ix' Hwf HI.
  apply (flat_collectEmbeds_preserves
    (fun ix => ∀ p rec, rules ix !! p = Some rec → didCollectEmbeds rec = true →
       directEmbeds ix rec `prefix_of` embeds rec)).
  - intros ix r rec resolver Hwf HI Hr Hfl Hres p recp Hp Hfp.
    pose proof (flat_grows_enter r rec (Embeds resolver (rule rec) (label rec)) ix Hr Hfl) as Hg.
    destruct (decide (p = r)) as [-> | Hne].
    + rewrite (flat_enter_lookup _ _ _ _ Hr) in Hp. injection Hp as <-.
      unfold directEmbeds, resolverOf. simpl.
      unfold resolverOf in Hres. by rewrite Hres.
    + rewrite flat_enter_lookup_ne in Hp by done.
      rewrite (flat_grows_directEmbeds ix _ recp recp Hg) by done. by apply (HI p).
  - intros ix ix' r rec resolver e er Hwf HI Hr Hfl Hres He Hfind Hfer Hab p recp' Hp' Hfp'.
    pose proof (flat_absorb_grows _ _ _ _ _ Hab) as Hg.
    destruct (flat_grows_lookup_r _ _ _ _ Hg Hp') as (recp & Hp & Hle).
    destruct (flat_absorb_flagged _ _ _ _ _ p Hab) as (recp2 & Hp2 & Hfp2); [by exists recp' |].
    assert (recp2 = recp) as -> by congruence.
    rewrite (flat_grows_directEmbeds _ _ _ _ Hg Hle).
    etrans; [by apply (HI p) | by apply Hle].
Qed.

(** After [Finish], the Embeds list of a query result for a rule
    begins with the labels the rule's provider reports as embedded, as it
    reports them; so [IsSelfImport] holds of the result and the rule's own
    label, and of the result and each of those labels. *)
Lemma flat_result_is_self_import
    (m : Rule → string → option Resolver) (exts : list (option CrossResolver))
    (calls : list (Config * Rule * File)) (fuel : nat) (w w' : World)
    (a : nat) (recA : ruleRecord) (imp : ImportSpec) (lang' : string)
    (fr : FindResult.t) :
  AddRules calls (NewRuleIndex m exts) = Ok w →
  Finish fuel w = Ok w' →
  rules (index w) !! a = Some recA →
  fr ∈ FindRulesByImport (index w') imp lang' →
  FindResult.Label fr = label recA →
  directEmbeds (index w) recA `prefix_of` FindResult.Embeds fr
  ∧ IsSelfImport fr (label recA) = true
  ∧ ∀ e, e ∈ directEmbeds (index w) recA → IsSelfImport fr e = true.
Proof.
  intros Hadd Hfin Ha (p & rec & _ & Hp & _ & ->)%flat_FindRulesByImport_elem_of Hlab.
  simpl in Hlab.
  destruct (flat_built_index _ _ _ _ _ _ Hadd Hfin) as (Hreg & Hfd & Hwf' & _).
  pose proof (fin_grows _ _ Hfd) as Hg.
  destruct (flat_grows_lookup _ _ _ _ Hg Ha) as (recA' & Ha' & Hle).
  assert (p = a) as ->.
  { eapply flat_wf_label_inj; [exact Hwf' | done | done |]. by rewrite (le_label _ _ Hle). }
  assert (rec = recA') as -> by congruence.
  assert (Hpre : directEmbeds (index w) recA `prefix_of` embeds recA').
  { apply flat_Finish_Ok_inv in Hfin as [Hfin _].
    apply flat_finishIndex_Ok_inv in Hfin as (ix1 & Hrun & Hix).
    rewrite Hix in Ha'. simpl in Ha'.
    destruct (flat_closurePass_flags_all _ _ _ Hrun) as [Hg1 Hflags].
    pose proof (Forall2_lookup_lr _ _ _ _ _ _ (grows_rules _ _ Hg1) Ha Ha') as Hle1.
    rewrite <- (flat_grows_directEmbeds _ _ _ _ Hg1 Hle1).
    cut (grows (index w) ix1
         ∧ ∀ p rec, rules ix1 !! p = Some rec → didCollectEmbeds rec = true →
             directEmbeds ix1 rec `prefix_of` embeds rec).
    { intros [_ HI]. apply (HI a); [done | by apply (Hflags a)]. }
    apply (forEach_Ok_inv _
      (fun _ cur => grows (index w) cur
         ∧ ∀ p rec, rules cur !! p = Some rec → didCollectEmbeds rec = true →
             directEmbeds cur rec `prefix_of` embeds rec) _ _ _ Hrun).
    - split; [done |]. intros p rec Hp' Hf.
      destruct (reg_fresh _ _ _ Hreg p rec Hp'). congruence.
    - intros _ p _ cur s2 _ [Hgc HI] Hstep. split.
      + etrans; [done |]. by apply flat_collectEmbeds_grows in Hstep as [? _].
      + eapply flat_collectEmbeds_embeds_prefix;
          [exact (flat_wf_grows _ _ Hgc (reg_wf _ _ _ Hreg)) | done | done]. }
  split; [done |]. split.
  - apply IsSelfImport_elem_of. by left.
  - intros e He. apply IsSelfImport_elem_of. right. simpl.
    eapply elem_of_prefix; done.
Qed.

(** On an index without embed cycles, after [Finish] a record holds
    every import of every record it reaches through the embed relation, in
    any number of steps and across languages. *)
Lemma flat_imports_inherited
    (m : Rule → string → option Resolver) (exts : list (option CrossResolver))
    (calls : list (Config * Rule * File)) (fuel : nat) (w w' : World)
    (p q : nat) (recP' recQ' : ruleRecord) :
  AddRules calls (NewRuleIndex m exts) = Ok w →
  Finish fuel w = Ok w' →
  acyclic (index w) →
  rtc (embedsSome (index w)) p q →
  rules (index w') !! p = Some recP' →
  rules (index w') !! q = Some recQ' →
  importedAs recQ' ⊆ importedAs recP'.
Proof.
  intros Hadd Hfin Hac Hreach Hp' Hq'.
  destruct (flat_built_index _ _ _ _ _ _ Hadd Hfin) as (Hreg & _ & _ & _).
  apply flat_Finish_Ok_inv in Hfin as [Hfin _].
  apply flat_finishIndex_Ok_inv in Hfin as (ix1 & Hrun & Hix).
  rewrite Hix in Hp', Hq'. simpl in Hp', Hq'.
  pose proof (flat_closurePass_settles _ _ _ Hac (reg_wf _ _ _ Hreg) (reg_fresh _ _ _ Hreg)
                Hrun p recP' Hp') as Hset.
  clear Hix Hadd. revert q Hreach recQ' Hq'.
  refine (rtc_ind_r (fun q => ∀ recQ', rules ix1 !! q = Some recQ' →
                        importedAs recQ' ⊆ importedAs recP') p _ _).
  - intros recQ' Hq'. by assert (recQ' = recP') as -> by congruence.
  - intros q' q Hreach Hedge IH recQ' Hq'. destruct (Hset q' Hreach) as (rec2 & Hq2 & _ & Hall).
    destruct (Hall q Hedge) as (recq & Hq3 & _ & Hsub).
    assert (recq = recQ') as -> by congruence.
    etrans; [exact Hsub |]. by apply IH.
Qed.

(** ** The embeds lists of indexes without embed cycles *)

Lemma flat_embedsStay_settled ix0 ixA p ix : embedsStay ix0 ixA p ix → embedsSettled ix0 ix p.
Proof. intros Hs p' Hp'. by apply Hs. Qed.

Lemma flat_embedsSettled_stay ix0 ix p : embedsSettled ix0 ix p → embedsStay ix0 ix p ix.
Proof.
  intros Hs p' Hp'. split; [by apply Hs |].
  intros recA rec HA Hr. by simplify_eq.
Qed.

Lemma flat_enter_embedsStay ix0 ixA p ix r rec L :
  rules ix !! r = Some rec → didCollectEmbeds rec = false →
  embedsStay ix0 ixA p ix → embedsStay ix0 ixA p (enter r L ix).
Proof.
  intros Hr Hfl Hs p' Hp'. destruct (Hs p' Hp') as [(recp & Hrp & Hfp & Hall) Hfro].
  assert (Hne : r ≠ p') by (intros ->; congruence).
  split.
  - exists recp. rewrite flat_enter_lookup_ne by done. split; [done |]. split; [done |].
    intros q Hq. destruct (Hall q Hq) as (recq & Hrq & Hfq & Hsub).
    exists recq. rewrite flat_enter_lookup_ne by (intros ->; congruence). done.
  - intros recA rec' HA Hr'. rewrite flat_enter_lookup_ne in Hr' by done. by eapply Hfro.
Qed.

Lemma flat_absorbed_embeds_eq same erRec r er p rec :
  embeds (absorbed same erRec r er p rec)
  = if same && bool_decide (p = r) then embeds rec ++ embeds erRec
    else embeds rec.
Proof.
  unfold absorbed. destruct same; simpl; repeat case_bool_decide; simpl; done.
Qed.

Lemma flat_absorbed_lang same erRec r er p rec :
  lang (absorbed same erRec r er p rec) = lang rec.
Proof.
  unfold absorbed. destruct same; simpl; repeat case_bool_decide; simpl; done.
Qed.

(** The test [resolver.Name() == erResolver.Name()] compares the languages
    of the two records. *)
Lemma flat_same_name_same_lang ix r rec resolver er erRec erResolver :
  wf ix → rules ix !! r = Some rec → resolverOf ix rec = Some resolver →
  rules ix !! er = Some erRec → resolverOf ix erRec = Some erResolver →
  bool_decide (Name resolver = Name erResolver) = true ↔ lang erRec = lang rec.
Proof.
  intros Hwf Hr Hres Her Heres.
  rewrite (flat_wf_same_name ix rec resolver Hwf (ex_intro _ r Hr) Hres).
  rewrite (flat_wf_same_name ix erRec erResolver Hwf (ex_intro _ er Her) Heres).
  rewrite bool_decide_eq_true. split; congruence.
Qed.

Lemma flat_absorb_embedsStay ix0 ixA p ix ix' resolver r rec e er :
  wf ix → grows ix0 ix → rules ix !! r = Some rec →
  resolverOf ix rec = Some resolver →
  e ∈ directEmbeds ix rec → findRuleByLabel ix e (label rec) = Some er →
  absorb resolver r er ix = Ok ix' →
  embedsStay ix0 ixA p ix → embedsStay ix0 ixA p ix'.
Proof.
  intros Hwf Hg0 Hr Hres He Hfind Hab Hs.
  destruct (flat_absorb_lookup _ _ _ _ _ Hab) as (erRec & erResolver & Her & Heres & Hl).
  set (same := bool_decide (Name resolver = Name erResolver)) in *.
  assert (Hedge : embedsSome ix0 r er).
  { exists e. apply (flat_grows_embedsTo _ _ _ _ _ Hg0). by exists rec. }
  (* the embeds of [er] are already in [r] whenever [r] is reached from [p] *)
  assert (Hin : rtc (embedsSome ix0) p r → same = true →
                embeds erRec ⊆ embeds rec).
  { intros Hpr Hsame. destruct (Hs r Hpr) as [(rec' & Hr' & _ & Hall) _].
    assert (rec' = rec) as -> by congruence.
    destruct (Hall er Hedge) as (recq & Hrq & _ & Hsub).
    assert (recq = erRec) as -> by congruence.
    apply Hsub. by apply (flat_same_name_same_lang ix r rec resolver er erRec erResolver). }
  intros p' Hp'. destruct (Hs p' Hp') as [(recp & Hrp & Hfp & Hall) Hfro].
  split.
  - exists (absorbed same erRec r er p' recp).
    split; [by rewrite Hl, Hrp |]. split; [by rewrite flat_absorbed_flag |].
    intros q Hq. destruct (Hall q Hq) as (recq & Hrq & Hfq & Hsub).
    exists (absorbed same erRec r er q recq).
    split; [by rewrite Hl, Hrq |]. split; [by rewrite flat_absorbed_flag |].
    rewrite !flat_absorbed_lang. intros Hlang x Hx. rewrite flat_absorbed_embeds_eq in Hx.
    assert (x ∈ embeds recq) as Hx'.
    { destruct same eqn:Hsame; simpl in Hx; [| done].
      destruct (decide (q = r)) as [->|Hqr].
      - rewrite bool_decide_eq_true_2 in Hx by done.
        apply elem_of_app in Hx as [Hx | Hx]; [done |].
        assert (recq = rec) as -> by congruence.
        apply Hin; [| done | done]. eapply rtc_r; [exact Hp' | done].
      - by rewrite bool_decide_eq_false_2 in Hx by done. }
    clear Hx. apply (Hsub Hlang) in Hx'. rewrite flat_absorbed_embeds_eq.
    destruct (same && bool_decide (p' = r)); [apply elem_of_app; by left | done].
  - intros recA rec' HA Hr'. rewrite Hl, Hrp in Hr'. injection Hr' as <-.
    intros x Hx. rewrite flat_absorbed_embeds_eq in Hx.
    apply (Hfro recA recp HA Hrp).
    destruct same eqn:Hsame; simpl in Hx; [| done].
    destruct (decide (p' = r)) as [->|Hpr].
    + rewrite bool_decide_eq_true_2 in Hx by done.
      apply elem_of_app in Hx as [Hx | Hx]; [done |].
      assert (recp = rec) as -> by congruence. by apply Hin.
    + by rewrite bool_decide_eq_false_2 in Hx by done.
Qed.

Lemma flat_collectEmbeds_embedsStay fuel r ix0 ixA p ix ix' :
  wf ix → grows ix0 ix ∧ embedsStay ix0 ixA p ix → collectEmbeds fuel r ix = Ok ix' →
  grows ix0 ix' ∧ embedsStay ix0 ixA p ix'.
Proof.
  apply (flat_collectEmbeds_preserves (fun ix => grows ix0 ix ∧ embedsStay ix0 ixA p ix)).
  - intros ix1 r1 rec resolver Hwf [Hg Hs] Hr Hfl Hres. split.
    + etrans; [done |]. by eapply flat_grows_enter.
    + by eapply flat_enter_embedsStay.
  - intros ix1 ix2 r1 rec resolver e er Hwf [Hg Hs] Hr Hfl Hres He Hfind Hfer Hab.
    split.
    + etrans; [done |]. by eapply flat_absorb_grows.
    + eapply flat_absorb_embedsStay; [done | done | done | done | | done | done | done].
      unfold directEmbeds. by rewrite Hres.
Qed.

Lemma flat_embedsStay_self ix0 ixA p ix rec rec' :
  embedsStay ix0 ixA p ix → rules ixA !! p = Some rec → rules ix !! p = Some rec' →
  embeds rec' ⊆ embeds rec.
Proof. intros Hs HA Hr. by apply (Hs p (rtc_refl _ _)). Qed.

Lemma flat_collectEmbeds_embedsSettled fuel r ix0 p ix ix' :
  wf ix → grows ix0 ix → embedsSettled ix0 ix p → collectEmbeds fuel r ix = Ok ix' →
  embedsStay ix0 ix p ix'.
Proof.
  intros Hwf Hg Hs Hrun.
  by apply (flat_collectEmbeds_embedsStay fuel r ix0 ix p ix ix' Hwf (conj Hg (flat_embedsSettled_stay _ _ _ Hs))).
Qed.

(** Without embed cycles, a record whose closure flag is set during a call
    of [collectEmbeds] has, when the call returns, the embeds of every
    record of its language that it embeds, and so has every record it
    reaches. *)
Lemma flat_collectEmbeds_settles_embeds fuel r ix0 ix ix' :
  acyclic ix0 → wf ix → grows ix0 ix →
  (∀ p, flagged ix p → embedsSettled ix0 ix p ∨ tc (embedsSome ix0) p r) →
  collectEmbeds fuel r ix = Ok ix' →
  embedsSettled ix0 ix' r ∧ ∀ p, ¬ flagged ix p → flagged ix' p → embedsSettled ix0 ix' p.
Proof.
  intros Hac. revert r ix ix'.
  induction fuel as [|fuel IH]; intros r ix ix' Hwf Hg0 Hpre Hrun; [done |].
  simpl in Hrun.
  destruct (rules ix !! r) as [rec|] eqn:Hr; [| done].
  destruct (didCollectEmbeds rec) eqn:Hfl.
  { simplify_eq. split; [| by intros p Hn Hf].
    destruct (Hpre r) as [Hs | Hcyc]; [by exists rec | done | by apply Hac in Hcyc]. }
  destruct (mrslv ix _ _) as [resolver|] eqn:Hres; [| done].
  set (L := Embeds resolver (rule rec) (label rec)) in *.
  pose proof (flat_grows_enter r rec L ix Hr Hfl) as Hin.
  pose proof (flat_enter_lookup r rec L ix Hr) as Hr1.
  assert (HdL : directEmbeds ix rec = L).
  { unfold directEmbeds, resolverOf. by rewrite Hres. }
  assert (Hedge : ∀ e q, e ∈ L → findRuleByLabel ix e (label rec) = Some q →
                         embedsSome ix0 r q).
  { intros e q He Hfind. exists e. apply (flat_grows_embedsTo _ _ _ _ _ Hg0).
    exists rec. by rewrite HdL. }
  assert (HJ : grows (enter r L ix) ix'
    ∧ (∀ p, flagged ix' p →
         p = r ∨ embedsSettled ix0 ix' p ∨ (flagged ix p ∧ tc (embedsSome ix0) p r))
    ∧ (∀ e, e ∈ L → ∀ q, findRuleByLabel ix e (label rec) = Some q →
         embedsSettled ix0 ix' q
         ∧ ∃ recq recr, rules ix' !! q = Some recq ∧ rules ix' !! r = Some recr
                        ∧ (lang recq = lang recr → embeds recq ⊆ embeds recr))).
  { apply (forEach_Ok_inv _
      (fun done cur => grows (enter r L ix) cur
         ∧ (∀ p, flagged cur p →
              p = r ∨ embedsSettled ix0 cur p ∨ (flagged ix p ∧ tc (embedsSome ix0) p r))
         ∧ (∀ e, e ∈ done → ∀ q, findRuleByLabel ix e (label rec) = Some q →
              embedsSettled ix0 cur q
              ∧ ∃ recq recr, rules cur !! q = Some recq ∧ rules cur !! r = Some recr
                             ∧ (lang recq = lang recr →
                                embeds recq ⊆ embeds recr))) _ _ _ Hrun).
    { split; [done |]. split; [| by intros e He%elem_of_nil].
      intros p (recp & Hp & Hfp). destruct (decide (p = r)) as [->|Hne]; [by left |].
      right. rewrite flat_enter_lookup_ne in Hp by done.
      destruct (Hpre p) as [Hs | Hanc]; [by exists recp | | right; split; [by exists recp | done]].
      left. eapply flat_embedsStay_settled, flat_enter_embedsStay; [done | done |]. by apply flat_embedsSettled_stay. }
    intros done e rest cur s2 HL (Hg & Hb & Hc) Hstep.
    assert (Hgc : grows ix cur) by by etrans.
    assert (Hg0c : grows ix0 cur) by by etrans.
    assert (Hwfc : wf cur) by exact (flat_wf_grows _ _ Hgc Hwf).
    assert (HeL : e ∈ L). { rewrite HL. apply elem_of_app. right. by left. }
    unfold embedStep in Hstep.
    rewrite (flat_grows_findRuleByLabel _ _ _ _ Hgc) in Hstep.
    destruct (findRuleByLabel ix e (label rec)) as [er|] eqn:Hfind.
    2:{ simplify_eq. split; [done |]. split; [done |].
        intros e' [He' | ->%list_elem_of_singleton]%elem_of_app; [by apply Hc |].
        intros q Hq. congruence. }
    apply bind_Ok in Hstep as (s3 & Hrec & Hab).
    pose proof (Hedge e er HeL Hfind) as Hrer.
    destruct (IH er cur s3 Hwfc Hg0c) as [Hser Hnew]; [| done |].
    { intros p Hfp. destruct (Hb p Hfp) as [-> | [Hs | [_ Hanc]]].
      - right. by apply tc_once.
      - by left.
      - right. by eapply tc_r. }
    assert (Hstay3 : ∀ p, embedsSettled ix0 cur p → embedsStay ix0 cur p s3).
    { intros p Hs. by eapply flat_collectEmbeds_embedsSettled. }
    apply flat_collectEmbeds_grows in Hrec as [Hg3 Hfer].
    pose proof (flat_absorb_grows _ _ _ _ _ Hab) as Hg2.
    assert (Hg13 : grows (enter r L ix) s3) by by etrans.
    assert (Hg03 : grows ix0 s3) by by etrans.
    assert (Hwf3 : wf s3) by exact (flat_wf_grows _ _ Hg3 Hwfc).
    destruct (flat_grows_lookup _ _ _ _ Hg13 Hr1) as (rec3 & Hr3 & Hle3).
    assert (Hle03 : rec_le rec rec3).
    { etrans; [| exact Hle3]. split; simpl; try done; congruence. }
    assert (Hres3 : resolverOf s3 rec3 = Some resolver).
    { rewrite (flat_grows_resolverOf ix s3 rec rec3) by (done || by etrans). done. }
    assert (Hstay2 : ∀ ixA p, embedsStay ix0 ixA p s3 → embedsStay ix0 ixA p s2).
    { intros ixA p Hs. eapply (flat_absorb_embedsStay ix0 ixA p s3 s2 resolver r rec3 e er);
        [done | done | done | done | | | done | done].
      - rewrite (flat_grows_directEmbeds ix s3 rec rec3) by (done || by etrans).
        by rewrite HdL.
      - rewrite (flat_grows_findRuleByLabel ix s3) by by etrans.
        by rewrite (le_label _ _ Hle03). }
    destruct (flat_absorb_lookup _ _ _ _ _ Hab) as (erRec & erResolver & Her & Heres & Hl).
    split; [etrans; [exact Hg |]; etrans; [exact Hg3 |]; exact Hg2 |].
    split.
    - intros p Hf2. apply (flat_absorb_flagged _ _ _ _ _ _ Hab) in Hf2.
      destruct (flat_flagged_dec cur p) as [Hfc | Hnfc].
      + destruct (Hb p Hfc) as [-> | [Hs | Hanc]]; [by left | | by right; right].
        right. left. eapply flat_embedsStay_settled, Hstay2, Hstay3, Hs.
      + right. left. eapply flat_embedsStay_settled, Hstay2, flat_embedsSettled_stay. by apply Hnew.
    - intros e' [He' | ->%list_elem_of_singleton]%elem_of_app q Hq.
      + destruct (Hc e' He' q Hq) as (Hsq & recq & recr & Hrq & Hrr & Hsub).
        pose proof (Hstay2 _ _ (Hstay3 q Hsq)) as Hst.
        split; [by eapply flat_embedsStay_settled |].
        destruct (flat_grows_lookup _ _ _ _ (transitivity Hg3 Hg2) Hrq) as (recq2 & Hrq2 & Hleq).
        destruct (flat_grows_lookup _ _ _ _ (transitivity Hg3 Hg2) Hrr) as (recr2 & Hrr2 & Hler).
        exists recq2, recr2. split; [done |]. split; [done |].
        intros Hlang x Hx. apply (flat_embedsStay_self _ _ _ _ _ _ Hst Hrq Hrq2) in Hx.
        eapply elem_of_prefix; [apply Hsub | apply Hler].
        * by rewrite <- (le_lang _ _ Hleq), <- (le_lang _ _ Hler).
        * done.
        * destruct (flat_grows_lookup _ _ _ _ Hg Hr1) as (recr0 & Hrr0 & Hler0).
          assert (recr0 = recr) as -> by congruence. by apply Hler0.
      + assert (q = er) as -> by congruence.
        pose proof (Hstay2 _ _ (flat_embedsSettled_stay _ _ _ Hser)) as Hst.
        split; [by eapply flat_embedsStay_settled |].
        destruct (flat_grows_lookup _ _ _ _ Hg2 Her) as (erRec2 & Her2 & Hleer).
        exists erRec2, (absorbed (bool_decide (Name resolver = Name erResolver))
                          erRec r er r rec3).
        split; [done |]. split; [by rewrite Hl, Hr3 |].
        rewrite flat_absorbed_lang, (le_lang _ _ Hleer). intros Hlang.
        apply (flat_same_name_same_lang s3 r rec3 resolver er erRec erResolver) in Hlang;
          [| done..].
        intros x Hx. apply (flat_embedsStay_self _ _ _ _ _ _ Hst Her Her2) in Hx.
        rewrite flat_absorbed_embeds_eq, Hlang, bool_decide_eq_true_2 by done. simpl.
        apply elem_of_app. by right. }
  destruct HJ as (Hg & Hb & Hc).
  destruct (flat_grows_lookup _ _ _ _ Hg Hr1) as (rec' & Hr' & Hle).
  assert (Hsr : embedsSettled ix0 ix' r).
  { intros p' [<- | (q & [e He] & Hq)]%rtc_inv.
    - exists rec'. split; [done |]. split; [by apply Hle |].
      intros q [e He]. apply (flat_grows_embedsTo _ _ _ _ _ Hg0) in He.
      destruct He as (rec2 & Hr2 & He & Hfind).
      assert (rec2 = rec) as -> by congruence. rewrite HdL in He.
      destruct (Hc e He q Hfind) as (Hsq & recq & recr & Hrq & Hrr & Hsub).
      assert (recr = rec') as -> by congruence.
      exists recq. split; [done |]. split; [| done].
      destruct (Hsq q (rtc_refl _ _)) as (recq2 & Hrq2 & Hfq & _). congruence.
    - apply (flat_grows_embedsTo _ _ _ _ _ Hg0) in He.
      destruct He as (rec2 & Hr2 & He & Hfind).
      assert (rec2 = rec) as -> by congruence. rewrite HdL in He.
      destruct (Hc e He q Hfind) as (Hsq & _). by apply Hsq. }
  split; [done |].
  intros p Hnf Hf. destruct (Hb p Hf) as [-> | [Hs | [Hfp _]]]; done.
Qed.

Lemma flat_closurePass_settles_embeds fuel ix0 ix1 :
  acyclic ix0 → wf ix0 → fresh ix0 → closurePass fuel ix0 = Ok ix1 →
  ∀ p rec, rules ix1 !! p = Some rec → embedsSettled ix0 ix1 p.
Proof.
  intros Hac Hwf Hfresh Hrun. unfold closurePass in Hrun.
  cut (grows ix0 ix1
       ∧ (∀ p, flagged ix1 p → embedsSettled ix0 ix1 p)
       ∧ (∀ p, p ∈ seq 0 (length (rules ix0)) → flagged ix1 p)).
  { intros (Hg & Hs & Hall) p rec Hp. apply Hs, Hall, elem_of_seq.
    apply lookup_lt_Some in Hp. rewrite (flat_grows_length _ _ Hg) in Hp. lia. }
  apply (forEach_Ok_inv _
    (fun done cur => grows ix0 cur
       ∧ (∀ p, flagged cur p → embedsSettled ix0 cur p)
       ∧ (∀ p, p ∈ done → flagged cur p)) _ _ _ Hrun).
  { split; [done |]. split; [by intros p Hf%flat_fresh_not_flagged |].
    by intros p Hp%elem_of_nil. }
  intros done p rest cur s2 _ (Hg & Hs & Hdone) Hstep.
  assert (Hwfc : wf cur) by exact (flat_wf_grows _ _ Hg Hwf).
  destruct (flat_collectEmbeds_settles_embeds _ _ _ _ _ Hac Hwfc Hg (fun q Hq => or_introl (Hs q Hq)) Hstep)
    as [_ Hnew].
  pose proof (fun q Hq => flat_collectEmbeds_embedsSettled _ _ _ q _ _ Hwfc Hg Hq Hstep) as Hold.
  apply flat_collectEmbeds_grows in Hstep as [Hg2 Hfp].
  split; [by etrans |]. split.
  - intros q Hfq. destruct (flat_flagged_dec cur q) as [Hfc | Hnfc].
    + eapply flat_embedsStay_settled, Hold, Hs, Hfc.
    + by apply Hnew.
  - intros q [Hq | ->%list_elem_of_singleton]%elem_of_app; [| done].
    eapply flat_grows_flagged; [done |]. by apply Hdone.
Qed.

(** On an index without embed cycles, after [Finish] the embeds of a
    record holds every label reported by the provider of every record it
    reaches through embeddings between rules of one language; so
    [IsSelfImport] holds of a query result for the record and each of these
    labels. *)
Lemma flat_embeds_closed
    (m : Rule → string → option Resolver) (exts : list (option CrossResolver))
    (calls : list (Config * Rule * File)) (fuel : nat) (w w' : World)
    (p q : nat) (recP' recQ : ruleRecord) :
  AddRules calls (NewRuleIndex m exts) = Ok w →
  Finish fuel w = Ok w' →
  acyclic (index w) →
  rtc (embedsSame (index w)) p q →
  rules (index w') !! p = Some recP' →
  rules (index w) !! q = Some recQ →
  directEmbeds (index w) recQ ⊆ embeds recP'
  ∧ ∀ imp lang' fr l,
      fr ∈ FindRulesByImport (index w') imp lang' →
      FindResult.Label fr = label recP' →
      l ∈ directEmbeds (index w) recQ →
      IsSelfImport fr l = true.
Proof.
  intros Hadd Hfin Hac Hreach Hp' Hq.
  destruct (flat_built_index _ _ _ _ _ _ Hadd Hfin) as (Hreg & Hfd & Hwf' & _).
  pose proof (fin_grows _ _ Hfd) as Hg.
  assert (Hsub : directEmbeds (index w) recQ ⊆ embeds recP').
  { apply flat_Finish_Ok_inv in Hfin as [Hfin _].
    apply flat_finishIndex_Ok_inv in Hfin as (ix1 & Hrun & Hix).
    assert (Hrules : rules (index w') = rules ix1) by by rewrite Hix.
    pose proof (flat_closurePass_settles_embeds _ _ _ Hac (reg_wf _ _ _ Hreg)
                  (reg_fresh _ _ _ Hreg) Hrun) as Hset.
    destruct (flat_grows_lookup _ _ _ _ Hg Hq) as (recQ' & Hq' & HleQ).
    transitivity (embeds recQ').
    - destruct (fin_closed _ _ Hfd q recQ' Hq') as (rec2 & Hq2 & _ & Hall).
      assert (rec2 = recQ') as -> by congruence.
      intros l Hl. apply Hall. by rewrite (flat_grows_directEmbeds _ _ _ _ Hg HleQ).
    - clear Hq HleQ. revert q Hreach recQ' Hq'.
      refine (rtc_ind_r (fun q => ∀ recQ', rules (index w') !! q = Some recQ' →
                            embeds recQ' ⊆ embeds recP') p _ _).
      + intros recQ' Hq'. by assert (recQ' = recP') as -> by congruence.
      + intros q' q Hreach (recq0' & recq0 & Hedge & Hq0' & Hq0 & Hlang) IH recQ' Hq'.
        destruct (flat_grows_lookup _ _ _ _ Hg Hq0') as (recq' & Hq'2 & Hle').
        pose proof (Forall2_lookup_lr _ _ _ _ _ _ (grows_rules _ _ Hg) Hq0 Hq') as HleQ.
        pose proof (IH recq' Hq'2) as Hup.
        rewrite Hrules in Hq', Hq'2.
        destruct (Hset q' recq' Hq'2 q' (rtc_refl _ _)) as (rec2 & Hq2 & _ & Hall).
        assert (rec2 = recq') as -> by congruence.
        destruct (Hall q Hedge) as (recq & Hq3 & _ & Hsub).
        assert (recq = recQ') as -> by congruence.
        etrans; [apply Hsub | exact Hup].
        by rewrite (le_lang _ _ Hle'), (le_lang _ _ HleQ). }
  split; [done |].
  intros imp lang' fr l (p2 & rec & _ & Hp2 & _ & ->)%flat_FindRulesByImport_elem_of Hlab Hl.
  simpl in Hlab.
  assert (p2 = p) as -> by (by eapply flat_wf_label_inj).
  assert (rec = recP') as -> by congruence.
  apply IsSelfImport_elem_of. right. simpl. by apply Hsub.
Qed.
(** ** Where the entries of [embeds] come from, through any number of
    embeddings *)

Lemma flat_embedsSame_intro ix0 ix r rec resolver e er erRec erResolver :
  wf ix → grows ix0 ix →
  rules ix !! r = Some rec → resolverOf ix rec = Some resolver →
  e ∈ Embeds resolver (rule rec) (label rec) →
  findRuleByLabel ix e (label rec) = Some er →
  rules ix !! er = Some erRec → resolverOf ix erRec = Some erResolver →
  Name resolver = Name erResolver →
  embedsSame ix0 r er.
Proof.
  intros Hwf Hg0 Hr Hres He Hfind Her Heres Hn.
  destruct (flat_grows_lookup_r _ _ _ _ Hg0 Hr) as (rec0 & Hr0 & Hle).
  destruct (flat_grows_lookup_r _ _ _ _ Hg0 Her) as (erRec0 & Her0 & Hlee).
  exists rec0, erRec0. split; [| split; [done | split; [done |]]].
  - exists e. apply (flat_grows_embedsTo _ _ _ _ _ Hg0). exists rec.
    split; [done |]. split; [| done]. unfold directEmbeds. by rewrite Hres.
  - rewrite <- (le_lang _ _ Hle), <- (le_lang _ _ Hlee).
    rewrite (flat_wf_same_name ix rec resolver),
      (flat_wf_same_name ix erRec erResolver); eauto.
Qed.

Lemma flat_collectEmbeds_embeds_reached ix0 fuel r ix ix' :
  wf ix → grows ix0 ix ∧ embeds_reached ix0 ix → collectEmbeds fuel r ix = Ok ix' →
  grows ix0 ix' ∧ embeds_reached ix0 ix'.
Proof.
  apply (flat_collectEmbeds_preserves
           (fun ix => grows ix0 ix ∧ embeds_reached ix0 ix)).
  - clear. intros ix r rec resolver Hwf [Hg0 HI] Hr Hfl Hres.
    split; [etrans; [done |]; by eapply flat_grows_enter |].
    intros p rec' l Hp' Hin.
    destruct (decide (r = p)) as [->|Hne].
    + rewrite (flat_enter_lookup _ _ _ _ Hr) in Hp'. injection Hp' as <-.
      simpl in Hin.
      destruct (flat_grows_lookup_r _ _ _ _ Hg0 Hr) as (rec0 & Hr0 & Hle).
      exists p, rec0. split; [done |]. split; [done |].
      rewrite <- (flat_grows_directEmbeds _ _ _ _ Hg0 Hle).
      unfold directEmbeds. by rewrite Hres.
    + rewrite flat_enter_lookup_ne in Hp' by done. by eapply HI.
  - clear. intros ix ix' r rec resolver e er Hwf [Hg0 HI] Hr Hfl Hres He Hfind Hfer Hab.
    split; [etrans; [done |]; by eapply flat_absorb_grows |].
    intros p rec' l Hp' Hin.
    destruct (flat_absorb_lookup _ _ _ _ _ Hab)
      as (erRec & erResolver & Her & Heres & Hl).
    rewrite Hl in Hp'. destruct (rules ix !! p) as [rec1|] eqn:Hp; [| done].
    simpl in Hp'. injection Hp' as <-.
    apply flat_absorbed_embeds in Hin as [Hin | (Hsame & -> & Hin)];
      [by eapply HI |].
    assert (rec1 = rec) as -> by congruence.
    apply bool_decide_eq_true in Hsame.
    destruct (HI er erRec l Her Hin) as (q & recq & Hreach & Hq & Hd).
    exists q, recq. split; [| done].
    eapply rtc_l; [| exact Hreach].
    by eapply (flat_embedsSame_intro ix0 ix r rec resolver e er erRec erResolver).
Qed.

Lemma flat_finishIndex_embeds_reached fuel ix ix' :
  wf ix → fresh ix → finishIndex fuel ix = Ok ix' → embeds_reached ix ix'.
Proof.
  intros Hwf Hfresh (ix1 & Hrun & ->)%flat_finishIndex_Ok_inv.
  cut (grows ix ix1 ∧ embeds_reached ix ix1); [by intros [_ ?] |].
  apply (forEach_Ok_inv _ (fun _ cur => grows ix cur ∧ embeds_reached ix cur)
           _ _ _ Hrun).
  { split; [done |]. intros p rec l Hp Hin.
    destruct (Hfresh p rec Hp) as (_ & _ & Hemp). rewrite Hemp in Hin.
    by apply elem_of_nil in Hin. }
  intros _ p _ s1 s2 _ [Hg HI] Hstep.
  eapply flat_collectEmbeds_embeds_reached; [| done | done]. by eapply flat_wf_grows.
Qed.

Lemma flat_embedsSame_lang ix p q recp recq :
  rtc (embedsSame ix) p q → rules ix !! p = Some recp → rules ix !! q = Some recq →
  lang recq = lang recp.
Proof.
  intros Hreach. revert recp. induction Hreach as [p | p p' q Hstep _ IH];
    intros recp Hp Hq; [congruence |].
  destruct Hstep as (rp & rp' & _ & Hp1 & Hp' & Hl).
  assert (rp = recp) as -> by congruence. rewrite Hl. by apply IH.
Qed.

(** ** A record that is not reached back holds the imports of the record it
    embeds *)

(** A call of [collectEmbeds] leaves alone the lists of the records whose
    closure flag is set when it starts. *)
Lemma flat_collectEmbeds_frame fuel r ix ix' p rec :
  collectEmbeds fuel r ix = Ok ix' →
  rules ix !! p = Some rec → didCollectEmbeds rec = true →
  ∃ rec', rules ix' !! p = Some rec' ∧ didCollectEmbeds rec' = true
          ∧ importedAs rec' = importedAs rec ∧ embeds rec' = embeds rec.
Proof.
  revert r ix ix' rec. induction fuel as [|fuel IH]; intros r ix ix' rec Hrun Hp Hf;
    [done |].
  simpl in Hrun.
  destruct (rules ix !! r) as [recr|] eqn:Hr; [| done].
  destruct (didCollectEmbeds recr) eqn:Hfl; [simplify_eq; eauto |].
  destruct (mrslv ix _ _) as [resolver|] eqn:Hres; [| done].
  set (L := Embeds resolver (rule recr) (label recr)) in *.
  assert (Hne : r ≠ p) by (intros ->; congruence).
  apply (forEach_Ok_inv _
    (fun _ cur => ∃ rec', rules cur !! p = Some rec' ∧ didCollectEmbeds rec' = true
                          ∧ importedAs rec' = importedAs rec
                          ∧ embeds rec' = embeds rec) _ _ _ Hrun).
  { exists rec. by rewrite flat_enter_lookup_ne. }
  intros _ e _ cur s2 _ (rec1 & Hp1 & Hf1 & Hi1 & He1) Hstep.
  unfold embedStep in Hstep.
  destruct (findRuleByLabel cur e (label recr)) as [er|]; [| simplify_eq; eauto].
  apply bind_Ok in Hstep as (s3 & Hrec & Hab).
  destruct (IH er cur s3 rec1 Hrec Hp1 Hf1) as (rec3 & Hp3 & Hf3 & Hi3 & He3).
  destruct (flat_absorb_lookup _ _ _ _ _ Hab) as (erRec & erResolver & _ & _ & Hl).
  eexists. split; [by rewrite Hl, Hp3 |]. rewrite flat_absorbed_flag.
  split; [done |].
  destruct (flat_absorbed_other (bool_decide (Name resolver = Name erResolver))
              erRec r er p rec3) as [-> ->]; [done |].
  split; congruence.
Qed.

Lemma flat_collectEmbeds_completes ix0 a b fuel r ix ix' anc :
  embedsSome ix0 a b → ¬ rtc (embedsSome ix0) b a →
  wf ix → grows ix0 ix →
  (∀ p, p ∈ anc → flagged ix p ∧ rtc (embedsSome ix0) p r) →
  completed anc ix a b →
  collectEmbeds fuel r ix = Ok ix' →
  completed anc ix' a b.
Proof.
  intros Hedge Hnr. revert r ix ix' anc.
  induction fuel as [|fuel IH]; intros r ix ix' anc Hwf Hg0 Hanc Hc Hrun; [done |].
  simpl in Hrun.
  destruct (rules ix !! r) as [rec|] eqn:Hr; [| done].
  destruct (didCollectEmbeds rec) eqn:Hfl; [by simplify_eq |].
  destruct (mrslv ix _ _) as [resolver|] eqn:Hres; [| done].
  set (L := Embeds resolver (rule rec) (label rec)) in *.
  pose proof (flat_grows_enter r rec L ix Hr Hfl) as Hin.
  pose proof (flat_enter_lookup r rec L ix Hr) as Hr1.
  assert (HdL : directEmbeds ix rec = L).
  { unfold directEmbeds, resolverOf. by rewrite Hres. }
  assert (Hnf : ¬ flagged ix r).
  { intros (rec' & Hr' & Hf'). congruence. }
  assert (Hba : b ≠ a) by (intros ->; by apply Hnr).
  assert (HJ : grows (enter r L ix) ix'
    ∧ completed (r :: anc) ix' a b
    ∧ (r = a → ∀ e, e ∈ L → findRuleByLabel ix e (label rec) = Some b →
       inherited ix' a b)).
  { apply (forEach_Ok_inv _
      (fun done cur => grows (enter r L ix) cur
         ∧ completed (r :: anc) cur a b
         ∧ (r = a → ∀ e, e ∈ done → findRuleByLabel ix e (label rec) = Some b →
            inherited cur a b)) _ _ _ Hrun).
    { split; [done |]. split; [| by intros _ e He%elem_of_nil].
      intros (recA & Ha & Hfa) Hna. apply not_elem_of_cons in Hna as [Har Hna].
      rewrite flat_enter_lookup_ne in Ha by done.
      destruct Hc as [(recA1 & recB1 & Ha1 & Hb1 & Hfb & Hsub) Hnb];
        [by exists recA | done |].
      assert (Hbr : b ≠ r) by (intros ->; apply Hnf; by exists recB1).
      split.
      - exists recA1, recB1. by rewrite !flat_enter_lookup_ne.
      - by apply not_elem_of_cons. }
    intros done e rest cur s2 HL (Hg & Hcc & Hthird) Hstep.
    assert (Hgc : grows ix cur) by by etrans.
    assert (Hg0c : grows ix0 cur) by by etrans.
    assert (Hwfc : wf cur) by exact (flat_wf_grows _ _ Hgc Hwf).
    assert (HeL : e ∈ L). { rewrite HL. apply elem_of_app. right. by left. }
    unfold embedStep in Hstep.
    rewrite (flat_grows_findRuleByLabel _ _ _ _ Hgc) in Hstep.
    destruct (findRuleByLabel ix e (label rec)) as [er|] eqn:Hfind.
    2:{ simplify_eq. split; [done |]. split; [done |].
        intros Hra e' [He' | ->%list_elem_of_singleton]%elem_of_app Hfe;
          [by apply (Hthird Hra e') | congruence]. }
    apply bind_Ok in Hstep as (s3 & Hrec & Hab).
    assert (Hrer : embedsSome ix0 r er).
    { exists e. apply (flat_grows_embedsTo _ _ _ _ _ Hg0). exists rec.
      by rewrite HdL. }
    assert (Hfr : flagged cur r).
    { eapply flat_grows_flagged; [exact Hg |]. eexists. split; [exact Hr1 | done]. }
    assert (Hc3 : completed (r :: anc) s3 a b).
    { apply (IH er cur s3 (r :: anc) Hwfc Hg0c); [| done | done].
      intros p [-> | Hp]%elem_of_cons.
      - split; [done | by apply rtc_once].
      - destruct (Hanc p Hp) as [Hfp Hpr]. split.
        + exact (flat_grows_flagged _ _ _ Hgc Hfp).
        + by eapply rtc_r. }
    pose proof (flat_collectEmbeds_grows _ _ _ _ Hrec) as [Hg3 Hfer].
    pose proof (flat_absorb_grows _ _ _ _ _ Hab) as Hg2.
    destruct (flat_absorb_lookup _ _ _ _ _ Hab)
      as (erRec & erResolver & Her & Heres & Hl).
    set (same := bool_decide (Name resolver = Name erResolver)) in *.
    assert (Hkeep : ∀ x y, x ≠ r → y ≠ r → inherited s3 x y → inherited s2 x y).
    { intros x y Hx Hy (recX & recY & HX & HY & HfY & Hsub).
      exists (absorbed same erRec r er x recX), (absorbed same erRec r er y recY).
      split; [by rewrite Hl, HX |]. split; [by rewrite Hl, HY |].
      rewrite flat_absorbed_flag. split; [done |].
      destruct (flat_absorbed_other same erRec r er x recX Hx) as [-> _].
      by destruct (flat_absorbed_other same erRec r er y recY Hy) as [-> _]. }
    split; [etrans; [exact Hg |]; etrans; [exact Hg3 |]; exact Hg2 |].
    split.
    - intros Hfa Hna. apply (flat_absorb_flagged _ _ _ _ _ _ Hab) in Hfa.
      destruct (Hc3 Hfa Hna) as [Hinh Hnb]. split; [| done].
      apply not_elem_of_cons in Hna as [Har _].
      apply not_elem_of_cons in Hnb as [Hbr _]. by apply Hkeep.
    - intros -> e' He' Hfe.
      destruct (flat_grows_lookup _ _ _ _ (transitivity Hg Hg3) Hr1)
        as (rec3 & Hr3 & Hle3).
      assert (Ha2 : rules s2 !! a = Some (absorbed same erRec a er a rec3))
        by by rewrite Hl, Hr3.
      assert (Hsub2 : ∀ x, x ∈ importedAs rec3 ++ importedAs erRec →
                x ∈ importedAs (absorbed same erRec a er a rec3)).
      { intros x Hx. rewrite flat_absorbed_importedAs_eq.
        by rewrite bool_decide_eq_true_2 by done. }
      apply elem_of_app in He' as [He' | ->%list_elem_of_singleton].
      + destruct (Hthird eq_refl e' He' Hfe)
          as (recA & recB & HA & HB & HfB & Hsub).
        destruct (flat_collectEmbeds_frame _ _ _ _ _ _ Hrec HB HfB)
          as (recB3 & HB3 & HfB3 & HiB3 & _).
        destruct Hfr as (recA' & HA' & HfA').
        assert (recA' = recA) as -> by congruence.
        destruct (flat_collectEmbeds_frame _ _ _ _ _ _ Hrec HA HfA')
          as (recA3 & HA3 & _ & HiA3 & _).
        assert (recA3 = rec3) as -> by congruence.
        exists (absorbed same erRec a er a rec3), (absorbed same erRec a er b recB3).
        split; [done |]. split; [by rewrite Hl, HB3 |].
        rewrite flat_absorbed_flag. split; [done |].
        destruct (flat_absorbed_other same erRec a er b recB3 Hba) as [-> _].
        intros x Hx. apply Hsub2, elem_of_app. left.
        rewrite HiA3. apply Hsub. by rewrite <- HiB3.
      + assert (er = b) as -> by congruence.
        exists (absorbed same erRec a b a rec3), (absorbed same erRec a b b erRec).
        split; [done |]. split; [by rewrite Hl, Her |].
        rewrite flat_absorbed_flag. split.
        * destruct Hfer as (recB3 & HB3 & HfB3). congruence.
        * destruct (flat_absorbed_other same erRec a b b erRec Hba) as [-> _].
          intros x Hx. apply Hsub2, elem_of_app. by right. }
  destruct HJ as (Hg & Hcc & Hthird).
  intros Hfa Hna. destruct (decide (r = a)) as [->|Hra].
  - split.
    + destruct Hedge as [e He]. apply (flat_grows_embedsTo _ _ _ _ _ Hg0) in He.
      destruct He as (rec2 & Hr2 & He & Hfind).
      assert (rec2 = rec) as -> by congruence. rewrite HdL in He.
      by apply (Hthird eq_refl e).
    + intros Hb. destruct (Hanc b Hb) as [_ Hreach]. by apply Hnr.
  - destruct Hcc as [Hinh Hnb]; [done | |].
    + apply not_elem_of_cons. by split.
    + split; [done |]. by apply not_elem_of_cons in Hnb as [_ ?].
Qed.

(** After [Finish], a record holds every import of a record it embeds that
    does not reach it back through the embed relation. *)
Lemma flat_finishIndex_inherits_unreached fuel ix ix' a e b recA' recB' :
  wf ix → fresh ix → finishIndex fuel ix = Ok ix' →
  embedsTo ix a e b → ¬ rtc (embedsSome ix) b a →
  rules ix' !! a = Some recA' → rules ix' !! b = Some recB' →
  importedAs recB' ⊆ importedAs recA'.
Proof.
  intros Hwf Hfresh (ix1 & Hrun & ->)%flat_finishIndex_Ok_inv Hedge Hnr Ha Hb.
  simpl in Ha, Hb.
  pose proof (flat_closurePass_flags_all _ _ _ Hrun) as [_ Hflags].
  unfold closurePass in Hrun.
  assert (HI : grows ix ix1 ∧ completed [] ix1 a b).
  { apply (forEach_Ok_inv _ (fun _ cur => grows ix cur ∧ completed [] cur a b)
             _ _ _ Hrun).
    - split; [done |]. by intros Hf%flat_fresh_not_flagged.
    - intros _ p _ s1 s2 _ [Hg Hc] Hstep. split.
      + apply flat_collectEmbeds_grows in Hstep as [Hg2 _]. by etrans.
      + eapply (flat_collectEmbeds_completes ix a b fuel p s1 s2 []);
          [by exists e | done | by eapply flat_wf_grows | done | | done | done].
        by intros q Hq%elem_of_nil. }
  destruct HI as [_ Hc].
  destruct Hc as [(recA & recB & HA & HB & _ & Hsub) _].
  - exists recA'. split; [done |]. by eapply Hflags.
  - apply not_elem_of_nil.
  - assert (recA = recA') as -> by congruence.
    by assert (recB = recB') as -> by congruence.
Qed.

End FlatFacts.

Section IndexFacts.
Context `{Collaborators}.
Implicit Types (ix : RuleIndex) (rec : ruleRecord) (p q r er : nat).

Lemma modify_lookup_eq p f ix :
  rules (modify p f ix) !! p = f <$> rules ix !! p.
Proof. apply list_lookup_alter_eq. Qed.

Lemma modify_lookup_ne p q f ix :
  p ≠ q → rules (modify p f ix) !! q = rules ix !! q.
Proof. apply list_lookup_alter_ne. Qed.

#[global] Instance rec_le_refl : Reflexive rec_le.
Proof. intros a. by split. Qed.

#[global] Instance rec_le_trans : Transitive rec_le.
Proof.
  intros a b c Hab Hbc. split.
  - by rewrite (le_rule _ _ Hbc), (le_rule _ _ Hab).
  - by rewrite (le_label _ _ Hbc), (le_label _ _ Hab).
  - by rewrite (le_file _ _ Hbc), (le_file _ _ Hab).
  - by rewrite (le_lang _ _ Hbc), (le_lang _ _ Hab).
  - intros Ha. by apply Hbc, Hab.
  - intros Ha. by apply Hbc, Hab.
Qed.

#[global] Instance grows_refl : Reflexive grows.
Proof.
  intros ix. split; [| done..]. apply Forall_Forall2_diag, Forall_forall. by intros.
Qed.

#[global] Instance grows_trans : Transitive grows.
Proof.
  intros a b c Hab Hbc. split.
  - eapply Forall2_trans; [apply rec_le_trans | apply Hab | apply Hbc].
  - by rewrite (grows_labelMap _ _ Hbc), (grows_labelMap _ _ Hab).
  - by rewrite (grows_mrslv _ _ Hbc), (grows_mrslv _ _ Hab).
  - by rewrite (grows_crossResolvers _ _ Hbc), (grows_crossResolvers _ _ Hab).
Qed.

Lemma grows_length ix ix' : grows ix ix' → length (rules ix') = length (rules ix).
Proof. intros [Hr]. symmetry. by eapply Forall2_length. Qed.

Lemma grows_lookup ix ix' p rec :
  grows ix ix' → rules ix !! p = Some rec →
  ∃ rec', rules ix' !! p = Some rec' ∧ rec_le rec rec'.
Proof. intros [Hr]. by eapply Forall2_lookup_l. Qed.

Lemma grows_lookup_r ix ix' p rec' :
  grows ix ix' → rules ix' !! p = Some rec' →
  ∃ rec, rules ix !! p = Some rec ∧ rec_le rec rec'.
Proof. intros [Hr]. by eapply Forall2_lookup_r. Qed.

Lemma grows_flagged ix ix' p : grows ix ix' → flagged ix p → flagged ix' p.
Proof.
  intros Hg (rec & Hp & Hf).
  destruct (grows_lookup _ _ _ _ Hg Hp) as (rec' & Hp' & Hle).
  exists rec'. split; [done |]. by apply Hle.
Qed.

Lemma grows_resolverOf ix ix' rec rec' :
  grows ix ix' → rec_le rec rec' → resolverOf ix' rec' = resolverOf ix rec.
Proof.
  intros Hg Hle. unfold resolverOf.
  by rewrite (grows_mrslv _ _ Hg), (le_rule _ _ Hle), (le_file _ _ Hle).
Qed.

Lemma grows_modify p f ix :
  (∀ rec, rules ix !! p = Some rec → rec_le rec (f rec)) →
  grows ix (modify p f ix).
Proof.
  intros Hf. split; [| done..]. simpl.
  apply Forall2_alter_r; [apply Forall_Forall2_diag, Forall_forall; by intros |].
  intros x y Hx Hy _. simplify_eq. by apply Hf.
Qed.

Lemma grows_enter r rec embedLabels ix :
  rules ix !! r = Some rec → didCollectEmbeds rec = false →
  grows ix (enter r embedLabels ix).
Proof.
  intros Hr Hf. unfold enter, modify. simpl. rewrite list_alter_alter_eq.
  apply (grows_modify r (with_embeds embedLabels ∘ with_didCollectEmbeds true)).
  intros rec' ?. simplify_eq. split; simpl; try done; congruence.
Qed.

Lemma enter_lookup r rec embedLabels ix :
  rules ix !! r = Some rec →
  rules (enter r embedLabels ix) !! r
  = Some (with_embeds embedLabels (with_didCollectEmbeds true rec)).
Proof.
  intros Hr. unfold enter. rewrite !modify_lookup_eq. by rewrite Hr.
Qed.

Lemma enter_lookup_ne r p embedLabels ix :
  r ≠ p → rules (enter r embedLabels ix) !! p = rules ix !! p.
Proof. intros Hne. unfold enter. by rewrite !modify_lookup_ne. Qed.

Lemma grows_alter ix ix' p f :
  rules ix' = alter f p (rules ix) → labelMap ix' = labelMap ix →
  mrslv ix' = mrslv ix → crossResolvers ix' = crossResolvers ix →
  (∀ rec, rec_le rec (f rec)) → grows ix ix'.
Proof.
  intros Hr ? ? ? Hf. split; [| done..]. rewrite Hr.
  apply Forall2_alter_r; [apply Forall_Forall2_diag, Forall_forall; by intros |].
  intros x y Hx Hy _. simplify_eq. apply Hf.
Qed.

Lemma appendEmbeds_grows r er ix : grows ix (appendEmbeds r er ix).
Proof.
  unfold appendEmbeds.
  destruct (rules ix !! r) as [rRec|]; [| done].
  destruct (rules ix !! er) as [erRec|]; [| done].
  eapply grows_alter; [done..|]. intros rec. by split.
Qed.

Lemma appendImportedAs_grows r er ix : grows ix (appendImportedAs r er ix).
Proof.
  unfold appendImportedAs.
  destruct (rules ix !! r) as [rRec|]; [| done].
  destruct (rules ix !! er) as [erRec|]; [| done].
  eapply grows_alter; [done..|]. intros rec. by split.
Qed.

Lemma absorb_grows resolver r er ix ix' :
  absorb resolver r er ix = Ok ix' → grows ix ix'.
Proof.
  unfold absorb. intros Hab.
  destruct (rules ix !! er) as [erRec|] eqn:Her; [| done].
  destruct (mrslv ix _ _) as [erResolver|]; [| done].
  injection Hab as <-.
  set (ix1 := if decide (Name resolver = Name erResolver) then _ else ix).
  assert (Hg1 : grows ix ix1).
  { subst ix1. case_decide; [| done].
    etrans.
    - apply (grows_modify er (with_embedded true)). intros rec _. by split.
    - apply appendEmbeds_grows. }
  etrans; [exact Hg1 |]. apply appendImportedAs_grows.
Qed.

Lemma collectEmbeds_grows fuel r ix ix' :
  collectEmbeds fuel r ix = Ok ix' → grows ix ix' ∧ flagged ix' r.
Proof.
  revert r ix ix'. induction fuel as [|fuel IH]; intros r ix ix' Hrun; [done |].
  simpl in Hrun.
  destruct (rules ix !! r) as [rec|] eqn:Hr; [| done].
  destruct (didCollectEmbeds rec) eqn:Hfl.
  { simplify_eq. split; [done |]. by exists rec. }
  destruct (mrslv ix _ _) as [resolver|] eqn:Hres; [| done].
  set (L := Embeds resolver (rule rec) (label rec)) in *.
  assert (Hin : grows ix (enter r L ix)) by by eapply grows_enter.
  assert (Hfr : flagged (enter r L ix) r).
  { eexists. split; [by apply enter_lookup |]. done. }
  cut (grows (enter r L ix) ix').
  { intros Hg. split; [by etrans |]. by eapply grows_flagged. }
  apply (forEach_Ok_inv _ (fun _ cur => grows (enter r L ix) cur) _ _ _ Hrun);
    [done |].
  intros _ i _ s1 s2 _ Hg1 Hstep. unfold embedStep in Hstep.
  destruct (elemAt (labelArrays s1) L i) as [e|]; [| by simplify_eq].
  destruct (findRuleByLabel s1 e (label rec)) as [er|]; [| by simplify_eq].
  apply bind_Ok in Hstep as (s3 & Hrec & Hab).
  apply IH in Hrec as [Hg3 _].
  etrans; [exact Hg1 |]. etrans; [exact Hg3 |]. by eapply absorb_grows.
Qed.

Lemma pendingIn_le_length l : pendingIn l ≤ length l.
Proof. apply length_filter. Qed.

Lemma pendingIn_mono l l' : Forall2 rec_le l l' → pendingIn l' ≤ pendingIn l.
Proof.
  unfold pendingIn. induction 1 as [|a b l l' Hab _ IH]; [done |].
  rewrite !filter_cons.
  destruct (decide (didCollectEmbeds b = false)) as [Hb|Hb];
    destruct (decide (didCollectEmbeds a = false)) as [Ha|Ha]; cbn [length]; try lia.
  apply not_false_is_true in Ha. apply (le_flag _ _ Hab) in Ha. congruence.
Qed.

Lemma pending_mono ix ix' : grows ix ix' → pending ix' ≤ pending ix.
Proof. intros Hg. apply pendingIn_mono, Hg. Qed.

Lemma pendingIn_set_flag l r rec :
  l !! r = Some rec → didCollectEmbeds rec = false →
  S (pendingIn (alter (with_didCollectEmbeds true) r l)) = pendingIn l.
Proof.
  unfold pendingIn. revert r. induction l as [|a l IH]; intros r Hr Hf; [done |].
  destruct r as [|r]; simpl in *.
  - simplify_eq. rewrite !filter_cons.
    repeat case_decide; simpl in *; congruence.
  - rewrite !filter_cons. specialize (IH r Hr Hf).
    destruct (decide (didCollectEmbeds a = false)); cbn [length];
      [f_equal |]; exact IH.
Qed.

Lemma pendingIn_alter_same_flag l r f :
  (∀ rec, didCollectEmbeds (f rec) = didCollectEmbeds rec) →
  pendingIn (alter f r l) = pendingIn l.
Proof.
  intros Hf. unfold pendingIn. revert r.
  induction l as [|a l IH]; intros r; [done |].
  destruct r as [|r]; simpl; rewrite !filter_cons.
  - rewrite Hf. by destruct (decide (didCollectEmbeds a = false)).
  - destruct (decide (didCollectEmbeds a = false)); cbn [length];
      [f_equal |]; exact (IH r).
Qed.

Lemma pending_enter r rec embedLabels ix :
  rules ix !! r = Some rec → didCollectEmbeds rec = false →
  S (pending (enter r embedLabels ix)) = pending ix.
Proof.
  intros Hr Hf. unfold pending, enter, modify. simpl.
  rewrite pendingIn_alter_same_flag by done. by eapply pendingIn_set_flag.
Qed.

Lemma absorb_not_OutOfFuel resolver r er ix : absorb resolver r er ix ≠ OutOfFuel.
Proof.
  unfold absorb. destruct (rules ix !! er); [| done]. by destruct (mrslv ix _ _).
Qed.

(** A recursion depth above the number of pending records is enough. *)
Lemma collectEmbeds_fuel fuel r ix :
  pending ix < fuel → collectEmbeds fuel r ix ≠ OutOfFuel.
Proof.
  revert r ix. induction fuel as [|fuel IH]; intros r ix Hlt; [lia |].
  simpl.
  destruct (rules ix !! r) as [rec|] eqn:Hr; [| done].
  destruct (didCollectEmbeds rec) eqn:Hfl; [done |].
  destruct (mrslv ix _ _) as [resolver|] eqn:Hres; [| done].
  apply (forEach_fuel _ (fun cur => pending cur < fuel)).
  { pose proof (pending_enter r rec (Embeds resolver (rule rec) (label rec)) ix Hr Hfl).
    lia. }
  intros i cur _ Hcur. unfold embedStep.
  destruct (elemAt (labelArrays cur) _ i) as [e|]; [| by split; [| intros ? [= <-]]].
  destruct (findRuleByLabel cur e (label rec)) as [er|]; [| by split; [| intros ? [= <-]]].
  specialize (IH er cur Hcur).
  destruct (collectEmbeds fuel er cur) as [s3| |] eqn:Hrec; simpl; [| done | done].
  split; [apply absorb_not_OutOfFuel |].
  intros s2 Hab. apply collectEmbeds_grows in Hrec as [Hg _].
  apply absorb_grows in Hab. apply pending_mono in Hg, Hab. lia.
Qed.

Lemma finishIndex_fuel fuel ix :
  pending ix < fuel → finishIndex fuel ix ≠ OutOfFuel.
Proof.
  intros Hlt. unfold finishIndex, closurePass.
  destruct (forEach _ _ _) eqn:E; simpl; [done | done |].
  exfalso. revert E.
  apply (forEach_fuel _ (fun cur => pending cur < fuel)); [done |].
  intros p cur _ Hcur. split; [by apply collectEmbeds_fuel |].
  intros s2 Hrun. apply collectEmbeds_grows in Hrun as [Hg _].
  apply pending_mono in Hg. lia.
Qed.

Lemma collectEmbeds_fuel_mono fuel fuel' r ix :
  fuel ≤ fuel' → collectEmbeds fuel r ix ≠ OutOfFuel →
  collectEmbeds fuel' r ix = collectEmbeds fuel r ix.
Proof.
  revert fuel' r ix. induction fuel as [|fuel IH]; intros fuel' r ix Hle Hne; [done |].
  destruct fuel' as [|fuel']; [lia |]. simpl in *.
  destruct (rules ix !! r) as [rec|]; [| done].
  destruct (didCollectEmbeds rec); [done |].
  destruct (mrslv ix _ _) as [resolver|]; [| done].
  apply forEach_ext_on; [| done].
  intros i cur _. unfold embedStep.
  destruct (elemAt (labelArrays cur) _ i) as [e|]; [| done].
  destruct (findRuleByLabel cur e (label rec)) as [er|]; [| done].
  intros Hstep.
  rewrite (IH fuel' er cur); [done | lia |].
  intros E. by rewrite E in Hstep.
Qed.

Lemma finishIndex_fuel_mono fuel fuel' ix :
  fuel ≤ fuel' → finishIndex fuel ix ≠ OutOfFuel →
  finishIndex fuel' ix = finishIndex fuel ix.
Proof.
  intros Hle Hne. unfold finishIndex, closurePass in *.
  rewrite (forEach_ext_on (collectEmbeds fuel) (collectEmbeds fuel')).
  - done.
  - intros p cur _. by apply collectEmbeds_fuel_mono.
  - intros E. by rewrite E in Hne.
Qed.

Lemma wf_grows ix ix' : grows ix ix' → wf ix → wf ix'.
Proof.
  intros Hg [Hlm Hres]. split.
  - intros l p. rewrite (grows_labelMap _ _ Hg), Hlm. split.
    + intros (rec & Hp & Hl).
      destruct (grows_lookup _ _ _ _ Hg Hp) as (rec' & Hp' & Hle).
      exists rec'. split; [done |]. by rewrite (le_label _ _ Hle).
    + intros (rec' & Hp' & Hl).
      destruct (grows_lookup_r _ _ _ _ Hg Hp') as (rec & Hp & Hle).
      exists rec. split; [done |]. by rewrite <- (le_label _ _ Hle).
  - intros p rec' Hp'.
    destruct (grows_lookup_r _ _ _ _ Hg Hp') as (rec & Hp & Hle).
    destruct (Hres p rec Hp) as (rslv & Hr & Hn).
    exists rslv. rewrite (grows_resolverOf _ _ _ _ Hg Hle).
    split; [done |]. by rewrite (le_lang _ _ Hle).
Qed.

Lemma wf_label_inj ix p q rec rec' :
  wf ix → rules ix !! p = Some rec → rules ix !! q = Some rec' →
  label rec = label rec' → p = q.
Proof.
  intros Hwf Hp Hq Hl.
  assert (labelMap ix !! label rec = Some p) by (apply Hwf; eauto).
  assert (labelMap ix !! label rec = Some q) by (apply Hwf; eauto).
  congruence.
Qed.

Lemma wf_find ix e from q :
  wf ix → findRuleByLabel ix e from = Some q →
  ∃ rec, rules ix !! q = Some rec
         ∧ label rec = label.Abs e (label.Repo from) (label.Pkg from).
Proof. intros Hwf Hf. by apply Hwf. Qed.

Lemma absorb_Ok resolver r er ix :
  wf ix → er < length (rules ix) → ∃ ix', absorb resolver r er ix = Ok ix'.
Proof.
  intros Hwf Her. unfold absorb.
  apply lookup_lt_is_Some_2 in Her as [erRec HerRec]. rewrite HerRec.
  destruct (wf_resolver _ Hwf _ _ HerRec) as (rslv & Hr & _).
  unfold resolverOf in Hr. rewrite Hr. eauto.
Qed.

(** On a well-formed index the closure pass neither panics nor runs out of
    fuel, given a depth above the number of pending records. *)
Lemma collectEmbeds_Ok fuel r ix :
  wf ix → r < length (rules ix) → pending ix < fuel →
  ∃ ix', collectEmbeds fuel r ix = Ok ix'.
Proof.
  revert r ix. induction fuel as [|fuel IH]; intros r ix Hwf Hr Hlt; [lia |].
  simpl. apply lookup_lt_is_Some_2 in Hr as [rec Hr]. rewrite Hr.
  destruct (didCollectEmbeds rec) eqn:Hfl; [eauto |].
  destruct (wf_resolver _ Hwf _ _ Hr) as (resolver & Hres & _).
  unfold resolverOf in Hres. rewrite Hres.
  set (L := Embeds resolver (rule rec) (label rec)).
  pose proof (grows_enter r rec L ix Hr Hfl) as Hin.
  pose proof (pending_enter r rec L ix Hr Hfl) as Hpe.
  destruct (forEach_Ok (embedStep (collectEmbeds fuel) resolver r (label rec) L)
              (fun cur => grows ix cur ∧ pending cur < fuel) (seq 0 (len L))
              (enter r L ix))
    as (ix' & Hrun & _); [split; [done | lia] | | eauto].
  intros i cur _ [Hg Hp]. unfold embedStep.
  destruct (elemAt (labelArrays cur) L i) as [e|]; [| eauto].
  destruct (findRuleByLabel cur e (label rec)) as [er|] eqn:Hfind; [| eauto].
  assert (Hwfc : wf cur) by by eapply wf_grows.
  destruct (wf_find _ _ _ _ Hwfc Hfind) as (erRec & Her & _).
  destruct (IH er cur Hwfc) as (s3 & Hrec); [by eapply lookup_lt_Some | done |].
  rewrite Hrec. simpl.
  apply collectEmbeds_grows in Hrec as Hg3. destruct Hg3 as [Hg3 _].
  destruct (absorb_Ok resolver r er s3) as (s2 & Hab).
  { by eapply wf_grows. }
  { rewrite (grows_length _ _ Hg3). by eapply lookup_lt_Some. }
  exists s2. split; [done |].
  apply absorb_grows in Hab as Hg2.
  split; [by repeat (etrans; [eassumption |]) |].
  apply pending_mono in Hg3, Hg2. lia.
Qed.

Lemma AddRule_unfinished (c : Config) (r : Rule) (f : File) w :
  didFinish (index w) = false →
  AddRule c r f w =
    match langAndImports (index w) c r f with
    | (_, None) => Ok w
    | (lang', Some imps) =>
        let record := newRecord c r f imps lang' in
        match labelMap (index w) !! label record with
        | Some _ =>
            Ok {| index := index w;
                  logged := logged w ++ [Printf multipleRules (label record)] |}
        | None =>
            Ok {| index :=
                    {| rules := rules (index w) ++ [record];
                       labelMap := <[label record := length (rules (index w))]>
                                     (labelMap (index w));
                       importMap := importMap (index w);
                       mrslv := mrslv (index w);
                       crossResolvers := crossResolvers (index w);
                       didFinish := didFinish (index w);
                       specArrays := specArrays (index w);
                       labelArrays := labelArrays (index w) |};
                  logged := logged w |}
        end
    end.
Proof. intros Hf. unfold AddRule. by rewrite Hf. Qed.

Lemma langAndImports_Some ix (c : Config) (r : Rule) (f : File) lang' imps :
  langAndImports ix c r f = (lang', Some imps) →
  ∃ rslv, mrslv ix r (FilePkg f) = Some rslv ∧ lang' = Name rslv
          ∧ passesLanguageFilter (Langs c) (Name rslv) = true
          ∧ Imports rslv c r f = Some imps.
Proof.
  unfold langAndImports. intros Hli.
  destruct (mrslv ix r (FilePkg f)) as [rslv|]; [| done].
  destruct (passesLanguageFilter _ _) eqn:Hp; [| done].
  simplify_eq. eauto.
Qed.

Lemma registering_more m calls calls' ix :
  registering m calls ix → calls ⊆ calls' → registering m calls' ix.
Proof.
  intros [Hwf Hfr Hdf Hm Him Hfrom] Hsub. split; try done.
  intros p rec Hp. destruct (Hfrom p rec Hp) as (c & r & f & imps & Hin & ?).
  exists c, r, f, imps. split; [by apply Hsub | done].
Qed.

Lemma NewRuleIndex_registering m exts specs labels :
  registering m [] (index (NewRuleIndex m exts specs labels)).
Proof.
  split; try done.
  split.
  - intros l p. simpl. rewrite lookup_empty. split; [done |].
    by intros (rec & Hp & _).
  - by intros p rec Hp.
Qed.

Lemma AddRule_registering m calls (c : Config) (r : Rule) (f : File) w :
  registering m calls (index w) →
  ∃ w', AddRule c r f w = Ok w'
        ∧ registering m (calls ++ [(c, r, f)]) (index w')
        ∧ crossResolvers (index w') = crossResolvers (index w).
Proof.
  intros Hreg. rewrite AddRule_unfinished by apply Hreg.
  assert (Hmore : registering m (calls ++ [(c, r, f)]) (index w)).
  { eapply registering_more; [done |]. intros x Hx. apply elem_of_app. by left. }
  destruct (langAndImports (index w) c r f) as [lang' [imps|]] eqn:Hli; [| eauto].
  simpl. destruct (labelMap (index w) !! _) eqn:Hlm; [eauto |].
  eexists. split; [done |]. split; [| done].
  destruct (langAndImports_Some _ _ _ _ _ _ Hli) as (rslv & Hm & -> & Hpass & Himps).
  set (record := newRecord c r f imps (Name rslv)).
  destruct Hreg as [[Hwl Hwr] Hfresh Hfin Hmr Him Hfrom]. split; simpl; try done.
  - split; simpl.
    + intros l p. destruct (decide (l = label.New (RepoName c) (FilePkg f) (RuleName r)))
        as [->|Hne].
      * rewrite lookup_insert_eq. split.
        -- intros [= <-]. exists record. split; [| done].
           by rewrite lookup_app_r, Nat.sub_diag.
        -- intros (rec & Hp & Hl).
           apply lookup_app_Some in Hp as [Hp | [Hge Hp]].
           ++ assert (labelMap (index w) !! label rec = Some p) by (apply Hwl; eauto).
              rewrite Hl in *. congruence.
           ++ f_equal. apply list_lookup_singleton_Some in Hp as [Hp _]. lia.
      * rewrite lookup_insert_ne by done. rewrite Hwl. split.
        -- intros (rec & Hp & Hl). exists rec. split; [| done].
           by apply lookup_app_l_Some.
        -- intros (rec & Hp & Hl). exists rec. split; [| done].
           apply lookup_app_Some in Hp as [Hp | [_ Hp]]; [done |].
           apply list_lookup_singleton_Some in Hp as [_ <-]. by simpl in Hl.
    + intros p rec Hp.
      apply lookup_app_Some in Hp as [Hp | [_ Hp]]; [exact (Hwr p rec Hp) |].
      apply list_lookup_singleton_Some in Hp as [_ <-].
      unfold resolverOf. simpl. eauto.
  - intros p rec Hp.
    apply lookup_app_Some in Hp as [Hp | [_ Hp]]; [by eapply Hfresh |].
    by apply list_lookup_singleton_Some in Hp as [_ <-].
  - intros p rec Hp.
    apply lookup_app_Some in Hp as [Hp | [_ Hp]].
    + destruct (Hfrom p rec Hp) as (c' & r' & f' & imps' & Hin & Hli' & Hrec).
      exists c', r', f', imps'. split; [apply elem_of_app; by left |]. done.
    + apply list_lookup_singleton_Some in Hp as [_ <-].
      exists c, r, f, imps. split; [apply elem_of_app; right; by left |]. done.
Qed.

Lemma AddRules_registering m calls0 calls w :
  registering m calls0 (index w) →
  ∃ w', AddRules calls w = Ok w'
        ∧ registering m (calls0 ++ calls) (index w')
        ∧ crossResolvers (index w') = crossResolvers (index w).
Proof.
  revert calls0 w. induction calls as [|[[c r] f] calls IH]; intros calls0 w Hreg.
  - exists w. by rewrite app_nil_r.
  - destruct (AddRule_registering m calls0 c r f w Hreg) as (w1 & Hadd & Hreg1 & Hcr1).
    destruct (IH _ w1 Hreg1) as (w' & Hrun & Hreg' & Hcr').
    exists w'. unfold AddRules in *. simpl. rewrite Hadd. simpl.
    split; [done |]. rewrite <- app_assoc in Hreg'. split; [done | congruence].
Qed.

(** Any sequence of [AddRule] calls on a new index returns normally and
    leaves a well-formed, fresh index. *)
Lemma AddRules_new m exts specs labels calls :
  ∃ w, AddRules calls (NewRuleIndex m exts specs labels) = Ok w
       ∧ registering m calls (index w)
       ∧ crossResolvers (index w) = omap id exts.
Proof.
  destruct (AddRules_registering m [] calls (NewRuleIndex m exts specs labels)) as (w & ? & ? & ?);
    [apply NewRuleIndex_registering | eauto].
Qed.

Lemma finishIndex_Ok_inv fuel ix ix' :
  finishIndex fuel ix = Ok ix' →
  ∃ ix1, closurePass fuel ix = Ok ix1
         ∧ ix' = setDidFinish (buildImportIndex ix1).
Proof.
  unfold finishIndex, closurePass. intros (ix1 & Hrun & Hfin)%bind_Ok.
  exists ix1. split; [done |]. congruence.
Qed.

Lemma Finish_Ok_inv fuel w w' :
  Finish fuel w = Ok w' →
  finishIndex fuel (index w) = Ok (index w') ∧ logged w' = logged w.
Proof.
  unfold Finish, lift. destruct (finishIndex fuel (index w)); [| done | done].
  by intros [= <-].
Qed.

(** On a well-formed index, [Finish] returns normally when given a recursion
    depth above the number of records. *)
Lemma finishIndex_Ok fuel ix :
  wf ix → pending ix < fuel → ∃ ix', finishIndex fuel ix = Ok ix'.
Proof.
  intros Hwf Hlt. unfold finishIndex, closurePass.
  destruct (forEach_Ok (collectEmbeds fuel)
              (fun cur => grows ix cur ∧ pending cur < fuel)
              (seq 0 (length (rules ix))) ix) as (ix1 & -> & _); [done | | simpl; eauto].
  intros p cur Hp%elem_of_seq [Hg Hpe].
  destruct (collectEmbeds_Ok fuel p cur) as (s2 & Hrun); [by eapply wf_grows | | done |].
  { rewrite (grows_length _ _ Hg). lia. }
  exists s2. split; [done |]. apply collectEmbeds_grows in Hrun as [Hg2 _].
  split; [by etrans |]. apply pending_mono in Hg2. lia.
Qed.

(** Each bucket lists, in registration order and without repetition, the
    records that are not embedded and carry the import. *)
Lemma buildImportIndex_lookup ix imp :
  importMap (buildImportIndex ix) !!! imp
  = filter (fun p => indexable ix imp p = true) (seq 0 (length (rules ix))).
Proof.
  unfold buildImportIndex. cbn [importMap]. generalize (length (rules ix)). intros n.
  induction n as [|n IH]; [done |].
  rewrite seq_S, foldl_snoc, filter_app, <- IH. cbn [Nat.add].
  rewrite filter_cons, filter_nil. unfold indexable.
  destruct (rules ix !! n) as [rec|]; [| by rewrite decide_False, app_nil_r by done].
  destruct (embedded rec); cbn [negb andb];
    [by rewrite decide_False, app_nil_r by done |].
  rewrite indexImports_lookup.
  case_bool_decide; [by rewrite decide_True by done |].
  by rewrite decide_False, app_nil_r by done.
Qed.

Lemma FindRulesByImport_elem_of ix imp lang' fr :
  fr ∈ FindRulesByImport ix imp lang'
  ↔ ∃ p rec, p ∈ importMap ix !!! imp ∧ rules ix !! p = Some rec
             ∧ lang rec = lang' ∧ fr = FindResult.mk (label rec) (embedsOf ix rec).
Proof.
  unfold FindRulesByImport. rewrite list_elem_of_omap. split.
  - intros (p & Hp & Hsome). destruct (rules ix !! p) as [rec|] eqn:Hr; [| done].
    case_decide; [| done]. exists p, rec. by simplify_eq.
  - intros (p & rec & Hp & Hr & Hl & ->). exists p. split; [done |].
    rewrite Hr. by rewrite decide_True.
Qed.

Lemma grows_buildImportIndex ix : grows ix (setDidFinish (buildImportIndex ix)).
Proof. split; [| done..]. apply Forall_Forall2_diag, Forall_forall. by intros. Qed.

Lemma finishIndex_grows fuel ix ix' : finishIndex fuel ix = Ok ix' → grows ix ix'.
Proof.
  intros (ix1 & Hrun & ->)%finishIndex_Ok_inv.
  etrans; [| apply grows_buildImportIndex].
  apply (forEach_Ok_inv _ (fun _ cur => grows ix cur) _ _ _ Hrun); [done |].
  intros _ p _ s1 s2 _ Hg [Hg2 _]%collectEmbeds_grows. by etrans.
Qed.

Lemma forEach_erase {A : Type}
    (fT : A → RuleIndex * list nat → result (RuleIndex * list nat))
    (f : A → RuleIndex → result RuleIndex) (l : list A) (st : RuleIndex * list nat) :
  (∀ a st, erase (fT a st) = f a st.1) →
  erase (forEach fT l st) = forEach f l st.1.
Proof.
  intros Hf. revert st. induction l as [|a l IH]; intros st; simpl; [done |].
  rewrite <- (Hf a st). destruct (fT a st) as [st1| |]; simpl; [apply IH | done | done].
Qed.

(** Forgetting the trace gives [collectEmbeds]. *)
Lemma collectEmbedsTraced_erase fuel r (st : RuleIndex * list nat) :
  erase (collectEmbedsTraced fuel r st) = collectEmbeds fuel r st.1.
Proof.
  revert r st. induction fuel as [|fuel IH]; intros r st; simpl; [done |].
  destruct (rules st.1 !! r) as [rec|]; [| done].
  destruct (didCollectEmbeds rec); [done |].
  destruct (mrslv st.1 _ _) as [resolver|]; [| done].
  rewrite (forEach_erase _ (embedStep (collectEmbeds fuel) resolver r (label rec)
                               (Embeds resolver (rule rec) (label rec))));
    [done |].
  intros i st0. unfold embedStepTraced, embedStep.
  destruct (elemAt (labelArrays st0.1) _ i) as [e|]; [| done].
  destruct (findRuleByLabel st0.1 e (label rec)) as [er|]; [| done].
  rewrite <- (IH er st0).
  destruct (collectEmbedsTraced fuel er st0) as [st1| |]; simpl; [| done | done].
  unfold onIndex. by destruct (absorb resolver r er st1.1).
Qed.

Lemma closurePassTraced_erase fuel ix :
  erase (closurePassTraced fuel ix) = closurePass fuel ix.
Proof.
  unfold closurePassTraced, closurePass.
  rewrite (forEach_erase _ (collectEmbeds fuel)); [done |].
  intros p st. apply collectEmbedsTraced_erase.
Qed.

Lemma entersFresh_refl (st : RuleIndex * list nat) : entersFresh st.1 st.2 st.
Proof.
  split; [done |]. exists []. rewrite app_nil_r. split; [done |].
  split; [constructor |]. by intros p Hp%elem_of_nil.
Qed.

Lemma entersFresh_trans ix t (st1 st2 : RuleIndex * list nat) :
  entersFresh ix t st1 → entersFresh st1.1 st1.2 st2 → entersFresh ix t st2.
Proof.
  intros (Hg1 & new1 & Ht1 & Hnd1 & Hn1) (Hg2 & new2 & Ht2 & Hnd2 & Hn2).
  split; [by etrans |]. exists (new1 ++ new2).
  split; [by rewrite Ht2, Ht1, app_assoc |]. split.
  - apply NoDup_app. split; [done |]. split; [| done].
    intros p Hp1 Hp2. destruct (Hn2 p Hp2) as [Hnf _]. apply Hnf.
    by apply Hn1.
  - intros p [Hp | Hp]%elem_of_app.
    + destruct (Hn1 p Hp) as [Hnf Hf]. split; [done |]. by eapply grows_flagged.
    + destruct (Hn2 p Hp) as [Hnf Hf]. split; [| done].
      intros Hf0. apply Hnf. by eapply grows_flagged.
Qed.

Lemma entersFresh_enter ix (t : list nat) r rec (ix1 : RuleIndex) :
  rules ix !! r = Some rec → didCollectEmbeds rec = false →
  grows ix ix1 → flagged ix1 r →
  entersFresh ix t (ix1, t ++ [r]).
Proof.
  intros Hr Hfl Hg Hf. split; [done |]. exists [r]. split; [done |].
  split; [apply NoDup_singleton |].
  intros p ->%list_elem_of_singleton. split; [| done].
  intros (rec' & Hr' & Hf'). congruence.
Qed.

Lemma absorb_Panic resolver r er ix msg ix' :
  absorb resolver r er ix = Panic msg ix' → ix' = ix.
Proof.
  unfold absorb. destruct (rules ix !! er); [| by intros [= _ <-]].
  destruct (mrslv ix _ _); [done | by intros [= _ <-]].
Qed.

Lemma collectEmbedsTraced_entersFresh fuel r (st st' : RuleIndex * list nat) :
  reaches (collectEmbedsTraced fuel r st) st' → entersFresh st.1 st.2 st'.
Proof.
  revert r st st'. induction fuel as [|fuel IH]; intros r st st' Hend.
  { by destruct Hend as [? | [? ?]]. }
  simpl in Hend.
  destruct (rules st.1 !! r) as [rec|] eqn:Hr.
  2:{ destruct Hend as [? | [msg [= _ <-]]]; [done |]. apply entersFresh_refl. }
  destruct (didCollectEmbeds rec) eqn:Hfl.
  { destruct Hend as [[= <-] | [msg ?]]; [| done]. apply entersFresh_refl. }
  destruct (mrslv st.1 _ _) as [resolver|] eqn:Hres.
  2:{ destruct Hend as [? | [msg [= _ <-]]]; [done |].
      apply (entersFresh_enter st.1 st.2 r rec); [done | done | |].
      - apply grows_modify. intros rec' ?. simplify_eq. by split.
      - eexists. split; [by rewrite modify_lookup_eq, Hr |]. done. }
  set (L := Embeds resolver (rule rec) (label rec)) in *.
  eapply entersFresh_trans.
  { apply (entersFresh_enter st.1 st.2 r rec (enter r L st.1)); [done | done | |].
    - by eapply grows_enter.
    - eexists. split; [by apply enter_lookup |]. done. }
  simpl.
  apply (forEach_reaches_inv
           (embedStepTraced (collectEmbedsTraced fuel) resolver r (label rec) L)
           (fun cur => entersFresh (enter r L st.1) (st.2 ++ [r]) cur)
           (seq 0 (len L)) (enter r L st.1, st.2 ++ [r]) st');
    [apply (entersFresh_refl (enter r L st.1, st.2 ++ [r])) | | exact Hend].
  intros i cur s2 _ Hcur Hstep. unfold embedStepTraced in Hstep.
  destruct (elemAt (labelArrays cur.1) _ i) as [e|].
  2:{ destruct Hstep as [[= <-] | [msg ?]]; done. }
  destruct (findRuleByLabel cur.1 e (label rec)) as [er|].
  2:{ destruct Hstep as [[= <-] | [msg ?]]; done. }
  eapply entersFresh_trans; [exact Hcur |].
  apply reaches_bind in Hstep as [(st3 & Hrec & Hab) | (msg & Hrec)].
  - eapply entersFresh_trans; [apply (IH er cur st3); left; exact Hrec |].
    unfold onIndex in Hab.
    destruct (absorb resolver r er st3.1) as [ix4|msg ix4|] eqn:Habs.
    + destruct Hab as [[= <-] | [msg ?]]; [| done].
      split; [by eapply absorb_grows |]. exists []. simpl.
      rewrite app_nil_r. split; [done |]. split; [constructor |].
      by intros p Hp%elem_of_nil.
    + destruct Hab as [? | [msg' [= _ <-]]]; [done |].
      apply absorb_Panic in Habs as ->. destruct st3. apply entersFresh_refl.
    + by destruct Hab as [? | [? ?]].
  - apply (IH er cur s2). right. eauto.
Qed.

Lemma closurePassTraced_NoDup fuel ix (st : RuleIndex * list nat) :
  reaches (closurePassTraced fuel ix) st → NoDup st.2.
Proof.
  intros Hend. unfold closurePassTraced in Hend.
  cut (entersFresh ix [] st).
  { by intros (_ & new & -> & Hnd & _). }
  apply (forEach_reaches_inv (collectEmbedsTraced fuel)
           (fun cur => entersFresh ix [] cur)
           (seq 0 (length (rules ix))) (ix, []) st);
    [apply (entersFresh_refl (ix, [])) | | exact Hend].
  intros p cur s2 _ Hcur Hstep.
  eapply entersFresh_trans; [exact Hcur |].
  by apply (collectEmbedsTraced_entersFresh fuel p).
Qed.

(** C1, as amended.  When the provider-lookup function returns a provider
    but the language allow-list of the configuration is non-empty and does not
    contain the provider's name, [AddRule] collects no imports and drops the
    rule: the call returns normally and leaves the index and the log exactly
    as they were.  No record is created for the rule. *)
Theorem AddRule_filtered_language_drops_rule (c : Config) (r : Rule) (f : File)
    (w : World) (rslv : Resolver) :
  didFinish (index w) = false →
  mrslv (index w) r (FilePkg f) = Some rslv →
  Langs c ≠ [] → Name rslv ∉ Langs c →
  AddRule c r f w = Ok w.
Proof.
  intros Hfin Hm Hne Hnin. rewrite AddRule_unfinished by done.
  unfold langAndImports. rewrite Hm.
  by rewrite passesLanguageFilter_false.
Qed.

(** C5.  On the index built by [NewRuleIndex], any [AddRule] calls and
    [Finish]: if [FindRulesByImport] returns no result,
    [FindRulesByImportWithConfig] returns the concatenation, in the order the
    extensions were given to [NewRuleIndex], of what the [CrossResolve] of each
    extension that is a CrossResolver returns, and it calls each of them once,
    in that order; if [FindRulesByImport] returns a result, it returns exactly
    the results of [FindRulesByImport] and calls no CrossResolver. *)
Theorem FindRulesByImportWithConfig_fallback
    (m : Rule → string → option Resolver) (exts : list (option CrossResolver))
    (specs : list (list ImportSpec)) (labels : list (list label.Label))
    (calls : list (Config * Rule * File)) (fuel : nat) (w w' : World)
    (c : Config) (imp : ImportSpec) (lang' : string) :
  AddRules calls (NewRuleIndex m exts specs labels) = Ok w →
  Finish fuel w = Ok w' →
  FindRulesByImportWithConfig (index w') c imp lang'
  = match FindRulesByImport (index w') imp lang' with
    | [] =>
        (concat (map (fun cr : CrossResolver =>
                        cr c (FindRulesByImport (index w')) imp lang')
                     (omap id exts)),
         seq 0 (length (omap id exts)))
    | direct => (direct, [])
    end.
Proof.
  intros Hadd Hfin.
  destruct (AddRules_new m exts specs labels calls) as (w0 & Hadd0 & Hreg & Hcr).
  assert (w0 = w) as -> by congruence.
  apply Finish_Ok_inv in Hfin as [Hfin%finishIndex_grows _].
  rewrite <- Hcr, <- (grows_crossResolvers _ _ Hfin).
  unfold FindRulesByImportWithConfig.
  destruct (FindRulesByImport (index w') imp lang') as [|fr frs] eqn:Hdirect.
  - rewrite decide_False by (simpl; lia).
    by rewrite (crossResolve_fold _ c _ imp lang' ([], []) 0).
  - by rewrite decide_True by (simpl; lia).
Qed.

(** C7.  [Finish] terminates on every index, whatever the embed relation:
    a recursion depth above the number of records is never exhausted, and any
    larger depth gives the same outcome.  [collectEmbeds] enters each record
    at most once: the closure pass with the trace of the records it enters
    computes the same outcome, and its trace has no record twice. *)
Theorem Finish_terminates (w : World) (fuel : nat) :
  length (rules (index w)) < fuel →
  Finish fuel w ≠ OutOfFuel
  ∧ (∀ fuel', fuel ≤ fuel' → Finish fuel' w = Finish fuel w)
  ∧ erase (closurePassTraced fuel (index w)) = closurePass fuel (index w)
  ∧ (∀ st, reaches (closurePassTraced fuel (index w)) st → NoDup st.2).
Proof.
  intros Hlt.
  assert (Hne : finishIndex fuel (index w) ≠ OutOfFuel).
  { apply finishIndex_fuel.
    pose proof (pendingIn_le_length (rules (index w))). unfold pending. lia. }
  split; [| split; [| split]].
  - unfold Finish, lift. by destruct (finishIndex fuel (index w)).
  - intros fuel' Hle. unfold Finish, lift.
    by rewrite (finishIndex_fuel_mono fuel fuel').
  - apply closurePassTraced_erase.
  - apply closurePassTraced_NoDup.
Qed.

(** C8, as amended.  In an index built by any sequence of [AddRule] calls,
    labels are unique; and a further call that presents a label already in
    the index returns normally and leaves the index exactly as it was (the
    first registration is kept).  The call logs a report of the duplicate
    when the rule is importable (it has a provider whose language passes the
    filter, and non-nil imports); otherwise it returns before the label is
    looked up, and logs nothing. *)
Theorem AddRule_duplicate_label_rejected
    (m : Rule → string → option Resolver) (exts : list (option CrossResolver))
    (specs : list (list ImportSpec)) (labels : list (list label.Label))
    (calls : list (Config * Rule * File)) (w : World)
    (c : Config) (r : Rule) (f : File) (p : nat) (rec : ruleRecord) :
  AddRules calls (NewRuleIndex m exts specs labels) = Ok w →
  rules (index w) !! p = Some rec →
  label rec = label.New (RepoName c) (FilePkg f) (RuleName r) →
  NoDup (label <$> rules (index w))
  ∧ ∃ w', AddRule c r f w = Ok w' ∧ index w' = index w
          ∧ (logged w' = logged w
             ∨ logged w' = logged w ++ [Printf multipleRules (label rec)])
          ∧ (∀ rslv imps,
               m r (FilePkg f) = Some rslv →
               passesLanguageFilter (Langs c) (Name rslv) = true →
               Imports rslv c r f = Some imps →
               logged w' = logged w ++ [Printf multipleRules (label rec)])
          ∧ (importable m (c, r, f) = false → logged w' = logged w).
Proof.
  intros Hadd Hp Hl.
  destruct (AddRules_new m exts specs labels calls) as (w0 & Hadd0 & Hreg & Hcr).
  assert (w0 = w) as -> by congruence. split.
  - apply NoDup_alt. intros i j l Hi Hj.
    apply list_lookup_fmap_Some_1 in Hi as (ri & -> & Hi).
    apply list_lookup_fmap_Some_1 in Hj as (rj & Hlj & Hj).
    by eapply wf_label_inj; [apply Hreg | ..].
  - assert (Hlm : labelMap (index w) !! label.New (RepoName c) (FilePkg f) (RuleName r)
                  = Some p).
    { apply (wf_labelMap _ (reg_wf _ _ _ Hreg)). eauto. }
    rewrite AddRule_unfinished by apply Hreg.
    unfold langAndImports, importable. simpl. rewrite (reg_mrslv _ _ _ Hreg).
    destruct (m r (FilePkg f)) as [rslv|] eqn:Hm.
    2:{ exists w. split; [done |]. split; [done |]. split; [by left | done]. }
    destruct (passesLanguageFilter (Langs c) (Name rslv)) eqn:Hpass.
    2:{ exists w. split; [done |]. split; [done |]. split; [by left |].
        split; [| done]. intros rslv' imps [= <-]. congruence. }
    destruct (Imports rslv c r f) as [imps|] eqn:Himps.
    2:{ exists w. split; [done |]. split; [done |]. split; [by left |].
        split; [| done]. intros rslv' imps [= <-]. congruence. }
    simpl. rewrite Hlm. eexists. split; [done |]. simpl. rewrite Hl.
    split; [done |]. split; [by right | done].
Qed.

(** C9.  After [Finish] has returned, every call of [AddRule] panics with
    the message of the contract violation, and the index at the panic is the
    index [Finish] left: no record is added or changed. *)
Theorem AddRule_after_Finish_panics (fuel : nat) (w w' : World)
    (c : Config) (r : Rule) (f : File) :
  Finish fuel w = Ok w' →
  AddRule c r f w'
  = Panic panicAfterFinish
      {| index := index w'; logged := logged w' ++ [Panicf panicAfterFinish] |}.
Proof.
  intros [Hfin _]%Finish_Ok_inv.
  apply finishIndex_Ok_inv in Hfin as (ix1 & _ & Hix).
  unfold AddRule. by rewrite Hix.
Qed.

(** C10.  In an index built by [AddRule] calls every record has a provider:
    the lookup function, asked again for the record's rule and package,
    returns the provider whose name is the record's language.  Hence no
    provider lookup of the closure pass yields nil: [Finish] does not panic,
    and returns normally given a recursion depth above the number of
    records. *)
Theorem collectEmbeds_provider_lookups_succeed
    (m : Rule → string → option Resolver) (exts : list (option CrossResolver))
    (specs : list (list ImportSpec)) (labels : list (list label.Label))
    (calls : list (Config * Rule * File)) (w : World) :
  AddRules calls (NewRuleIndex m exts specs labels) = Ok w →
  (∀ p rec, rules (index w) !! p = Some rec →
     ∃ rslv, mrslv (index w) (rule rec) (FilePkg (file rec)) = Some rslv
             ∧ lang rec = Name rslv)
  ∧ (∀ fuel, length (rules (index w)) < fuel → ∃ w', Finish fuel w = Ok w')
  ∧ (∀ fuel msg w', Finish fuel w ≠ Panic msg w').
Proof.
  intros Hadd.
  destruct (AddRules_new m exts specs labels calls) as (w0 & Hadd0 & Hreg & Hcr).
  assert (w0 = w) as -> by congruence.
  assert (Hok : ∀ fuel, length (rules (index w)) < fuel →
                        ∃ ix', finishIndex fuel (index w) = Ok ix').
  { intros fuel Hlt. apply finishIndex_Ok; [apply Hreg |].
    pose proof (pendingIn_le_length (rules (index w))). unfold pending. lia. }
  split; [apply (wf_resolver _ (reg_wf _ _ _ Hreg)) |]. split.
  - intros fuel Hlt. destruct (Hok fuel Hlt) as (ix' & Hfin).
    unfold Finish, lift. rewrite Hfin. eauto.
  - intros fuel msg w' Hpanic.
    destruct (Hok (S (fuel + length (rules (index w))))) as (ix' & Hfin); [lia |].
    rewrite (finishIndex_fuel_mono fuel) in Hfin; [| lia |].
    + unfold Finish, lift in Hpanic. by rewrite Hfin in Hpanic.
    + unfold Finish, lift in Hpanic. intros E. by rewrite E in Hpanic.
Qed.

(** X2.  Before [Finish], [AddRule] on a rule that has a provider whose
    language passes the filter, non-nil imports and a label not yet in the
    index appends one record for it, with those imports and no closure data,
    and writes nothing to the log; the new record is found under the rule's
    label from any place, and every other label resolves as before. *)
Lemma AddRule_registers_new_rule (c : Config) (r : Rule) (f : File) (w : World)
    (rslv : Resolver) (imps : slice) :
  didFinish (index w) = false →
  mrslv (index w) r (FilePkg f) = Some rslv →
  passesLanguageFilter (Langs c) (Name rslv) = true →
  Imports rslv c r f = Some imps →
  labelMap (index w) !! (label.New (RepoName c) (FilePkg f) (RuleName r)) = None →
  ∃ w', AddRule c r f w = Ok w'
    ∧ rules (index w') = rules (index w) ++ [newRecord c r f imps (Name rslv)]
    ∧ logged w' = logged w
    ∧ (∀ from, findRuleByLabel (index w')
                 (label.New (RepoName c) (FilePkg f) (RuleName r)) from
               = Some (length (rules (index w))))
    ∧ (∀ l, l ≠ label.New (RepoName c) (FilePkg f) (RuleName r) →
            labelMap (index w') !! l = labelMap (index w) !! l).
Proof.
  intros Hdf Hres Hpass Himps Hnew.
  rewrite (AddRule_unfinished c r f w Hdf).
  unfold langAndImports. rewrite Hres, Hpass, Himps. simpl. rewrite Hnew.
  eexists. split; [done |]. simpl. split; [done |]. split; [done |]. split.
  - intros from. unfold findRuleByLabel. simpl. by rewrite lookup_insert_eq.
  - intros l Hl. by rewrite lookup_insert_ne.
Qed.

(** X3.  Before [Finish], [AddRule] always returns normally, and it never
    removes or changes what the index holds: either the index is left as it
    was (with at most a report of a duplicate label added to the log), or
    the rule has a provider that passes the filter, non-nil imports and a new
    label, and exactly one record is appended for it. *)
Lemma AddRule_only_appends (c : Config) (r : Rule) (f : File) (w : World) :
  didFinish (index w) = false →
  ∃ w', AddRule c r f w = Ok w'
    ∧ ((index w' = index w
        ∧ (logged w' = logged w
           ∨ logged w' = logged w ++
               [Printf multipleRules
                  (label.New (RepoName c) (FilePkg f) (RuleName r))]))
       ∨ (∃ rslv imps,
            mrslv (index w) r (FilePkg f) = Some rslv
            ∧ passesLanguageFilter (Langs c) (Name rslv) = true
            ∧ Imports rslv c r f = Some imps
            ∧ labelMap (index w)
                !! (label.New (RepoName c) (FilePkg f) (RuleName r)) = None
            ∧ rules (index w')
              = rules (index w) ++ [newRecord c r f imps (Name rslv)]
            ∧ labelMap (index w')
              = <[label.New (RepoName c) (FilePkg f) (RuleName r)
                  := length (rules (index w))]> (labelMap (index w))
            ∧ importMap (index w') = importMap (index w)
            ∧ mrslv (index w') = mrslv (index w)
            ∧ crossResolvers (index w') = crossResolvers (index w)
            ∧ didFinish (index w') = false
            ∧ specArrays (index w') = specArrays (index w)
            ∧ labelArrays (index w') = labelArrays (index w)
            ∧ logged w' = logged w)).
Proof.
  intros Hdf. rewrite (AddRule_unfinished c r f w Hdf).
  destruct (langAndImports (index w) c r f) as [lang' [imps|]] eqn:Hli.
  2:{ exists w. split; [done |]. left. split; [done | by left]. }
  apply langAndImports_Some in Hli as (rslv & Hres & -> & Hpass & Himps).
  simpl.
  destruct (labelMap (index w) !! _) as [p|] eqn:Hl.
  - eexists. split; [done |]. left. simpl. split; [done | by right].
  - eexists. split; [done |]. right. exists rslv, imps. simpl.
    repeat (split; [done |]). done.
Qed.

(** Before [Finish], [AddRule] keeps the entries of the label map, and the
    label of a rule with a provider passing the filter and non-nil imports
    is in the label map afterwards. *)
Lemma AddRule_labels (c : Config) (r : Rule) (f : File) (w : World) :
  didFinish (index w) = false →
  ∃ w', AddRule c r f w = Ok w'
    ∧ didFinish (index w') = false ∧ mrslv (index w') = mrslv (index w)
    ∧ (∀ l p, labelMap (index w) !! l = Some p → labelMap (index w') !! l = Some p)
    ∧ (∀ rslv imps,
         mrslv (index w) r (FilePkg f) = Some rslv →
         passesLanguageFilter (Langs c) (Name rslv) = true →
         Imports rslv c r f = Some imps →
         ∃ p, labelMap (index w')
                !! (label.New (RepoName c) (FilePkg f) (RuleName r)) = Some p).
Proof.
  intros Hdf. rewrite (AddRule_unfinished c r f w Hdf).
  unfold langAndImports.
  destruct (mrslv (index w) r (FilePkg f)) as [rslv|].
  2:{ exists w. repeat (split; [done |]). by intros. }
  destruct (passesLanguageFilter (Langs c) (Name rslv)) eqn:Hpass.
  2:{ exists w. repeat (split; [done |]). intros ? ? [= <-] ?. congruence. }
  destruct (Imports rslv c r f) as [imps|] eqn:Himps.
  2:{ exists w. repeat (split; [done |]). intros ? ? [= <-] ? ?. congruence. }
  simpl. destruct (labelMap (index w) !! _) as [p|] eqn:Hl.
  - eexists. split; [done |]. simpl. repeat (split; [done |]). intros. by exists p.
  - eexists. split; [done |]. simpl. split; [done |]. split; [done |]. split.
    + intros l p Hp. rewrite lookup_insert_ne; [done |]. congruence.
    + intros. eexists. by rewrite lookup_insert_eq.
Qed.

(** A label in the label map stays there, at the same record, through any
    further [AddRule] calls. *)
Lemma AddRules_keeps_labels (calls : list (Config * Rule * File)) (w w' : World)
    (l : label.Label) (p : nat) :
  didFinish (index w) = false →
  AddRules calls w = Ok w' →
  labelMap (index w) !! l = Some p →
  labelMap (index w') !! l = Some p.
Proof.
  revert w. induction calls as [|[[c r] f] calls IH]; intros w Hdf Hrun Hl;
    unfold AddRules in Hrun; simpl in Hrun.
  - by simplify_eq.
  - apply bind_Ok in Hrun as (w1 & Hstep & Hrest).
    destruct (AddRule_labels c r f w Hdf) as (w1' & Hstep' & Hdf1 & _ & Hkeep & _).
    assert (w1' = w1) as -> by congruence.
    apply (IH w1 Hdf1 Hrest). by apply Hkeep.
Qed.

(** X4.  Every rule handed to [AddRule] that has a provider passing the
    filter and non-nil imports is in the index afterwards under its label:
    the label map resolves the label to a record carrying it (the rule's own
    record, or that of an earlier rule with the same label). *)
Lemma AddRules_registers_every_importable_rule
    (m : Rule → string → option Resolver) (exts : list (option CrossResolver))
    (specs : list (list ImportSpec)) (labels : list (list label.Label))
    (calls : list (Config * Rule * File)) (w : World)
    (c : Config) (r : Rule) (f : File) (rslv : Resolver) (imps : slice) :
  AddRules calls (NewRuleIndex m exts specs labels) = Ok w →
  (c, r, f) ∈ calls →
  m r (FilePkg f) = Some rslv →
  passesLanguageFilter (Langs c) (Name rslv) = true →
  Imports rslv c r f = Some imps →
  ∃ p rec,
    findRuleByLabel (index w) (label.New (RepoName c) (FilePkg f) (RuleName r))
      (label.New (RepoName c) (FilePkg f) (RuleName r)) = Some p
    ∧ rules (index w) !! p = Some rec
    ∧ label rec = label.New (RepoName c) (FilePkg f) (RuleName r).
Proof.
  intros Hrun Hin Hres Hpass Himps.
  apply list_elem_of_split in Hin as (before & after & ->).
  unfold AddRules in Hrun.
  destruct (AddRules_new m exts specs labels before) as (w0 & Hrun0 & Hreg0 & _).
  assert (Hsplit : AddRules (before ++ (c, r, f) :: after) (NewRuleIndex m exts specs labels)
                   = let* w1 := AddRules before (NewRuleIndex m exts specs labels) in
                     AddRules ((c, r, f) :: after) w1).
  { apply forEach_app. }
  unfold AddRules in Hsplit. rewrite Hsplit in Hrun.
  unfold AddRules in Hrun0. rewrite Hrun0 in Hrun. simpl in Hrun.
  apply bind_Ok in Hrun as (w1 & Hstep & Hrest).
  pose proof (reg_didFinish _ _ _ Hreg0) as Hdf0.
  pose proof (reg_mrslv _ _ _ Hreg0) as Hm0.
  destruct (AddRule_registering m before c r f w0 Hreg0) as (w1' & Hstep' & Hreg1 & _).
  assert (w1' = w1) as -> by congruence.
  set (l := label.New (RepoName c) (FilePkg f) (RuleName r)) in *.
  assert (∃ p, labelMap (index w1) !! l = Some p) as [p Hp].
  { destruct (AddRule_labels c r f w0 Hdf0) as (w1' & Hstep2 & _ & _ & _ & Hin).
    assert (w1' = w1) as -> by congruence.
    apply (Hin rslv imps); [by rewrite Hm0 | done | done]. }
  pose proof (AddRules_keeps_labels after w1 w l p (reg_didFinish _ _ _ Hreg1) Hrest Hp)
    as Hpw.
  destruct (AddRules_new m exts specs labels (before ++ (c, r, f) :: after)) as (w' & Hrun' & Hreg & _).
  unfold AddRules in Hrun'. rewrite Hsplit, Hrun0 in Hrun'. simpl in Hrun'.
  rewrite Hstep in Hrun'. simpl in Hrun'.
  assert (w' = w) as -> by congruence.
  apply (wf_labelMap _ (reg_wf _ _ _ Hreg)) in Hpw as Hrec.
  destruct Hrec as (rec & Hrec & Hlab).
  exists p, rec. split; [done |]. split; [done |]. done.
Qed.

(** X5.  In an index built by [AddRule] calls, a record is found under its
    own label from any place, and under a relative label with its name from
    any label of its repository and package; and [findRuleByLabel] returns a
    record exactly when that record carries the label resolved against
    [from], so it finds nothing when no record does. *)
Lemma findRuleByLabel_finds_registered_rules
    (m : Rule → string → option Resolver) (exts : list (option CrossResolver))
    (specs : list (list ImportSpec)) (labels : list (list label.Label))
    (calls : list (Config * Rule * File)) (w : World) (p : nat) (rec : ruleRecord) :
  AddRules calls (NewRuleIndex m exts specs labels) = Ok w →
  rules (index w) !! p = Some rec →
  (∀ from, findRuleByLabel (index w) (label rec) from = Some p)
  ∧ (∀ l from,
       label.Relative l = true → label.Name l = label.Name (label rec) →
       label.Repo from = label.Repo (label rec) →
       label.Pkg from = label.Pkg (label rec) →
       findRuleByLabel (index w) l from = Some p)
  ∧ (∀ l from q,
       findRuleByLabel (index w) l from = Some q
       ↔ ∃ rec', rules (index w) !! q = Some rec'
                 ∧ label rec' = label.Abs l (label.Repo from) (label.Pkg from)).
Proof.
  intros Hadd Hp.
  destruct (AddRules_new m exts specs labels calls) as (w0 & Hadd0 & Hreg & _).
  assert (w0 = w) as -> by congruence.
  pose proof (reg_wf _ _ _ Hreg) as Hwf.
  destruct (reg_from _ _ _ Hreg p rec Hp) as (c & r & f & imps & _ & _ & Hrec).
  assert (Hrel : label.Relative (label rec) = false) by by rewrite Hrec.
  assert (Hfind : ∀ l from,
             label.Abs l (label.Repo from) (label.Pkg from) = label rec →
             findRuleByLabel (index w) l from = Some p).
  { intros l from Habs. unfold findRuleByLabel. rewrite Habs.
    apply (wf_labelMap _ Hwf). eauto. }
  split; [| split].
  - intros from. apply Hfind. unfold label.Abs. by rewrite Hrel.
  - intros l from Hl Hname Hrepo Hpkg. apply Hfind. unfold label.Abs.
    rewrite Hl, Hname, Hrepo, Hpkg. destruct (label rec). simpl in *. by subst.
  - intros l from q. unfold findRuleByLabel. apply (wf_labelMap _ Hwf).
Qed.

(** One call with an importable rule adds a record or a line of the log. *)
Lemma AddRule_counts (c : Config) (r : Rule) (f : File) (w : World) :
  didFinish (index w) = false →
  ∃ w', AddRule c r f w = Ok w'
    ∧ didFinish (index w') = false ∧ mrslv (index w') = mrslv (index w)
    ∧ length (rules (index w')) + length (logged w')
      = length (rules (index w)) + length (logged w)
        + (if importable (mrslv (index w)) (c, r, f) then 1 else 0).
Proof.
  intros Hdf. rewrite (AddRule_unfinished c r f w Hdf).
  unfold langAndImports, importable. simpl.
  destruct (mrslv (index w) r (FilePkg f)) as [rslv|]; simpl.
  2:{ exists w. split; [done |]. split; [done |]. split; [done | lia]. }
  destruct (passesLanguageFilter (Langs c) (Name rslv)); simpl.
  2:{ exists w. split; [done |]. split; [done |]. split; [done | lia]. }
  destruct (Imports rslv c r f) as [imps|]; simpl.
  2:{ exists w. split; [done |]. split; [done |]. split; [done | lia]. }
  destruct (labelMap (index w) !! _) as [p|].
  - eexists. split; [done |]. simpl. split; [done |]. split; [done |].
    rewrite length_app. simpl. lia.
  - eexists. split; [done |]. simpl. split; [done |]. split; [done |].
    rewrite length_app. simpl. lia.
Qed.

Lemma AddRules_counts (calls : list (Config * Rule * File)) (w w' : World) :
  didFinish (index w) = false →
  AddRules calls w = Ok w' →
  length (rules (index w')) + length (logged w')
  = length (rules (index w)) + length (logged w)
    + length (filter (fun call => importable (mrslv (index w)) call = true) calls).
Proof.
  revert w. induction calls as [|[[c r] f] calls IH]; intros w Hdf Hrun;
    unfold AddRules in Hrun; simpl in Hrun.
  - simplify_eq. simpl. lia.
  - apply bind_Ok in Hrun as (w1 & Hstep & Hrest).
    destruct (AddRule_counts c r f w Hdf) as (w1' & Hstep' & Hdf1 & Hm1 & Hcount).
    assert (w1' = w1) as -> by congruence.
    rewrite (IH w1 Hdf1 Hrest), Hm1, Hcount, filter_cons.
    destruct (importable (mrslv (index w)) (c, r, f)).
    + rewrite decide_True by done. simpl. lia.
    + rewrite decide_False by done. lia.
Qed.

(** X18.  No importable rule is dropped silently: after any sequence of
    [AddRule] calls on a new index, the number of records plus the number of
    lines in the log is the number of calls whose rule has a provider
    passing the filter and non-nil imports; each such call created a record
    or logged a duplicate label, and no other call did either. *)
Lemma AddRules_records_or_reports_every_importable_rule
    (m : Rule → string → option Resolver) (exts : list (option CrossResolver))
    (specs : list (list ImportSpec)) (labels : list (list label.Label))
    (calls : list (Config * Rule * File)) (w : World) :
  AddRules calls (NewRuleIndex m exts specs labels) = Ok w →
  length (rules (index w)) + length (logged w)
  = length (filter (fun call => importable m call = true) calls).
Proof.
  intros Hrun. by rewrite (AddRules_counts calls (NewRuleIndex m exts specs labels) w eq_refl Hrun).
Qed.

(** X6.  An index on which [Finish] has not been called has no import map:
    [FindRulesByImport] finds nothing, whatever rules were added, and
    [FindRulesByImportWithConfig] returns what the CrossResolvers among the
    extensions return, in the order the extensions were given. *)
Lemma queries_before_Finish_find_no_rule
    (m : Rule → string → option Resolver) (exts : list (option CrossResolver))
    (specs : list (list ImportSpec)) (labels : list (list label.Label))
    (calls : list (Config * Rule * File)) (w : World)
    (c : Config) (imp : ImportSpec) (lang' : string) :
  AddRules calls (NewRuleIndex m exts specs labels) = Ok w →
  FindRulesByImport (index w) imp lang' = []
  ∧ FindRulesByImportWithConfig (index w) c imp lang'
    = (concat (map (fun cr : CrossResolver =>
                      cr c (FindRulesByImport (index w)) imp lang')
                   (omap id exts)),
       seq 0 (length (omap id exts))).
Proof.
  intros Hadd.
  destruct (AddRules_new m exts specs labels calls) as (w0 & Hadd0 & Hreg & Hcr).
  assert (w0 = w) as -> by congruence.
  assert (Hnone : FindRulesByImport (index w) imp lang' = []).
  { unfold FindRulesByImport. rewrite (reg_importMap _ _ _ Hreg).
    by rewrite lookup_total_empty. }
  split; [done |].
  unfold FindRulesByImportWithConfig. rewrite Hnone, <- Hcr.
  rewrite decide_False by (simpl; lia).
  by rewrite (crossResolve_fold _ c _ imp lang' ([], []) 0).
Qed.

(** X7.  After [Finish], the bucket of an import lists the positions of the
    records that are not marked embedded and carry the import, in the order
    of registration, each position once (also when a record carries the
    import several times). *)
Lemma Finish_builds_buckets_in_registration_order (fuel : nat) (w w' : World)
    (imp : ImportSpec) :
  Finish fuel w = Ok w' →
  importMap (index w') !!! imp
  = filter (fun p => indexable (index w') imp p = true)
      (seq 0 (length (rules (index w')))).
Proof.
  intros [Hfin _]%Finish_Ok_inv.
  apply finishIndex_Ok_inv in Hfin as (ix1 & _ & ->).
  exact (buildImportIndex_lookup ix1 imp).
Qed.

Lemma FindRulesByImport_filter (fuel : nat) (w w' : World)
    (imp : ImportSpec) (lang' : string) :
  Finish fuel w = Ok w' →
  FindRulesByImport (index w') imp lang'
  = (fun rec => FindResult.mk (label rec) (embedsOf (index w') rec))
      <$> filter (fun rec => embedded rec = false
                             ∧ imp ∈ importsOf (index w') rec
                             ∧ lang rec = lang')
            (rules (index w')).
Proof.
  intros Hfin.
  assert (Hbucket : importMap (index w') !!! imp
                    = filter (fun p => indexable (index w') imp p = true)
                        (seq 0 (length (rules (index w'))))).
  { apply Finish_Ok_inv in Hfin as [Hfin _].
    apply finishIndex_Ok_inv in Hfin as (ix1 & _ & ->).
    exact (buildImportIndex_lookup ix1 imp). }
  unfold FindRulesByImport. cbv zeta. rewrite Hbucket.
  rewrite omap_filter, <- omap_fmap_filter.
  rewrite <- (omap_seq_lookup _ (rules (index w'))).
  apply omap_ext_in. intros p _. unfold indexable.
  destruct (rules (index w') !! p) as [rec|]; simpl; [| done].
  destruct (embedded rec),
    (decide (imp ∈ importsOf (index w') rec)) as [Hin | Hin],
    (decide (lang rec = lang')) as [Hl | Hl]; simpl;
    rewrite ?(bool_decide_eq_true_2 _ Hin), ?(bool_decide_eq_false_2 _ Hin);
    repeat case_decide; try done; exfalso; intuition congruence.
Qed.

(** X8.  After [Finish], the results of [FindRulesByImport] are, in the order
    of registration, one result for each record that is not marked embedded,
    carries the import and has the queried language, with the record's label
    and its embeds list. *)
Lemma FindRulesByImport_lists_matching_records (fuel : nat) (w w' : World)
    (imp : ImportSpec) (lang' : string) :
  Finish fuel w = Ok w' →
  FindRulesByImport (index w') imp lang'
  = (fun rec => FindResult.mk (label rec) (embedsOf (index w') rec))
      <$> filter (fun rec => embedded rec = false
                             ∧ imp ∈ importsOf (index w') rec
                             ∧ lang rec = lang')
            (rules (index w')).
Proof. exact (FindRulesByImport_filter fuel w w' imp lang'). Qed.

(** X9.  On an index built by [AddRule] calls and [Finish], the results of a
    query carry pairwise different labels: no rule is returned twice, however
    often it carries the import, itself or through the rules it embeds. *)
Lemma FindRulesByImport_returns_each_rule_once
    (m : Rule → string → option Resolver) (exts : list (option CrossResolver))
    (specs : list (list ImportSpec)) (labels : list (list label.Label))
    (calls : list (Config * Rule * File)) (fuel : nat) (w w' : World)
    (imp : ImportSpec) (lang' : string) :
  AddRules calls (NewRuleIndex m exts specs labels) = Ok w →
  Finish fuel w = Ok w' →
  NoDup (FindResult.Label <$> FindRulesByImport (index w') imp lang').
Proof.
  intros Hadd Hfin.
  destruct (AddRules_new m exts specs labels calls) as (w0 & Hadd0 & Hreg & _).
  assert (w0 = w) as -> by congruence.
  assert (Hwf : wf (index w')).
  { apply Finish_Ok_inv in Hfin as [Hg%finishIndex_grows _].
    eapply wf_grows; [done | apply Hreg]. }
  rewrite (FindRulesByImport_filter fuel w w' imp lang' Hfin).
  rewrite <- list_fmap_compose.
  change (NoDup (label <$> filter
                   (fun rec => embedded rec = false
                               ∧ imp ∈ importsOf (index w') rec
                               ∧ lang rec = lang')
                   (rules (index w')))).
  apply (sublist_NoDup _ (label <$> rules (index w'))).
  - apply NoDup_alt. intros i j l Hi Hj.
    apply list_lookup_fmap_Some_1 in Hi as (ri & -> & Hi).
    apply list_lookup_fmap_Some_1 in Hj as (rj & Hlj & Hj).
    by eapply wf_label_inj.
  - apply fmap_sublist, sublist_filter.
Qed.

(** The closure pass sets the closure flag of every record. *)
Lemma closurePass_flags_all fuel ix ix1 :
  closurePass fuel ix = Ok ix1 →
  grows ix ix1 ∧ ∀ p rec, rules ix1 !! p = Some rec → didCollectEmbeds rec = true.
Proof.
  intros Hrun. unfold closurePass in Hrun.
  cut (grows ix ix1 ∧ ∀ p, p ∈ seq 0 (length (rules ix)) → flagged ix1 p).
  { intros [Hg Hall]. split; [done |]. intros p rec Hp.
    destruct (Hall p) as (rec' & Hp' & Hf).
    - apply elem_of_seq. apply lookup_lt_Some in Hp.
      rewrite (grows_length _ _ Hg) in Hp. lia.
    - congruence. }
  apply (forEach_Ok_inv _
    (fun done cur => grows ix cur ∧ ∀ p, p ∈ done → flagged cur p) _ _ _ Hrun).
  { split; [done |]. by intros p Hp%elem_of_nil. }
  intros done p rest cur s2 _ [Hg Hdone] Hstep.
  apply collectEmbeds_grows in Hstep as [Hg2 Hfp].
  split; [by etrans |].
  intros q [Hq | ->%list_elem_of_singleton]%elem_of_app; [| done].
  eapply grows_flagged; [done |]. by apply Hdone.
Qed.

(** [Finish] writes nothing to the log, keeps the label map, the provider
    lookup and the CrossResolvers, and neither adds nor removes a record.
    Each record keeps its rule, label, file and language; an embedded mark
    it had is kept, and its closure flag is set afterwards. *)
Lemma Finish_keeps_fields (fuel : nat) (w w' : World) :
  Finish fuel w = Ok w' →
  logged w' = logged w
  ∧ labelMap (index w') = labelMap (index w)
  ∧ mrslv (index w') = mrslv (index w)
  ∧ crossResolvers (index w') = crossResolvers (index w)
  ∧ didFinish (index w') = true
  ∧ length (rules (index w')) = length (rules (index w))
  ∧ ∀ p rec, rules (index w) !! p = Some rec →
      ∃ rec', rules (index w') !! p = Some rec'
        ∧ rule rec' = rule rec ∧ label rec' = label rec
        ∧ file rec' = file rec ∧ lang rec' = lang rec
        ∧ (embedded rec = true → embedded rec' = true)
        ∧ didCollectEmbeds rec' = true.
Proof.
  intros [Hfin Hlog]%Finish_Ok_inv. split; [done |].
  pose proof (finishIndex_grows _ _ _ Hfin) as Hg.
  apply finishIndex_Ok_inv in Hfin as (ix1 & Hrun & Hix).
  apply closurePass_flags_all in Hrun as [_ Hflags].
  split; [apply Hg |]. split; [apply Hg |]. split; [apply Hg |].
  split; [by rewrite Hix |]. split; [by apply grows_length |].
  intros p rec Hp. destruct (grows_lookup _ _ _ _ Hg Hp) as (rec' & Hp' & Hle).
  exists rec'. split; [done |]. destruct Hle.
  repeat (split; [done |]). apply (Hflags p). by rewrite Hix in Hp'.
Qed.

(** X11.  [Finish] can be called again: on the index it has left, a second
    call (with any positive recursion depth) returns normally and changes
    nothing. *)
Lemma Finish_twice (fuel fuel' : nat) (w w' : World) :
  Finish fuel w = Ok w' → 0 < fuel' → Finish fuel' w' = Ok w'.
Proof.
  intros [Hfin Hlog]%Finish_Ok_inv Hpos.
  apply finishIndex_Ok_inv in Hfin as (ix1 & Hrun & Hix).
  apply closurePass_flags_all in Hrun as [_ Hflags].
  assert (Hpass : closurePass fuel' (index w') = Ok (index w')).
  { unfold closurePass.
    destruct (forEach_Ok (collectEmbeds fuel') (fun ix => ix = index w')
                (seq 0 (length (rules (index w')))) (index w') eq_refl)
      as (ix2 & Hrun2 & ->); [| done].
    intros p ? Hp%elem_of_seq ->. exists (index w'). split; [| done].
    destruct fuel' as [|k]; [lia |]. simpl.
    destruct (rules (index w') !! p) as [rec|] eqn:Hr.
    - rewrite Hix in Hr. simpl in Hr. by rewrite (Hflags p rec Hr).
    - apply lookup_ge_None in Hr. lia. }
  unfold Finish, lift, finishIndex. rewrite Hpass. simpl.
  destruct w' as [ix' lg]. simpl in *. subst ix'. done.
Qed.

End IndexFacts.

(** * The index and the index as its records read *)

Section Simulation.
Context `{Collaborators}.
Context (specs : list (list ImportSpec)) (labels : list (list label.Label)).
Implicit Types (ix : RuleIndex) (rec : ruleRecord) (p q r er : nat) (s t : slice).

Lemma sim_rules_lookup ix p :
  Flat.rules (flatIndex specs labels ix) !! p = flatRecord ix <$> rules ix !! p.
Proof. apply list_lookup_fmap. Qed.

Lemma modify_lookup_Some p g ix q rec' :
  rules (modify p g ix) !! q = Some rec' →
  ∃ rec, rules ix !! q = Some rec ∧ rec' = if decide (q = p) then g rec else rec.
Proof.
  destruct (decide (q = p)) as [->|Hne].
  - rewrite modify_lookup_eq. destruct (rules ix !! p) as [rec|]; [| done].
    intros [= <-]. eauto.
  - rewrite modify_lookup_ne by done. eauto.
Qed.

Lemma embedSlice_eq ix ix' rec rec' :
  mrslv ix' = mrslv ix → rule rec' = rule rec → label rec' = label rec →
  file rec' = file rec → embedSlice ix' rec' = embedSlice ix rec.
Proof.
  intros Hm Hr Hl Hf. unfold embedSlice, resolverOf. by rewrite Hm, Hr, Hl, Hf.
Qed.

(** ** Updates of a record that leave its slices alone *)

Lemma modify_flags_sound p g ix :
  (∀ rec, importedAs (g rec) = importedAs rec ∧ embeds (g rec) = embeds rec
          ∧ rule (g rec) = rule rec ∧ label (g rec) = label rec
          ∧ file (g rec) = file rec) →
  sound labels ix → sound labels (modify p g ix).
Proof.
  intros Hg Hs.
  assert (Hlk : ∀ q rec', rules (modify p g ix) !! q = Some rec' →
            ∃ rec, rules ix !! q = Some rec ∧ importedAs rec' = importedAs rec
                   ∧ embeds rec' = embeds rec
                   ∧ embedSlice (modify p g ix) rec' = embedSlice ix rec).
  { intros q rec' (rec & Hq & ->)%modify_lookup_Some. exists rec. split; [done |].
    case_decide; [| done]. destruct (Hg rec) as (-> & -> & Hr & Hl & Hf).
    split; [done |]. split; [done |]. by apply embedSlice_eq. }
  split.
  - intros q rec' (rec & Hq & -> & _)%Hlk. by apply (snd_imports_inside _ _ Hs q).
  - intros q1 q2 rec1' rec2' Hne (rec1 & Hq1 & -> & _)%Hlk (rec2 & Hq2 & -> & _)%Hlk.
    by apply (snd_imports_clear _ _ Hs q1 q2).
  - intros q rec' (rec & Hq & _ & -> & ->)%Hlk. by apply (snd_embeds_inside _ _ Hs q).
  - intros q1 q2 rec1' rec2' Hne (rec1 & Hq1 & _ & -> & ->)%Hlk
      (rec2 & Hq2 & _ & -> & ->)%Hlk.
    by apply (snd_embeds_clear _ _ Hs q1 q2).
  - intros q rec' a i (rec & Hq & _ & -> & ->)%Hlk. by apply (snd_embeds_own _ _ Hs q).
  - intros q rec' (rec & Hq & _ & _ & ->)%Hlk. by apply (snd_reported _ _ Hs q).
Qed.

Lemma modify_flags_flat p g (g' : Flat.ruleRecord → Flat.ruleRecord) ix :
  (∀ rec, importedAs (g rec) = importedAs rec ∧ embeds (g rec) = embeds rec) →
  (∀ rec, flatRecord ix (g rec) = g' (flatRecord ix rec)) →
  flatIndex specs labels (modify p g ix)
  = Flat.modify p g' (flatIndex specs labels ix).
Proof.
  intros Hg Hg'. unfold flatIndex, Flat.modify, Flat.with_rules. simpl. f_equal.
  apply list_eq. intros q. rewrite list_lookup_fmap.
  destruct (decide (q = p)) as [->|Hne].
  - rewrite !list_lookup_alter_eq, list_lookup_fmap.
    destruct (rules ix !! p) as [rec|]; [| done]. simpl. f_equal. apply Hg'.
  - rewrite !list_lookup_alter_ne by done. by rewrite list_lookup_fmap.
Qed.

(** ** [append] on the imports of a record *)

Lemma appendImportedAs_sim r er ix erRec :
  sound labels ix → rules ix !! er = Some erRec →
  sound labels (appendImportedAs r er ix)
  ∧ flatIndex specs labels (appendImportedAs r er ix)
    = Flat.modify r
        (fun rr => Flat.with_importedAs
                     (Flat.importedAs rr ++ importsOf ix erRec) rr)
        (flatIndex specs labels ix).
Proof.
  intros Hs Her. unfold appendImportedAs. rewrite Her.
  destruct (rules ix !! r) as [rRec|] eqn:Hr.
  2:{ split; [done |]. unfold flatIndex, Flat.modify, Flat.with_rules. simpl.
      f_equal. symmetry. apply alter_outside. by rewrite list_lookup_fmap, Hr. }
  set (h := specArrays ix). set (xs := importsOf ix erRec).
  set (res := append h (importedAs rRec) xs).
  pose proof (snd_imports_inside _ _ Hs r rRec Hr) as Hin. fold h in Hin.
  assert (Hlk : ∀ q rec',
            rules (modify r (with_importedAs res.2) (with_specArrays res.1 ix)) !! q
            = Some rec' →
            ∃ rec, rules ix !! q = Some rec
                   ∧ rec' = if decide (q = r) then with_importedAs res.2 rec else rec).
  { intros q rec' Hq. by apply modify_lookup_Some in Hq. }
  split; [split |].
  - intros q rec' (rec & Hq & ->)%Hlk. simpl. case_decide as Hqr.
    + subst q. assert (rec = rRec) as -> by congruence. by apply append_inside.
    + apply append_inside_frame; [done |]. by apply (snd_imports_inside _ _ Hs q).
  - intros q1 q2 rec1' rec2' Hne (rec1 & Hq1 & ->)%Hlk (rec2 & Hq2 & ->)%Hlk.
    pose proof (snd_imports_clear _ _ Hs q1 q2 rec1 rec2 Hne Hq1 Hq2) as Hc.
    repeat case_decide; subst; simpl.
    + done.
    + assert (rec1 = rRec) as -> by congruence. by apply append_clear_l.
    + assert (rec2 = rRec) as -> by congruence.
      apply append_clear_r; [| done]. by apply (snd_imports_inside _ _ Hs q1).
    + done.
  - intros q rec' (rec & Hq & ->)%Hlk.
    assert (Heq : embeds (if decide (q = r) then with_importedAs res.2 rec else rec)
                  = embeds rec) by by case_decide.
    assert (Hes : embedSlice (modify r (with_importedAs res.2) (with_specArrays res.1 ix))
                    (if decide (q = r) then with_importedAs res.2 rec else rec)
                  = embedSlice ix rec) by by case_decide.
    rewrite Heq, Hes. by apply (snd_embeds_inside _ _ Hs q).
  - intros q1 q2 rec1' rec2' Hne (rec1 & Hq1 & ->)%Hlk (rec2 & Hq2 & ->)%Hlk.
    assert (He : ∀ q rec,
              embeds (if decide (q = r) then with_importedAs res.2 rec else rec)
              = embeds rec
              ∧ embedSlice (modify r (with_importedAs res.2) (with_specArrays res.1 ix))
                  (if decide (q = r) then with_importedAs res.2 rec else rec)
                = embedSlice ix rec) by (intros; by case_decide).
    destruct (He q1 rec1) as [-> ->]. destruct (He q2 rec2) as [-> ->].
    by apply (snd_embeds_clear _ _ Hs q1 q2).
  - intros q rec' a i (rec & Hq & ->)%Hlk.
    assert (Heq : embeds (if decide (q = r) then with_importedAs res.2 rec else rec)
                  = embeds rec) by by case_decide.
    assert (Hes : embedSlice (modify r (with_importedAs res.2) (with_specArrays res.1 ix))
                    (if decide (q = r) then with_importedAs res.2 rec else rec)
                  = embedSlice ix rec) by by case_decide.
    rewrite Heq, Hes. by apply (snd_embeds_own _ _ Hs q).
  - intros q rec' (rec & Hq & ->)%Hlk.
    assert (Hes : embedSlice (modify r (with_importedAs res.2) (with_specArrays res.1 ix))
                    (if decide (q = r) then with_importedAs res.2 rec else rec)
                  = embedSlice ix rec) by by case_decide.
    rewrite Hes. by apply (snd_reported _ _ Hs q).
  - unfold flatIndex, Flat.modify, Flat.with_rules. simpl. f_equal.
    apply list_eq. intros q. rewrite list_lookup_fmap.
    destruct (decide (q = r)) as [->|Hne].
    + rewrite !list_lookup_alter_eq, list_lookup_fmap, Hr. simpl. f_equal.
      unfold flatRecord, Flat.with_importedAs. simpl. f_equal.
      unfold importsOf. simpl. by apply append_contents.
    + rewrite !list_lookup_alter_ne by done. rewrite list_lookup_fmap.
      destruct (rules ix !! q) as [rec|] eqn:Hq; [| done]. simpl. f_equal.
      unfold flatRecord. f_equal. unfold importsOf. simpl.
      apply append_frame; [done | by apply (snd_imports_inside _ _ Hs q) |].
      apply (snd_imports_clear _ _ Hs r q); [done | done | done].
Qed.

(** ** [append] on the embeds of a record *)

Lemma appendEmbeds_sim r er ix erRec :
  sound labels ix → rules ix !! er = Some erRec →
  sound labels (appendEmbeds r er ix)
  ∧ flatIndex specs labels (appendEmbeds r er ix)
    = Flat.modify r
        (fun rr => Flat.with_embeds (Flat.embeds rr ++ embedsOf ix erRec) rr)
        (flatIndex specs labels ix).
Proof.
  intros Hs Her. unfold appendEmbeds. rewrite Her.
  destruct (rules ix !! r) as [rRec|] eqn:Hr.
  2:{ split; [done |]. unfold flatIndex, Flat.modify, Flat.with_rules. simpl.
      f_equal. symmetry. apply alter_outside. by rewrite list_lookup_fmap, Hr. }
  set (h := labelArrays ix). set (xs := embedsOf ix erRec).
  set (res := append h (embeds rRec) xs).
  set (ix' := modify r (with_embeds res.2) (with_labelArrays res.1 ix)).
  destruct (snd_embeds_inside _ _ Hs r rRec Hr) as [Hin Hdin]. fold h in Hin, Hdin.
  assert (Hlk : ∀ q rec', rules ix' !! q = Some rec' →
            ∃ rec, rules ix !! q = Some rec
                   ∧ importedAs rec' = importedAs rec
                   ∧ embedSlice ix' rec' = embedSlice ix rec
                   ∧ embeds rec' = if decide (q = r) then res.2 else embeds rec).
  { intros q rec' (rec & Hq & ->)%modify_lookup_Some. exists rec.
    split; [done |]. by case_decide. }
  assert (Hframe : ∀ q rec, rules ix !! q = Some rec →
            inside res.1 (embedSlice ix rec)
            ∧ contents res.1 (embedSlice ix rec) = contents h (embedSlice ix rec)
            ∧ (q ≠ r → inside res.1 (embeds rec)
                       ∧ contents res.1 (embeds rec) = contents h (embeds rec))).
  { intros q rec Hq. destruct (snd_embeds_inside _ _ Hs q rec Hq) as [Hi Hdi].
    split; [by apply append_inside_frame |]. split.
    - destruct (decide (q = r)) as [->|Hne].
      + assert (rec = rRec) as -> by congruence.
        apply append_frame_reads; [done | done |].
        intros a i. by apply (snd_embeds_own _ _ Hs r).
      + apply append_frame; [done | done |].
        by apply (snd_embeds_clear _ _ Hs r q rRec rec).
    - intros Hne. split; [by apply append_inside_frame |].
      apply append_frame; [done | done |].
      by apply (snd_embeds_clear _ _ Hs r q rRec rec). }
  split; [split |].
  - intros q rec' (rec & Hq & -> & _)%Hlk. simpl.
    by apply (snd_imports_inside _ _ Hs q).
  - intros q1 q2 rec1' rec2' Hne (rec1 & Hq1 & -> & _)%Hlk (rec2 & Hq2 & -> & _)%Hlk.
    by apply (snd_imports_clear _ _ Hs q1 q2).
  - intros q rec' (rec & Hq & _ & -> & ->)%Hlk. simpl.
    destruct (Hframe q rec Hq) as (Hdi & _ & Hother). split; [| done].
    case_decide as Hqr; [by apply append_inside | by apply Hother].
  - intros q1 q2 rec1' rec2' Hne (rec1 & Hq1 & _ & -> & ->)%Hlk
      (rec2 & Hq2 & _ & -> & ->)%Hlk.
    destruct (snd_embeds_clear _ _ Hs q1 q2 rec1 rec2 Hne Hq1 Hq2)
      as (Hee & Hed & Hde & Hdd).
    destruct (snd_embeds_inside _ _ Hs q1 rec1 Hq1) as [Hi1 Hdi1].
    repeat case_decide; subst.
    + done.
    + assert (rec1 = rRec) as -> by congruence.
      split; [by apply append_clear_l |]. split; [by apply append_clear_l |]. done.
    + assert (rec2 = rRec) as -> by congruence.
      split; [by apply append_clear_r |]. split; [done |].
      split; [by apply append_clear_r |]. done.
    + done.
  - intros q rec' a i (rec & Hq & _ & -> & ->)%Hlk Hsp.
    case_decide as Hqr.
    + subst q. assert (rec = rRec) as -> by congruence.
      apply append_spare in Hsp. by apply (snd_embeds_own _ _ Hs r).
    + by apply (snd_embeds_own _ _ Hs q).
  - intros q rec' (rec & Hq & _ & -> & _)%Hlk. simpl.
    destruct (Hframe q rec Hq) as (_ & -> & _). by apply (snd_reported _ _ Hs q).
  - unfold flatIndex, Flat.modify, Flat.with_rules. simpl. f_equal.
    apply list_eq. intros q. rewrite list_lookup_fmap.
    destruct (decide (q = r)) as [->|Hne].
    + rewrite !list_lookup_alter_eq, list_lookup_fmap, Hr. simpl. f_equal.
      unfold flatRecord, Flat.with_embeds. simpl. f_equal.
      unfold embedsOf. simpl. by apply append_contents.
    + rewrite !list_lookup_alter_ne by done. rewrite list_lookup_fmap.
      destruct (rules ix !! q) as [rec|] eqn:Hq; [| done]. simpl. f_equal.
      unfold flatRecord. f_equal. unfold embedsOf. simpl.
      by apply (Hframe q rec Hq).
Qed.

(** ** The loop body *)

Lemma absorb_sim resolver r er ix ix' :
  sound labels ix → absorb resolver r er ix = Ok ix' →
  sound labels ix'
  ∧ Flat.absorb (flatResolver specs labels resolver) r er (flatIndex specs labels ix)
    = Ok (flatIndex specs labels ix').
Proof.
  intros Hs Hab. unfold absorb in Hab. unfold Flat.absorb.
  rewrite sim_rules_lookup.
  destruct (rules ix !! er) as [erRec|] eqn:Her; [| done]. simpl.
  destruct (mrslv ix (rule erRec) (FilePkg (file erRec))) as [erResolver|] eqn:Hres;
    [| done].
  simpl. injection Hab as <-.
  assert (Hlast : ∀ ix1 erRec1, sound labels ix1 → rules ix1 !! er = Some erRec1 →
            sound labels (appendImportedAs r er ix1)
            ∧ Ok (Flat.modify r
                    (fun rr => Flat.with_importedAs
                       (Flat.importedAs rr
                        ++ from_option Flat.importedAs []
                             (Flat.rules (flatIndex specs labels ix1) !! er)) rr)
                    (flatIndex specs labels ix1))
              = Ok (flatIndex specs labels (appendImportedAs r er ix1))).
  { intros ix1 erRec1 Hs1 Her1.
    destruct (appendImportedAs_sim r er ix1 erRec1 Hs1 Her1) as [Hs2 ->].
    split; [done |]. by rewrite sim_rules_lookup, Her1. }
  destruct (decide (Name resolver = Name erResolver)) as [Hn|Hn].
  - set (ixe := modify er (with_embedded true) ix).
    assert (Hse : sound labels ixe) by by apply modify_flags_sound.
    assert (Hfe : flatIndex specs labels ixe
                  = Flat.modify er (Flat.with_embedded true) (flatIndex specs labels ix))
      by by apply modify_flags_flat.
    assert (Here : rules ixe !! er = Some (with_embedded true erRec)).
    { unfold ixe. by rewrite modify_lookup_eq, Her. }
    destruct (appendEmbeds_sim r er ixe _ Hse Here) as [Hs1 Hf1].
    destruct (grows_lookup _ _ _ _ (appendEmbeds_grows r er ixe) Here)
      as (erRec1 & Her1 & _).
    destruct (Hlast _ _ Hs1 Her1) as [Hs2 Hf2]. split; [done |].
    rewrite <- Hf2, Hf1, Hfe.
    by rewrite list_lookup_alter_eq, list_lookup_fmap, Her.
  - by apply (Hlast ix erRec).
Qed.

Lemma enter_sim r rec ix :
  sound labels ix → rules ix !! r = Some rec →
  sound labels (enter r (embedSlice ix rec) ix)
  ∧ flatIndex specs labels (enter r (embedSlice ix rec) ix)
    = Flat.enter r (contents labels (embedSlice ix rec)) (flatIndex specs labels ix).
Proof.
  intros Hs Hr. set (L := embedSlice ix rec).
  assert (Hlk : ∀ q rec', rules (enter r L ix) !! q = Some rec' →
            ∃ rec0, rules ix !! q = Some rec0
                   ∧ importedAs rec' = importedAs rec0
                   ∧ embedSlice (enter r L ix) rec' = embedSlice ix rec0
                   ∧ embeds rec' = if decide (q = r) then L else embeds rec0).
  { intros q rec'. destruct (decide (q = r)) as [->|Hne].
    - rewrite (enter_lookup _ _ _ _ Hr). intros [= <-]. by exists rec.
    - rewrite enter_lookup_ne by done. intros Hq. by exists rec'. }
  split; [split |].
  - intros q rec' (rec0 & Hq & -> & _)%Hlk. by apply (snd_imports_inside _ _ Hs q).
  - intros q1 q2 rec1' rec2' Hne (rec1 & Hq1 & -> & _)%Hlk (rec2 & Hq2 & -> & _)%Hlk.
    by apply (snd_imports_clear _ _ Hs q1 q2).
  - intros q rec' (rec0 & Hq & _ & -> & ->)%Hlk.
    destruct (snd_embeds_inside _ _ Hs q rec0 Hq) as [Hi Hdi]. split; [| done].
    case_decide as Hqr; [| done]. subst q. assert (rec0 = rec) as -> by congruence.
    done.
  - intros q1 q2 rec1' rec2' Hne (rec1 & Hq1 & _ & -> & ->)%Hlk
      (rec2 & Hq2 & _ & -> & ->)%Hlk.
    destruct (snd_embeds_clear _ _ Hs q1 q2 rec1 rec2 Hne Hq1 Hq2)
      as (Hee & Hed & Hde & Hdd).
    repeat case_decide; subst.
    + done.
    + by assert (rec1 = rec) as -> by congruence.
    + by assert (rec2 = rec) as -> by congruence.
    + done.
  - intros q rec' a i (rec0 & Hq & _ & -> & ->)%Hlk Hsp.
    case_decide as Hqr; [| by apply (snd_embeds_own _ _ Hs q)].
    subst q. assert (rec0 = rec) as -> by congruence.
    destruct Hsp as [_ Hsp]. intros [_ Hrd]. fold L in Hrd. lia.
  - intros q rec' (rec0 & Hq & _ & -> & _)%Hlk. by apply (snd_reported _ _ Hs q).
  - unfold flatIndex, Flat.enter, Flat.modify, Flat.with_rules. simpl. f_equal.
    apply list_eq. intros q. rewrite list_lookup_fmap.
    destruct (decide (q = r)) as [->|Hne].
    + rewrite !list_lookup_alter_eq, list_lookup_fmap, Hr. simpl. f_equal.
      unfold flatRecord, Flat.with_embeds. simpl. f_equal.
      unfold embedsOf. simpl. by apply (snd_reported _ _ Hs r).
    + rewrite !list_lookup_alter_ne by done. by rewrite list_lookup_fmap.
Qed.

(** ** The closure pass *)

Lemma collectEmbeds_sim fuel r ix ix' :
  sound labels ix → collectEmbeds fuel r ix = Ok ix' →
  sound labels ix'
  ∧ Flat.collectEmbeds fuel r (flatIndex specs labels ix)
    = Ok (flatIndex specs labels ix').
Proof.
  revert r ix ix'. induction fuel as [|fuel IH]; intros r ix ix' Hs Hrun; [done |].
  simpl in Hrun. cbn [Flat.collectEmbeds]. rewrite sim_rules_lookup.
  destruct (rules ix !! r) as [rec|] eqn:Hr; [| done]. simpl.
  destruct (didCollectEmbeds rec) eqn:Hfl; [by simplify_eq |].
  destruct (mrslv ix (rule rec) (FilePkg (file rec))) as [resolver|] eqn:Hres;
    [| done].
  simpl.
  assert (HL : embedSlice ix rec = Embeds resolver (rule rec) (label rec)).
  { unfold embedSlice, resolverOf. by rewrite Hres. }
  destruct (enter_sim r rec ix Hs Hr) as [Hs1 Hf1]. rewrite HL in Hs1, Hf1.
  set (L := Embeds resolver (rule rec) (label rec)) in *.
  rewrite <- Hf1.
  pose proof (grows_enter r rec L ix Hr Hfl) as Hg1.
  assert (Hlen : length (contents labels L) = len L).
  { rewrite <- HL, <- (snd_reported _ _ Hs r rec Hr).
    apply contents_length. by apply (snd_embeds_inside _ _ Hs r rec Hr). }
  rewrite <- Hlen in Hrun.
  cut (∃ fl, forEach (Flat.embedStep (Flat.collectEmbeds fuel)
                        (flatResolver specs labels resolver) r (label rec))
               (contents labels L) (flatIndex specs labels (enter r L ix)) = Ok fl
             ∧ sound labels ix' ∧ grows (enter r L ix) ix'
             ∧ fl = flatIndex specs labels ix').
  { intros (fl & Hrun' & Hs' & _ & ->). by split. }
  apply (forEach_sim_seq
           (embedStep (collectEmbeds fuel) resolver r (label rec) L)
           (Flat.embedStep (Flat.collectEmbeds fuel)
              (flatResolver specs labels resolver) r (label rec))
           (fun cur fcur => sound labels cur ∧ grows (enter r L ix) cur
                            ∧ fcur = flatIndex specs labels cur)
           (contents labels L) 0 (enter r L ix) ix'
           (flatIndex specs labels (enter r L ix)));
    [| split; [done | split; [reflexivity | done]] | done].
  intros i e s1 s2 t1 Hi (Hss & Hgs & ->) Hstep. simpl in Hstep.
  destruct (grows_lookup _ _ _ _ Hgs (enter_lookup r rec L ix Hr))
    as (rec1 & Hr1 & Hle1).
  assert (Hes : embedSlice s1 rec1 = L).
  { rewrite <- HL. apply embedSlice_eq.
    - by rewrite (grows_mrslv _ _ Hgs).
    - by rewrite (le_rule _ _ Hle1).
    - by rewrite (le_label _ _ Hle1).
    - by rewrite (le_file _ _ Hle1). }
  assert (He : elemAt (labelArrays s1) L i = Some e).
  { apply lookup_lt_Some in Hi as Hlt. rewrite Hlen in Hlt.
    rewrite elemAt_contents by done.
    by rewrite <- Hes, (snd_reported _ _ Hss r rec1 Hr1), Hes. }
  unfold embedStep in Hstep. rewrite He in Hstep. unfold Flat.embedStep.
  change (Flat.findRuleByLabel (flatIndex specs labels s1) e (label rec))
    with (findRuleByLabel s1 e (label rec)).
  destruct (findRuleByLabel s1 e (label rec)) as [er|]; [| simplify_eq; eauto].
  apply bind_Ok in Hstep as (s3 & Hrec & Hab).
  destruct (IH er s1 s3 Hss Hrec) as [Hs3 Hf3]. rewrite Hf3. simpl.
  destruct (absorb_sim resolver r er s3 s2 Hs3 Hab) as [Hs2 Hf2].
  exists (flatIndex specs labels s2). split; [done |]. split; [done |].
  split; [| done]. etrans; [exact Hgs |]. etrans; [| by eapply absorb_grows].
  by apply collectEmbeds_grows in Hrec as [? _].
Qed.

Lemma closurePass_sim fuel ix ix' :
  sound labels ix → closurePass fuel ix = Ok ix' →
  sound labels ix'
  ∧ Flat.closurePass fuel (flatIndex specs labels ix)
    = Ok (flatIndex specs labels ix').
Proof.
  intros Hs Hrun. unfold closurePass in Hrun. unfold Flat.closurePass.
  assert (Hn : length (Flat.rules (flatIndex specs labels ix)) = length (rules ix))
    by apply length_fmap.
  rewrite Hn.
  cut (∃ fl, forEach (Flat.collectEmbeds fuel) (seq 0 (length (rules ix)))
               (flatIndex specs labels ix) = Ok fl
             ∧ sound labels ix' ∧ fl = flatIndex specs labels ix').
  { intros (fl & Hrun' & Hs' & ->). by split. }
  apply (forEach_sim (collectEmbeds fuel) (Flat.collectEmbeds fuel)
           (fun cur fcur => sound labels cur ∧ fcur = flatIndex specs labels cur)
           (seq 0 (length (rules ix))) ix ix' (flatIndex specs labels ix));
    [| done | done].
  intros p s1 s2 t1 [Hs1 ->] Hstep.
  destruct (collectEmbeds_sim fuel p s1 s2 Hs1 Hstep) as [Hs2 Hf2]. eauto.
Qed.

Lemma buildImportIndex_flat ix :
  flatIndex specs labels (setDidFinish (buildImportIndex ix))
  = Flat.setDidFinish (Flat.buildImportIndex (flatIndex specs labels ix)).
Proof.
  unfold flatIndex, Flat.setDidFinish, Flat.buildImportIndex. simpl. f_equal.
  rewrite length_fmap. apply foldl_ext_all. intros m p.
  rewrite list_lookup_fmap. by destruct (rules ix !! p).
Qed.

Lemma finishIndex_sim fuel ix ix' :
  sound labels ix → finishIndex fuel ix = Ok ix' →
  sound labels ix'
  ∧ Flat.finishIndex fuel (flatIndex specs labels ix)
    = Ok (flatIndex specs labels ix').
Proof.
  intros Hs (ix1 & Hrun & ->)%finishIndex_Ok_inv.
  destruct (closurePass_sim fuel ix ix1 Hs Hrun) as [Hs1 Hf1]. split.
  - destruct Hs1. by split.
  - unfold Flat.finishIndex. rewrite Hf1. simpl. by rewrite buildImportIndex_flat.
Qed.

Lemma Finish_sim fuel w w' :
  sound labels (index w) → Finish fuel w = Ok w' →
  sound labels (index w')
  ∧ Flat.Finish fuel (flatWorld specs labels w) = Ok (flatWorld specs labels w').
Proof.
  intros Hs [Hfin Hlog]%Finish_Ok_inv.
  destruct (finishIndex_sim fuel _ _ Hs Hfin) as [Hs' Hf]. split; [done |].
  unfold Flat.Finish, Flat.lift, flatWorld. simpl. rewrite Hf. by rewrite Hlog.
Qed.

(** ** Queries *)

Lemma FindRulesByImport_flat ix imp lang' :
  Flat.FindRulesByImport (flatIndex specs labels ix) imp lang'
  = FindRulesByImport ix imp lang'.
Proof.
  unfold Flat.FindRulesByImport, FindRulesByImport. simpl.
  apply omap_ext_in. intros p _. rewrite list_lookup_fmap.
  by destruct (rules ix !! p).
Qed.

(** ** Registration *)

Lemma AddRule_sim (c : Config) (r : Rule) (f : File) (w w' : World) :
  specArrays (index w) = specs → AddRule c r f w = Ok w' →
  Flat.AddRule c r f (flatWorld specs labels w) = Ok (flatWorld specs labels w')
  ∧ specArrays (index w') = specs
  ∧ labelArrays (index w') = labelArrays (index w).
Proof.
  intros Hsp Hrun. unfold AddRule in Hrun. unfold Flat.AddRule. simpl.
  destruct (didFinish (index w)); [done |].
  unfold langAndImports in Hrun. unfold Flat.langAndImports. simpl.
  destruct (mrslv (index w) r (FilePkg f)) as [rslv|]; simpl; [| by simplify_eq].
  destruct (passesLanguageFilter (Langs c) (Name rslv)); simpl; [| by simplify_eq].
  destruct (Imports rslv c r f) as [imps|]; simpl; [| by simplify_eq].
  simpl in Hrun.
  destruct (labelMap (index w) !! _) as [p|]; simplify_eq; simpl.
  - done.
  - split; [| done]. unfold flatWorld. simpl. do 2 f_equal.
    unfold flatIndex. simpl. by rewrite fmap_app, length_fmap.
Qed.

Lemma AddRules_sim (calls : list (Config * Rule * File)) (w w' : World) :
  specArrays (index w) = specs → AddRules calls w = Ok w' →
  Flat.AddRules calls (flatWorld specs labels w) = Ok (flatWorld specs labels w')
  ∧ specArrays (index w') = specs
  ∧ labelArrays (index w') = labelArrays (index w).
Proof.
  revert w. induction calls as [|[[c r] f] calls IH]; intros w Hsp Hrun;
    unfold AddRules in Hrun; unfold Flat.AddRules; simpl in *.
  - by simplify_eq.
  - apply bind_Ok in Hrun as (w1 & Hstep & Hrest).
    destruct (AddRule_sim c r f w w1 Hsp Hstep) as (-> & Hsp1 & Hl1). simpl.
    destruct (IH w1 Hsp1 Hrest) as (Hf & Hsp' & Hl'). split; [done |].
    split; [done | congruence].
Qed.

Lemma insideb_inside {X : Type} (h : list (list X)) s :
  insideb h s = true → inside h s.
Proof.
  unfold insideb. intros [H1 H2]%andb_true_iff.
  by apply bool_decide_eq_true in H1, H2.
Qed.

Lemma clearOfb_clearOf s t : clearOfb s t = true → clearOf s t.
Proof.
  unfold clearOfb. intros Hb%bool_decide_eq_true a i [-> Hs] [Ha Hc]. lia.
Qed.

(** The test for slices that do not interfere is correct. *)
Lemma exclusiveb_exclusive ix : exclusiveb ix = true → exclusive ix.
Proof.
  unfold exclusiveb. intros [Hin Hcl]%andb_true_iff.
  rewrite forallb_forall in Hin.
  assert (Hin' : ∀ p rec, rules ix !! p = Some rec →
            inside (specArrays ix) (importedAs rec)
            ∧ inside (labelArrays ix) (embedSlice ix rec)).
  { intros p rec Hp. specialize (Hin rec).
    rewrite <- list_elem_of_In in Hin. 
    destruct (andb_prop _ _ (Hin (list_elem_of_lookup_2 _ _ _ Hp))) as [H1 H2].
    split; by apply insideb_inside. }
  assert (Hcl' : ∀ p q recp recq, p ≠ q →
            rules ix !! p = Some recp → rules ix !! q = Some recq →
            clearOf (importedAs recp) (importedAs recq)
            ∧ clearOf (embedSlice ix recp) (embedSlice ix recq)).
  { intros p q recp recq Hne Hp Hq.
    rewrite forallb_forall in Hcl. specialize (Hcl p).
    rewrite <- list_elem_of_In, elem_of_seq in Hcl.
    pose proof (lookup_lt_Some _ _ _ Hp) as Hlp.
    pose proof (lookup_lt_Some _ _ _ Hq) as Hlq.
    specialize (Hcl ltac:(lia)). rewrite forallb_forall in Hcl.
    specialize (Hcl q). rewrite <- list_elem_of_In, elem_of_seq in Hcl.
    specialize (Hcl ltac:(lia)). rewrite Hp, Hq in Hcl.
    rewrite bool_decide_eq_false_2 in Hcl by done. simpl in Hcl.
    destruct (andb_prop _ _ Hcl) as [H1 H2].
    split; by apply clearOfb_clearOf. }
  split.
  - intros p rec Hp. by apply (Hin' p).
  - intros p q recp recq Hne Hp Hq. by apply (Hcl' p q).
  - intros p rec Hp. by apply (Hin' p).
  - intros p q recp recq Hne Hp Hq. by apply (Hcl' p q).
Qed.

(** An index in the registration phase whose providers' slices do not
    interfere is sound. *)
Lemma exclusive_sound ix :
  exclusive ix → fresh ix → sound (labelArrays ix) ix.
Proof.
  intros Hex Hfresh. split.
  - apply Hex.
  - apply Hex.
  - intros p rec Hp. destruct (Hfresh p rec Hp) as (_ & _ & ->).
    split; [apply inside_nil | by apply (excl_embeds_inside _ Hex p)].
  - intros p q recp recq Hne Hp Hq.
    destruct (Hfresh p recp Hp) as (_ & _ & ->).
    destruct (Hfresh q recq Hq) as (_ & _ & ->).
    split; [apply clearOf_nil_l |]. split; [apply clearOf_nil_l |].
    split; [apply clearOf_nil_r |]. by apply (excl_embeds_clear _ Hex p q).
  - intros p rec a i Hp. destruct (Hfresh p rec Hp) as (_ & _ & ->).
    intros [_ Hi]. simpl in Hi. lia.
  - done.
Qed.

End Simulation.

Section Transfer.
Context `{Collaborators}.
Implicit Types (ix : RuleIndex) (rec : ruleRecord) (p q r er : nat).

(** The facts shared by the claims about an index whose providers' slices
    do not interfere: its registration and its [Finish] are those of the
    index as its records read. *)
Lemma built_sim m exts specs labels calls fuel w w' :
  AddRules calls (NewRuleIndex m exts specs labels) = Ok w →
  Finish fuel w = Ok w' →
  exclusive (index w) →
  Flat.AddRules calls (Flat.NewRuleIndex (flatLookup specs labels m) exts)
  = Ok (flatWorld specs labels w)
  ∧ Flat.Finish fuel (flatWorld specs labels w) = Ok (flatWorld specs labels w')
  ∧ sound labels (index w')
  ∧ labelArrays (index w) = labels
  ∧ registering m calls (index w)
  ∧ grows (index w) (index w').
Proof.
  intros Hadd Hfin Hex.
  destruct (AddRules_new m exts specs labels calls) as (w0 & Hadd0 & Hreg & _).
  assert (w0 = w) as -> by congruence.
  destruct (AddRules_sim specs labels calls (NewRuleIndex m exts specs labels) w
              eq_refl Hadd) as (Hfadd & Hsp & Hl).
  simpl in Hl.
  assert (Hs : sound labels (index w)).
  { rewrite <- Hl. apply exclusive_sound; [done | apply Hreg]. }
  destruct (Finish_sim specs labels fuel w w' Hs Hfin) as [Hs' Hffin].
  split; [exact Hfadd |]. split; [done |]. split; [done |]. split; [done |].
  split; [done |]. apply Finish_Ok_inv in Hfin as [Hfin _].
  by eapply finishIndex_grows.
Qed.

(** ** The embed relation of the two indexes *)

Lemma sim_lookup specs labels ix p rec :
  rules ix !! p = Some rec →
  Flat.rules (flatIndex specs labels ix) !! p = Some (flatRecord ix rec).
Proof. intros Hp. by rewrite sim_rules_lookup, Hp. Qed.

Lemma sim_lookup_inv specs labels ix p frec :
  Flat.rules (flatIndex specs labels ix) !! p = Some frec →
  ∃ rec, rules ix !! p = Some rec ∧ frec = flatRecord ix rec.
Proof.
  rewrite sim_rules_lookup. destruct (rules ix !! p) as [rec|]; [| done].
  intros [= <-]. eauto.
Qed.

Lemma sim_directEmbeds specs labels ix ix' rec :
  Flat.directEmbeds (flatIndex specs labels ix) (flatRecord ix' rec)
  = contents labels (embedSlice ix rec).
Proof.
  unfold Flat.directEmbeds, Flat.resolverOf, embedSlice, resolverOf. simpl.
  by destruct (mrslv ix (rule rec) (FilePkg (file rec))).
Qed.

Lemma sim_embedsTo specs ix p e q :
  embedsTo ix p e q
  ↔ Flat.embedsTo (flatIndex specs (labelArrays ix) ix) p e q.
Proof.
  split.
  - intros (rec & Hp & He & Hf). exists (flatRecord ix rec).
    split; [by apply sim_lookup |]. by rewrite sim_directEmbeds.
  - intros (frec & (rec & Hp & ->)%sim_lookup_inv & He & Hf).
    rewrite sim_directEmbeds in He. by exists rec.
Qed.

Lemma sim_embedsSome specs ix p q :
  embedsSome ix p q
  ↔ Flat.embedsSome (flatIndex specs (labelArrays ix) ix) p q.
Proof. split; intros [e He]; exists e; by apply (sim_embedsTo specs). Qed.

Lemma sim_embedsSame specs ix p q :
  embedsSame ix p q
  ↔ Flat.embedsSame (flatIndex specs (labelArrays ix) ix) p q.
Proof.
  split.
  - intros (recp & recq & He & Hp & Hq & Hl).
    exists (flatRecord ix recp), (flatRecord ix recq).
    split; [by apply (sim_embedsSome specs) |].
    split; [by apply sim_lookup |]. split; [by apply sim_lookup | done].
  - intros (frecp & frecq & He & (recp & Hp & ->)%sim_lookup_inv
            & (recq & Hq & ->)%sim_lookup_inv & Hl).
    exists recp, recq. split; [by apply (sim_embedsSome specs) | done].
Qed.

Lemma sim_rtc_embedsSome specs ix p q :
  rtc (embedsSome ix) p q
  ↔ rtc (Flat.embedsSome (flatIndex specs (labelArrays ix) ix)) p q.
Proof.
  split; apply rtc_subrel; intros x y; by apply (sim_embedsSome specs).
Qed.

Lemma sim_rtc_embedsSame specs ix p q :
  rtc (embedsSame ix) p q
  ↔ rtc (Flat.embedsSame (flatIndex specs (labelArrays ix) ix)) p q.
Proof.
  split; apply rtc_subrel; intros x y; by apply (sim_embedsSame specs).
Qed.

Lemma sim_acyclic specs ix :
  acyclic ix → Flat.acyclic (flatIndex specs (labelArrays ix) ix).
Proof.
  intros Hac p Hcyc. apply (Hac p).
  apply (tc_congruence id (embedsSome ix)) in Hcyc; [done |].
  intros x y. by apply (sim_embedsSome specs).
Qed.

Lemma acyclic_ranked ix (rank : nat → nat) :
  (∀ p q, embedsSome ix p q → rank q < rank p) → acyclic ix.
Proof.
  intros Hrank p Hcyc.
  assert (Hlt : ∀ x y, tc (embedsSome ix) x y → rank y < rank x).
  { intros x y Hxy. induction Hxy as [x y Hxy | x y z Hxy _ IH].
    - by apply Hrank.
    - apply Hrank in Hxy. lia. }
  apply Hlt in Hcyc. lia.
Qed.

(** In a sound index the arrays still hold the labels the providers
    reported. *)
Lemma sound_directEmbeds labels ix p rec :
  sound labels ix → rules ix !! p = Some rec →
  directEmbeds ix rec = contents labels (embedSlice ix rec).
Proof. intros Hs Hp. by apply (snd_reported _ _ Hs p). Qed.

End Transfer.

(** * Embedding, when the slices of the providers do not interfere *)

Section Embedding.
Context `{Collaborators}.
Implicit Types (ix : RuleIndex) (rec : ruleRecord) (p q r er : nat).

(** C2, as amended.  Let A and B be indexed rules of the same language, A
    embedding B under the embed label [e] (its provider reports [e], and [e]
    resolved against A's label is B's label), in an index whose providers'
    slices do not interfere.  After [Finish], B is marked embedded and no
    query returns a result whose label is B's; and if no indexed rule of A's
    language embeds A, then a query for any import B was registered with, in
    their language, returns a result for A whose Embeds list contains [e]. *)
Theorem embedding_hides_embedded_rule
    (m : Rule → string → option Resolver) (exts : list (option CrossResolver))
    (specs : list (list ImportSpec)) (labels : list (list label.Label))
    (calls : list (Config * Rule * File)) (fuel : nat) (w w' : World)
    (a b : nat) (recA recB : ruleRecord) (e : label.Label) :
  AddRules calls (NewRuleIndex m exts specs labels) = Ok w →
  Finish fuel w = Ok w' →
  exclusive (index w) →
  rules (index w) !! a = Some recA →
  rules (index w) !! b = Some recB →
  lang recA = lang recB →
  e ∈ directEmbeds (index w) recA →
  label.Abs e (label.Repo (label recA)) (label.Pkg (label recA)) = label recB →
  (∃ recB', rules (index w') !! b = Some recB' ∧ embedded recB' = true)
  ∧ (∀ imp lang' fr,
       fr ∈ FindRulesByImport (index w') imp lang' →
       FindResult.Label fr ≠ label recB)
  ∧ ((∀ p e' recP, embedsTo (index w) p e' a →
        rules (index w) !! p = Some recP → lang recP ≠ lang recA) →
     ∀ imp, imp ∈ importsOf (index w) recB →
       ∃ fr, fr ∈ FindRulesByImport (index w') imp (lang recB)
             ∧ FindResult.Label fr = label recA
             ∧ e ∈ FindResult.Embeds fr).
Proof.
  intros Hadd Hfin Hex Ha Hb Hlang He Habs.
  destruct (built_sim _ _ _ _ _ _ _ _ Hadd Hfin Hex)
    as (Hfadd & Hffin & Hs' & Hlab & Hreg & Hg).
  destruct (flat_embedded_rule_is_hidden _ _ _ _ _ _ a b
              (flatRecord (index w) recA) (flatRecord (index w) recB) e
              Hfadd Hffin) as (Hemb & Hnot & Hret).
  { by apply sim_lookup. }
  { by apply sim_lookup. }
  { done. }
  { simpl. rewrite sim_directEmbeds. by rewrite <- Hlab. }
  { done. }
  split; [| split].
  - destruct Hemb as (frec & (recB' & Hb' & ->)%sim_lookup_inv & Hemb). eauto.
  - intros imp lang' fr Hfr. apply (Hnot imp lang' fr).
    simpl. by rewrite FindRulesByImport_flat.
  - intros Hroot imp Himp.
    destruct (Hret) with (imp := imp) as (fr & Hfr & Hl & Hin).
    + intros p e' frecP Hedge (recP & Hp & ->)%sim_lookup_inv. simpl.
      apply (Hroot p e' recP); [| done].
      apply (sim_embedsTo specs). by rewrite Hlab.
    + done.
    + exists fr. simpl in Hfr. by rewrite FindRulesByImport_flat in Hfr.
Qed.


(** C4, as amended.  Let A and B be indexed rules of different languages, A
    embedding B under the embed label [e], in an index whose providers'
    slices do not interfere.  After [Finish], A's importedAs contains every
    import B was registered with, and, when B does not reach A through the
    embed relation, all of B's importedAs entries; B's embedded flag is set
    only if an indexed rule of B's own language embeds B; and every entry of
    A's embeds is a label A's provider reported or an entry of the embeds of
    a rule of A's language that A embeds, so B's embeds are not appended on
    account of B. *)
Theorem cross_language_embedding_inherits_imports_only
    (m : Rule → string → option Resolver) (exts : list (option CrossResolver))
    (specs : list (list ImportSpec)) (labels : list (list label.Label))
    (calls : list (Config * Rule * File)) (fuel : nat) (w w' : World)
    (a b : nat) (recA recB recA' recB' : ruleRecord) (e : label.Label) :
  AddRules calls (NewRuleIndex m exts specs labels) = Ok w →
  Finish fuel w = Ok w' →
  exclusive (index w) →
  rules (index w) !! a = Some recA →
  rules (index w) !! b = Some recB →
  rules (index w') !! a = Some recA' →
  rules (index w') !! b = Some recB' →
  lang recA ≠ lang recB →
  e ∈ directEmbeds (index w) recA →
  label.Abs e (label.Repo (label recA)) (label.Pkg (label recA)) = label recB →
  importsOf (index w) recB ⊆ importsOf (index w') recA'
  ∧ (¬ rtc (embedsSome (index w)) b a →
     importsOf (index w') recB' ⊆ importsOf (index w') recA')
  ∧ (embedded recB' = true →
     ∃ p e' recP, embedsTo (index w) p e' b ∧ rules (index w) !! p = Some recP
                  ∧ lang recP = lang recB)
  ∧ (∀ l, l ∈ embedsOf (index w') recA' →
       l ∈ directEmbeds (index w) recA
       ∨ ∃ e' q recQ', embedsTo (index w) a e' q
           ∧ rules (index w') !! q = Some recQ'
           ∧ lang recQ' = lang recA ∧ l ∈ embedsOf (index w') recQ').
Proof.
  intros Hadd Hfin Hex Ha Hb Ha' Hb' Hlang He Habs.
  destruct (built_sim _ _ _ _ _ _ _ _ Hadd Hfin Hex)
    as (Hfadd & Hffin & Hs' & Hlab & Hreg & Hg).
  assert (HeF : e ∈ Flat.directEmbeds (flatIndex specs labels (index w))
                      (flatRecord (index w) recA)).
  { rewrite sim_directEmbeds. by rewrite <- Hlab. }
  destruct (flat_cross_language_embedding _ _ _ _ _ _ a b
              (flatRecord (index w) recA) (flatRecord (index w) recB)
              (flatRecord (index w') recA') (flatRecord (index w') recB') e
              Hfadd Hffin) as (Himps & Hemb & Hfrom);
    [by apply sim_lookup.. | done | done | done |].
  cbn [flatWorld Flat.index] in Himps, Hemb, Hfrom.
  split; [done |]. split; [| split].
  - intros Hnr.
    destruct (flat_built_index _ _ _ _ _ _ Hfadd Hffin) as (Hfreg & _ & _ & _).
    apply flat_Finish_Ok_inv in Hffin as [Hffin _].
    apply (flat_finishIndex_inherits_unreached fuel
             (flatIndex specs labels (index w)) (flatIndex specs labels (index w'))
             a e b (flatRecord (index w') recA') (flatRecord (index w') recB'));
      [apply Hfreg | apply Hfreg | done | | | by apply sim_lookup..].
    + eapply flat_embedsTo_intro; [apply Hfreg | by apply sim_lookup..| done | done].
    + intros Hr. apply Hnr. apply (sim_rtc_embedsSome specs). by rewrite Hlab.
  - intros HembB. destruct (Hemb HembB) as (p & e' & frecP & Hedge & Hp & Hl).
    apply sim_lookup_inv in Hp as (recP & Hp & ->).
    exists p, e', recP. split; [| done].
    apply (sim_embedsTo specs). by rewrite Hlab.
  - intros l Hin. destruct (Hfrom l Hin) as [Hd | (e' & q & frecQ & Hedge & Hq & Hl & Hin')].
    + left. rewrite sim_directEmbeds in Hd. unfold directEmbeds. by rewrite Hlab.
    + right. apply sim_lookup_inv in Hq as (recQ' & Hq' & ->).
      exists e', q, recQ'. split; [| done].
      apply (sim_embedsTo specs). by rewrite Hlab.
Qed.

(** C6, as amended.  A rule whose provider returns nil from [Imports] is
    dropped by [AddRule], which leaves the index as it was; so after
    [Finish] every query result is made from the record of a rule that was
    added with non-nil imports, whatever embeds the dropped rule, and no
    result carries a label that only dropped rules have.  An embed label
    that resolves to no record makes its iteration of the loop of the
    closure pass do nothing: it brings no imports and marks no record.  The
    label itself stays in the embeds of the embedder, where
    [collectEmbeds] stored it with the other labels the provider reported:
    when the slices of the providers do not interfere, a record none of
    whose embed labels resolves keeps exactly the imports it was registered
    with, and its embeds holds exactly the labels its provider reported. *)
Theorem nil_imports_rule_is_never_returned
    (m : Rule → string → option Resolver) (exts : list (option CrossResolver))
    (specs : list (list ImportSpec)) (labels : list (list label.Label))
    (calls : list (Config * Rule * File)) (fuel : nat) (w w' : World) :
  AddRules calls (NewRuleIndex m exts specs labels) = Ok w →
  Finish fuel w = Ok w' →
  (∀ (c : Config) (r : Rule) (f : File) w0 rslv,
     didFinish (index w0) = false →
     mrslv (index w0) r (FilePkg f) = Some rslv →
     Imports rslv c r f = None →
     AddRule c r f w0 = Ok w0)
  ∧ (∀ imp lang' fr,
       fr ∈ FindRulesByImport (index w') imp lang' →
       ∃ p rec (c : Config) rslv imps,
         rules (index w') !! p = Some rec
         ∧ fr = FindResult.mk (label rec) (embedsOf (index w') rec)
         ∧ (c, rule rec, file rec) ∈ calls
         ∧ label rec = label.New (RepoName c) (FilePkg (file rec)) (RuleName (rule rec))
         ∧ m (rule rec) (FilePkg (file rec)) = Some rslv
         ∧ passesLanguageFilter (Langs c) (Name rslv) = true
         ∧ Imports rslv c (rule rec) (file rec) = Some imps)
  ∧ (∀ l,
       (∀ (c : Config) (r : Rule) (f : File),
          (c, r, f) ∈ calls →
          label.New (RepoName c) (FilePkg f) (RuleName r) = l →
          importable m (c, r, f) = false) →
       ∀ imp lang' fr,
         fr ∈ FindRulesByImport (index w') imp lang' → FindResult.Label fr ≠ l)
  ∧ (∀ collect resolver r from embedLabels i e ix,
       elemAt (labelArrays ix) embedLabels i = Some e →
       findRuleByLabel ix e from = None →
       embedStep collect resolver r from embedLabels i ix = Ok ix)
  ∧ (exclusive (index w) →
     ∀ p rec0 rec',
       rules (index w) !! p = Some rec0 → rules (index w') !! p = Some rec' →
       (∀ e, e ∈ directEmbeds (index w) rec0 →
             findRuleByLabel (index w) e (label rec0) = None) →
       importsOf (index w') rec' = importsOf (index w) rec0
       ∧ embedsOf (index w') rec' = directEmbeds (index w) rec0).
Proof.
  intros Hadd Hfin.
  destruct (AddRules_new m exts specs labels calls) as (w0 & Hadd0 & Hreg & _).
  assert (w0 = w) as -> by congruence.
  assert (Hg : grows (index w) (index w')).
  { apply Finish_Ok_inv in Hfin as [Hfin' _]. by eapply finishIndex_grows. }
  assert (Hfrom : ∀ imp lang' fr,
       fr ∈ FindRulesByImport (index w') imp lang' →
       ∃ p rec (c : Config) rslv imps,
         rules (index w') !! p = Some rec
         ∧ fr = FindResult.mk (label rec) (embedsOf (index w') rec)
         ∧ (c, rule rec, file rec) ∈ calls
         ∧ label rec = label.New (RepoName c) (FilePkg (file rec)) (RuleName (rule rec))
         ∧ m (rule rec) (FilePkg (file rec)) = Some rslv
         ∧ passesLanguageFilter (Langs c) (Name rslv) = true
         ∧ Imports rslv c (rule rec) (file rec) = Some imps).
  { intros imp lang' fr (p & rec' & _ & Hp' & _ & ->)%FindRulesByImport_elem_of.
    destruct (grows_lookup_r _ _ _ _ Hg Hp') as (rec & Hp & Hle).
    destruct (reg_from _ _ _ Hreg p rec Hp) as (c & r & f & imps & Hin & Hli & Hrec).
    apply langAndImports_Some in Hli as (rslv & Hm & _ & Hpass & Himps).
    rewrite (reg_mrslv _ _ _ Hreg) in Hm.
    exists p, rec', c, rslv, imps. split; [done |]. split; [done |].
    rewrite (le_rule _ _ Hle), (le_file _ _ Hle), (le_label _ _ Hle).
    rewrite Hrec. simpl. done. }
  split; [| split; [done | split; [| split]]].
  - intros c r f w0 rslv Hnf Hm Hnil. rewrite AddRule_unfinished by done.
    unfold langAndImports. rewrite Hm, Hnil.
    by destruct (passesLanguageFilter _ _).
  - intros l Hdropped imp lang' fr Hfr Hl.
    destruct (Hfrom imp lang' fr Hfr)
      as (p & rec & c & rslv & imps & _ & -> & Hin & Hlab & Hm & Hpass & Himps).
    simpl in Hl.
    specialize (Hdropped c (rule rec) (file rec) Hin (eq_trans (eq_sym Hlab) Hl)).
    unfold importable in Hdropped. simpl in Hdropped.
    by rewrite Hm, Hpass, Himps in Hdropped.
  - intros collect resolver r from embedLabels i e ix He Hnone.
    unfold embedStep. by rewrite He, Hnone.
  - intros Hex p rec0 rec' H0 Hp' Hnone.
    destruct (built_sim _ _ _ _ _ _ _ _ Hadd Hfin Hex)
      as (Hfadd & Hffin & Hs' & Hlab & _ & _).
    destruct (flat_built_index _ _ _ _ _ _ Hfadd Hffin) as (Hfreg & _ & _ & _).
    apply flat_Finish_Ok_inv in Hffin as [Hffin _].
    destruct (flat_finishIndex_untouched fuel
                (flatIndex specs labels (index w)) (flatIndex specs labels (index w'))
                p (flatRecord (index w) rec0) (flatRecord (index w') rec'))
      as [Himp Hemb];
      [apply Hfreg | apply Hfreg | done | | by apply sim_lookup.. |].
    + intros e q (frec & (rec1 & H1 & ->)%sim_lookup_inv & He & Hfind).
      assert (rec1 = rec0) as -> by congruence.
      rewrite sim_directEmbeds in He. simpl in Hfind.
      change (findRuleByLabel (index w) e (label rec0) = Some q) in Hfind.
      rewrite (Hnone e) in Hfind; [done |]. unfold directEmbeds. by rewrite Hlab.
    + split; [done |]. simpl in Hemb. rewrite Hemb, sim_directEmbeds.
      unfold directEmbeds. by rewrite Hlab.
Qed.

(** X10.  [Finish] writes nothing to the log, keeps the label map, the
    provider lookup and the CrossResolvers, and neither adds nor removes a
    record.  Each record keeps its rule, label, file and language; an
    embedded mark it had is kept, and its closure flag is set afterwards.
    When the index was built by [AddRule] calls and the slices of its
    providers do not interfere, the imports of each record are only appended
    to. *)
Lemma Finish_keeps_records (fuel : nat) (w w' : World) :
  Finish fuel w = Ok w' →
  logged w' = logged w
  ∧ labelMap (index w') = labelMap (index w)
  ∧ mrslv (index w') = mrslv (index w)
  ∧ crossResolvers (index w') = crossResolvers (index w)
  ∧ didFinish (index w') = true
  ∧ length (rules (index w')) = length (rules (index w))
  ∧ ∀ p rec, rules (index w) !! p = Some rec →
      ∃ rec', rules (index w') !! p = Some rec'
        ∧ rule rec' = rule rec ∧ label rec' = label rec
        ∧ file rec' = file rec ∧ lang rec' = lang rec
        ∧ (embedded rec = true → embedded rec' = true)
        ∧ didCollectEmbeds rec' = true
        ∧ ∀ m exts specs labels calls,
            AddRules calls (NewRuleIndex m exts specs labels) = Ok w →
            exclusive (index w) →
            importsOf (index w) rec `prefix_of` importsOf (index w') rec'.
Proof.
  intros Hfin.
  destruct (Finish_keeps_fields fuel w w' Hfin)
    as (Hlog & Hlm & Hm & Hcr & Hdf & Hlen & Hrecs).
  repeat (split; [done |]).
  intros p rec Hp.
  destruct (Hrecs p rec Hp) as (rec' & Hp' & Hr & Hl & Hf & Hla & He & Hfl).
  exists rec'. repeat (split; [done |]).
  intros m exts specs labels calls Hadd Hex.
  destruct (built_sim _ _ _ _ _ _ _ _ Hadd Hfin Hex)
    as (Hfadd & Hffin & _ & _ & _ & _).
  apply flat_Finish_Ok_inv in Hffin as [Hffin%flat_finishIndex_grows _].
  destruct (flat_grows_lookup _ _ p (flatRecord (index w) rec) Hffin)
    as (frec' & Hfp' & Hle); [by apply sim_lookup |].
  cbn [flatWorld Flat.index] in Hfp'. rewrite (sim_lookup _ _ _ _ _ Hp') in Hfp'.
  injection Hfp' as <-. apply (Flat.le_importedAs _ _ Hle).
Qed.

(** X13.  In an index whose providers' slices do not interfere, after
    [Finish] the Embeds list of a query result for a rule begins with the
    labels the rule's provider reports as embedded, as it reports them; so
    [IsSelfImport] holds of the result and the rule's own label, and of the
    result and each of those labels. *)
Lemma result_is_self_import_of_reported_embeds
    (m : Rule → string → option Resolver) (exts : list (option CrossResolver))
    (specs : list (list ImportSpec)) (labels : list (list label.Label))
    (calls : list (Config * Rule * File)) (fuel : nat) (w w' : World)
    (a : nat) (recA : ruleRecord) (imp : ImportSpec) (lang' : string)
    (fr : FindResult.t) :
  AddRules calls (NewRuleIndex m exts specs labels) = Ok w →
  Finish fuel w = Ok w' →
  exclusive (index w) →
  rules (index w) !! a = Some recA →
  fr ∈ FindRulesByImport (index w') imp lang' →
  FindResult.Label fr = label recA →
  directEmbeds (index w) recA `prefix_of` FindResult.Embeds fr
  ∧ IsSelfImport fr (label recA) = true
  ∧ ∀ e, e ∈ directEmbeds (index w) recA → IsSelfImport fr e = true.
Proof.
  intros Hadd Hfin Hex Ha Hfr Hl.
  destruct (built_sim _ _ _ _ _ _ _ _ Hadd Hfin Hex)
    as (Hfadd & Hffin & _ & Hlab & _ & _).
  assert (Hd : directEmbeds (index w) recA
               = Flat.directEmbeds (Flat.index (flatWorld specs labels w))
                   (flatRecord (index w) recA)).
  { cbn [flatWorld Flat.index]. rewrite sim_directEmbeds.
    unfold directEmbeds. by rewrite Hlab. }
  rewrite Hd.
  apply (flat_result_is_self_import _ _ _ _ _ _ a
           (flatRecord (index w) recA) imp lang' fr Hfadd Hffin);
    [by apply sim_lookup | | done].
  cbn [flatWorld Flat.index]. by rewrite FindRulesByImport_flat.
Qed.

(** X14.  In an index whose providers' slices do not interfere, after
    [Finish] a record is marked embedded exactly when an indexed rule of its
    language (possibly itself) reports an embed label that resolves to
    it. *)
Lemma embedded_iff_embedded_by_rule_of_same_language
    (m : Rule → string → option Resolver) (exts : list (option CrossResolver))
    (specs : list (list ImportSpec)) (labels : list (list label.Label))
    (calls : list (Config * Rule * File)) (fuel : nat) (w w' : World)
    (q : nat) (recQ' : ruleRecord) :
  AddRules calls (NewRuleIndex m exts specs labels) = Ok w →
  Finish fuel w = Ok w' →
  exclusive (index w) →
  rules (index w') !! q = Some recQ' →
  embedded recQ' = true
  ↔ ∃ p e recP, embedsTo (index w) p e q ∧ rules (index w) !! p = Some recP
                ∧ lang recP = lang recQ'.
Proof.
  intros Hadd Hfin Hex Hq.
  destruct (built_sim _ _ _ _ _ _ _ _ Hadd Hfin Hex)
    as (Hfadd & Hffin & _ & Hlab & _ & _).
  pose proof (flat_embedded_iff _ _ _ _ _ _ q
                (flatRecord (index w') recQ') Hfadd Hffin
                (sim_lookup _ _ _ _ _ Hq)) as Hiff.
  cbn [flatWorld Flat.index] in Hiff. split.
  - intros (p & e & frecP & Hedge & (recP & Hp & ->)%sim_lookup_inv & Hl)%Hiff.
    exists p, e, recP. split; [| done]. apply (sim_embedsTo specs). by rewrite Hlab.
  - intros (p & e & recP & Hedge & Hp & Hl). apply Hiff.
    exists p, e, (flatRecord (index w) recP).
    split; [| split; [by apply sim_lookup | done]].
    apply (sim_embedsTo specs) in Hedge. by rewrite Hlab in Hedge.
Qed.

(** X15.  In an index whose providers' slices do not interfere, after
    [Finish] a rule that no indexed rule of its language embeds is returned,
    for a query in its language, for every import it was registered with
    and for every import a rule it embeds was registered with, whatever the
    language of that rule. *)
Lemma unembedded_rule_answers_for_own_and_embedded_imports
    (m : Rule → string → option Resolver) (exts : list (option CrossResolver))
    (specs : list (list ImportSpec)) (labels : list (list label.Label))
    (calls : list (Config * Rule * File)) (fuel : nat) (w w' : World)
    (a : nat) (recA : ruleRecord) (imp : ImportSpec) :
  AddRules calls (NewRuleIndex m exts specs labels) = Ok w →
  Finish fuel w = Ok w' →
  exclusive (index w) →
  rules (index w) !! a = Some recA →
  (∀ p e recP, embedsTo (index w) p e a →
     rules (index w) !! p = Some recP → lang recP ≠ lang recA) →
  (imp ∈ importsOf (index w) recA
   ∨ ∃ e b recB, embedsTo (index w) a e b ∧ rules (index w) !! b = Some recB
                 ∧ imp ∈ importsOf (index w) recB) →
  ∃ fr, fr ∈ FindRulesByImport (index w') imp (lang recA)
        ∧ FindResult.Label fr = label recA.
Proof.
  intros Hadd Hfin Hex Ha Hroot Himp.
  destruct (built_sim _ _ _ _ _ _ _ _ Hadd Hfin Hex)
    as (Hfadd & Hffin & _ & Hlab & _ & _).
  destruct (flat_unembedded_rule_answers _ _ _ _ _ _ a
              (flatRecord (index w) recA) imp Hfadd Hffin) as (fr & Hfr & Hl).
  - by apply sim_lookup.
  - intros p e frecP Hedge (recP & Hp & ->)%sim_lookup_inv. simpl.
    apply (Hroot p e recP); [| done]. apply (sim_embedsTo specs). by rewrite Hlab.
  - destruct Himp as [Hown | (e & b & recB & Hedge & Hb & Hin)]; [by left |].
    right. exists e, b, (flatRecord (index w) recB).
    split; [| split; [by apply sim_lookup | done]].
    apply (sim_embedsTo specs) in Hedge. by rewrite Hlab in Hedge.
  - exists fr. cbn [flatWorld Flat.index] in Hfr.
    by rewrite FindRulesByImport_flat in Hfr.
Qed.

(** X16.  On an index without embed cycles whose providers' slices do not
    interfere, after [Finish] a record holds every import of every record it
    reaches through the embed relation, in any number of steps and across
    languages. *)
Lemma imports_are_inherited_transitively
    (m : Rule → string → option Resolver) (exts : list (option CrossResolver))
    (specs : list (list ImportSpec)) (labels : list (list label.Label))
    (calls : list (Config * Rule * File)) (fuel : nat) (w w' : World)
    (p q : nat) (recP' recQ' : ruleRecord) :
  AddRules calls (NewRuleIndex m exts specs labels) = Ok w →
  Finish fuel w = Ok w' →
  exclusive (index w) →
  acyclic (index w) →
  rtc (embedsSome (index w)) p q →
  rules (index w') !! p = Some recP' →
  rules (index w') !! q = Some recQ' →
  importsOf (index w') recQ' ⊆ importsOf (index w') recP'.
Proof.
  intros Hadd Hfin Hex Hac Hreach Hp Hq.
  destruct (built_sim _ _ _ _ _ _ _ _ Hadd Hfin Hex)
    as (Hfadd & Hffin & _ & Hlab & _ & _).
  apply (flat_imports_inherited _ _ _ _ _ _ p q
           (flatRecord (index w') recP') (flatRecord (index w') recQ') Hfadd Hffin);
    [| | by apply sim_lookup..]; cbn [flatWorld Flat.index]; rewrite <- Hlab.
  - by apply sim_acyclic.
  - by apply (sim_rtc_embedsSome specs).
Qed.

(** X17.  On an index without embed cycles whose providers' slices do not
    interfere, after [Finish] the embeds of a record holds every label
    reported by the provider of every record it reaches through embeddings
    between rules of one language; so [IsSelfImport] holds of a query result
    for the record and each of these labels. *)
Lemma embeds_is_closed_under_same_language_embedding
    (m : Rule → string → option Resolver) (exts : list (option CrossResolver))
    (specs : list (list ImportSpec)) (labels : list (list label.Label))
    (calls : list (Config * Rule * File)) (fuel : nat) (w w' : World)
    (p q : nat) (recP' recQ : ruleRecord) :
  AddRules calls (NewRuleIndex m exts specs labels) = Ok w →
  Finish fuel w = Ok w' →
  exclusive (index w) →
  acyclic (index w) →
  rtc (embedsSame (index w)) p q →
  rules (index w') !! p = Some recP' →
  rules (index w) !! q = Some recQ →
  directEmbeds (index w) recQ ⊆ embedsOf (index w') recP'
  ∧ ∀ imp lang' fr l,
      fr ∈ FindRulesByImport (index w') imp lang' →
      FindResult.Label fr = label recP' →
      l ∈ directEmbeds (index w) recQ →
      IsSelfImport fr l = true.
Proof.
  intros Hadd Hfin Hex Hac Hreach Hp Hq.
  destruct (built_sim _ _ _ _ _ _ _ _ Hadd Hfin Hex)
    as (Hfadd & Hffin & _ & Hlab & _ & _).
  assert (Hd : directEmbeds (index w) recQ
               = Flat.directEmbeds (Flat.index (flatWorld specs labels w))
                   (flatRecord (index w) recQ)).
  { cbn [flatWorld Flat.index]. rewrite sim_directEmbeds.
    unfold directEmbeds. by rewrite Hlab. }
  rewrite Hd.
  destruct (flat_embeds_closed _ _ _ _ _ _ p q
              (flatRecord (index w') recP') (flatRecord (index w) recQ) Hfadd Hffin)
    as [Hsub Hself]; [| | by apply sim_lookup.. |].
  - cbn [flatWorld Flat.index]. rewrite <- Hlab. by apply sim_acyclic.
  - cbn [flatWorld Flat.index]. rewrite <- Hlab. by apply (sim_rtc_embedsSame specs).
  - split; [done |]. intros imp lang' fr l Hfr Hl Hin.
    apply (Hself imp lang' fr l); [| done | done].
    cbn [flatWorld Flat.index]. by rewrite FindRulesByImport_flat.
Qed.

End Embedding.

(** * The claims on concrete indexes *)

Section Cases.
Import Scenario.
Open Scope string_scope.
Open Scope list_scope.
Open Scope nat_scope.
Open Scope stdpp_scope.

Local Ltac by_compute := vm_compute; reflexivity.
Local Ltac by_decide := apply (bool_decide_unpack _); vm_compute; exact I.
Local Ltac by_test := apply exclusiveb_exclusive; vm_compute; reflexivity.

(** Counterexample to C1: with the allow-list ["go"], a rule whose provider
    is named "proto" is given to [AddRule]; after [Finish] the label map has
    no record for its label. *)
Lemma filtered_rule_has_no_record :
  providers protoRule "pkg" = Some (resolverFor "proto")
  ∧ Langs goOnly = ["go"]
  ∧ ∃ w1 w2,
      AddRule goOnly protoRule "pkg" (newIndex [lib "proto" "p" []]) = Ok w1
      ∧ Finish 1 w1 = Ok w2
      ∧ labelMap (index w2)
          !! (label.New (RepoName goOnly) "pkg" (RuleName protoRule))
        = None.
Proof.
  split; [by_compute |]. split; [by_compute |].
  eexists _, _. split; [by_compute |]. split; [by_compute |]. by_compute.
Qed.

(** C1, as amended, on that call. *)
Lemma AddRule_filtered_language_drops_rule_witness :
  didFinish (index (newIndex [lib "proto" "p" []])) = false
  ∧ providers protoRule (FilePkg "pkg") = Some (resolverFor "proto")
  ∧ Langs goOnly ≠ []
  ∧ (Name (resolverFor "proto") ∉ Langs goOnly)
  ∧ AddRule goOnly protoRule "pkg" (newIndex [lib "proto" "p" []])
    = Ok (newIndex [lib "proto" "p" []]).
Proof.
  assert (H1 : didFinish (index (newIndex [lib "proto" "p" []])) = false)
    by by_compute.
  assert (H2 : providers protoRule (FilePkg "pkg") = Some (resolverFor "proto"))
    by by_compute.
  assert (H3 : Langs goOnly ≠ []) by by_decide.
  assert (H4 : Name (resolverFor "proto") ∉ Langs goOnly) by by_decide.
  split; [exact H1 |]. split; [exact H2 |]. split; [exact H3 |]. split; [exact H4 |].
  exact (AddRule_filtered_language_drops_rule (H := collab) goOnly protoRule "pkg"
           (newIndex [lib "proto" "p" []]) (resolverFor "proto") H1 H2 H3 H4).
Defined.

(** Counterexample to C2: [top] embeds [mid] embeds [base], all Go, each
    provider returning slices of arrays of its own.  [mid] embeds [base] and
    only [base] was registered with the import "pkg/base", yet the query for
    it returns [top] alone: no result is for [mid]. *)
Lemma embedder_that_is_embedded_is_not_returned :
  AddRules (callsOf chain) (newIndex chain) = Ok (registered chain)
  ∧ Finish 4 (registered chain) = Ok (finishedWorld chain)
  ∧ exclusiveb (index (registered chain)) = true
  ∧ (fun rec => (label rec, lang rec)) <$> rules (index (registered chain))
    = [(lbl "base", "go"); (lbl "mid", "go"); (lbl "top", "go")]
  ∧ importsIn (registered chain)
    = [[spec "go" "pkg/base"]; [spec "go" "pkg/mid"]; [spec "go" "pkg/top"]]
  ∧ directEmbeds (index (registered chain)) (recAt (registered chain) 1)
    = [lbl "base"]
  ∧ FindRulesByImport (index (finishedWorld chain)) (spec "go" "pkg/base") "go"
    = [FindResult.mk (lbl "top") [lbl "mid"; lbl "base"]]
  ∧ ¬ ∃ fr, fr ∈ FindRulesByImport (index (finishedWorld chain))
                   (spec "go" "pkg/base") "go"
            ∧ FindResult.Label fr = lbl "mid".
Proof.
  split; [by_compute |]. split; [by_compute |]. split; [by_compute |].
  split; [by_compute |]. split; [by_compute |]. split; [by_compute |].
  assert (Hq : FindRulesByImport (index (finishedWorld chain)) (spec "go" "pkg/base") "go"
               = [FindResult.mk (lbl "top") [lbl "mid"; lbl "base"]]) by by_compute.
  split; [exact Hq |]. rewrite Hq.
  intros (fr & ->%list_elem_of_singleton & Hl). vm_compute in Hl. discriminate.
Qed.

(** The end-to-end example of the specification: [lib] embeds [base]. *)
Lemma end_to_end_example :
  FindRulesByImport (index (finishedWorld embedding)) (spec "go" "pkg/base") "go"
  = [FindResult.mk (lbl "lib") [lbl "base"]]
  ∧ FindRulesByImport (index (finishedWorld embedding)) (spec "go" "pkg/lib") "go"
    = [FindResult.mk (lbl "lib") [lbl "base"]]
  ∧ embedded <$> rules (index (finishedWorld embedding)) = [true; false].
Proof. repeat (split; [by_compute |]). by_compute. Qed.

(** In the index of [base] and [lib], the only embedding is that of [base]
    by [lib]. *)
Lemma embedding_edges p e q :
  embedsTo (index (registered embedding)) p e q → p = 1 ∧ e = lbl "base" ∧ q = 0.
Proof.
  intros (rec & Hp & He & Hfind).
  destruct p as [|[|p]]; vm_compute in Hp; [| | discriminate];
    injection Hp as <-; vm_compute in He.
  - by apply elem_of_nil in He.
  - apply list_elem_of_singleton in He as ->. vm_compute in Hfind.
    by injection Hfind as <-.
Qed.

(** C2, as amended, on that example. *)
Lemma embedding_hides_embedded_rule_witness :
  AddRules (callsOf embedding) (newIndex embedding) = Ok (registered embedding)
  ∧ Finish 3 (registered embedding) = Ok (finishedWorld embedding)
  ∧ exclusive (index (registered embedding))
  ∧ rules (index (registered embedding)) !! 1 = Some (recAt (registered embedding) 1)
  ∧ rules (index (registered embedding)) !! 0 = Some (recAt (registered embedding) 0)
  ∧ lang (recAt (registered embedding) 1) = lang (recAt (registered embedding) 0)
  ∧ lbl "base" ∈ directEmbeds (index (registered embedding))
                   (recAt (registered embedding) 1)
  ∧ label.Abs (lbl "base") (label.Repo (label (recAt (registered embedding) 1)))
      (label.Pkg (label (recAt (registered embedding) 1)))
    = label (recAt (registered embedding) 0)
  ∧ (∃ recB', rules (index (finishedWorld embedding)) !! 0 = Some recB'
              ∧ embedded recB' = true)
  ∧ (∀ imp lang' fr,
       fr ∈ FindRulesByImport (index (finishedWorld embedding)) imp lang' →
       FindResult.Label fr ≠ label (recAt (registered embedding) 0))
  ∧ ∃ fr, fr ∈ FindRulesByImport (index (finishedWorld embedding))
                 (spec "go" "pkg/base") "go"
          ∧ FindResult.Label fr = label (recAt (registered embedding) 1)
          ∧ lbl "base" ∈ FindResult.Embeds fr.
Proof.
  assert (H1 : AddRules (callsOf embedding) (newIndex embedding)
               = Ok (registered embedding)) by by_compute.
  assert (H2 : Finish 3 (registered embedding) = Ok (finishedWorld embedding))
    by by_compute.
  assert (Hx : exclusive (index (registered embedding))) by by_test.
  assert (H3 : rules (index (registered embedding)) !! 1
               = Some (recAt (registered embedding) 1)) by by_compute.
  assert (H4 : rules (index (registered embedding)) !! 0
               = Some (recAt (registered embedding) 0)) by by_compute.
  assert (H5 : lang (recAt (registered embedding) 1)
               = lang (recAt (registered embedding) 0)) by by_compute.
  assert (H6 : lbl "base" ∈ directEmbeds (index (registered embedding))
                              (recAt (registered embedding) 1)) by by_decide.
  assert (H7 : label.Abs (lbl "base")
                 (label.Repo (label (recAt (registered embedding) 1)))
                 (label.Pkg (label (recAt (registered embedding) 1)))
               = label (recAt (registered embedding) 0)) by by_compute.
  split; [exact H1 |]. split; [exact H2 |]. split; [exact Hx |].
  split; [exact H3 |]. split; [exact H4 |]. split; [exact H5 |].
  split; [exact H6 |]. split; [exact H7 |].
  destruct (embedding_hides_embedded_rule (H := collab) providers []
              (specsOf embedding) (labelsOf embedding) (callsOf embedding) 3
              (registered embedding) (finishedWorld embedding) 1 0
              (recAt (registered embedding) 1) (recAt (registered embedding) 0)
              (lbl "base") H1 H2 Hx H3 H4 H5 H6 H7) as (Hemb & Hnot & Hret).
  split; [exact Hemb |]. split; [exact Hnot |].
  apply Hret; [| by_decide].
  intros p e' recP (_ & _ & Hq)%embedding_edges. discriminate.
Defined.


(** The label of an embedded rule of another language is kept in embeds
    too, when the provider reports it. *)
Lemma embeds_keeps_label_of_other_language :
  Finish 3 (registered crossLanguage) = Ok (finishedWorld crossLanguage)
  ∧ (fun r => (label r, lang r)) <$> rules (index (finishedWorld crossLanguage))
    = [(lbl "b", "proto"); (lbl "a", "go")]
  ∧ embedsIn (finishedWorld crossLanguage) = [[]; [lbl "b"]].
Proof. split; [by_compute |]. split; by_compute. Qed.


(** Counterexample to C4, on indexes whose providers return slices of arrays
    of their own.  First index: the Go rule [a] and the proto rule [c] both
    embed the proto rule [b]; [a] and [b] have different languages and [a]
    embeds [b], yet [b] is marked embedded after [Finish].  Second index,
    with an embed cycle: [a] (Go) embeds [b] (proto), and after [Finish] the
    importedAs of [b] has "pkg/c", which that of [a] lacks. *)
Lemma cross_language_target_can_be_embedded :
  (AddRules (callsOf sharedTarget) (newIndex sharedTarget)
   = Ok (registered sharedTarget)
   ∧ Finish 4 (registered sharedTarget) = Ok (finishedWorld sharedTarget)
   ∧ exclusiveb (index (registered sharedTarget)) = true
   ∧ (fun rec => (label rec, lang rec)) <$> rules (index (registered sharedTarget))
     = [(lbl "b", "proto"); (lbl "a", "go"); (lbl "c", "proto")]
   ∧ directEmbeds (index (registered sharedTarget)) (recAt (registered sharedTarget) 1)
     = [lbl "b"]
   ∧ embedded <$> rules (index (finishedWorld sharedTarget)) = [true; false; false])
  ∧ (AddRules (callsOf cycle) (newIndex cycle) = Ok (registered cycle)
     ∧ Finish 4 (registered cycle) = Ok (finishedWorld cycle)
     ∧ exclusiveb (index (registered cycle)) = true
     ∧ (fun rec => (label rec, lang rec)) <$> rules (index (registered cycle))
       = [(lbl "b", "proto"); (lbl "a", "go"); (lbl "c", "proto")]
     ∧ directEmbeds (index (registered cycle)) (recAt (registered cycle) 1)
       = [lbl "b"]
     ∧ importsIn (finishedWorld cycle)
       = [[spec "proto" "pkg/b"; spec "go" "pkg/a"; spec "proto" "pkg/b";
           spec "proto" "pkg/c"];
          [spec "go" "pkg/a"; spec "proto" "pkg/b"];
          [spec "proto" "pkg/c"]]).
Proof. split; repeat (split; [by_compute |]); by_compute. Qed.

(** In [cycleBelow] the rules [b] and [c] embed each other, and neither
    embeds another rule. *)
Lemma cycleBelow_closed p q :
  rtc (embedsSome (index (registered cycleBelow))) p q →
  p = 1 ∨ p = 2 → q = 1 ∨ q = 2.
Proof.
  induction 1 as [p | p p' q Hstep _ IH]; [done |]. intros Hp. apply IH.
  destruct Hstep as (e & rec & Hr & He & Hfind).
  destruct Hp as [-> | ->]; vm_compute in Hr; injection Hr as <-;
    vm_compute in He; apply list_elem_of_singleton in He as ->;
    vm_compute in Hfind; injection Hfind as <-; auto.
Qed.

(** C4, as amended, on a Go rule embedding a proto rule that is in an embed
    cycle with another proto rule, and does not reach the Go rule. *)
Lemma cross_language_embedding_inherits_imports_only_witness :
  AddRules (callsOf cycleBelow) (newIndex cycleBelow) = Ok (registered cycleBelow)
  ∧ Finish 4 (registered cycleBelow) = Ok (finishedWorld cycleBelow)
  ∧ exclusive (index (registered cycleBelow))
  ∧ rules (index (registered cycleBelow)) !! 0 = Some (recAt (registered cycleBelow) 0)
  ∧ rules (index (registered cycleBelow)) !! 1 = Some (recAt (registered cycleBelow) 1)
  ∧ rules (index (finishedWorld cycleBelow)) !! 0
    = Some (recAt (finishedWorld cycleBelow) 0)
  ∧ rules (index (finishedWorld cycleBelow)) !! 1
    = Some (recAt (finishedWorld cycleBelow) 1)
  ∧ lang (recAt (registered cycleBelow) 0) ≠ lang (recAt (registered cycleBelow) 1)
  ∧ lbl "b" ∈ directEmbeds (index (registered cycleBelow))
                (recAt (registered cycleBelow) 0)
  ∧ label.Abs (lbl "b") (label.Repo (label (recAt (registered cycleBelow) 0)))
      (label.Pkg (label (recAt (registered cycleBelow) 0)))
    = label (recAt (registered cycleBelow) 1)
  ∧ ¬ rtc (embedsSome (index (registered cycleBelow))) 1 0
  ∧ importsOf (index (registered cycleBelow)) (recAt (registered cycleBelow) 1)
    ⊆ importsOf (index (finishedWorld cycleBelow)) (recAt (finishedWorld cycleBelow) 0)
  ∧ importsOf (index (finishedWorld cycleBelow)) (recAt (finishedWorld cycleBelow) 1)
    ⊆ importsOf (index (finishedWorld cycleBelow)) (recAt (finishedWorld cycleBelow) 0).
Proof.
  assert (H1 : AddRules (callsOf cycleBelow) (newIndex cycleBelow)
               = Ok (registered cycleBelow)) by by_compute.
  assert (H2 : Finish 4 (registered cycleBelow) = Ok (finishedWorld cycleBelow))
    by by_compute.
  assert (Hx : exclusive (index (registered cycleBelow))) by by_test.
  assert (H3 : rules (index (registered cycleBelow)) !! 0
               = Some (recAt (registered cycleBelow) 0)) by by_compute.
  assert (H4 : rules (index (registered cycleBelow)) !! 1
               = Some (recAt (registered cycleBelow) 1)) by by_compute.
  assert (H5 : rules (index (finishedWorld cycleBelow)) !! 0
               = Some (recAt (finishedWorld cycleBelow) 0)) by by_compute.
  assert (H6 : rules (index (finishedWorld cycleBelow)) !! 1
               = Some (recAt (finishedWorld cycleBelow) 1)) by by_compute.
  assert (H7 : lang (recAt (registered cycleBelow) 0)
               ≠ lang (recAt (registered cycleBelow) 1)) by by_decide.
  assert (H8 : lbl "b" ∈ directEmbeds (index (registered cycleBelow))
                           (recAt (registered cycleBelow) 0)) by by_decide.
  assert (H9 : label.Abs (lbl "b")
                 (label.Repo (label (recAt (registered cycleBelow) 0)))
                 (label.Pkg (label (recAt (registered cycleBelow) 0)))
               = label (recAt (registered cycleBelow) 1)) by by_compute.
  assert (Hnr : ¬ rtc (embedsSome (index (registered cycleBelow))) 1 0).
  { intros Hr. destruct (cycleBelow_closed 1 0 Hr); [by left | done | done]. }
  split; [exact H1 |]. split; [exact H2 |]. split; [exact Hx |].
  split; [exact H3 |]. split; [exact H4 |]. split; [exact H5 |].
  split; [exact H6 |]. split; [exact H7 |]. split; [exact H8 |].
  split; [exact H9 |]. split; [exact Hnr |].
  destruct (cross_language_embedding_inherits_imports_only (H := collab)
              providers [] (specsOf cycleBelow) (labelsOf cycleBelow)
              (callsOf cycleBelow) 4
              (registered cycleBelow) (finishedWorld cycleBelow) 0 1
              (recAt (registered cycleBelow) 0) (recAt (registered cycleBelow) 1)
              (recAt (finishedWorld cycleBelow) 0) (recAt (finishedWorld cycleBelow) 1)
              (lbl "b") H1 H2 Hx H3 H4 H5 H6 H7 H8 H9)
    as (Hreg & Hall & _).
  split; [exact Hreg | exact (Hall Hnr)].
Defined.

(** C5 on a query that no indexed rule answers. *)
Lemma FindRulesByImportWithConfig_fallback_witness :
  AddRules (callsOf embedding)
    (NewRuleIndex providers extensions (specsOf embedding) (labelsOf embedding))
  = Ok crossWorld
  ∧ Finish 3 crossWorld = Ok crossFinished
  ∧ FindRulesByImportWithConfig (index crossFinished) cfg (spec "go" "pkg/none") "go"
    = match FindRulesByImport (index crossFinished) (spec "go" "pkg/none") "go" with
      | [] =>
          (concat (map (fun cr : CrossResolver =>
                          cr cfg (FindRulesByImport (index crossFinished))
                             (spec "go" "pkg/none") "go")
                       (omap id extensions)),
           seq 0 (length (omap id extensions)))
      | direct => (direct, [])
      end.
Proof.
  assert (H1 : AddRules (callsOf embedding)
                 (NewRuleIndex providers extensions (specsOf embedding)
                    (labelsOf embedding))
               = Ok crossWorld) by by_compute.
  assert (H2 : Finish 3 crossWorld = Ok crossFinished) by by_compute.
  split; [exact H1 |]. split; [exact H2 |].
  exact (FindRulesByImportWithConfig_fallback (H := collab) providers extensions
           (specsOf embedding) (labelsOf embedding) (callsOf embedding) 3
           crossWorld crossFinished cfg (spec "go" "pkg/none") "go" H1 H2).
Defined.

(** Counterexample to C6.  First index: the rule [bin] has nil imports and
    the Go rule [a] embeds it.  [bin] is dropped, so the embed label of [a]
    resolves to no record; after [Finish] the label is in the embeds of
    [a], the result of a query for [a] lists it, and [IsSelfImport] holds of
    that result and the label of [bin].  Second index: [bin] and an
    importable rule of the same name; a query returns a result that carries
    the label of [bin]. *)
Lemma dropped_rule_label_appears_in_results :
  (AddRules (callsOf embedsBinary) (newIndex embedsBinary)
   = Ok (registered embedsBinary)
   ∧ Finish 3 (registered embedsBinary) = Ok (finishedWorld embedsBinary)
   ∧ exclusiveb (index (registered embedsBinary)) = true
   ∧ importable providers (call (place 0 binary)) = false
   ∧ label.New (RepoName cfg) "pkg" (RuleName (place 0 binary)) = lbl "bin"
   ∧ label <$> rules (index (registered embedsBinary)) = [lbl "a"]
   ∧ findRuleByLabel (index (registered embedsBinary)) (lbl "bin") (lbl "a") = None
   ∧ embedsIn (finishedWorld embedsBinary) = [[lbl "bin"]]
   ∧ FindRulesByImport (index (finishedWorld embedsBinary)) (spec "go" "pkg/a") "go"
     = [FindResult.mk (lbl "a") [lbl "bin"]]
   ∧ IsSelfImport (FindResult.mk (lbl "a") [lbl "bin"]) (lbl "bin") = true)
  ∧ (AddRules (callsOf binThenLib) (newIndex binThenLib) = Ok (registered binThenLib)
     ∧ Finish 3 (registered binThenLib) = Ok (finishedWorld binThenLib)
     ∧ FindRulesByImport (index (finishedWorld binThenLib)) (spec "go" "pkg/bin") "go"
       = [FindResult.mk (lbl "bin") []]).
Proof. split; repeat (split; [by_compute |]); by_compute. Qed.

(** C6, as amended, on the Go rule embedding the rule with nil imports. *)
Lemma nil_imports_rule_is_never_returned_witness :
  AddRules (callsOf embedsBinary) (newIndex embedsBinary) = Ok (registered embedsBinary)
  ∧ Finish 3 (registered embedsBinary) = Ok (finishedWorld embedsBinary)
  ∧ (∀ imp lang' fr,
       fr ∈ FindRulesByImport (index (finishedWorld embedsBinary)) imp lang' →
       ∃ p rec (c : Config) rslv imps,
         rules (index (finishedWorld embedsBinary)) !! p = Some rec
         ∧ fr = FindResult.mk (label rec)
                  (embedsOf (index (finishedWorld embedsBinary)) rec)
         ∧ (c, rule rec, file rec) ∈ callsOf embedsBinary
         ∧ label rec
           = label.New (RepoName c) (FilePkg (file rec)) (RuleName (rule rec))
         ∧ providers (rule rec) (FilePkg (file rec)) = Some rslv
         ∧ passesLanguageFilter (Langs c) (Name rslv) = true
         ∧ Imports rslv c (rule rec) (file rec) = Some imps)
  ∧ (∀ imp lang' fr,
       fr ∈ FindRulesByImport (index (finishedWorld embedsBinary)) imp lang' →
       FindResult.Label fr ≠ lbl "bin")
  ∧ importsOf (index (finishedWorld embedsBinary)) (recAt (finishedWorld embedsBinary) 0)
    = importsOf (index (registered embedsBinary)) (recAt (registered embedsBinary) 0)
  ∧ embedsOf (index (finishedWorld embedsBinary)) (recAt (finishedWorld embedsBinary) 0)
    = directEmbeds (index (registered embedsBinary)) (recAt (registered embedsBinary) 0).
Proof.
  assert (H1 : AddRules (callsOf embedsBinary) (newIndex embedsBinary)
               = Ok (registered embedsBinary)) by by_compute.
  assert (H2 : Finish 3 (registered embedsBinary) = Ok (finishedWorld embedsBinary))
    by by_compute.
  split; [exact H1 |]. split; [exact H2 |].
  destruct (nil_imports_rule_is_never_returned (H := collab) providers []
              (specsOf embedsBinary) (labelsOf embedsBinary) (callsOf embedsBinary) 3
              (registered embedsBinary) (finishedWorld embedsBinary) H1 H2)
    as (_ & Hfrom & Hlabel & _ & Hkeep).
  split; [exact Hfrom |]. split.
  - apply (Hlabel (lbl "bin")). intros c r f Hin Hl.
    apply elem_of_cons in Hin as [Hin | Hin].
    + injection Hin as -> -> ->. by_compute.
    + apply list_elem_of_singleton in Hin. injection Hin as -> -> ->.
      vm_compute in Hl. discriminate.
  - assert (Hx : exclusive (index (registered embedsBinary))) by by_test.
    apply (Hkeep Hx 0 (recAt (registered embedsBinary) 0)
             (recAt (finishedWorld embedsBinary) 0)); [by_compute | by_compute |].
    intros e He. vm_compute in He. apply list_elem_of_singleton in He as ->.
    by_compute.
Defined.

(** C7 on the index with the embed cycle. *)
Lemma Finish_terminates_witness :
  length (rules (index (registered cycle))) < 4
  ∧ Finish 4 (registered cycle) ≠ OutOfFuel
  ∧ (∀ fuel', (4 ≤ fuel')%nat → Finish fuel' (registered cycle) = Finish 4 (registered cycle))
  ∧ erase (closurePassTraced 4 (index (registered cycle)))
    = closurePass 4 (index (registered cycle))
  ∧ (∀ st, reaches (closurePassTraced 4 (index (registered cycle))) st → NoDup st.2).
Proof.
  assert (H1 : length (rules (index (registered cycle))) < 4) by (vm_compute; lia).
  split; [exact H1 |].
  exact (Finish_terminates (H := collab) (registered cycle) 4 H1).
Defined.

(** Counterexample to C8: a rule with nil imports that has the name of
    [base] is given to [AddRule] on the index of [base] and [lib].  Its label
    is the label of the record of [base]; the call returns before the label
    is looked up, and the log stays empty. *)
Lemma nil_imports_duplicate_is_not_reported :
  AddRules (callsOf embedding) (newIndex embedding) = Ok (registered embedding)
  ∧ label <$> rules (index (registered embedding)) = [lbl "base"; lbl "lib"]
  ∧ label.New (RepoName cfg) (FilePkg "pkg") (RuleName nilBase) = lbl "base"
  ∧ AddRule cfg nilBase "pkg" (registered embedding) = Ok (registered embedding)
  ∧ logged (registered embedding) = [].
Proof. repeat (split; [by_compute |]). by_compute. Qed.

(** C8, as amended, on the rule [base] given to [AddRule] a second time. *)
Lemma AddRule_duplicate_label_rejected_witness :
  AddRules (callsOf embedding) (newIndex embedding) = Ok (registered embedding)
  ∧ rules (index (registered embedding)) !! 0 = Some (recAt (registered embedding) 0)
  ∧ label (recAt (registered embedding) 0)
    = label.New (RepoName cfg) (FilePkg "pkg") (RuleName (place 0 (lib "go" "base" [])))
  ∧ NoDup (label <$> rules (index (registered embedding)))
  ∧ ∃ w', AddRule cfg (place 0 (lib "go" "base" [])) "pkg" (registered embedding) = Ok w'
          ∧ index w' = index (registered embedding)
          ∧ logged w' = logged (registered embedding)
                        ++ [Printf multipleRules (label (recAt (registered embedding) 0))].
Proof.
  assert (H1 : AddRules (callsOf embedding) (newIndex embedding)
               = Ok (registered embedding)) by by_compute.
  assert (H2 : rules (index (registered embedding)) !! 0
               = Some (recAt (registered embedding) 0)) by by_compute.
  assert (H3 : label (recAt (registered embedding) 0)
               = label.New (RepoName cfg) (FilePkg "pkg")
                   (RuleName (place 0 (lib "go" "base" [])))) by by_compute.
  split; [exact H1 |]. split; [exact H2 |]. split; [exact H3 |].
  destruct (AddRule_duplicate_label_rejected (H := collab) providers []
              (specsOf embedding) (labelsOf embedding) (callsOf embedding)
              (registered embedding) cfg (place 0 (lib "go" "base" [])) "pkg" 0
              (recAt (registered embedding) 0) H1 H2 H3)
    as (Hnd & w' & Hrun & Hix & _ & Hlog & _).
  split; [exact Hnd |]. exists w'. split; [exact Hrun |]. split; [exact Hix |].
  apply (Hlog (resolverFor "go") (whole 0 1)); by_compute.
Defined.

(** C9 on a call after [Finish]. *)
Lemma AddRule_after_Finish_panics_witness :
  Finish 3 (registered embedding) = Ok (finishedWorld embedding)
  ∧ AddRule cfg (place 0 (lib "go" "late" [])) "pkg" (finishedWorld embedding)
    = Panic panicAfterFinish
        {| index := index (finishedWorld embedding);
           logged := logged (finishedWorld embedding) ++ [Panicf panicAfterFinish] |}.
Proof.
  assert (H1 : Finish 3 (registered embedding) = Ok (finishedWorld embedding))
    by by_compute.
  split; [exact H1 |].
  exact (AddRule_after_Finish_panics (H := collab) 3 (registered embedding)
           (finishedWorld embedding) cfg (place 0 (lib "go" "late" [])) "pkg" H1).
Defined.

(** C10 on the index with the embed cycle. *)
Lemma collectEmbeds_provider_lookups_succeed_witness :
  AddRules (callsOf cycle) (newIndex cycle) = Ok (registered cycle)
  ∧ (∀ p rec, rules (index (registered cycle)) !! p = Some rec →
       ∃ rslv, mrslv (index (registered cycle)) (rule rec) (FilePkg (file rec))
               = Some rslv
               ∧ lang rec = Name rslv)
  ∧ (∀ fuel, length (rules (index (registered cycle))) < fuel →
             ∃ w', Finish fuel (registered cycle) = Ok w')
  ∧ (∀ fuel msg w', Finish fuel (registered cycle) ≠ Panic msg w').
Proof.
  assert (H1 : AddRules (callsOf cycle) (newIndex cycle) = Ok (registered cycle))
    by by_compute.
  split; [exact H1 |].
  exact (collectEmbeds_provider_lookups_succeed (H := collab) providers []
           (specsOf cycle) (labelsOf cycle) (callsOf cycle) (registered cycle) H1).
Defined.

End Cases.

(** * The further properties on concrete indexes *)

Section MoreCases.
Import Scenario.
Open Scope string_scope.
Open Scope list_scope.
Open Scope nat_scope.
Open Scope stdpp_scope.

Local Ltac by_compute := vm_compute; reflexivity.
Local Ltac by_decide := apply (bool_decide_unpack _); vm_compute; exact I.
Local Ltac by_test := apply exclusiveb_exclusive; vm_compute; reflexivity.

(** X2 on the first call for the index of [base] and [lib]. *)
Lemma AddRule_registers_new_rule_witness :
  didFinish (index (newIndex embedding)) = false
  ∧ mrslv (index (newIndex embedding)) (place 0 (lib "go" "base" [])) (FilePkg "pkg")
    = Some (resolverFor "go")
  ∧ passesLanguageFilter (Langs cfg) (Name (resolverFor "go")) = true
  ∧ Imports (resolverFor "go") cfg (place 0 (lib "go" "base" [])) "pkg"
    = Some (whole 0 1)
  ∧ labelMap (index (newIndex embedding))
      !! (label.New (RepoName cfg) (FilePkg "pkg")
            (RuleName (place 0 (lib "go" "base" []))))
    = None
  ∧ ∃ w', AddRule cfg (place 0 (lib "go" "base" [])) "pkg" (newIndex embedding) = Ok w'
      ∧ rules (index w')
        = rules (index (newIndex embedding))
          ++ [newRecord cfg (place 0 (lib "go" "base" [])) "pkg" (whole 0 1)
                (Name (resolverFor "go"))]
      ∧ logged w' = logged (newIndex embedding)
      ∧ (∀ from, findRuleByLabel (index w')
                   (label.New (RepoName cfg) (FilePkg "pkg")
                      (RuleName (place 0 (lib "go" "base" [])))) from
                 = Some (length (rules (index (newIndex embedding)))))
      ∧ (∀ l, l ≠ label.New (RepoName cfg) (FilePkg "pkg")
                    (RuleName (place 0 (lib "go" "base" []))) →
              labelMap (index w') !! l
              = labelMap (index (newIndex embedding)) !! l).
Proof.
  assert (H1 : didFinish (index (newIndex embedding)) = false) by by_compute.
  assert (H2 : mrslv (index (newIndex embedding)) (place 0 (lib "go" "base" []))
                 (FilePkg "pkg")
               = Some (resolverFor "go")) by by_compute.
  assert (H3 : passesLanguageFilter (Langs cfg) (Name (resolverFor "go")) = true)
    by by_compute.
  assert (H4 : Imports (resolverFor "go") cfg (place 0 (lib "go" "base" [])) "pkg"
               = Some (whole 0 1)) by by_compute.
  assert (H5 : labelMap (index (newIndex embedding))
                 !! (label.New (RepoName cfg) (FilePkg "pkg")
                       (RuleName (place 0 (lib "go" "base" []))))
               = None) by by_compute.
  split; [exact H1 |]. split; [exact H2 |]. split; [exact H3 |].
  split; [exact H4 |]. split; [exact H5 |].
  exact (AddRule_registers_new_rule (H := collab) cfg (place 0 (lib "go" "base" []))
           "pkg" (newIndex embedding) (resolverFor "go") (whole 0 1)
           H1 H2 H3 H4 H5).
Defined.

(** X3 on the rule [base] given to [AddRule] a second time. *)
Lemma AddRule_only_appends_witness :
  didFinish (index (registered embedding)) = false
  ∧ ∃ w', AddRule cfg (place 0 (lib "go" "base" [])) "pkg" (registered embedding) = Ok w'
    ∧ ((index w' = index (registered embedding)
        ∧ (logged w' = logged (registered embedding)
           ∨ logged w' = logged (registered embedding) ++
               [Printf multipleRules
                  (label.New (RepoName cfg) (FilePkg "pkg")
                     (RuleName (place 0 (lib "go" "base" []))))]))
       ∨ (∃ rslv imps,
            mrslv (index (registered embedding)) (place 0 (lib "go" "base" []))
              (FilePkg "pkg") = Some rslv
            ∧ passesLanguageFilter (Langs cfg) (Name rslv) = true
            ∧ Imports rslv cfg (place 0 (lib "go" "base" [])) "pkg" = Some imps
            ∧ labelMap (index (registered embedding))
                !! (label.New (RepoName cfg) (FilePkg "pkg")
                      (RuleName (place 0 (lib "go" "base" [])))) = None
            ∧ rules (index w')
              = rules (index (registered embedding))
                ++ [newRecord cfg (place 0 (lib "go" "base" [])) "pkg" imps (Name rslv)]
            ∧ labelMap (index w')
              = <[label.New (RepoName cfg) (FilePkg "pkg")
                    (RuleName (place 0 (lib "go" "base" [])))
                  := length (rules (index (registered embedding)))]>
                  (labelMap (index (registered embedding)))
            ∧ importMap (index w') = importMap (index (registered embedding))
            ∧ mrslv (index w') = mrslv (index (registered embedding))
            ∧ crossResolvers (index w') = crossResolvers (index (registered embedding))
            ∧ didFinish (index w') = false
            ∧ specArrays (index w') = specArrays (index (registered embedding))
            ∧ labelArrays (index w') = labelArrays (index (registered embedding))
            ∧ logged w' = logged (registered embedding))).
Proof.
  assert (H1 : didFinish (index (registered embedding)) = false) by by_compute.
  split; [exact H1 |].
  exact (AddRule_only_appends (H := collab) cfg (place 0 (lib "go" "base" [])) "pkg"
           (registered embedding) H1).
Defined.

(** X4 on the rule [lib] of the index of [base] and [lib]. *)
Lemma AddRules_registers_every_importable_rule_witness :
  AddRules (callsOf embedding) (newIndex embedding) = Ok (registered embedding)
  ∧ (cfg, place 1 (lib "go" "lib" [lbl "base"]), "pkg") ∈ callsOf embedding
  ∧ providers (place 1 (lib "go" "lib" [lbl "base"])) (FilePkg "pkg")
    = Some (resolverFor "go")
  ∧ passesLanguageFilter (Langs cfg) (Name (resolverFor "go")) = true
  ∧ Imports (resolverFor "go") cfg (place 1 (lib "go" "lib" [lbl "base"])) "pkg"
    = Some (whole 1 1)
  ∧ ∃ p rec,
      findRuleByLabel (index (registered embedding))
        (label.New (RepoName cfg) (FilePkg "pkg")
           (RuleName (place 1 (lib "go" "lib" [lbl "base"]))))
        (label.New (RepoName cfg) (FilePkg "pkg")
           (RuleName (place 1 (lib "go" "lib" [lbl "base"]))))
      = Some p
      ∧ rules (index (registered embedding)) !! p = Some rec
      ∧ label rec
        = label.New (RepoName cfg) (FilePkg "pkg")
            (RuleName (place 1 (lib "go" "lib" [lbl "base"]))).
Proof.
  assert (H1 : AddRules (callsOf embedding) (newIndex embedding)
               = Ok (registered embedding)) by by_compute.
  assert (H2 : (cfg, place 1 (lib "go" "lib" [lbl "base"]), "pkg") ∈ callsOf embedding).
  { apply elem_of_cons. right. apply elem_of_cons. by left. }
  assert (H3 : providers (place 1 (lib "go" "lib" [lbl "base"])) (FilePkg "pkg")
               = Some (resolverFor "go")) by by_compute.
  assert (H4 : passesLanguageFilter (Langs cfg) (Name (resolverFor "go")) = true)
    by by_compute.
  assert (H5 : Imports (resolverFor "go") cfg (place 1 (lib "go" "lib" [lbl "base"]))
                 "pkg"
               = Some (whole 1 1)) by by_compute.
  split; [exact H1 |]. split; [exact H2 |]. split; [exact H3 |].
  split; [exact H4 |]. split; [exact H5 |].
  exact (AddRules_registers_every_importable_rule (H := collab) providers []
           (specsOf embedding) (labelsOf embedding) (callsOf embedding)
           (registered embedding) cfg (place 1 (lib "go" "lib" [lbl "base"])) "pkg"
           (resolverFor "go") (whole 1 1) H1 H2 H3 H4 H5).
Defined.

(** X18 on two rules named [base], the second of which is reported, and a
    rule with nil imports. *)
Lemma AddRules_records_or_reports_every_importable_rule_witness :
  AddRules (callsOf withDuplicate) (newIndex withDuplicate)
  = Ok (registered withDuplicate)
  ∧ length (rules (index (registered withDuplicate)))
    + length (logged (registered withDuplicate))
    = length (filter (fun call => importable providers call = true)
                (callsOf withDuplicate)).
Proof.
  assert (H1 : AddRules (callsOf withDuplicate) (newIndex withDuplicate)
               = Ok (registered withDuplicate)) by by_compute.
  split; [exact H1 |].
  exact (AddRules_records_or_reports_every_importable_rule (H := collab) providers []
           (specsOf withDuplicate) (labelsOf withDuplicate) (callsOf withDuplicate)
           (registered withDuplicate) H1).
Defined.

(** X5 on the record of [lib]. *)
Lemma findRuleByLabel_finds_registered_rules_witness :
  AddRules (callsOf embedding) (newIndex embedding) = Ok (registered embedding)
  ∧ rules (index (registered embedding)) !! 1 = Some (recAt (registered embedding) 1)
  ∧ (∀ from, findRuleByLabel (index (registered embedding))
               (label (recAt (registered embedding) 1)) from = Some 1)
  ∧ (∀ l from,
       label.Relative l = true →
       label.Name l = label.Name (label (recAt (registered embedding) 1)) →
       label.Repo from = label.Repo (label (recAt (registered embedding) 1)) →
       label.Pkg from = label.Pkg (label (recAt (registered embedding) 1)) →
       findRuleByLabel (index (registered embedding)) l from = Some 1)
  ∧ (∀ l from q,
       findRuleByLabel (index (registered embedding)) l from = Some q
       ↔ ∃ rec', rules (index (registered embedding)) !! q = Some rec'
                 ∧ label rec' = label.Abs l (label.Repo from) (label.Pkg from)).
Proof.
  assert (H1 : AddRules (callsOf embedding) (newIndex embedding)
               = Ok (registered embedding)) by by_compute.
  assert (H2 : rules (index (registered embedding)) !! 1
               = Some (recAt (registered embedding) 1)) by by_compute.
  split; [exact H1 |]. split; [exact H2 |].
  exact (findRuleByLabel_finds_registered_rules (H := collab) providers []
           (specsOf embedding) (labelsOf embedding) (callsOf embedding)
           (registered embedding) 1 (recAt (registered embedding) 1) H1 H2).
Defined.

(** X6 on the index of [base] and [lib] with two CrossResolvers, before
    [Finish]. *)
Lemma queries_before_Finish_find_no_rule_witness :
  AddRules (callsOf embedding)
    (NewRuleIndex providers extensions (specsOf embedding) (labelsOf embedding))
  = Ok crossWorld
  ∧ FindRulesByImport (index crossWorld) (spec "go" "pkg/lib") "go" = []
  ∧ FindRulesByImportWithConfig (index crossWorld) cfg (spec "go" "pkg/lib") "go"
    = (concat (map (fun cr : CrossResolver =>
                      cr cfg (FindRulesByImport (index crossWorld))
                         (spec "go" "pkg/lib") "go")
                   (omap id extensions)),
       seq 0 (length (omap id extensions))).
Proof.
  assert (H1 : AddRules (callsOf embedding)
                 (NewRuleIndex providers extensions (specsOf embedding)
                    (labelsOf embedding))
               = Ok crossWorld) by by_compute.
  split; [exact H1 |].
  exact (queries_before_Finish_find_no_rule (H := collab) providers extensions
           (specsOf embedding) (labelsOf embedding) (callsOf embedding) crossWorld
           cfg (spec "go" "pkg/lib") "go" H1).
Defined.

(** X7 on the import of [base] in the index of [base] and [lib]. *)
Lemma Finish_builds_buckets_in_registration_order_witness :
  Finish 3 (registered embedding) = Ok (finishedWorld embedding)
  ∧ importMap (index (finishedWorld embedding)) !!! spec "go" "pkg/base"
    = filter (fun p => indexable (index (finishedWorld embedding))
                         (spec "go" "pkg/base") p = true)
        (seq 0 (length (rules (index (finishedWorld embedding))))).
Proof.
  assert (H1 : Finish 3 (registered embedding) = Ok (finishedWorld embedding))
    by by_compute.
  split; [exact H1 |].
  exact (Finish_builds_buckets_in_registration_order (H := collab) 3
           (registered embedding) (finishedWorld embedding)
           (spec "go" "pkg/base") H1).
Defined.

(** X8 on the same query. *)
Lemma FindRulesByImport_lists_matching_records_witness :
  Finish 3 (registered embedding) = Ok (finishedWorld embedding)
  ∧ FindRulesByImport (index (finishedWorld embedding)) (spec "go" "pkg/base") "go"
    = (fun rec => FindResult.mk (label rec)
                    (embedsOf (index (finishedWorld embedding)) rec))
        <$> filter (fun rec => embedded rec = false
                               ∧ spec "go" "pkg/base"
                                 ∈ importsOf (index (finishedWorld embedding)) rec
                               ∧ lang rec = "go")
              (rules (index (finishedWorld embedding))).
Proof.
  assert (H1 : Finish 3 (registered embedding) = Ok (finishedWorld embedding))
    by by_compute.
  split; [exact H1 |].
  exact (FindRulesByImport_lists_matching_records (H := collab) 3
           (registered embedding) (finishedWorld embedding)
           (spec "go" "pkg/base") "go" H1).
Defined.

(** X9 on the same query. *)
Lemma FindRulesByImport_returns_each_rule_once_witness :
  AddRules (callsOf embedding) (newIndex embedding) = Ok (registered embedding)
  ∧ Finish 3 (registered embedding) = Ok (finishedWorld embedding)
  ∧ NoDup (FindResult.Label
             <$> FindRulesByImport (index (finishedWorld embedding))
                   (spec "go" "pkg/base") "go").
Proof.
  assert (H1 : AddRules (callsOf embedding) (newIndex embedding)
               = Ok (registered embedding)) by by_compute.
  assert (H2 : Finish 3 (registered embedding) = Ok (finishedWorld embedding))
    by by_compute.
  split; [exact H1 |]. split; [exact H2 |].
  exact (FindRulesByImport_returns_each_rule_once (H := collab) providers []
           (specsOf embedding) (labelsOf embedding) (callsOf embedding) 3
           (registered embedding) (finishedWorld embedding)
           (spec "go" "pkg/base") "go" H1 H2).
Defined.

(** X10 on the index with the embed cycle, whose providers return slices of
    arrays of their own. *)
Lemma Finish_keeps_records_witness :
  Finish 4 (registered cycle) = Ok (finishedWorld cycle)
  ∧ logged (finishedWorld cycle) = logged (registered cycle)
  ∧ labelMap (index (finishedWorld cycle)) = labelMap (index (registered cycle))
  ∧ mrslv (index (finishedWorld cycle)) = mrslv (index (registered cycle))
  ∧ crossResolvers (index (finishedWorld cycle))
    = crossResolvers (index (registered cycle))
  ∧ didFinish (index (finishedWorld cycle)) = true
  ∧ length (rules (index (finishedWorld cycle)))
    = length (rules (index (registered cycle)))
  ∧ ∀ p rec, rules (index (registered cycle)) !! p = Some rec →
      ∃ rec', rules (index (finishedWorld cycle)) !! p = Some rec'
        ∧ rule rec' = rule rec ∧ label rec' = label rec
        ∧ file rec' = file rec ∧ lang rec' = lang rec
        ∧ (embedded rec = true → embedded rec' = true)
        ∧ didCollectEmbeds rec' = true
        ∧ importsOf (index (registered cycle)) rec
          `prefix_of` importsOf (index (finishedWorld cycle)) rec'.
Proof.
  assert (H1 : Finish 4 (registered cycle) = Ok (finishedWorld cycle)) by by_compute.
  assert (H2 : AddRules (callsOf cycle) (newIndex cycle) = Ok (registered cycle))
    by by_compute.
  assert (Hx : exclusive (index (registered cycle))) by by_test.
  split; [exact H1 |].
  destruct (Finish_keeps_records (H := collab) 4 (registered cycle)
              (finishedWorld cycle) H1)
    as (Hlog & Hlm & Hm & Hcr & Hdf & Hlen & Hrecs).
  split; [exact Hlog |]. split; [exact Hlm |]. split; [exact Hm |].
  split; [exact Hcr |]. split; [exact Hdf |]. split; [exact Hlen |].
  intros p rec Hp.
  destruct (Hrecs p rec Hp) as (rec' & Hp' & Hr & Hl & Hf & Hla & He & Hfl & Hpre).
  exists rec'. split; [exact Hp' |]. split; [exact Hr |]. split; [exact Hl |].
  split; [exact Hf |]. split; [exact Hla |]. split; [exact He |].
  split; [exact Hfl |].
  exact (Hpre providers [] (specsOf cycle) (labelsOf cycle) (callsOf cycle) H2 Hx).
Defined.

(** X11 on the index with the embed cycle. *)
Lemma Finish_twice_witness :
  Finish 4 (registered cycle) = Ok (finishedWorld cycle)
  ∧ 0 < 1
  ∧ Finish 1 (finishedWorld cycle) = Ok (finishedWorld cycle).
Proof.
  assert (H1 : Finish 4 (registered cycle) = Ok (finishedWorld cycle)) by by_compute.
  assert (H2 : 0 < 1) by lia.
  split; [exact H1 |]. split; [exact H2 |].
  exact (Finish_twice (H := collab) 4 1 (registered cycle) (finishedWorld cycle)
           H1 H2).
Defined.

(** X13 on the result for [lib], which embeds [base]. *)
Lemma result_is_self_import_of_reported_embeds_witness :
  AddRules (callsOf embedding) (newIndex embedding) = Ok (registered embedding)
  ∧ Finish 3 (registered embedding) = Ok (finishedWorld embedding)
  ∧ exclusive (index (registered embedding))
  ∧ rules (index (registered embedding)) !! 1 = Some (recAt (registered embedding) 1)
  ∧ FindResult.mk (lbl "lib") [lbl "base"]
    ∈ FindRulesByImport (index (finishedWorld embedding)) (spec "go" "pkg/base") "go"
  ∧ FindResult.Label (FindResult.mk (lbl "lib") [lbl "base"])
    = label (recAt (registered embedding) 1)
  ∧ directEmbeds (index (registered embedding)) (recAt (registered embedding) 1)
    `prefix_of` FindResult.Embeds (FindResult.mk (lbl "lib") [lbl "base"])
  ∧ IsSelfImport (FindResult.mk (lbl "lib") [lbl "base"])
      (label (recAt (registered embedding) 1)) = true
  ∧ ∀ e, e ∈ directEmbeds (index (registered embedding))
               (recAt (registered embedding) 1) →
         IsSelfImport (FindResult.mk (lbl "lib") [lbl "base"]) e = true.
Proof.
  assert (H1 : AddRules (callsOf embedding) (newIndex embedding)
               = Ok (registered embedding)) by by_compute.
  assert (H2 : Finish 3 (registered embedding) = Ok (finishedWorld embedding))
    by by_compute.
  assert (Hx : exclusive (index (registered embedding))) by by_test.
  assert (H3 : rules (index (registered embedding)) !! 1
               = Some (recAt (registered embedding) 1)) by by_compute.
  assert (H4 : FindResult.mk (lbl "lib") [lbl "base"]
               ∈ FindRulesByImport (index (finishedWorld embedding))
                   (spec "go" "pkg/base") "go").
  { assert (FindRulesByImport (index (finishedWorld embedding))
              (spec "go" "pkg/base") "go"
            = [FindResult.mk (lbl "lib") [lbl "base"]]) as -> by by_compute.
    by apply list_elem_of_singleton. }
  assert (H5 : FindResult.Label (FindResult.mk (lbl "lib") [lbl "base"])
               = label (recAt (registered embedding) 1)) by by_compute.
  split; [exact H1 |]. split; [exact H2 |]. split; [exact Hx |].
  split; [exact H3 |]. split; [exact H4 |]. split; [exact H5 |].
  exact (result_is_self_import_of_reported_embeds (H := collab) providers []
           (specsOf embedding) (labelsOf embedding) (callsOf embedding) 3
           (registered embedding) (finishedWorld embedding) 1
           (recAt (registered embedding) 1) (spec "go" "pkg/base") "go"
           (FindResult.mk (lbl "lib") [lbl "base"]) H1 H2 Hx H3 H4 H5).
Defined.

(** X14 on the record of [base], which [lib] embeds. *)
Lemma embedded_iff_embedded_by_rule_of_same_language_witness :
  AddRules (callsOf embedding) (newIndex embedding) = Ok (registered embedding)
  ∧ Finish 3 (registered embedding) = Ok (finishedWorld embedding)
  ∧ exclusive (index (registered embedding))
  ∧ rules (index (finishedWorld embedding)) !! 0
    = Some (recAt (finishedWorld embedding) 0)
  ∧ (embedded (recAt (finishedWorld embedding) 0) = true
     ↔ ∃ p e recP,
         embedsTo (index (registered embedding)) p e 0
         ∧ rules (index (registered embedding)) !! p = Some recP
         ∧ lang recP = lang (recAt (finishedWorld embedding) 0)).
Proof.
  assert (H1 : AddRules (callsOf embedding) (newIndex embedding)
               = Ok (registered embedding)) by by_compute.
  assert (H2 : Finish 3 (registered embedding) = Ok (finishedWorld embedding))
    by by_compute.
  assert (Hx : exclusive (index (registered embedding))) by by_test.
  assert (H3 : rules (index (finishedWorld embedding)) !! 0
               = Some (recAt (finishedWorld embedding) 0)) by by_compute.
  split; [exact H1 |]. split; [exact H2 |]. split; [exact Hx |].
  split; [exact H3 |].
  exact (embedded_iff_embedded_by_rule_of_same_language (H := collab) providers []
           (specsOf embedding) (labelsOf embedding) (callsOf embedding) 3
           (registered embedding) (finishedWorld embedding) 0
           (recAt (finishedWorld embedding) 0) H1 H2 Hx H3).
Defined.

(** X15 on the Go rule [a] that embeds the proto rule [b]: [a] answers, for
    Go, the query for the proto import of [b]. *)
Lemma unembedded_rule_answers_for_own_and_embedded_imports_witness :
  AddRules (callsOf crossLanguage) (newIndex crossLanguage)
  = Ok (registered crossLanguage)
  ∧ Finish 3 (registered crossLanguage) = Ok (finishedWorld crossLanguage)
  ∧ exclusive (index (registered crossLanguage))
  ∧ rules (index (registered crossLanguage)) !! 1
    = Some (recAt (registered crossLanguage) 1)
  ∧ (∀ p e recP, embedsTo (index (registered crossLanguage)) p e 1 →
       rules (index (registered crossLanguage)) !! p = Some recP →
       lang recP ≠ lang (recAt (registered crossLanguage) 1))
  ∧ (spec "proto" "pkg/b"
       ∈ importsOf (index (registered crossLanguage)) (recAt (registered crossLanguage) 1)
     ∨ ∃ e b recB, embedsTo (index (registered crossLanguage)) 1 e b
                   ∧ rules (index (registered crossLanguage)) !! b = Some recB
                   ∧ spec "proto" "pkg/b"
                     ∈ importsOf (index (registered crossLanguage)) recB)
  ∧ ∃ fr, fr ∈ FindRulesByImport (index (finishedWorld crossLanguage))
                 (spec "proto" "pkg/b") (lang (recAt (registered crossLanguage) 1))
          ∧ FindResult.Label fr = label (recAt (registered crossLanguage) 1).
Proof.
  assert (H1 : AddRules (callsOf crossLanguage) (newIndex crossLanguage)
               = Ok (registered crossLanguage)) by by_compute.
  assert (H2 : Finish 3 (registered crossLanguage) = Ok (finishedWorld crossLanguage))
    by by_compute.
  assert (Hx : exclusive (index (registered crossLanguage))) by by_test.
  assert (H3 : rules (index (registered crossLanguage)) !! 1
               = Some (recAt (registered crossLanguage) 1)) by by_compute.
  assert (H4 : ∀ p e recP, embedsTo (index (registered crossLanguage)) p e 1 →
                 rules (index (registered crossLanguage)) !! p = Some recP →
                 lang recP ≠ lang (recAt (registered crossLanguage) 1)).
  { intros p e recP (rec & Hp & He & Hfind) _. exfalso.
    destruct p as [|[|p]]; vm_compute in Hp; [| | discriminate];
      injection Hp as <-; vm_compute in He.
    - by apply elem_of_nil in He.
    - apply list_elem_of_singleton in He as ->. vm_compute in Hfind. discriminate. }
  assert (H5 : spec "proto" "pkg/b"
                 ∈ importsOf (index (registered crossLanguage))
                     (recAt (registered crossLanguage) 1)
               ∨ ∃ e b recB, embedsTo (index (registered crossLanguage)) 1 e b
                   ∧ rules (index (registered crossLanguage)) !! b = Some recB
                   ∧ spec "proto" "pkg/b"
                     ∈ importsOf (index (registered crossLanguage)) recB).
  { right. exists (lbl "b"), 0, (recAt (registered crossLanguage) 0).
    split; [| split; [by_compute | by_decide]].
    exists (recAt (registered crossLanguage) 1).
    split; [by_compute |]. split; [by_decide | by_compute]. }
  split; [exact H1 |]. split; [exact H2 |]. split; [exact Hx |].
  split; [exact H3 |]. split; [exact H4 |]. split; [exact H5 |].
  exact (unembedded_rule_answers_for_own_and_embedded_imports (H := collab)
           providers [] (specsOf crossLanguage) (labelsOf crossLanguage)
           (callsOf crossLanguage) 3 (registered crossLanguage)
           (finishedWorld crossLanguage) 1 (recAt (registered crossLanguage) 1)
           (spec "proto" "pkg/b") H1 H2 Hx H3 H4 H5).
Defined.

(** The embed relation of [chain] has no cycle: a record embeds only the
    record registered just before it. *)
Lemma chain_acyclic : acyclic (index (registered chain)).
Proof.
  apply (acyclic_ranked _ id). intros p q (e & rec & Hp & He & Hfind).
  destruct p as [|[|[|p]]]; vm_compute in Hp; [| | | discriminate];
    injection Hp as <-; vm_compute in He.
  - by apply elem_of_nil in He.
  - apply list_elem_of_singleton in He as ->. vm_compute in Hfind.
    injection Hfind as <-. unfold id. lia.
  - apply list_elem_of_singleton in He as ->. vm_compute in Hfind.
    injection Hfind as <-. unfold id. lia.
Qed.

Lemma chain_top_embeds_mid : embedsSome (index (registered chain)) 2 1.
Proof.
  exists (lbl "mid"), (recAt (registered chain) 2).
  split; [by_compute |]. split; [by_decide | by_compute].
Qed.

Lemma chain_mid_embeds_base : embedsSome (index (registered chain)) 1 0.
Proof.
  exists (lbl "base"), (recAt (registered chain) 1).
  split; [by_compute |]. split; [by_decide | by_compute].
Qed.

(** X16 on [chain]: [top] holds the import of [base], two steps away. *)
Lemma imports_are_inherited_transitively_witness :
  AddRules (callsOf chain) (newIndex chain) = Ok (registered chain)
  ∧ Finish 4 (registered chain) = Ok (finishedWorld chain)
  ∧ exclusive (index (registered chain))
  ∧ acyclic (index (registered chain))
  ∧ rtc (embedsSome (index (registered chain))) 2 0
  ∧ rules (index (finishedWorld chain)) !! 2 = Some (recAt (finishedWorld chain) 2)
  ∧ rules (index (finishedWorld chain)) !! 0 = Some (recAt (finishedWorld chain) 0)
  ∧ importsOf (index (finishedWorld chain)) (recAt (finishedWorld chain) 0)
    ⊆ importsOf (index (finishedWorld chain)) (recAt (finishedWorld chain) 2).
Proof.
  assert (H1 : AddRules (callsOf chain) (newIndex chain) = Ok (registered chain))
    by by_compute.
  assert (H2 : Finish 4 (registered chain) = Ok (finishedWorld chain)) by by_compute.
  assert (Hx : exclusive (index (registered chain))) by by_test.
  pose proof chain_acyclic as H3.
  assert (H4 : rtc (embedsSome (index (registered chain))) 2 0).
  { eapply rtc_l; [exact chain_top_embeds_mid |]. apply rtc_once.
    exact chain_mid_embeds_base. }
  assert (H5 : rules (index (finishedWorld chain)) !! 2
               = Some (recAt (finishedWorld chain) 2)) by by_compute.
  assert (H6 : rules (index (finishedWorld chain)) !! 0
               = Some (recAt (finishedWorld chain) 0)) by by_compute.
  split; [exact H1 |]. split; [exact H2 |]. split; [exact Hx |].
  split; [exact H3 |]. split; [exact H4 |]. split; [exact H5 |].
  split; [exact H6 |].
  exact (imports_are_inherited_transitively (H := collab) providers []
           (specsOf chain) (labelsOf chain) (callsOf chain) 4
           (registered chain) (finishedWorld chain) 2 0
           (recAt (finishedWorld chain) 2) (recAt (finishedWorld chain) 0)
           H1 H2 Hx H3 H4 H5 H6).
Defined.

(** X17 on [chain]: the embeds of [top] holds the label of [base], which
    [mid] reports. *)
Lemma embeds_is_closed_under_same_language_embedding_witness :
  AddRules (callsOf chain) (newIndex chain) = Ok (registered chain)
  ∧ Finish 4 (registered chain) = Ok (finishedWorld chain)
  ∧ exclusive (index (registered chain))
  ∧ acyclic (index (registered chain))
  ∧ rtc (embedsSame (index (registered chain))) 2 1
  ∧ rules (index (finishedWorld chain)) !! 2 = Some (recAt (finishedWorld chain) 2)
  ∧ rules (index (registered chain)) !! 1 = Some (recAt (registered chain) 1)
  ∧ directEmbeds (index (registered chain)) (recAt (registered chain) 1)
    ⊆ embedsOf (index (finishedWorld chain)) (recAt (finishedWorld chain) 2)
  ∧ ∀ imp lang' fr l,
      fr ∈ FindRulesByImport (index (finishedWorld chain)) imp lang' →
      FindResult.Label fr = label (recAt (finishedWorld chain) 2) →
      l ∈ directEmbeds (index (registered chain)) (recAt (registered chain) 1) →
      IsSelfImport fr l = true.
Proof.
  assert (H1 : AddRules (callsOf chain) (newIndex chain) = Ok (registered chain))
    by by_compute.
  assert (H2 : Finish 4 (registered chain) = Ok (finishedWorld chain)) by by_compute.
  assert (Hx : exclusive (index (registered chain))) by by_test.
  pose proof chain_acyclic as H3.
  assert (H4 : rtc (embedsSame (index (registered chain))) 2 1).
  { apply rtc_once.
    exists (recAt (registered chain) 2), (recAt (registered chain) 1).
    split; [exact chain_top_embeds_mid |].
    split; [by_compute |]. split; [by_compute | by_compute]. }
  assert (H5 : rules (index (finishedWorld chain)) !! 2
               = Some (recAt (finishedWorld chain) 2)) by by_compute.
  assert (H6 : rules (index (registered chain)) !! 1
               = Some (recAt (registered chain) 1)) by by_compute.
  split; [exact H1 |]. split; [exact H2 |]. split; [exact Hx |].
  split; [exact H3 |]. split; [exact H4 |]. split; [exact H5 |].
  split; [exact H6 |].
  exact (embeds_is_closed_under_same_language_embedding (H := collab) providers []
           (specsOf chain) (labelsOf chain) (callsOf chain) 4
           (registered chain) (finishedWorld chain) 2 1
           (recAt (finishedWorld chain) 2) (recAt (registered chain) 1)
           H1 H2 Hx H3 H4 H5 H6).
Defined.


End MoreCases.
